(** * CiSE layout: circles, cluster-graph construction, reversal preparation

    A shallow embedding of [src/CiSE/CiSECircle.js] and
    [src/CiSE/CiSELayout.js].  JavaScript numbers that hold coordinates,
    sizes, angles and averages are IEEE binary64 values ([float]); circular
    indices and cluster ids are integers ([Z]); objects with identity (nodes,
    circles) live in a store and are named by their allocation index. *)

From Stdlib Require Import ZArith Floats Ascii Sorted.
From stdpp Require Import base option list gmap strings.

(** ** Numbers *)

Module Num.
Local Open Scope Z_scope.

(** An integer-valued JavaScript number as a binary64 value (exact while the
    magnitude stays below 2^53). *)
Definition ofZ (z : Z) : float :=
  if z <? 0 then PrimFloat.opp (PrimFloat.of_uint63 (Uint63.of_Z (- z)))
  else PrimFloat.of_uint63 (Uint63.of_Z z).

(** [IGeometry.TWO_PI] and [Math.PI]. *)
Definition TWO_PI : float := 0x1.921fb54442d18p+2%float.
Definition PI : float := 0x1.921fb54442d18p+1%float.

(** [n % d] on numbers (the remainder of ECMAScript): the dividend minus the
    divisor times the quotient truncated to an integer, computed exactly and
    with the sign of the dividend.  A dividend smaller in magnitude than the
    divisor is its own remainder, the quotient being truncated to zero (so it
    is for an infinite divisor, and for a zero dividend with a divisor other
    than zero); else a dividend that is not finite, or a divisor that is zero
    or not a number, gives NaN. *)
Definition rem (n d : float) : float :=
  if PrimFloat.ltb (PrimFloat.abs n) (PrimFloat.abs d) then n
  else
    match Prim2SF n, Prim2SF d with
    | S754_finite sn mn en, S754_finite _ md ed =>
        let e := Z.min en ed in
        match Z.rem (Z.pos mn * 2 ^ (en - e)) (Z.pos md * 2 ^ (ed - e)) with
        | Z.pos r => SF2Prim (S754_finite sn r e)
        | _ => if sn then PrimFloat.neg_zero else PrimFloat.zero
        end
    | _, _ => PrimFloat.nan
    end.

(** [parseFloat(x)] on a number [x]: the number is printed and read back,
    which only loses the sign of a zero. *)
Definition parseFloat (x : float) : float :=
  if PrimFloat.eqb x 0%float then 0%float else x.

End Num.

(** ** [Array.prototype.sort()] without a comparator

    The elements are converted to strings and ordered by their code units. *)

Module JsSort.
Local Open Scope Z_scope.

Definition digitChar (d : Z) : ascii :=
  Ascii.ascii_of_nat (48 + Z.to_nat d).

(** Decimal digits of a non-negative integer, most significant first. *)
Fixpoint digits (fuel : nat) (z : Z) (acc : list ascii) : list ascii :=
  match fuel with
  | O => acc
  | S fuel' =>
      let acc' := digitChar (z mod 10) :: acc in
      if z / 10 =? 0 then acc' else digits fuel' (z / 10) acc'
  end.

(** [ToString] of an integer-valued number. *)
Definition toString (z : Z) : list ascii :=
  if z <? 0 then Ascii.ascii_of_nat 45 :: digits (Z.to_nat (- z)) (- z) []
  else digits (S (Z.to_nat z)) z [].

(** [a] sorts strictly before [b]: comparison of code units, a proper prefix
    first. *)
Fixpoint strLt (a b : list ascii) : bool :=
  match a, b with
  | [], [] => false
  | [], _ :: _ => true
  | _ :: _, [] => false
  | x :: a', y :: b' =>
      let cx := Ascii.nat_of_ascii x in
      let cy := Ascii.nat_of_ascii y in
      if (cx <? cy)%nat then true
      else if (cy <? cx)%nat then false
      else strLt a' b'
  end.

(** Stable insertion of [x], which stood before the elements of [l]: behind
    the elements that sort strictly before it. *)
Fixpoint insertSorted (x : Z) (l : list Z) : list Z :=
  match l with
  | [] => [x]
  | y :: l' =>
      if strLt (toString y) (toString x) then y :: insertSorted x l'
      else x :: y :: l'
  end.

(** [arr.sort()] for an array of integer-valued numbers. *)
Definition sort (l : list Z) : list Z :=
  foldr insertSorted [] l.

End JsSort.

(** ** The circular-mean heuristic of [reorderIncidentEdges]
    (CiSELayout.js, lines 604-686) *)

Module CircularMean.
Local Open Scope Z_scope.

(** The variables of the largest-gap scan. *)
Record GapScan := {
  edgeIndex : option Z;          (* null before the first element *)
  firstEdgeIndex : Z;
  edgeIndexPos : Z;
  largestGap : Z;
  indexLargestGapStart : Z
}.

Definition scanInit : GapScan :=
  {| edgeIndex := None; firstEdgeIndex := -1; edgeIndexPos := -1;
     largestGap := -1; indexLargestGapStart := -1 |}.

(** One turn of the loop over [edgeIndices] (lines 628-647). *)
Definition scanStep (s : GapScan) (cur : Z) : GapScan :=
  let prevEdgeIndex := edgeIndex s in
  let pos := edgeIndexPos s + 1 in
  match prevEdgeIndex with
  | Some prev =>
      let gap := cur - prev in
      if largestGap s <? gap then
        {| edgeIndex := Some cur; firstEdgeIndex := firstEdgeIndex s;
           edgeIndexPos := pos; largestGap := gap;
           indexLargestGapStart := pos - 1 |}
      else
        {| edgeIndex := Some cur; firstEdgeIndex := firstEdgeIndex s;
           edgeIndexPos := pos; largestGap := largestGap s;
           indexLargestGapStart := indexLargestGapStart s |}
  | None =>
      {| edgeIndex := Some cur; firstEdgeIndex := cur;
         edgeIndexPos := pos; largestGap := largestGap s;
         indexLargestGapStart := indexLargestGapStart s |}
  end.

(** The wrap-around gap from the last index back to the first
    (lines 649-653). *)
Definition scanWrap (mod_ : Z) (s : GapScan) : GapScan :=
  match edgeIndex s with
  | Some last =>
      if negb (firstEdgeIndex s =? -1)
         && (largestGap s <? firstEdgeIndex s + mod_ - last) then
        {| edgeIndex := edgeIndex s; firstEdgeIndex := firstEdgeIndex s;
           edgeIndexPos := edgeIndexPos s;
           largestGap := firstEdgeIndex s + mod_ - last;
           indexLargestGapStart := edgeIndexPos s |}
      else s
  | None => s
  end.

Definition largestGapScan (mod_ : Z) (sorted : list Z) : GapScan :=
  scanWrap mod_ (foldl scanStep scanInit sorted).

(** Lines 658-669: every index behind the start of the largest gap is
    lowered by [mod]. *)
Definition adjustIndices (mod_ : Z) (sorted : list Z) : list Z :=
  let s := largestGapScan mod_ sorted in
  if 0 <? largestGap s then
    imap (fun k idx =>
            if indexLargestGapStart s + 1 <=? Z.of_nat k then idx - mod_
            else idx) sorted
  else sorted.

(** Lines 672-686 on the adjusted indices. *)
Definition averageOf (mod_ : Z) (adjusted : list Z) : float :=
  let totalIndex := foldl Z.add 0 adjusted in
  let edgeCount := Z.of_nat (length adjusted) in
  let averageIndex := PrimFloat.div (Num.ofZ totalIndex) (Num.ofZ edgeCount) in
  if PrimFloat.ltb averageIndex 0%float
  then PrimFloat.add averageIndex (Num.ofZ mod_)
  else averageIndex.

(** The indices as the largest-gap scan reads them: after
    [edgeIndices.sort()]. *)
Definition sortedIndices (edgeIndices : list Z) : list Z :=
  JsSort.sort edgeIndices.

(** The representative index stored in [indexMapping] for one reduced edge
    whose underlying edges sit at [edgeIndices] on a circle of [mod] nodes. *)
Definition averageIndex (mod_ : Z) (edgeIndices : list Z) : float :=
  averageOf mod_ (adjustIndices mod_ (sortedIndices edgeIndices)).

End CircularMean.

(** ** Data model *)

Record PointD := mkPointD { ptX : float; ptY : float }.
Record DimensionD := mkDimensionD { dimWidth : float; dimHeight : float }.
Record RectangleD := mkRectangleD {
  rectX : float; rectY : float; rectWidth : float; rectHeight : float
}.

(** A graph of the graph manager: the root, or the circle at a position of
    [graphs] behind the root. *)
Inductive GraphRef := RootGraph | CircleGraph (k : nat).

#[global] Instance GraphRef_eq_dec : EqDecision GraphRef.
Proof. solve_decision. Defined.

(** [CiSEEdge]: the end nodes (by reference) and the flag set by
    [convertToClusteredGraph]. *)
Record CiSEEdge := mkCiSEEdge {
  source : nat; target : nat; isIntraCluster : bool
}.

(** [CiSEOnCircleNodeExt]: what an on-circle node carries besides a node's
    fields.  The class is not among the sources; its accessors
    [getIndex]/[setIndex] and [getAngle]/[setAngle] are used by them, and both
    fields start at -1. *)
Record CiSEOnCircleNodeExt := mkExt { orderIndex : Z; angle : float }.

(** The two setters of that class, as the layout uses them at lines 398 and
    399.  [setIndex(index)] stores the index as it is given. *)
Definition setIndex (index : Z) (ext : CiSEOnCircleNodeExt)
  : CiSEOnCircleNodeExt :=
  mkExt index (angle ext).

(** [setAngle(angle)] stores the angle less its whole turns:
    [angle % IGeometry.TWO_PI], with one turn added when that is negative. *)
Definition setAngle (a : float) (ext : CiSEOnCircleNodeExt)
  : CiSEOnCircleNodeExt :=
  let r := Num.rem a Num.TWO_PI in
  mkExt (orderIndex ext)
    (if PrimFloat.ltb r 0%float then PrimFloat.add r Num.TWO_PI else r).

(** [CiSENode] (an [LNode]): [ID] and [clusterID] are null until set, [owner]
    is the graph holding the node, [child] the graph the node is the parent
    of, [incidentEdges] is the node's [edges] array. *)
Record CiSENode := mkCiSENode {
  ID : option string;
  clusterID : option Z;
  rect : RectangleD;
  owner : option GraphRef;
  child : option GraphRef;
  onCircleNodeExt : option CiSEOnCircleNodeExt;
  incidentEdges : list CiSEEdge
}.

(** [LGraph]: parent node, member nodes, edges between its members, margin. *)
Record LGraph := mkLGraph {
  parent : option nat;
  nodes : list nat;
  edges : list CiSEEdge;
  margin : float
}.

(** [CiSECircle] extends [LGraph] ([base]) by the fields of its constructor
    (CiSECircle.js, lines 19-64). *)
Record CiSECircle := mkCiSECircle {
  base : LGraph;
  intraClusterEdges : option (list CiSEEdge);
  interClusterEdges : option (list CiSEEdge);
  inNodes : list nat;
  outNodes : list nat;
  onCircleNodes : list nat;
  inCircleNodes : list nat;
  radius : float;
  orderMatrix : option (list (list (option bool)));
  mayBeReversed : bool
}.

(** [CiSEGraphManager]: the node objects ([heap], a node reference is its
    position), the root graph, the circles in the order they were added, the
    inter-graph edges ([edges] of the manager), the memoized [allNodes] and
    [allEdges], and the two node lists kept for the later steps. *)
Record CiSEGraphManager := mkGM {
  heap : list CiSENode;
  rootGraph : LGraph;
  circles : list CiSECircle;
  gmEdges : list CiSEEdge;
  allNodes : option (list nat);
  allEdges : option (list CiSEEdge);
  gmOnCircleNodes : list nat;
  nonOnCircleNodes : list nat
}.

(** *** Field updates *)

Definition setLocation (x y : float) (nd : CiSENode) : CiSENode :=
  mkCiSENode (ID nd) (clusterID nd)
    (mkRectangleD x y (rectWidth (rect nd)) (rectHeight (rect nd)))
    (owner nd) (child nd) (onCircleNodeExt nd) (incidentEdges nd).

Definition setWidth (w : float) (nd : CiSENode) : CiSENode :=
  mkCiSENode (ID nd) (clusterID nd)
    (mkRectangleD (rectX (rect nd)) (rectY (rect nd)) w (rectHeight (rect nd)))
    (owner nd) (child nd) (onCircleNodeExt nd) (incidentEdges nd).

Definition setHeight (h : float) (nd : CiSENode) : CiSENode :=
  mkCiSENode (ID nd) (clusterID nd)
    (mkRectangleD (rectX (rect nd)) (rectY (rect nd)) (rectWidth (rect nd)) h)
    (owner nd) (child nd) (onCircleNodeExt nd) (incidentEdges nd).

Definition setId (i : string) (nd : CiSENode) : CiSENode :=
  mkCiSENode (Some i) (clusterID nd) (rect nd) (owner nd) (child nd)
    (onCircleNodeExt nd) (incidentEdges nd).

Definition setClusterId (c : Z) (nd : CiSENode) : CiSENode :=
  mkCiSENode (ID nd) (Some c) (rect nd) (owner nd) (child nd)
    (onCircleNodeExt nd) (incidentEdges nd).

Definition setOwner (g : GraphRef) (nd : CiSENode) : CiSENode :=
  mkCiSENode (ID nd) (clusterID nd) (rect nd) (Some g) (child nd)
    (onCircleNodeExt nd) (incidentEdges nd).

Definition setChild (g : GraphRef) (nd : CiSENode) : CiSENode :=
  mkCiSENode (ID nd) (clusterID nd) (rect nd) (owner nd) (Some g)
    (onCircleNodeExt nd) (incidentEdges nd).

Definition setAsOnCircleNode (nd : CiSENode) : CiSENode :=
  mkCiSENode (ID nd) (clusterID nd) (rect nd) (owner nd) (child nd)
    (Some (mkExt (-1) (-1)%float)) (incidentEdges nd).

Definition pushIncidentEdge (e : CiSEEdge) (nd : CiSENode) : CiSENode :=
  mkCiSENode (ID nd) (clusterID nd) (rect nd) (owner nd) (child nd)
    (onCircleNodeExt nd) (incidentEdges nd ++ [e]).

Definition getLocation (nd : CiSENode) : PointD :=
  mkPointD (rectX (rect nd)) (rectY (rect nd)).

Definition getWidth (nd : CiSENode) : float := rectWidth (rect nd).
Definition getHeight (nd : CiSENode) : float := rectHeight (rect nd).

Definition setParent (p : nat) (g : LGraph) : LGraph :=
  mkLGraph (Some p) (nodes g) (edges g) (margin g).

Definition pushNode (n : nat) (g : LGraph) : LGraph :=
  mkLGraph (parent g) (nodes g ++ [n]) (edges g) (margin g).

Definition pushEdge (e : CiSEEdge) (g : LGraph) : LGraph :=
  mkLGraph (parent g) (nodes g) (edges g ++ [e]) (margin g).

Definition setMargin (m : float) (g : LGraph) : LGraph :=
  mkLGraph (parent g) (nodes g) (edges g) m.

Definition setBase (f : LGraph -> LGraph) (c : CiSECircle) : CiSECircle :=
  mkCiSECircle (f (base c)) (intraClusterEdges c) (interClusterEdges c)
    (inNodes c) (outNodes c) (onCircleNodes c) (inCircleNodes c) (radius c)
    (orderMatrix c) (mayBeReversed c).

Definition setIntraClusterEdges (l : list CiSEEdge) (c : CiSECircle) : CiSECircle :=
  mkCiSECircle (base c) (Some l) (interClusterEdges c)
    (inNodes c) (outNodes c) (onCircleNodes c) (inCircleNodes c) (radius c)
    (orderMatrix c) (mayBeReversed c).

Definition setInterClusterEdges (l : list CiSEEdge) (c : CiSECircle) : CiSECircle :=
  mkCiSECircle (base c) (intraClusterEdges c) (Some l)
    (inNodes c) (outNodes c) (onCircleNodes c) (inCircleNodes c) (radius c)
    (orderMatrix c) (mayBeReversed c).

Definition setInNodes (l : list nat) (c : CiSECircle) : CiSECircle :=
  mkCiSECircle (base c) (intraClusterEdges c) (interClusterEdges c)
    l (outNodes c) (onCircleNodes c) (inCircleNodes c) (radius c)
    (orderMatrix c) (mayBeReversed c).

Definition setOutNodes (l : list nat) (c : CiSECircle) : CiSECircle :=
  mkCiSECircle (base c) (intraClusterEdges c) (interClusterEdges c)
    (inNodes c) l (onCircleNodes c) (inCircleNodes c) (radius c)
    (orderMatrix c) (mayBeReversed c).

Definition setOnCircleNodes (l : list nat) (c : CiSECircle) : CiSECircle :=
  mkCiSECircle (base c) (intraClusterEdges c) (interClusterEdges c)
    (inNodes c) (outNodes c) l (inCircleNodes c) (radius c)
    (orderMatrix c) (mayBeReversed c).

Definition setOrderMatrix (m : list (list (option bool))) (c : CiSECircle) : CiSECircle :=
  mkCiSECircle (base c) (intraClusterEdges c) (interClusterEdges c)
    (inNodes c) (outNodes c) (onCircleNodes c) (inCircleNodes c) (radius c)
    (Some m) (mayBeReversed c).

Definition setHeap (h : list CiSENode) (gm : CiSEGraphManager) : CiSEGraphManager :=
  mkGM h (rootGraph gm) (circles gm) (gmEdges gm) (allNodes gm) (allEdges gm)
    (gmOnCircleNodes gm) (nonOnCircleNodes gm).

Definition setRootGraph (g : LGraph) (gm : CiSEGraphManager) : CiSEGraphManager :=
  mkGM (heap gm) g (circles gm) (gmEdges gm) (allNodes gm) (allEdges gm)
    (gmOnCircleNodes gm) (nonOnCircleNodes gm).

Definition setCircles (cs : list CiSECircle) (gm : CiSEGraphManager) : CiSEGraphManager :=
  mkGM (heap gm) (rootGraph gm) cs (gmEdges gm) (allNodes gm) (allEdges gm)
    (gmOnCircleNodes gm) (nonOnCircleNodes gm).

Definition setGmEdges (es : list CiSEEdge) (gm : CiSEGraphManager) : CiSEGraphManager :=
  mkGM (heap gm) (rootGraph gm) (circles gm) es (allNodes gm) (allEdges gm)
    (gmOnCircleNodes gm) (nonOnCircleNodes gm).

Definition setAllNodes (l : list nat) (gm : CiSEGraphManager) : CiSEGraphManager :=
  mkGM (heap gm) (rootGraph gm) (circles gm) (gmEdges gm) (Some l) (allEdges gm)
    (gmOnCircleNodes gm) (nonOnCircleNodes gm).

Definition setAllEdges (l : list CiSEEdge) (gm : CiSEGraphManager) : CiSEGraphManager :=
  mkGM (heap gm) (rootGraph gm) (circles gm) (gmEdges gm) (allNodes gm) (Some l)
    (gmOnCircleNodes gm) (nonOnCircleNodes gm).

Definition setGmOnCircleNodes (l : list nat) (gm : CiSEGraphManager) : CiSEGraphManager :=
  mkGM (heap gm) (rootGraph gm) (circles gm) (gmEdges gm) (allNodes gm) (allEdges gm)
    l (nonOnCircleNodes gm).

Definition setNonOnCircleNodes (l : list nat) (gm : CiSEGraphManager) : CiSEGraphManager :=
  mkGM (heap gm) (rootGraph gm) (circles gm) (gmEdges gm) (allNodes gm) (allEdges gm)
    (gmOnCircleNodes gm) l.

(** The node object behind a reference is changed in place. *)
Definition updNode (n : nat) (f : CiSENode -> CiSENode) (gm : CiSEGraphManager)
  : CiSEGraphManager :=
  setHeap (alter f n (heap gm)) gm.

Definition updCircle (k : nat) (f : CiSECircle -> CiSECircle) (gm : CiSEGraphManager)
  : CiSEGraphManager :=
  setCircles (alter f k (circles gm)) gm.

(** The [LGraph] part of a graph is changed in place. *)
Definition updGraph (g : GraphRef) (f : LGraph -> LGraph) (gm : CiSEGraphManager)
  : CiSEGraphManager :=
  match g with
  | RootGraph => setRootGraph (f (rootGraph gm)) gm
  | CircleGraph k => updCircle k (setBase f) gm
  end.

Definition getGraph (gm : CiSEGraphManager) (g : GraphRef) : option LGraph :=
  match g with
  | RootGraph => Some (rootGraph gm)
  | CircleGraph k => base <$> circles gm !! k
  end.

(** [HashMap.put] of the layout base library: the value is stored unless the
    key is already there.  Objects are keys by their identity. *)
Definition hashMapPut `{Countable K} {V : Type} (k : K) (v : V)
  (m : gmap K V) : gmap K V :=
  match m !! k with
  | Some _ => m
  | None => <[k := v]> m
  end.

(** *** Plain objects as tables

    [idToLNode] is a plain object (line 175), and so is the [map] in which a
    [HashMap] of the layout base library keeps its values.  Such a table
    inherits the members of [Object.prototype]: where nothing was stored
    under the name of one of them, reading the name yields the inherited
    member, which is neither undefined nor null.  The name [__proto__] is
    the prototype of the table: an assignment to it stores no property but
    makes the assigned object the prototype, which reading the name yields
    from then on, and behind which the names that the table does not hold
    are looked up.

    A table is kept as the finite map of what was assigned, with the object
    assigned to [__proto__], if any, under that name. *)
Definition objectPrototypeNames : list string :=
  ["constructor"; "__defineGetter__"; "__defineSetter__"; "hasOwnProperty";
   "__lookupGetter__"; "__lookupSetter__"; "isPrototypeOf";
   "propertyIsEnumerable"; "toString"; "valueOf"; "__proto__";
   "toLocaleString"].

(** What reading [table[key]] yields: a value that was assigned; an
    inherited member, for the name of a member of [Object.prototype]; for
    another name, the property of that name of the object [p] made the
    prototype of the table (undefined, if it has none), or undefined. *)
Inductive TableRead (V : Type) : Type :=
  | Entry (v : V)
  | Inherited
  | OfPrototype (p : V)
  | Undefined.
Arguments Entry {V} v.
Arguments Inherited {V}.
Arguments OfPrototype {V} p.
Arguments Undefined {V}.

(** [table[key]]. *)
Definition tableGet {V : Type} (table : gmap string V) (key : string)
  : TableRead V :=
  match table !! key with
  | Some v => Entry v
  | None =>
      if bool_decide (key ∈ objectPrototypeNames) then Inherited
      else match table !! "__proto__" with
           | Some p => OfPrototype p
           | None => Undefined
           end
  end.

(** [table[key] = v]. *)
Definition tableSet {V : Type} (key : string) (v : V) (table : gmap string V)
  : gmap string V :=
  <[key := v]> table.

(** What was read, as the object that the program expects there: the next
    step calls one of its methods ([layoutDimensions] at line 206,
    [getClusterId] at lines 257 and 258), which throws on undefined and on
    an inherited member, neither of which has such a method; so it does on
    a property of a node made the prototype, none of which is a node. *)
Definition entryOf {V : Type} (r : TableRead V) : option V :=
  match r with
  | Entry v => Some v
  | _ => None
  end.

(** [HashMap.put] with a string as key: [contains] tests [map[key] != null],
    which holds from the start of the names of the members of
    [Object.prototype], so that nothing is ever stored under them. *)
Definition hashMapPutString {V : Type} (key : string) (v : V)
  (m : gmap string V) : gmap string V :=
  if bool_decide (key ∈ objectPrototypeNames) then m else hashMapPut key v m.

(** [HashMap.get] with a string as key: [map[key]]. *)
Definition hashMapGet {V : Type} (m : gmap string V) (key : string)
  : TableRead V :=
  tableGet m key.

(** A loop whose body may throw: the state is threaded through the elements
    in order, and the first failure ends the run. *)
Fixpoint forEachM {A S : Type} (f : S -> A -> option S) (l : list A) (s : S)
  : option S :=
  match l with
  | [] => Some s
  | a :: l' => s' ← f s a; forEachM f l' s'
  end.

(** ** [CiSECircle] (CiSECircle.js) *)

(** [LayoutConstants.DEFAULT_GRAPH_MARGIN] of the layout base library. *)
Definition DEFAULT_GRAPH_MARGIN : float := 15%float.

(** [new LGraph(null, graphMgr, null)]. *)
Definition newLGraph : LGraph := mkLGraph None [] [] DEFAULT_GRAPH_MARGIN.

(** The constructor (lines 19-64). *)
Definition newCiSECircle : CiSECircle :=
  mkCiSECircle newLGraph None None [] [] [] [] 0%float None true.

Definition setRadius (r : float) (c : CiSECircle) : CiSECircle :=
  mkCiSECircle (base c) (intraClusterEdges c) (interClusterEdges c)
    (inNodes c) (outNodes c) (onCircleNodes c) (inCircleNodes c) r
    (orderMatrix c) (mayBeReversed c).

Definition getRadius (c : CiSECircle) : float := radius c.

(** Lines 112-114. *)
Definition setMayNotBeReversed (c : CiSECircle) : CiSECircle :=
  mkCiSECircle (base c) (intraClusterEdges c) (interClusterEdges c)
    (inNodes c) (outNodes c) (onCircleNodes c) (inCircleNodes c) (radius c)
    (orderMatrix c) false.

(** [Number.MIN_SAFE_INTEGER]. *)
Definition MIN_SAFE_INTEGER : float := Num.ofZ (-9007199254740991).

(** One turn of the loop of [calculateParentNodeDimension] (lines 130-141). *)
Definition maxDimensionStep (h : list CiSENode) (mx : float) (n : nat)
  : option float :=
  nd ← h !! n;
  let mx := if PrimFloat.ltb mx (getWidth nd) then getWidth nd else mx in
  let mx := if PrimFloat.ltb mx (getHeight nd) then getHeight nd else mx in
  Some mx.

(** [calculateParentNodeDimension] (lines 124-147) of the circle at [k]. *)
Definition calculateParentNodeDimension (k : nat) (gm : CiSEGraphManager)
  : option CiSEGraphManager :=
  c ← circles gm !! k;
  maxOnCircleNodeDimension ←
    forEachM (maxDimensionStep (heap gm)) (onCircleNodes c) MIN_SAFE_INTEGER;
  let dimension :=
    PrimFloat.add
      (PrimFloat.mul 2%float (PrimFloat.add (radius c) (margin (base c))))
      maxOnCircleNodeDimension in
  parentNode ← parent (base c);
  Some (updNode parentNode (setWidth dimension)
          (updNode parentNode (setHeight dimension) gm)).

(** Modelled from the spec: [CiSEOnCircleNodeExt.getInterClusterEdges] is not
    among the sources; the extension record holds "the list of inter-cluster
    edges incident to" its node (spec, section 3). *)
Definition extInterClusterEdges (nd : CiSENode) : list CiSEEdge :=
  filter (fun e => isIntraCluster e = false) (incidentEdges nd).

(** The body of the [forEach] in [getInterClusterEdges] (lines 160-165). *)
Definition collectInterClusterEdges (h : list CiSENode) (acc : list CiSEEdge)
  (n : nat) : option (list CiSEEdge) :=
  nd ← h !! n;
  _ ← onCircleNodeExt nd;
  Some (acc ++ extInterClusterEdges nd).

(** [getInterClusterEdges] (lines 153-169): the value returned and the circle
    with the memo filled in. *)
Definition getInterClusterEdges (h : list CiSENode) (c : CiSECircle)
  : option (list CiSEEdge * CiSECircle) :=
  match interClusterEdges c with
  | Some l => Some (l, c)
  | None =>
      l ← forEachM (collectInterClusterEdges h) (outNodes c) [];
      Some (l, setInterClusterEdges l c)
  end.

(** [getIntraClusterEdges] (lines 174-189): the value returned ([None] for
    null) and the circle with the memo filled in. *)
Definition getIntraClusterEdges (c : CiSECircle)
  : option (list CiSEEdge) * CiSECircle :=
  let c' :=
    match intraClusterEdges c with
    | None =>
        setIntraClusterEdges
          (filter (fun e => isIntraCluster e = true) (edges (base c))) c
    | Some _ => c
    end in
  (interClusterEdges c', c').

(** The angle of the on-circle node at position [i]. *)
Definition getAngleAt (h : list CiSENode) (c : CiSECircle) (i : nat)
  : option float :=
  n ← onCircleNodes c !! i;
  nd ← h !! n;
  ext ← onCircleNodeExt nd;
  Some (angle ext).

(** [m[i][j] = v]. *)
Definition setCell (i j : nat) (v : bool) (m : list (list (option bool)))
  : list (list (option bool)) :=
  alter (fun row => <[j := Some v]> row) i m.

(** Lines 208-214: the angle difference with one turn added when negative. *)
Definition angleDiff (ai aj : float) : float :=
  let d := PrimFloat.sub aj ai in
  if PrimFloat.ltb d 0%float then PrimFloat.add d Num.TWO_PI else d.

(** The body of the inner loop of [computeOrderMatrix] (lines 207-226). *)
Definition orderCell (h : list CiSENode) (c : CiSECircle) (i : nat)
  (m : list (list (option bool))) (j : nat)
  : option (list (list (option bool))) :=
  if (i <? j)%nat then
    aj ← getAngleAt h c j;
    ai ← getAngleAt h c i;
    if PrimFloat.leb (angleDiff ai aj) Num.PI
    then Some (setCell j i false (setCell i j true m))
    else Some (setCell j i true (setCell i j false m))
  else Some m.

(** [computeOrderMatrix] (lines 196-231). *)
Definition computeOrderMatrix (h : list CiSENode) (c : CiSECircle)
  : option CiSECircle :=
  let N := length (onCircleNodes c) in
  let m0 := replicate N (replicate N None) in
  m ← forEachM (fun m i => forEachM (orderCell h c i) (seq 0 N) m) (seq 0 N) m0;
  Some (setOrderMatrix m c).

(** ** Graphs and the graph manager (layout base library) *)

(** A new object takes the next free reference. *)
Definition alloc (nd : CiSENode) (gm : CiSEGraphManager)
  : nat * CiSEGraphManager :=
  (length (heap gm), setHeap (heap gm ++ [nd]) gm).

(** [graph.add(node)]: the node joins the graph's nodes and is owned by it. *)
Definition LGraph_addNode (g : GraphRef) (n : nat) (gm : CiSEGraphManager)
  : CiSEGraphManager :=
  updGraph g (pushNode n) (updNode n (setOwner g) gm).

(** [graph.add(edge, source, target)]: both ends must be nodes of the graph
    and owned by it; the edge joins the graph's edges and the incident edges
    of its ends. *)
Definition LGraph_addEdge (g : GraphRef) (e : CiSEEdge) (gm : CiSEGraphManager)
  : option CiSEGraphManager :=
  lg ← getGraph gm g;
  s ← heap gm !! source e;
  t ← heap gm !! target e;
  if bool_decide (source e ∈ nodes lg ∧ target e ∈ nodes lg)
     && bool_decide (owner s = owner t ∧ owner s = Some g) then
    let gm := updGraph g (pushEdge e) gm in
    let gm := updNode (source e) (pushIncidentEdge e) gm in
    Some (if decide (target e = source e) then gm
          else updNode (target e) (pushIncidentEdge e) gm)
  else None.

(** [graphManager.add(graph, parentNode)]: the graph joins [graphs] and is
    linked with its parent node. *)
Definition LGraphManager_addGraph (c : CiSECircle) (p : nat)
  (gm : CiSEGraphManager) : CiSEGraphManager :=
  let k := length (circles gm) in
  updNode p (setChild (CircleGraph k))
    (setCircles (circles gm ++ [setBase (setParent p) c]) gm).

(** [graphManager.add(edge, source, target)]: an edge whose ends have one
    owner goes to that graph, any other becomes an inter-graph edge of the
    manager. *)
Definition LGraphManager_addEdge (e : CiSEEdge) (gm : CiSEGraphManager)
  : option CiSEGraphManager :=
  s ← heap gm !! source e;
  t ← heap gm !! target e;
  sourceGraph ← owner s;
  targetGraph ← owner t;
  if decide (sourceGraph = targetGraph) then LGraph_addEdge sourceGraph e gm
  else
    Some (updNode (target e) (pushIncidentEdge e)
            (updNode (source e) (pushIncidentEdge e)
               (setGmEdges (gmEdges gm ++ [e]) gm))).

(** [getAllNodes()]: the nodes of every graph, root first; memoized. *)
Definition getAllNodes (gm : CiSEGraphManager) : list nat * CiSEGraphManager :=
  match allNodes gm with
  | Some l => (l, gm)
  | None =>
      let l := nodes (rootGraph gm) ++ concat ((nodes ∘ base) <$> circles gm) in
      (l, setAllNodes l gm)
  end.

(** [getAllEdges()]: the edges of every graph, root first, then the
    inter-graph edges; memoized. *)
Definition getAllEdges (gm : CiSEGraphManager)
  : list CiSEEdge * CiSEGraphManager :=
  match allEdges gm with
  | Some l => (l, gm)
  | None =>
      let l := edges (rootGraph gm) ++ concat ((edges ∘ base) <$> circles gm)
               ++ gmEdges gm in
      (l, setAllEdges l gm)
  end.

(** [newGraphManager()] followed by [addRoot()], as the caller of the layout
    sets it up: the root graph, and its parent node, which belongs to no
    graph. *)
Definition newGraphManager : CiSEGraphManager :=
  mkGM [mkCiSENode None None (mkRectangleD 0 0 0 0) None (Some RootGraph) None []]
       (mkLGraph (Some 0%nat) [] [] DEFAULT_GRAPH_MARGIN)
       [] [] None None [] [].

(** ** [CiSELayout]: construction of the clustered graph (CiSELayout.js) *)

(** What the layout reads of a Cytoscape node: [data('id')],
    [position('x')], [position('y')] and [layoutDimensions(...)]. *)
Record CyNode := mkCyNode {
  cyId : string; cyX : float; cyY : float; cyW : float; cyH : float
}.

(** What it reads of a Cytoscape edge: [data("source")], [data("target")]. *)
Record CyEdge := mkCyEdge { cySource : string; cyTarget : string }.

(** [newNode(loc, size)] (lines 136-139): without location and size the
    rectangle is the empty one at the origin. *)
Definition newNode (loc : option PointD) (size : option DimensionD) : CiSENode :=
  mkCiSENode None None
    match loc, size with
    | Some l, Some s => mkRectangleD (ptX l) (ptY l) (dimWidth s) (dimHeight s)
    | _, _ => mkRectangleD 0 0 0 0
    end
    None None None [].

(** [newCiSEOnCircleNode(loc, size)] (lines 145-151). *)
Definition newCiSEOnCircleNode (loc : option PointD) (size : option DimensionD)
  : CiSENode :=
  setAsOnCircleNode (newNode loc size).

(** [newEdge(source, target, null)] (lines 156-159) with the flag that
    [convertToClusteredGraph] sets right after. *)
Definition newEdge (s t : nat) (intra : bool) : CiSEEdge :=
  mkCiSEEdge s t intra.

(** The location and size given to a node made from a Cytoscape node
    (lines 210-212 and 240-242). *)
Definition cyLocation (cy : CyNode) : PointD :=
  mkPointD (PrimFloat.sub (cyX cy) (PrimFloat.div (cyW cy) 2%float))
           (PrimFloat.sub (cyY cy) (PrimFloat.div (cyH cy) 2%float)).

Definition cyDimension (cy : CyNode) : DimensionD :=
  mkDimensionD (Num.parseFloat (cyW cy)) (Num.parseFloat (cyH cy)).

(** The construction state: the graph manager and the table [idToLNode]
    (a plain object, read with [tableGet] and assigned with [tableSet]). *)
Definition BuildState : Type := CiSEGraphManager * gmap string nat.

(** Lines 179-182. *)
Definition buildIdToCytoscapeNode (nodes_ : list CyNode) : gmap string CyNode :=
  foldl (fun m n => hashMapPutString (cyId n) n m) ∅ nodes_.

(** The body of [clusters[i].forEach] (lines 204-223) for cluster [i] whose
    circle sits at [k]. *)
Definition addClusterMember (idToCytoscapeNode : gmap string CyNode)
  (i k : nat) (st : BuildState) (nodeID : string) : option BuildState :=
  cytoNode ← entryOf (hashMapGet idToCytoscapeNode nodeID);
  let ciseNode :=
    setClusterId (Z.of_nat i)
      (setId nodeID
         (newCiSEOnCircleNode (Some (cyLocation cytoNode))
                              (Some (cyDimension cytoNode)))) in
  let '(n, gm) := alloc ciseNode st.1 in
  let gm := updCircle k (fun c => setOnCircleNodes (onCircleNodes c ++ [n]) c) gm in
  let gm := LGraph_addNode (CircleGraph k) n gm in
  let gm := updCircle k (fun c => setInNodes (inNodes c ++ [n]) c) gm in
  Some (gm, tableSet nodeID n st.2).

(** One turn of the loop over [clusters] (lines 185-224). *)
Definition addCluster (idToCytoscapeNode : gmap string CyNode)
  (st : BuildState) (ic : nat * list string) : option BuildState :=
  let clusterNode := setClusterId (Z.of_nat ic.1) (newNode None None) in
  let '(p, gm) := alloc clusterNode st.1 in
  let gm := LGraph_addNode RootGraph p gm in
  let k := length (circles gm) in
  let gm := LGraphManager_addGraph newCiSECircle p gm in
  let gm :=
    updGraph (CircleGraph k)
      (fun g => setMargin (PrimFloat.add (margin g) 15%float) g) gm in
  forEachM (addClusterMember idToCytoscapeNode ic.1 k) ic.2 (gm, st.2).

(** One turn of the loop over the nodes that adds the unclustered ones
    (lines 227-250). *)
Definition addUnclustered (clusters : list (list string)) (st : BuildState)
  (cy : CyNode) : BuildState :=
  if existsb (fun cluster => bool_decide (cyId cy ∈ cluster)) clusters then st
  else
    let node :=
      setId (cyId cy)
        (setClusterId (-1)
           (newNode (Some (cyLocation cy)) (Some (cyDimension cy)))) in
    let '(n, gm) := alloc node st.1 in
    let gm := LGraph_addNode RootGraph n gm in
    (gm, tableSet (cyId cy) n st.2).

(** Line 267: the test that makes an edge an intra-cluster one. *)
Definition sameCluster (sourceClusterID targetClusterID : option Z) : bool :=
  bool_decide (sourceClusterID = targetClusterID)
  && negb (bool_decide (sourceClusterID = Some (-1)%Z))
  && negb (bool_decide (targetClusterID = Some (-1)%Z)).

(** Lines 254-268 and 272: the edge object made for an input edge; [None]
    when [idToLNode] yields no node for an end (reading its cluster id
    throws), [Some None] for a self-loop, which makes no edge. *)
Definition newCiseEdge (gm : CiSEGraphManager) (idToLNode : gmap string nat)
  (e : CyEdge) : option (option CiSEEdge) :=
  sourceNode ← entryOf (tableGet idToLNode (cySource e));
  targetNode ← entryOf (tableGet idToLNode (cyTarget e));
  s ← heap gm !! sourceNode;
  t ← heap gm !! targetNode;
  if decide (sourceNode = targetNode) then Some None
  else Some (Some (newEdge sourceNode targetNode
                     (sameCluster (clusterID s) (clusterID t)))).

(** Lines 269 and 273: where the edge is added. *)
Definition addCiseEdge (ciseEdge : CiSEEdge) (gm : CiSEGraphManager)
  : option CiSEGraphManager :=
  if isIntraCluster ciseEdge then
    s ← heap gm !! source ciseEdge;
    g ← owner s;
    LGraph_addEdge g ciseEdge gm
  else LGraphManager_addEdge ciseEdge gm.

(** One turn of the loop over the edges (lines 253-275). *)
Definition addEdge (st : BuildState) (e : CyEdge) : option BuildState :=
  made ← newCiseEdge st.1 st.2 e;
  match made with
  | None => Some st
  | Some ciseEdge => gm ← addCiseEdge ciseEdge st.1; Some (gm, st.2)
  end.

(** Lines 278-291. *)
Definition populateReferences (gm : CiSEGraphManager) : CiSEGraphManager :=
  let '(all, gm) := getAllNodes gm in
  let isOnCircle n :=
    match heap gm !! n with
    | Some nd => bool_decide (is_Some (onCircleNodeExt nd))
    | None => false
    end in
  setNonOnCircleNodes (filter (fun n => isOnCircle n = false) all)
    (setGmOnCircleNodes (filter (fun n => isOnCircle n = true) all) gm).

(** [array.indexOf(x)]: the first position holding [x]. *)
Definition indexOf (x : nat) (l : list nat) : option nat :=
  fst <$> list_find (fun y => y = x) l.

(** Lines 304-313 (and 315-324): an end with a cluster id other than -1 is
    taken out of the in-nodes of its owner and appended to the out-nodes,
    unless it is no longer among the in-nodes. *)
Definition moveToOutNodes (n : nat) (gm : CiSEGraphManager)
  : option CiSEGraphManager :=
  nd ← heap gm !! n;
  if bool_decide (clusterID nd = Some (-1)%Z) then Some gm
  else
    g ← owner nd;
    match g with
    | RootGraph => None
    | CircleGraph k =>
        circle ← circles gm !! k;
        match indexOf n (inNodes circle) with
        | Some index =>
            Some (updCircle k
                    (fun c => setOutNodes (outNodes c ++ [n])
                                (setInNodes (delete index (inNodes c)) c)) gm)
        | None => Some gm
        end
    end.

(** The body of [graphManager.edges.forEach] (lines 294-325). *)
Definition determineOutNodes (gm : CiSEGraphManager) (e : CiSEEdge)
  : option CiSEGraphManager :=
  gm ← moveToOutNodes (source e) gm;
  moveToOutNodes (target e) gm.

(** [convertToClusteredGraph(nodes, edges, clusters)] (lines 172-328) on the
    graph manager of the layout; the result is the manager as the method
    leaves it and the returned [idToLNode]. *)
Definition convertToClusteredGraph (gm : CiSEGraphManager)
  (nodes_ : list CyNode) (edges_ : list CyEdge) (clusters : list (list string))
  : option BuildState :=
  let idToCytoscapeNode := buildIdToCytoscapeNode nodes_ in
  st ← forEachM (addCluster idToCytoscapeNode)
         (imap (fun i c => (i, c)) clusters) (gm, ∅);
  let st := foldl (addUnclustered clusters) st nodes_ in
  st ← forEachM addEdge edges_ st;
  let gm := populateReferences st.1 in
  gm ← forEachM determineOutNodes (gmEdges gm) gm;
  Some (gm, st.2).

(** ** The layout object and its steps (CiSELayout.js) *)

(** The layout: its graph manager and the [step] and [phase] fields.  The
    step and phase constants are fields of the instance (lines 93-108); the
    methods read them from the constructor function, which carries none, so
    every such read yields undefined ([None]). *)
Record CiSELayout := mkCiSELayout {
  graphManager : CiSEGraphManager;
  step : option Z;
  phase : option Z
}.

Definition STEP_NOT_STARTED : option Z := None.
Definition STEP_1 : option Z := None.
Definition STEP_2 : option Z := None.
Definition PHASE_NOT_STARTED : option Z := None.
Definition PHASE_OTHER : option Z := None.

(** The constructor (lines 46-109) with the graph manager the caller
    installs. *)
Definition newCiSELayout (gm : CiSEGraphManager) : CiSELayout :=
  mkCiSELayout gm STEP_NOT_STARTED PHASE_NOT_STARTED.

(** A node handed to one of the delegate layouts: location, width, height. *)
Record DelegateNode := mkDelegateNode {
  dLocation : PointD; dWidth : float; dHeight : float
}.

(** What is read back from the circular layout of one cluster: per node its
    location, index and angle; the radius of the circle; the location of the
    parent of the delegate circle. *)
Record AVSDFResult := mkAVSDFResult {
  avsdfLocation : nat -> PointD;
  avsdfIndex : nat -> Z;
  avsdfAngle : nat -> float;
  avsdfRadius : float;
  avsdfParentLocation : PointD
}.

(** Stable insertion by ascending circular index: [clusteredNodes.sort] with
    the comparator of lines 404-406. *)
Fixpoint insertByIndex (x : nat * Z) (l : list (nat * Z)) : list (nat * Z) :=
  match l with
  | [] => [x]
  | y :: l' => if (y.2 <? x.2)%Z then y :: insertByIndex x l' else x :: y :: l'
  end.

Definition sortByIndex (l : list (nat * Z)) : list (nat * Z) :=
  foldr insertByIndex [] l.

(** The transient tables of [doStep2] (lines 430-438 and 479-482). *)
Record Step2Tables := mkStep2Tables {
  newCoSENodes : list DelegateNode;
  newCoSEEdges : list (nat * nat);
  ciseNodeToCoseNode : gmap nat nat;
  nodePairs : gmap (nat * nat) nat;
  coseEdgeToCiseEdges : list (list CiSEEdge)
}.

(** One turn of the loop that makes the nodes of the reduced graph
    (lines 453-476); a node with a child is made 1.2 times as large. *)
Definition addCoSENode (h : list CiSENode) (tb : Step2Tables) (ciseNode : nat)
  : option Step2Tables :=
  nd ← h !! ciseNode;
  let i := length (newCoSENodes tb) in
  let w := getWidth nd in
  let ht := getHeight nd in
  let '(w, ht) :=
    match child nd with
    | Some _ => (PrimFloat.mul 0x1.3333333333333p+0%float w,
                 PrimFloat.mul 0x1.3333333333333p+0%float ht)
    | None => (w, ht)
    end in
  Some (mkStep2Tables (newCoSENodes tb ++ [mkDelegateNode (getLocation nd) w ht])
          (newCoSEEdges tb) (hashMapPut ciseNode i (ciseNodeToCoseNode tb))
          (nodePairs tb) (coseEdgeToCiseEdges tb)).

(** Lines 488-499: the end of an edge in the reduced graph, the parent of
    the owner for an on-circle node; the inner [None] is a null parent. *)
Definition reducedEnd (gm : CiSEGraphManager) (n : nat) : option (option nat) :=
  nd ← heap gm !! n;
  match onCircleNodeExt nd with
  | Some _ => g ← owner nd; lg ← getGraph gm g; Some (parent lg)
  | None => Some (Some n)
  end.

(** One turn of the loop over all edges (lines 486-529). *)
Definition addCoSEEdge (gm : CiSEGraphManager) (tb : Step2Tables)
  (ciseEdge : CiSEEdge) : option Step2Tables :=
  sourceCise ← reducedEnd gm (source ciseEdge);
  targetCise ← reducedEnd gm (target ciseEdge);
  let sourceIndex := sourceCise ≫= (fun n => ciseNodeToCoseNode tb !! n) in
  let targetIndex := targetCise ≫= (fun n => ciseNodeToCoseNode tb !! n) in
  if decide (sourceIndex = targetIndex) then Some tb
  else
    si ← sourceIndex;
    ti ← targetIndex;
    match nodePairs tb !! (si, ti), nodePairs tb !! (ti, si) with
    | None, None =>
        let newEdge := length (newCoSEEdges tb) in
        Some (mkStep2Tables (newCoSENodes tb) (newCoSEEdges tb ++ [(si, ti)])
                (ciseNodeToCoseNode tb)
                (<[(ti, si) := newEdge]> (<[(si, ti) := newEdge]> (nodePairs tb)))
                (coseEdgeToCiseEdges tb ++ [[ciseEdge]]))
    | found, _ =>
        newEdge ← found;
        _ ← coseEdgeToCiseEdges tb !! newEdge;
        Some (mkStep2Tables (newCoSENodes tb) (newCoSEEdges tb)
                (ciseNodeToCoseNode tb) (nodePairs tb)
                (alter (fun l => l ++ [ciseEdge]) newEdge (coseEdgeToCiseEdges tb)))
    end.

(** ** Gathering the indices in [reorderIncidentEdges] (lines 591-604) *)

(** The body of [ciseEdges.forEach] (lines 593-602) for the circle at [k]. *)
Definition edgeIndexOf (gm : CiSEGraphManager) (k : nat) (ciseEdge : CiSEEdge)
  : option Z :=
  s ← heap gm !! source ciseEdge;
  t ← heap gm !! target ciseEdge;
  if decide (owner s = Some (CircleGraph k)) then
    orderIndex <$> onCircleNodeExt s
  else if decide (owner t = Some (CircleGraph k)) then
    orderIndex <$> onCircleNodeExt t
  else Some (-1)%Z.

(** [edgeIndices] as gathered (lines 591-602). *)
Definition gatherEdgeIndices (gm : CiSEGraphManager) (k : nat)
  (ciseEdges : list CiSEEdge) : option (list Z) :=
  mapM (edgeIndexOf gm k) ciseEdges.

(** [edgeIndices] after line 604, as the largest-gap scan reads it. *)
Definition edgeIndicesForScan (gm : CiSEGraphManager) (k : nat)
  (ciseEdges : list CiSEEdge) : option (list Z) :=
  CircularMean.sortedIndices <$> gatherEdgeIndices gm k ciseEdges.

(** The value put into [indexMapping] for one reduced edge (lines 590-688). *)
Definition representativeIndex (gm : CiSEGraphManager) (k : nat)
  (ciseEdges : list CiSEEdge) : option float :=
  c ← circles gm !! k;
  edgeIndices ← gatherEdgeIndices gm k ciseEdges;
  Some (CircularMean.averageIndex (Z.of_nat (length (onCircleNodes c))) edgeIndices).

(** Stable insertion by ascending representative index: the comparator of
    lines 691-693 (a difference that is not a number counts as zero). *)
Fixpoint insertByAverage (x : nat * float) (l : list (nat * float))
  : list (nat * float) :=
  match l with
  | [] => [x]
  | y :: l' =>
      if PrimFloat.ltb 0%float (PrimFloat.sub x.2 y.2) then y :: insertByAverage x l'
      else x :: y :: l'
  end.

(** The edges of the reduced graph at the reduced node [i], in the order
    they were added. *)
Definition incidentCoseEdges (tb : Step2Tables) (i : nat) : list nat :=
  (imap (fun j st => (j, st)) (newCoSEEdges tb)) ≫=
    (fun jst => if bool_decide (jst.2.1 = i ∨ jst.2.2 = i) then [jst.1] else []).

(** One turn of the outer loop of [reorderIncidentEdges] (lines 576-695):
    the incident edges of the reduced node of a cluster in their new order;
    nothing for a node without a child. *)
Definition reorderIncidentOf (gm : CiSEGraphManager) (tb : Step2Tables)
  (n : nat) : option (option (nat * list nat)) :=
  nd ← heap gm !! n;
  match child nd with
  | None => Some None
  | Some RootGraph => None
  | Some (CircleGraph k) =>
      ciseCircle ← circles gm !! k;
      coseNode ← parent (base ciseCircle) ≫= (fun p => ciseNodeToCoseNode tb !! p);
      indexed ← mapM (fun coseEdge =>
                        ciseEdges ← coseEdgeToCiseEdges tb !! coseEdge;
                        averageIndex ← representativeIndex gm k ciseEdges;
                        Some (coseEdge, averageIndex))
                     (incidentCoseEdges tb coseNode);
      Some (Some (coseNode, fst <$> foldr insertByAverage [] indexed))
  end.

(** [reorderIncidentEdges] (lines 572-696): the new incident lists of the
    reduced nodes that stand for clusters. *)
Definition reorderIncidentEdges (gm : CiSEGraphManager) (tb : Step2Tables)
  : option (list (nat * list nat)) :=
  omap id <$> mapM (reorderIncidentOf gm tb) (nonOnCircleNodes gm).

Section Steps.

(** The circular layout of one cluster, given its nodes and the edges between
    them (ends as positions in the node list). *)
Variable runAVSDF : list DelegateNode -> list (nat * nat) -> AVSDFResult.

(** The spring embedder on the reduced graph: the location of each of its
    nodes after the run. *)
Variable runCoSE : list DelegateNode -> list (nat * nat) -> nat -> PointD.

(** The state of [doStep1] between circles: the graph manager, the map
    [ciseToAvsdf], which is shared by all circles (a delegate node is named
    by the position of the circle it was made for and its position among
    that circle's delegates), and the results read from the delegate layouts
    run so far. *)
Record Step1State := mkStep1State {
  s1Manager : CiSEGraphManager;
  ciseToAvsdf : gmap nat (nat * nat);
  avsdfRuns : gmap nat AVSDFResult
}.

(** Lines 393-400: the location, index and angle of an on-circle node are
    taken from its delegate. *)
Definition reflectAVSDF (ciseToAvsdf_ : gmap nat (nat * nat))
  (runs : gmap nat AVSDFResult)
  (gm : CiSEGraphManager) (ciseOnCircleNode : nat) : option CiSEGraphManager :=
  avsdfNode ← ciseToAvsdf_ !! ciseOnCircleNode;
  r ← runs !! avsdfNode.1;
  nd ← heap gm !! ciseOnCircleNode;
  ext ← onCircleNodeExt nd;
  Some (updNode ciseOnCircleNode
          (fun nd =>
             mkCiSENode (ID nd) (clusterID nd)
               (mkRectangleD (ptX (avsdfLocation r avsdfNode.2))
                  (ptY (avsdfLocation r avsdfNode.2))
                  (rectWidth (rect nd)) (rectHeight (rect nd)))
               (owner nd) (child nd)
               (Some (setAngle (avsdfAngle r avsdfNode.2)
                        (setIndex (avsdfIndex r avsdfNode.2) ext)))
               (incidentEdges nd)) gm).

(** Lines 369-379: the delegate edge for an edge with both ends among the
    clustered nodes; adding it throws when an end is the delegate made for
    another circle. *)
Definition avsdfEdgeFor (ciseToAvsdf_ : gmap nat (nat * nat)) (k : nat)
  (clusteredNodes : list nat) (acc : list (nat * nat)) (e : CiSEEdge)
  : option (list (nat * nat)) :=
  if bool_decide (source e ∈ clusteredNodes ∧ target e ∈ clusteredNodes) then
    s ← ciseToAvsdf_ !! source e;
    t ← ciseToAvsdf_ !! target e;
    if bool_decide (s.1 = k ∧ t.1 = k) then Some (acc ++ [(s.2, t.2)]) else None
  else Some acc.

(** The circular layout step for the circle at [k] (lines 346-417). *)
Definition step1Circle (st : Step1State) (k : nat) : option Step1State :=
  let gm := s1Manager st in
  graph ← circles gm !! k;
  let clusteredNodes := onCircleNodes graph in
  avsdfNodes ←
    mapM (fun n => nd ← heap gm !! n;
            Some (mkDelegateNode (getLocation nd) (getWidth nd) (getHeight nd)))
         clusteredNodes;
  let ciseToAvsdf_ :=
    foldl (fun m ni => hashMapPut ni.2 (k, ni.1) m) (ciseToAvsdf st)
          (imap (fun i n => (i, n)) clusteredNodes) in
  let '(allEdges_, gm) := getAllEdges gm in
  avsdfEdges ← forEachM (avsdfEdgeFor ciseToAvsdf_ k clusteredNodes) allEdges_ [];
  let r := runAVSDF avsdfNodes avsdfEdges in
  let runs := <[k := r]> (avsdfRuns st) in
  gm ← forEachM (reflectAVSDF ciseToAvsdf_ runs) clusteredNodes gm;
  keyed ← mapM (fun n => nd ← heap gm !! n;
                  ext ← onCircleNodeExt nd;
                  Some (n, orderIndex ext)) clusteredNodes;
  let gm := updCircle k (setOnCircleNodes (fst <$> sortByIndex keyed)) gm in
  gm ←
    (if (0 <? length clusteredNodes)%nat then
       parentCiSE ← parent (base graph);
       let gm :=
         updNode parentCiSE
           (setLocation (ptX (avsdfParentLocation r)) (ptY (avsdfParentLocation r)))
           gm in
       let gm := updCircle k (setRadius (avsdfRadius r)) gm in
       calculateParentNodeDimension k gm
     else Some gm);
  Some (mkStep1State gm ciseToAvsdf_ runs).

(** [doStep1] (lines 333-421): every circle in turn. *)
Definition doStep1 (ly : CiSELayout) : option CiSELayout :=
  st ← forEachM step1Circle (seq 0 (length (circles (graphManager ly))))
         (mkStep1State (graphManager ly) ∅ ∅);
  Some (mkCiSELayout (s1Manager st) STEP_1 PHASE_OTHER).

(** Lines 538-544: a node outside the circles takes the location of its
    node in the reduced graph. *)
Definition placeNonOnCircleNode (tb : Step2Tables) (gm : CiSEGraphManager)
  (ciseNode : nat) : option CiSEGraphManager :=
  coseNode ← ciseNodeToCoseNode tb !! ciseNode;
  let loc := runCoSE (newCoSENodes tb) (newCoSEEdges tb) coseNode in
  Some (updNode ciseNode (setLocation (ptX loc) (ptY loc)) gm).

(** Lines 551-557: an on-circle node is moved by the location of the parent
    of its owner. *)
Definition placeOnCircleNode (gm : CiSEGraphManager) (ciseNode : nat)
  : option CiSEGraphManager :=
  nd ← heap gm !! ciseNode;
  let loc := getLocation nd in
  g ← owner nd;
  lg ← getGraph gm g;
  p ← parent lg;
  pn ← heap gm !! p;
  let parentLoc := getLocation pn in
  Some (updNode ciseNode
          (setLocation (PrimFloat.add (ptX loc) (ptX parentLoc))
                       (PrimFloat.add (ptY loc) (ptY parentLoc))) gm).

Definition emptyStep2Tables : Step2Tables := mkStep2Tables [] [] ∅ ∅ [].

(** The tables of [doStep2] once the reduced graph is built (lines 452-529),
    with the graph manager after [getAllEdges()]. *)
Definition buildReducedGraph (gm : CiSEGraphManager)
  : option (Step2Tables * CiSEGraphManager) :=
  tb ← forEachM (addCoSENode (heap gm)) (nonOnCircleNodes gm) emptyStep2Tables;
  let '(allEdges_, gm) := getAllEdges gm in
  tb ← forEachM (addCoSEEdge gm) allEdges_ tb;
  Some (tb, gm).

(** [doStep2] (lines 427-559). *)
Definition doStep2 (ly : CiSELayout) : option CiSELayout :=
  '(tb, gm) ← buildReducedGraph (graphManager ly);
  gm ← forEachM (placeNonOnCircleNode tb) (nonOnCircleNodes gm) gm;
  gm ← forEachM placeOnCircleNode (gmOnCircleNodes gm) gm;
  Some (mkCiSELayout gm STEP_2 PHASE_OTHER).

End Steps.

(** One turn of the [forEach] of [prepareCirclesForReversal]
    (lines 709-717). *)
Definition prepareCircle (gm : CiSEGraphManager) (n : nat)
  : option CiSEGraphManager :=
  nd ← heap gm !! n;
  match child nd with
  | None => Some gm
  | Some RootGraph => None
  | Some (CircleGraph k) =>
      circle ← circles gm !! k;
      '(l, circle) ← getInterClusterEdges (heap gm) circle;
      let circle :=
        if (length l <? 2)%nat then setMayNotBeReversed circle else circle in
      circle ← computeOrderMatrix (heap gm) circle;
      Some (setCircles (<[k := circle]> (circles gm)) gm)
  end.

(** [prepareCirclesForReversal] (lines 704-718). *)
Definition prepareCirclesForReversal (gm : CiSEGraphManager)
  : option CiSEGraphManager :=
  forEachM prepareCircle (nodes (rootGraph gm)) gm.

(** ** The operations on a layout *)

(** The methods of the two classes that change or read a layout. *)
Inductive Op :=
| ConvertToClusteredGraph (nodes_ : list CyNode) (edges_ : list CyEdge)
    (clusters : list (list string))
| DoStep1
| DoStep2
| PrepareCirclesForReversal
| SetRadius (k : nat) (r : float)
| SetMayNotBeReversed (k : nat)
| CalculateParentNodeDimension (k : nat)
| GetInterClusterEdges (k : nat)
| GetIntraClusterEdges (k : nat)
| ComputeOrderMatrix (k : nat).

Definition withGraphManager (ly : CiSELayout) (gm : CiSEGraphManager)
  : CiSELayout :=
  mkCiSELayout gm (step ly) (phase ly).

(** A method of the circle at [k]; there is no call without the circle. *)
Definition onCircle (k : nat) (f : CiSECircle -> option CiSECircle)
  (ly : CiSELayout) : option CiSELayout :=
  c ← circles (graphManager ly) !! k;
  c' ← f c;
  Some (withGraphManager ly
          (setCircles (<[k := c']> (circles (graphManager ly))) (graphManager ly))).

Section Run.

Variable runAVSDF : list DelegateNode -> list (nat * nat) -> AVSDFResult.
Variable runCoSE : list DelegateNode -> list (nat * nat) -> nat -> PointD.

Definition runOp (ly : CiSELayout) (op : Op) : option CiSELayout :=
  match op with
  | ConvertToClusteredGraph nodes_ edges_ clusters =>
      st ← convertToClusteredGraph (graphManager ly) nodes_ edges_ clusters;
      Some (withGraphManager ly st.1)
  | DoStep1 => doStep1 runAVSDF ly
  | DoStep2 => doStep2 runCoSE ly
  | PrepareCirclesForReversal =>
      withGraphManager ly <$> prepareCirclesForReversal (graphManager ly)
  | SetRadius k r => onCircle k (fun c => Some (setRadius r c)) ly
  | SetMayNotBeReversed k => onCircle k (fun c => Some (setMayNotBeReversed c)) ly
  | CalculateParentNodeDimension k =>
      withGraphManager ly <$> calculateParentNodeDimension k (graphManager ly)
  | GetInterClusterEdges k =>
      onCircle k (fun c => snd <$> getInterClusterEdges (heap (graphManager ly)) c) ly
  | GetIntraClusterEdges k =>
      onCircle k (fun c => Some (getIntraClusterEdges c).2) ly
  | ComputeOrderMatrix k =>
      onCircle k (computeOrderMatrix (heap (graphManager ly))) ly
  end.

Definition runOps (ops : list Op) (ly : CiSELayout) : option CiSELayout :=
  forEachM runOp ops ly.

End Run.

(** ** Worked inputs *)

Module Ex.

Definition n (i : string) : CyNode := mkCyNode i 10%float 20%float 4%float 6%float.

(** Two clusters [a,b,c] and [d,e] and an unclustered node [u]. *)
Definition nodes1 : list CyNode := [n "a"; n "b"; n "c"; n "d"; n "e"; n "u"].
Definition clusters1 : list (list string) := [["a"; "b"; "c"]; ["d"; "e"]].
Definition edges1 : list CyEdge :=
  [mkCyEdge "a" "b"; mkCyEdge "b" "c"; mkCyEdge "a" "d"; mkCyEdge "d" "a";
   mkCyEdge "e" "u"; mkCyEdge "u" "u"; mkCyEdge "d" "e"].

(** A circular layout that keeps the given order: node [i] of [N] gets index
    [i] and the angle [i * 2 pi / N]. *)
Definition avsdfInOrder (ns : list DelegateNode) (es : list (nat * nat))
  : AVSDFResult :=
  mkAVSDFResult
    (fun i => mkPointD (Num.ofZ (Z.of_nat i)) 0%float)
    (fun i => Z.of_nat i)
    (fun i => PrimFloat.div
                (PrimFloat.mul (Num.ofZ (Z.of_nat i)) Num.TWO_PI)
                (Num.ofZ (Z.of_nat (length ns))))
    (Num.ofZ (Z.of_nat (length ns)))
    (mkPointD 0%float 0%float).

(** An embedder that puts reduced node [i] at [(100 i, 50)]. *)
Definition coseOnARow (ns : list DelegateNode) (es : list (nat * nat)) (i : nat)
  : PointD :=
  mkPointD (Num.ofZ (100 * Z.of_nat i)) 50%float.

Definition run (ops : list Op) : option CiSELayout :=
  runOps avsdfInOrder coseOnARow ops (newCiSELayout newGraphManager).

Definition built1 : option CiSELayout :=
  run [ConvertToClusteredGraph nodes1 edges1 clusters1].

Definition laidOut1 : option CiSELayout :=
  run [ConvertToClusteredGraph nodes1 edges1 clusters1; DoStep1].

(** One cluster of eleven nodes; the nodes [n2] and [n10] are joined to the
    unclustered node [u]. *)
Definition ids11 : list string :=
  ["n0"; "n1"; "n2"; "n3"; "n4"; "n5"; "n6"; "n7"; "n8"; "n9"; "n10"].
Definition nodes11 : list CyNode := n <$> (ids11 ++ ["u"]).
Definition edges11 : list CyEdge := [mkCyEdge "n2" "u"; mkCyEdge "u" "n10"].

Definition laidOut11 : option CiSELayout :=
  run [ConvertToClusteredGraph nodes11 edges11 [ids11]; DoStep1].

(** The same nodes and clusters with the edges a-b, b-c, d-e inside the
    clusters and the single edge e-u leaving one. *)
Definition edges2 : list CyEdge :=
  [mkCyEdge "a" "b"; mkCyEdge "b" "c"; mkCyEdge "e" "u"; mkCyEdge "d" "e"].

Definition laidOut2 : option CiSELayout :=
  run [ConvertToClusteredGraph nodes1 edges2 clusters1; DoStep1; DoStep2].

Definition prepared2 : option CiSELayout :=
  run [ConvertToClusteredGraph nodes1 edges2 clusters1; DoStep1; DoStep2;
       PrepareCirclesForReversal].

(** The graph manager of a run, a circle of it, and the angles of the
    circle's on-circle nodes. *)
Definition gmOf (o : option CiSELayout) : CiSEGraphManager :=
  default newGraphManager (graphManager <$> o).

Definition circleOf (o : option CiSELayout) (k : nat) : CiSECircle :=
  default newCiSECircle (circles (gmOf o) !! k).

Definition anglesOf (o : option CiSELayout) (k i : nat) : float :=
  default 0%float (getAngleAt (heap (gmOf o)) (circleOf o k) i).

(** The construction alone on the first input. *)
Definition state1 : BuildState :=
  default (newGraphManager, ∅)
    (convertToClusteredGraph newGraphManager nodes1 edges1 clusters1).

Definition lyOf (o : option CiSELayout) : CiSELayout :=
  default (newCiSELayout newGraphManager) o.

Definition placed1 : option CiSELayout :=
  run [ConvertToClusteredGraph nodes1 edges1 clusters1; DoStep1; DoStep2].

(** More operations on the layout whose circles are marked non-reversible. *)
Definition moreOps : list Op :=
  [DoStep1; DoStep2; PrepareCirclesForReversal; GetIntraClusterEdges 0;
   ComputeOrderMatrix 1; SetRadius 0 1%float].

Definition again2 : option CiSELayout :=
  runOps avsdfInOrder coseOnARow moreOps (lyOf prepared2).

Definition nodeOf (o : option CiSELayout) (n : nat) : CiSENode :=
  default (newNode None None) (heap (gmOf o) !! n).

(** A circular layout whose angles leave the turn from 0 to two pi: the
    nodes get the angles 7, -0.5 and, from the third on, two pi. *)
Definition avsdfBeyondATurn (ns : list DelegateNode) (es : list (nat * nat))
  : AVSDFResult :=
  mkAVSDFResult
    (fun i => mkPointD (Num.ofZ (Z.of_nat i)) 0%float)
    (fun i => Z.of_nat i)
    (fun i => match i with
              | O => 7%float
              | S O => (-0.5)%float
              | _ => Num.TWO_PI
              end)
    (Num.ofZ (Z.of_nat (length ns)))
    (mkPointD 0%float 0%float).

(** Input nodes named like members of [Object.prototype], left unclustered. *)
Definition nodes3 : list CyNode :=
  [mkCyNode "constructor" 0 0 1 1; mkCyNode "__proto__" 0 0 1 1;
   mkCyNode "b" 0 0 1 1].

Definition edges3 : list CyEdge :=
  [mkCyEdge "constructor" "b"; mkCyEdge "b" "__proto__"].

Definition state3 : BuildState :=
  default (newGraphManager, ∅)
    (convertToClusteredGraph newGraphManager nodes3 edges3 [["b"]]).

Definition laidOutBeyondATurn : option CiSELayout :=
  runOps avsdfBeyondATurn coseOnARow
    [ConvertToClusteredGraph nodes1 edges1 clusters1; DoStep1]
    (newCiSELayout newGraphManager).

End Ex.

(** ** The notions the properties are stated with *)

(** The cell at row [i], column [j] of a matrix; the inner [None] is a cell
    never written. *)
Definition cellAt (m : list (list (option bool))) (i j : nat)
  : option (option bool) :=
  row ← m !! i; row !! j.

Definition squareOf (N : nat) (m : list (list (option bool))) : Prop :=
  length m = N /\ forall row, row ∈ m -> length row = N.

(** The test of lines 208-216 on the angles of the positions [i] and [j]. *)
Definition orderTest (angles : nat -> float) (i j : nat) : bool :=
  PrimFloat.leb (angleDiff (angles i) (angles j)) Num.PI.

(** The body of the inner loop of [computeOrderMatrix] for a test [t] of the
    pairs of positions. *)
Definition orderCellOf (t : nat -> nat -> bool) (i : nat)
  (m : list (list (option bool))) (j : nat) : list (list (option bool)) :=
  if (i <? j)%nat then
    if t i j
    then setCell j i false (setCell i j true m)
    else setCell j i true (setCell i j false m)
  else m.

(** An [N] by [N] matrix that holds the test [t] of the pairs of positions:
    for [i < j] the entry [(i,j)] is [t i j] and the entry [(j,i)] its
    negation; the diagonal is never written. *)
Definition isMatrixOf (t : nat -> nat -> bool) (N : nat)
  (m : list (list (option bool))) : Prop :=
  squareOf N m /\
  (forall i j, (i < j)%nat -> (j < N)%nat ->
     cellAt m i j = Some (Some (t i j)) /\
     cellAt m j i = Some (Some (negb (t i j)))) /\
  (forall i j, i ≠ j -> (i < N)%nat -> (j < N)%nat ->
     exists b, cellAt m i j = Some (Some b) /\ cellAt m j i = Some (Some (negb b))) /\
  (forall i, (i < N)%nat -> cellAt m i i = Some None).

(** An angle brought into the turn from 0 to two pi: what is left of it
    beyond its whole turns, counted from 0 upwards. *)
Definition normalizedTurn (a : float) : float :=
  let r := Num.rem a Num.TWO_PI in
  if PrimFloat.ltb r 0%float then PrimFloat.add r Num.TWO_PI else r.

(** The clockwise angle difference from a node at angle [ai] to a node at
    angle [aj], normalized into the turn from 0 to two pi. *)
Definition clockwiseDifference (ai aj : float) : float :=
  normalizedTurn (PrimFloat.sub aj ai).

(** Walking clockwise from position [i] reaches position [j] within half a
    turn. *)
Definition clockwiseWithinHalfTurn (angles : nat -> float) (i j : nat) : bool :=
  PrimFloat.leb (clockwiseDifference (angles i) (angles j)) Num.PI.

(** The angles [ai] and [aj] differ by less than a full turn. *)
Definition withinOneTurn (ai aj : float) : Prop :=
  PrimFloat.ltb (PrimFloat.abs (PrimFloat.sub aj ai)) Num.TWO_PI = true.

(** The order matrix of a circle of [N] on-circle nodes with the given
    angles: an [N] by [N] matrix in which, whatever the angles, the entries
    [(i,j)] and [(j,i)] of two positions are set and each other's negation,
    and the diagonal is never written; for [i < j] with angles less than a
    full turn apart, the entry [(i,j)] tells whether the clockwise angle
    difference from node [i] to node [j], normalized into the turn from 0 to
    two pi, is at most pi. *)
Definition isOrderMatrix (angles : nat -> float) (N : nat)
  (m : list (list (option bool))) : Prop :=
  squareOf N m /\
  (forall i j, (i < j)%nat -> (j < N)%nat ->
     withinOneTurn (angles i) (angles j) ->
     cellAt m i j = Some (Some (clockwiseWithinHalfTurn angles i j)) /\
     cellAt m j i = Some (Some (negb (clockwiseWithinHalfTurn angles i j)))) /\
  (forall i j, i ≠ j -> (i < N)%nat -> (j < N)%nat ->
     exists b, cellAt m i j = Some (Some b) /\ cellAt m j i = Some (Some (negb b))) /\
  (forall i, (i < N)%nat -> cellAt m i i = Some None).


(** *** The construction *)

(** The node made for member [nodeID] of cluster [i], once it is owned by the
    circle at [k]. *)
Definition memberNode (i k : nat) (nodeID : string) (cy : CyNode) : CiSENode :=
  setOwner (CircleGraph k)
    (setClusterId (Z.of_nat i)
       (setId nodeID
          (newCiSEOnCircleNode (Some (cyLocation cy)) (Some (cyDimension cy))))).

(** What adding the member [n] does to its circle. *)
Definition addMember (n : nat) (c : CiSECircle) : CiSECircle :=
  setInNodes (inNodes c ++ [n])
    (setBase (pushNode n) (setOnCircleNodes (onCircleNodes c ++ [n]) c)).

(** The placeholder node of cluster [i], parent of the circle at [k]. *)
Definition placeholderNode (i k : nat) : CiSENode :=
  setChild (CircleGraph k)
    (setOwner RootGraph (setClusterId (Z.of_nat i) (newNode None None))).

(** The circle as [addCluster] sets it up for the parent [p]. *)
Definition emptyCircle (p : nat) : CiSECircle :=
  setBase (fun g => setMargin (PrimFloat.add (margin g) 15%float) g)
    (setBase (setParent p) newCiSECircle).

(** The node made for an unclustered Cytoscape node. *)
Definition unclusteredNode (cy : CyNode) : CiSENode :=
  setOwner RootGraph
    (setId (cyId cy)
       (setClusterId (-1)
          (newNode (Some (cyLocation cy)) (Some (cyDimension cy))))).

(** A node with its incident edges left out: what the construction fixes
    before it adds the edges. *)
Definition eraseEdges (nd : CiSENode) : CiSENode :=
  mkCiSENode (ID nd) (clusterID nd) (rect nd) (owner nd) (child nd)
    (onCircleNodeExt nd) [].

(** The kinds of node the construction makes: the parent of the root (no
    id, no cluster id); under
    the root an unclustered node (cluster id -1, an id) or the placeholder of
    the circle at [k] (cluster id [k], no id); on the circle at [k] an
    on-circle node (cluster id [k], an id). *)
Definition nodeOk (nd : CiSENode) : Prop :=
  match owner nd with
  | None => child nd = Some RootGraph /\ ID nd = None /\ clusterID nd = None
  | Some RootGraph =>
      onCircleNodeExt nd = None /\
      match child nd with
      | None => clusterID nd = Some (-1)%Z /\ is_Some (ID nd)
      | Some RootGraph => False
      | Some (CircleGraph k) => ID nd = None /\ clusterID nd = Some (Z.of_nat k)
      end
  | Some (CircleGraph k) =>
      child nd = None /\ clusterID nd = Some (Z.of_nat k) /\
      is_Some (onCircleNodeExt nd) /\ is_Some (ID nd)
  end.

(** The on-circle nodes of the circle at [k] are distinct nodes of the store
    owned by that circle. *)
Definition circleOk (h : list CiSENode) (k : nat) (c : CiSECircle) : Prop :=
  NoDup (onCircleNodes c) /\
  forall n, n ∈ onCircleNodes c ->
    exists nd, h !! n = Some nd /\ owner nd = Some (CircleGraph k).

(** The state of the construction once the nodes are in. *)
Record Built (gm : CiSEGraphManager) (m : gmap string nat) : Prop := mkBuilt {
  built_nodes : forall n nd, heap gm !! n = Some nd -> nodeOk nd;
  built_circles : forall k c, circles gm !! k = Some c -> circleOk (heap gm) k c;
  built_map : forall i n, m !! i = Some n ->
                exists nd, heap gm !! n = Some nd /\ is_Some (ID nd)
}.

(** Before the edges are added: no edge anywhere, every on-circle node among
    the in-nodes of its circle, every circle reversible. *)
Record Fresh (gm : CiSEGraphManager) : Prop := mkFresh {
  fresh_root : edges (rootGraph gm) = [];
  fresh_gm : gmEdges gm = [];
  fresh_memo : allEdges gm = None /\ allNodes gm = None;
  fresh_circles : forall k c, circles gm !! k = Some c ->
    edges (base c) = [] /\ inNodes c = onCircleNodes c /\ outNodes c = [] /\
    nodes (base c) = onCircleNodes c
}.

(** The edges of every graph and the inter-graph edges, as [getAllEdges]
    lists them. *)
Definition allEdgesOf (gm : CiSEGraphManager) : list CiSEEdge :=
  edges (rootGraph gm) ++ concat ((edges ∘ base) <$> circles gm) ++ gmEdges gm.

(** The graph manager as [addCluster] has it before the first member of
    cluster [i] is added. *)
Definition clusterStart (i : nat) (gm : CiSEGraphManager) : CiSEGraphManager :=
  mkGM (heap gm ++ [placeholderNode i (length (circles gm))])
       (pushNode (length (heap gm)) (rootGraph gm))
       (circles gm ++ [emptyCircle (length (heap gm))])
       (gmEdges gm) (allNodes gm) (allEdges gm)
       (gmOnCircleNodes gm) (nonOnCircleNodes gm).


(** A circle with the edges of its graph left out. *)
Definition eraseCircleEdges (c : CiSECircle) : CiSECircle :=
  setBase (fun g => mkLGraph (parent g) (nodes g) [] (margin g)) c.

(** A graph manager with every edge left out: what adding an edge does not
    touch. *)
Definition eraseAllEdges (gm : CiSEGraphManager) : CiSEGraphManager :=
  mkGM (eraseEdges <$> heap gm)
       (mkLGraph (parent (rootGraph gm)) (nodes (rootGraph gm)) []
                 (margin (rootGraph gm)))
       (eraseCircleEdges <$> circles gm)
       [] (allNodes gm) (allEdges gm) (gmOnCircleNodes gm) (nonOnCircleNodes gm).

(** An edge outside the inter-graph edges joins two nodes of one owner. *)
Definition edgePlaced (gm : CiSEGraphManager) (e : CiSEEdge) : Prop :=
  e ∈ gmEdges gm \/
  exists s t, heap gm !! source e = Some s /\ heap gm !! target e = Some t /\
              owner s = owner t.


(** A circle with its in-nodes and out-nodes left out, and a graph manager
    with those of every circle left out: what the reclassification does not
    touch. *)
Definition eraseInOut (c : CiSECircle) : CiSECircle :=
  setOutNodes [] (setInNodes [] c).

Definition eraseInOutAll (gm : CiSEGraphManager) : CiSEGraphManager :=
  setCircles (eraseInOut <$> circles gm) gm.

(** What moving a node to the out-nodes does to its circle (lines 310-311). *)
Definition moveOut (n index : nat) (c : CiSECircle) : CiSECircle :=
  setOutNodes (outNodes c ++ [n]) (setInNodes (delete index (inNodes c)) c).


(** A node the reclassification has nothing left to do for: unclustered, or
    owned by a circle and not among its in-nodes. *)
Definition settled (gm : CiSEGraphManager) (n : nat) : Prop :=
  exists nd, heap gm !! n = Some nd /\
    (clusterID nd = Some (-1)%Z \/
     exists k c, owner nd = Some (CircleGraph k) /\
                 circles gm !! k = Some c /\ n ∉ inNodes c).

(** How the edge [o] made (or not made) for the input edge [e] relates to
    the nodes its ends resolve to: none for a self-loop; else an edge between
    the two nodes that is intra-cluster exactly when both carry the same
    cluster id other than -1. *)
Definition edgeMadeFor (gm : CiSEGraphManager) (m : gmap string nat)
  (e : CyEdge) (o : option CiSEEdge) : Prop :=
  exists s t sn tn,
    m !! cySource e = Some s /\ m !! cyTarget e = Some t /\
    heap gm !! s = Some sn /\ heap gm !! t = Some tn /\
    match o with
    | None => s = t
    | Some ce =>
        s ≠ t /\ source ce = s /\ target ce = t /\
        (isIntraCluster ce = true <->
         clusterID sn = clusterID tn /\ clusterID sn ≠ Some (-1)%Z) /\
        (clusterID sn = Some (-1)%Z \/ clusterID tn = Some (-1)%Z ->
         isIntraCluster ce = false)
    end.


(** The claim about cluster placeholders as the specification words it: a
    node that owns a child circle carries no cluster id. *)
Definition placeholdersHaveNoClusterId : Prop :=
  forall nodes_ edges_ clusters gm m n nd k,
    convertToClusteredGraph newGraphManager nodes_ edges_ clusters = Some (gm, m) ->
    heap gm !! n = Some nd -> child nd = Some (CircleGraph k) ->
    clusterID nd = None.


(** *** Placement of the quotient graph *)

(** The node lists kept by the graph manager split the nodes: no node is
    listed twice among the on-circle nodes or in both lists, and the parent
    of the owner of an on-circle node is not an on-circle node. *)
Definition parentNodeOf (gm : CiSEGraphManager) (nd : CiSENode) : option nat :=
  g ← owner nd; lg ← getGraph gm g; parent lg.

Definition nodeListsSplit (gm : CiSEGraphManager) : Prop :=
  NoDup (gmOnCircleNodes gm) /\
  (forall n, n ∈ gmOnCircleNodes gm -> n ∉ nonOnCircleNodes gm) /\
  (forall n nd p, n ∈ gmOnCircleNodes gm -> heap gm !! n = Some nd ->
                  parentNodeOf gm nd = Some p -> p ∉ gmOnCircleNodes gm).

(** Two nodes that differ in location at most. *)
Definition sameButLocation (nd nd' : CiSENode) : Prop :=
  nd' = setLocation (rectX (rect nd')) (rectY (rect nd')) nd.

Definition relocate (p : PointD) (nd : CiSENode) : CiSENode :=
  setLocation (ptX p) (ptY p) nd.

(** Lines 553-556 for a node whose owner's parent is found in [h]. *)
Definition shiftedByParent (gm : CiSEGraphManager) (h : list CiSENode)
  (nd : CiSENode) : CiSENode :=
  match parentNodeOf gm nd ≫= (fun p => h !! p) with
  | Some pn =>
      setLocation (PrimFloat.add (ptX (getLocation nd)) (ptX (getLocation pn)))
                  (PrimFloat.add (ptY (getLocation nd)) (ptY (getLocation pn))) nd
  | None => nd
  end.

(** The location the embedder gives to the reduced node of [n]. *)
Definition coseLocationOf
  (runCoSE : list DelegateNode -> list (nat * nat) -> nat -> PointD)
  (tb : Step2Tables) (n : nat) : PointD :=
  match ciseNodeToCoseNode tb !! n with
  | Some i => runCoSE (newCoSENodes tb) (newCoSEEdges tb) i
  | None => mkPointD 0 0
  end.

(** Everything of the graph manager other than the node objects: circles
    with all their fields, root graph, inter-graph edges, node lists, what
    [getAllNodes] and [getAllEdges] return, and the number of nodes. *)
Definition sameGraphs (gm gm' : CiSEGraphManager) : Prop :=
  circles gm' = circles gm /\ rootGraph gm' = rootGraph gm /\
  gmEdges gm' = gmEdges gm /\
  gmOnCircleNodes gm' = gmOnCircleNodes gm /\
  nonOnCircleNodes gm' = nonOnCircleNodes gm /\
  (getAllNodes gm').1 = (getAllNodes gm).1 /\
  (getAllEdges gm').1 = (getAllEdges gm).1 /\
  length (heap gm') = length (heap gm).

(** [nodeListsSplit] as a test. *)
Definition nodeListsSplitb (gm : CiSEGraphManager) : bool :=
  bool_decide (NoDup (gmOnCircleNodes gm))
  && forallb (fun n => bool_decide (n ∉ nonOnCircleNodes gm)) (gmOnCircleNodes gm)
  && forallb (fun n =>
                match heap gm !! n with
                | Some nd =>
                    match parentNodeOf gm nd with
                    | Some p => bool_decide (p ∉ gmOnCircleNodes gm)
                    | None => true
                    end
                | None => true
                end) (gmOnCircleNodes gm).


(** *** Reversal eligibility over time *)

(** Every circle of [cs] is still there in [cs'], and not reversible there
    if it was not reversible before. *)
Definition flagsKept (cs cs' : list CiSECircle) : Prop :=
  forall k c, cs !! k = Some c ->
    exists c', cs' !! k = Some c' /\
               (mayBeReversed c = false -> mayBeReversed c' = false).


(** The nodes of every graph, as [getAllNodes] lists them. *)
Definition allNodesOf (gm : CiSEGraphManager) : list nat :=
  nodes (rootGraph gm) ++ concat ((nodes ∘ base) <$> circles gm).

(** How nodes and graphs are linked once the nodes are in: a node is among
    the nodes of its owner; every circle has a parent under the root whose
    child it is; no node is in two graphs or twice in one; the nodes of a
    circle are its on-circle nodes. *)
Record Linked (gm : CiSEGraphManager) : Prop := mkLinked {
  linked_root : forall n nd, heap gm !! n = Some nd ->
    owner nd = Some RootGraph -> n ∈ nodes (rootGraph gm);
  linked_circle : forall n nd k, heap gm !! n = Some nd ->
    owner nd = Some (CircleGraph k) ->
    exists c, circles gm !! k = Some c /\ n ∈ nodes (base c);
  linked_parent : forall k c, circles gm !! k = Some c ->
    exists p pn, parent (base c) = Some p /\ heap gm !! p = Some pn /\
                 child pn = Some (CircleGraph k) /\ owner pn = Some RootGraph /\
                 p ∈ nodes (rootGraph gm);
  linked_all : NoDup (allNodesOf gm) /\
               forall n, n ∈ allNodesOf gm -> (n < length (heap gm))%nat;
  linked_nodes : forall k c, circles gm !! k = Some c ->
    nodes (base c) = onCircleNodes c
}.

(** A node that owns a circle as its child is the parent of that circle. *)
Definition Fathered (gm : CiSEGraphManager) : Prop :=
  forall n nd k, heap gm !! n = Some nd -> child nd = Some (CircleGraph k) ->
    exists c, circles gm !! k = Some c /\ parent (base c) = Some n.

(** What [Linked] reads of a graph manager. *)
Definition linkView (gm : CiSEGraphManager)
  : list (option GraphRef * option GraphRef) * list nat
    * list (option nat * list nat * list nat) :=
  ((fun nd => (owner nd, child nd)) <$> heap gm,
   nodes (rootGraph gm),
   (fun c => (parent (base c), nodes (base c), onCircleNodes c)) <$> circles gm).


(** What [nodeListsSplit] reads of a graph manager. *)
Definition splitView (gm : CiSEGraphManager)
  : list (option GraphRef) * option nat * list (option nat)
    * list nat * list nat :=
  (owner <$> heap gm, parent (rootGraph gm),
   (parent ∘ base) <$> circles gm,
   gmOnCircleNodes gm, nonOnCircleNodes gm).

(** The test of lines 282-287. *)
Definition isOnCircle (h : list CiSENode) (n : nat) : bool :=
  match h !! n with
  | Some nd => bool_decide (is_Some (onCircleNodeExt nd))
  | None => false
  end.


(** *** What the construction makes of the input *)

(** What the construction fixes of nodes and graphs once the nodes are in:
    the nodes without their incident edges, the nodes of the root graph, and
    the parent, the nodes and the on-circle nodes of every circle. *)
Definition nodeView (gm : CiSEGraphManager)
  : list CiSENode * list nat * list (option nat * list nat * list nat) :=
  (eraseEdges <$> heap gm, nodes (rootGraph gm),
   (fun c => (parent (base c), nodes (base c), onCircleNodes c)) <$> circles gm).

(** The rectangle given to the node made for a Cytoscape node. *)
Definition cyRect (cy : CyNode) : RectangleD :=
  mkRectangleD (ptX (cyLocation cy)) (ptY (cyLocation cy))
               (dimWidth (cyDimension cy)) (dimHeight (cyDimension cy)).

(** The node [n] of the store [h] carries the id [id]. *)
Definition carriesId (h : list CiSENode) (n : nat) (id : string) : Prop :=
  exists nd, h !! n = Some nd /\ ID nd = Some id.

(** The circles stand for the clusters [cl], one by one and in order: the
    on-circle nodes of a circle carry the ids of the members of its cluster,
    one by one and in order. *)
Definition circlesHold (h : list CiSENode) (cs : list CiSECircle)
  (cl : list (list string)) : Prop :=
  Forall2 (fun c cluster => Forall2 (carriesId h) (onCircleNodes c) cluster)
          cs cl.

(** What [idToLNode] holds for the id [id]: a node that carries this id and
    has the place and size of an input node of this id; it is a node of the
    root graph with cluster id -1 when no cluster lists the id, and else an
    on-circle node of the circle at [i], with cluster id [i], for a cluster
    [i] that lists the id. *)
Definition resolves (nodes_ : list CyNode) (clusters : list (list string))
  (h : list CiSENode) (id : string) (n : nat) : Prop :=
  exists nd cy, h !! n = Some nd /\ ID nd = Some id /\
    cy ∈ nodes_ /\ cyId cy = id /\ rect nd = cyRect cy /\
    ((clusterID nd = Some (-1)%Z /\ owner nd = Some RootGraph /\
      onCircleNodeExt nd = None /\
      forall cluster, cluster ∈ clusters -> id ∉ cluster) \/
     (exists i cluster,
        clusterID nd = Some (Z.of_nat i) /\ owner nd = Some (CircleGraph i) /\
        is_Some (onCircleNodeExt nd) /\
        clusters !! i = Some cluster /\ id ∈ cluster)).

(** The state of the construction as to the input: [idToLNode] knows input
    ids only and resolves each as above, and the nodes of the root graph are
    owned by it. *)
Record Populated (nodes_ : list CyNode) (clusters : list (list string))
  (gm : CiSEGraphManager) (m : gmap string nat) : Prop := mkPopulated {
  pop_map : forall id n, m !! id = Some n ->
              resolves nodes_ clusters (heap gm) id n;
  pop_root : forall n, n ∈ nodes (rootGraph gm) ->
               exists nd, heap gm !! n = Some nd /\ owner nd = Some RootGraph /\
                          onCircleNodeExt nd = None
}.


(** *** Where the edges are kept *)

(** The owner of the node at [n]. *)
Definition ownerOf (gm : CiSEGraphManager) (n : nat) : option GraphRef :=
  heap gm !! n ≫= owner.

(** The edges made for the input edges, in the order of the input: none for
    a self-loop. *)
Definition edgesMade (gm : CiSEGraphManager) (m : gmap string nat)
  (edges_ : list CyEdge) : list CiSEEdge :=
  omap (fun e => default None (newCiseEdge gm m e)) edges_.

(** The edges [es] are kept by owner: the root graph has those joining two
    of its nodes, a circle those joining two of its nodes, the graph manager
    those joining nodes of different owners, and a node those that start or
    end at it - each list in the order of [es]. *)
Record EdgesPlaced (own : nat -> option GraphRef) (gm : CiSEGraphManager)
  (es : list CiSEEdge) : Prop := mkEdgesPlaced {
  placed_root :
    edges (rootGraph gm)
    = filter (fun e => own (source e) = Some RootGraph /\
                       own (target e) = Some RootGraph) es;
  placed_circle : forall k c, circles gm !! k = Some c ->
    edges (base c)
    = filter (fun e => own (source e) = Some (CircleGraph k) /\
                       own (target e) = Some (CircleGraph k)) es;
  placed_manager :
    gmEdges gm = filter (fun e => own (source e) <> own (target e)) es;
  placed_incident : forall n nd, heap gm !! n = Some nd ->
    incidentEdges nd = filter (fun e => source e = n \/ target e = n) es
}.


(** *** Reversal preparation, circle by circle *)

(** Two circles that differ at most in the memo of the inter-cluster edges,
    the order matrix and the reversal flag. *)
Definition sameButPreparation (c c' : CiSECircle) : Prop :=
  base c' = base c /\ intraClusterEdges c' = intraClusterEdges c /\
  inNodes c' = inNodes c /\ outNodes c' = outNodes c /\
  onCircleNodes c' = onCircleNodes c /\ inCircleNodes c' = inCircleNodes c /\
  radius c' = radius c.

(** The flag of [c'] is the one of [c], or it is cleared and the memo of [c']
    holds fewer than two inter-cluster edges. *)
Definition flagClearedForFewEdges (c c' : CiSECircle) : Prop :=
  mayBeReversed c' = mayBeReversed c \/
  (mayBeReversed c' = false /\
   exists l, interClusterEdges c' = Some l /\ (length l < 2)%nat).


(** *** What the steps keep *)

(** What the steps keep of a node: all but its rectangle and the index and
    angle of its extension. *)
Definition nodeShape (nd : CiSENode)
  : option string * option Z * option GraphRef * option GraphRef * bool
    * list CiSEEdge :=
  (ID nd, clusterID nd, owner nd, child nd,
   bool_decide (is_Some (onCircleNodeExt nd)), incidentEdges nd).

(** What they keep of a circle: its graph, its in-nodes and out-nodes, and
    its on-circle nodes up to their order. *)
Definition circleShape (c c' : CiSECircle) : Prop :=
  base c' = base c /\ inNodes c' = inNodes c /\ outNodes c' = outNodes c /\
  onCircleNodes c' ≡ₚ onCircleNodes c.

(** What they keep of a graph manager. *)
Definition sameShape (gm gm' : CiSEGraphManager) : Prop :=
  nodeShape <$> heap gm' = nodeShape <$> heap gm /\
  rootGraph gm' = rootGraph gm /\ gmEdges gm' = gmEdges gm /\
  gmOnCircleNodes gm' = gmOnCircleNodes gm /\
  nonOnCircleNodes gm' = nonOnCircleNodes gm /\
  (getAllEdges gm').1 = (getAllEdges gm).1 /\
  Forall2 circleShape (circles gm) (circles gm').

(** A graph manager the steps can work on: every node is of one of the kinds
    the construction makes; the on-circle nodes of a circle are distinct
    nodes owned by it, split into in-nodes and out-nodes; a circle has a
    parent in the root graph whose child it is; owners and children are
    circles that exist; the node lists of the manager tell the nodes owned
    by circles from those owned by the root graph; and the ends of the edges
    are owned nodes. *)
Record Steady (gm : CiSEGraphManager) : Prop := mkSteady {
  st_nodes : forall n nd, heap gm !! n = Some nd -> nodeOk nd;
  st_circle_nodes : forall k c, circles gm !! k = Some c ->
    NoDup (onCircleNodes c) /\
    (forall n, n ∈ onCircleNodes c ->
       exists nd, heap gm !! n = Some nd /\ owner nd = Some (CircleGraph k)) /\
    inNodes c ++ outNodes c ≡ₚ onCircleNodes c;
  st_parent : forall k c, circles gm !! k = Some c ->
    exists p pn, parent (base c) = Some p /\ heap gm !! p = Some pn /\
                 owner pn = Some RootGraph /\ child pn = Some (CircleGraph k);
  st_owner : forall n nd k, heap gm !! n = Some nd ->
    owner nd = Some (CircleGraph k) ->
    exists c, circles gm !! k = Some c /\ n ∈ onCircleNodes c;
  st_child : forall n nd k, heap gm !! n = Some nd ->
    child nd = Some (CircleGraph k) -> is_Some (circles gm !! k);
  st_on : forall n, n ∈ gmOnCircleNodes gm <->
    exists nd k, heap gm !! n = Some nd /\ owner nd = Some (CircleGraph k);
  st_non : forall n, n ∈ nonOnCircleNodes gm <->
    exists nd, heap gm !! n = Some nd /\ owner nd = Some RootGraph;
  st_root : nodes (rootGraph gm) = nonOnCircleNodes gm;
  st_on_nodup : NoDup (gmOnCircleNodes gm);
  st_edges : forall e, e ∈ (getAllEdges gm).1 ->
    exists s t, heap gm !! source e = Some s /\ heap gm !! target e = Some t /\
                is_Some (owner s) /\ is_Some (owner t)
}.


(** The map [ciseToAvsdf] of [doStep1] names, for a node it knows, a
    delegate made for the circle that owns the node. *)
Definition delegatesOwned (gm : CiSEGraphManager)
  (ciseToAvsdf_ : gmap nat (nat * nat)) : Prop :=
  forall n v, ciseToAvsdf_ !! n = Some v ->
    exists nd, heap gm !! n = Some nd /\ owner nd = Some (CircleGraph v.1).


(** The pair table of [doStep2] is kept symmetric and names reduced edges
    that exist; a reduced edge has its list of underlying edges. *)
Definition pairsOk (tb : Step2Tables) : Prop :=
  (forall si ti, nodePairs tb !! (si, ti) = None <->
                 nodePairs tb !! (ti, si) = None) /\
  (forall p v, nodePairs tb !! p = Some v ->
               (v < length (coseEdgeToCiseEdges tb))%nat) /\
  length (newCoSEEdges tb) = length (coseEdgeToCiseEdges tb).


(** The three steps of the layout that the sources hold. *)
Definition isStep (op : Op) : bool :=
  match op with
  | DoStep1 | DoStep2 | PrepareCirclesForReversal => true
  | _ => false
  end.


(** The on-circle extension of the node at [n], if it has one. *)
Definition extOf (h : list CiSENode) (n : nat) : option CiSEOnCircleNodeExt :=
  h !! n ≫= onCircleNodeExt.

(** The circular indices of the nodes [l], read in the order of the list,
    never decrease. *)
Definition indicesAscend (h : list CiSENode) (l : list nat) : Prop :=
  exists keys, mapM (fun n => orderIndex <$> extOf h n) l = Some keys /\
               Sorted Z.le keys.


(** *** The reduced graph of the placement step *)

(** The node of the reduced graph an end of an edge falls on
    (lines 488-504): the one made for the node itself when it is outside the
    circles, for the parent of its circle else. *)
Definition reducedIndex (gm : CiSEGraphManager) (ciseToCose : gmap nat nat)
  (n : nat) : option nat :=
  reducedEnd gm n ≫= (fun r => r ≫= (fun x => ciseToCose !! x)).

(** The edge [e] joins the reduced nodes [si] and [ti], in either
    direction. *)
Definition joins (gm : CiSEGraphManager) (ciseToCose : gmap nat nat)
  (si ti : nat) (e : CiSEEdge) : Prop :=
  (reducedIndex gm ciseToCose (source e) = Some si /\
   reducedIndex gm ciseToCose (target e) = Some ti) \/
  (reducedIndex gm ciseToCose (source e) = Some ti /\
   reducedIndex gm ciseToCose (target e) = Some si).

#[global] Instance joins_dec gm m si ti e : Decision (joins gm m si ti e).
Proof. unfold joins. apply _. Defined.

(** The reduced graph in the tables [tb], for the edges [es]: a reduced edge
    joins two different reduced nodes and stands for the edges of [es] that
    join them, which are at least one and are listed in their order; no two
    reduced edges join the same two nodes; every edge of [es] whose ends
    fall on different reduced nodes is among the edges of a reduced edge. *)
Record ReducedGraph (gm : CiSEGraphManager) (tb : Step2Tables)
  (es : list CiSEEdge) : Prop := mkReducedGraph {
  rg_lengths : length (coseEdgeToCiseEdges tb) = length (newCoSEEdges tb);
  rg_edge : forall j si ti, newCoSEEdges tb !! j = Some (si, ti) ->
    si ≠ ti /\
    coseEdgeToCiseEdges tb !! j =
      Some (filter (joins gm (ciseNodeToCoseNode tb) si ti) es) /\
    filter (joins gm (ciseNodeToCoseNode tb) si ti) es ≠ [];
  rg_once : forall j j' si ti si' ti',
    newCoSEEdges tb !! j = Some (si, ti) ->
    newCoSEEdges tb !! j' = Some (si', ti') ->
    (si' = si /\ ti' = ti) \/ (si' = ti /\ ti' = si) -> j' = j;
  rg_all : forall e, e ∈ es ->
    reducedIndex gm (ciseNodeToCoseNode tb) (source e) ≠
      reducedIndex gm (ciseNodeToCoseNode tb) (target e) ->
    exists j si ti, newCoSEEdges tb !! j = Some (si, ti) /\
                    joins gm (ciseNodeToCoseNode tb) si ti e
}.

(** Every edge of the graph joins two different nodes that carry an id, and
    is marked intra-cluster as their cluster ids say (line 267). *)
Definition edgesNamed (gm : CiSEGraphManager) : Prop :=
  forall e, e ∈ (getAllEdges gm).1 ->
    source e ≠ target e /\
    exists s t, heap gm !! source e = Some s /\ heap gm !! target e = Some t /\
      is_Some (ID s) /\ is_Some (ID t) /\
      isIntraCluster e = sameCluster (clusterID s) (clusterID t).

(** The tables of the reduced graph [doStep2] builds on [gm]. *)
Definition tablesOf (gm : CiSEGraphManager) : Step2Tables :=
  default emptyStep2Tables (fst <$> buildReducedGraph gm).


(** *** The gaps of the circular mean *)

(** The differences between neighbours of a list of indices. *)
Fixpoint gapsBetween (l : list Z) : list Z :=
  match l with
  | [] => []
  | a :: l' =>
      match l' with
      | [] => []
      | b :: _ => (b - a)%Z :: gapsBetween l'
      end
  end.

(** The gaps met going once round a circle of [mod_] positions: between
    neighbours, and from the last index on to the first. *)
Definition circularGaps (mod_ : Z) (l : list Z) : list Z :=
  gapsBetween l ++
  match head l, last l with
  | Some a, Some z => [(a + mod_ - z)%Z]
  | _, _ => []
  end.


(** The edge [e] has an end on the circle at [k]. *)
Definition reachesCircle (gm : CiSEGraphManager) (k : nat) (e : CiSEEdge)
  : Prop :=
  ownerOf gm (source e) = Some (CircleGraph k) \/
  ownerOf gm (target e) = Some (CircleGraph k).


(** *** What the circular layout step hands over and takes back *)

(** The delegate made for an on-circle node (lines 354-361). *)
Definition delegateOf (h : list CiSENode) (n : nat) : option DelegateNode :=
  nd ← h !! n;
  Some (mkDelegateNode (getLocation nd) (getWidth nd) (getHeight nd)).

(** The delegate edge of an edge with both ends among the nodes [l]: it
    joins the delegates of the ends, named by their positions. *)
Definition delegateEdge (l : list nat) (e : CiSEEdge) : option (nat * nat) :=
  i ← indexOf (source e) l;
  j ← indexOf (target e) l;
  Some (i, j).

Definition delegateEdges (l : list nat) (es : list CiSEEdge)
  : list (nat * nat) :=
  omap (delegateEdge l) es.

(** The circular layout of the circle [c] of [gm]: of the delegates of its
    on-circle nodes and of the edges of the graph between them. *)
Definition circularLayoutOf
  (runAVSDF : list DelegateNode -> list (nat * nat) -> AVSDFResult)
  (gm : CiSEGraphManager) (c : CiSECircle) : option AVSDFResult :=
  delegates ← mapM (delegateOf (heap gm)) (onCircleNodes c);
  Some (runAVSDF delegates
          (delegateEdges (onCircleNodes c) (getAllEdges gm).1)).

(** An on-circle node with the location and index of the delegate at
    position [i] of the layout [r], and with its angle brought into the turn
    from 0 to two pi. *)
Definition reflected (r : AVSDFResult) (i : nat) (nd : CiSENode) : CiSENode :=
  mkCiSENode (ID nd) (clusterID nd)
    (mkRectangleD (ptX (avsdfLocation r i)) (ptY (avsdfLocation r i))
       (rectWidth (rect nd)) (rectHeight (rect nd)))
    (owner nd) (child nd)
    (Some (mkExt (avsdfIndex r i) (normalizedTurn (avsdfAngle r i))))
    (incidentEdges nd).

(** The parent of a circle, moved to [loc] and made a square of side [d]. *)
Definition enclosing (loc : PointD) (d : float) (pn : CiSENode) : CiSENode :=
  setWidth d (setHeight d (setLocation (ptX loc) (ptY loc) pn)).

(** The circle [c] at [k] of [gm0] with its circular layout taken over, in
    [gm']: the on-circle nodes are [reflected]; a circle with nodes has the
    radius of the layout and its parent is [enclosing]; an empty circle and
    its parent are as before. *)
Definition circleLaidOut
  (runAVSDF : list DelegateNode -> list (nat * nat) -> AVSDFResult)
  (gm0 gm' : CiSEGraphManager) (k : nat) (c : CiSECircle) : Prop :=
  exists r, circularLayoutOf runAVSDF gm0 c = Some r /\
    (forall i n nd, onCircleNodes c !! i = Some n -> heap gm0 !! n = Some nd ->
       heap gm' !! n = Some (reflected r i nd)) /\
    (exists c', circles gm' !! k = Some c' /\ base c' = base c /\
       (onCircleNodes c ≠ [] -> radius c' = avsdfRadius r) /\
       (onCircleNodes c = [] -> radius c' = radius c)) /\
    (forall p pn, parent (base c) = Some p -> heap gm0 !! p = Some pn ->
       (onCircleNodes c ≠ [] ->
        exists d, heap gm' !! p
                  = Some (enclosing (avsdfParentLocation r) d pn)) /\
       (onCircleNodes c = [] -> heap gm' !! p = Some pn)).

(** The node [n] is neither on a circle of [gm] nor the parent of one. *)
Definition besideCircles (gm : CiSEGraphManager) (n : nat) : Prop :=
  forall k c, circles gm !! k = Some c ->
    (n ∉ onCircleNodes c) /\ parent (base c) ≠ Some n.


(** *** The reversal preparation of a circle *)

(** The inter-cluster edges of the out-nodes of a circle, as the first
    [getInterClusterEdges()] gathers them. *)
Definition gatheredEdges (h : list CiSENode) (c : CiSECircle) : list CiSEEdge :=
  default [] (forEachM (collectInterClusterEdges h) (outNodes c) []).

(** A circle before its first preparation: nothing is gathered, and it may
    be reversed. *)
Definition unprepared (c : CiSECircle) : Prop :=
  interClusterEdges c = None /\ mayBeReversed c = true.

(** A prepared circle: the gathered edges [l] are memoized, and the circle
    may be reversed exactly when they are at least two. *)
Definition preparedFor (l : list CiSEEdge) (c : CiSECircle) : Prop :=
  interClusterEdges c = Some l /\ mayBeReversed c = negb (length l <? 2)%nat.

(** Two lists of circles with the same memoized inter-cluster edges and the
    same flags. *)
Definition prepKept (cs cs' : list CiSECircle) : Prop :=
  Forall2 (fun c c' => interClusterEdges c' = interClusterEdges c /\
                       mayBeReversed c' = mayBeReversed c) cs cs'.

(** Every circle of [gm] is unprepared, or prepared for the edges gathered
    in [gm]. *)
Definition preparationSound (gm : CiSEGraphManager) : Prop :=
  forall k c, circles gm !! k = Some c ->
    unprepared c \/ preparedFor (gatheredEdges (heap gm) c) c.


(** Every node of [gm] that carries an id carries one of the ids [seen], and
    is the node [m] gives for its id. *)
Definition ownsIds (seen : list string) (gm : CiSEGraphManager)
  (m : gmap string nat) : Prop :=
  forall n nd id, heap gm !! n = Some nd -> ID nd = Some id ->
    id ∈ seen /\ m !! id = Some n.

(** The angles of the on-circle nodes of a circle, by position. *)
Definition circleAngles (h : list CiSENode) (c : CiSECircle) (i : nat) : float :=
  default 0%float (getAngleAt h c i).

(** The circle holds the matrix of the test of [computeOrderMatrix] on the
    angles its nodes have in [h], all of which can be read. *)
Definition hasTestedMatrix (h : list CiSENode) (c : CiSECircle) : Prop :=
  (forall i, (i < length (onCircleNodes c))%nat ->
     getAngleAt h c i = Some (circleAngles h c i)) /\
  exists m, orderMatrix c = Some m /\
            isMatrixOf (orderTest (circleAngles h c))
              (length (onCircleNodes c)) m.

(** The circle holds the order matrix of the angles its nodes have in [h],
    all of which can be read. *)
Definition hasOrderMatrix (h : list CiSENode) (c : CiSECircle) : Prop :=
  (forall i, (i < length (onCircleNodes c))%nat ->
     getAngleAt h c i = Some (circleAngles h c i)) /\
  exists m, orderMatrix c = Some m /\
            isOrderMatrix (circleAngles h c) (length (onCircleNodes c)) m.


(** * Properties *)

(** ** Tables *)

(** Reading a table yields an object of the program exactly where one was
    assigned. *)
Lemma entryOf_tableGet {V : Type} (table : gmap string V) (key : string) :
  entryOf (tableGet table key) = table !! key.
Proof.
  unfold tableGet. destruct (table !! key); [done|].
  case_bool_decide; [done|]. by destruct (table !! "__proto__").
Qed.

Lemma entryOf_hashMapGet {V : Type} (m : gmap string V) (key : string) :
  entryOf (hashMapGet m key) = m !! key.
Proof. apply entryOf_tableGet. Qed.

Lemma tableGet_Entry {V : Type} (table : gmap string V) (key : string) (v : V) :
  tableGet table key = Entry v <-> table !! key = Some v.
Proof.
  rewrite <- entryOf_tableGet. destruct (tableGet table key); simpl;
    split; intros; by simplify_eq.
Qed.

(** ** Loops *)

Lemma forEachM_app {A S : Type} (f : S -> A -> option S) (l1 l2 : list A) (s : S) :
  forEachM f (l1 ++ l2) s = forEachM f l1 s ≫= forEachM f l2.
Proof.
  revert s. induction l1 as [|a l1 IH]; intros s; simpl; [done|].
  destruct (f s a) as [s'|]; simpl; [apply IH | done].
Qed.

(** An invariant kept by every turn holds when the loop ends. *)
Lemma forEachM_inv {A S : Type} (I : S -> Prop) (f : S -> A -> option S)
  (l : list A) (s s' : S) :
  (forall s a s', a ∈ l -> I s -> f s a = Some s' -> I s') ->
  I s -> forEachM f l s = Some s' -> I s'.
Proof.
  revert s. induction l as [|a l IH]; intros s Hstep Hs Hrun; simpl in Hrun.
  - by simplify_eq.
  - destruct (f s a) as [s1|] eqn:Hf; simpl in Hrun; [|done].
    apply (IH s1); [|by eapply Hstep; [left| |]|done].
    intros s2 b s3 Hb. apply Hstep. by right.
Qed.

(** The same, read from a run. *)
Lemma forEachM_run_inv {A S : Type} (I : S -> Prop) (f : S -> A -> option S)
  (l : list A) (s s' : S) :
  forEachM f l s = Some s' -> I s ->
  (forall s a s', a ∈ l -> I s -> f s a = Some s' -> I s') -> I s'.
Proof. intros Hrun Hs Hstep. by eapply forEachM_inv. Qed.

(** The same with the elements already handled in view. *)
Lemma forEachM_inv_prefix {A S : Type} (I : list A -> S -> Prop)
  (f : S -> A -> option S) (l : list A) (s s' : S) :
  (forall pre a suf s s',
     l = pre ++ a :: suf -> I pre s -> f s a = Some s' -> I (pre ++ [a]) s') ->
  I [] s -> forEachM f l s = Some s' -> I l s'.
Proof.
  intros Hstep.
  assert (forall suf pre s, l = pre ++ suf -> I pre s ->
            forEachM f suf s = Some s' -> I l s') as H.
  { induction suf as [|a suf IH]; intros pre s0 Hl Hs Hrun; simpl in Hrun.
    - rewrite app_nil_r in Hl. by simplify_eq.
    - destruct (f s0 a) as [s1|] eqn:Hf; simpl in Hrun; [|done].
      apply (IH (pre ++ [a]) s1); [by rewrite <- app_assoc| |done].
      by eapply Hstep. }
  intros Hs Hrun. by apply (H l [] s).
Qed.

(** A loop whose body never throws is a fold. *)
Lemma forEachM_total {A S : Type} (f : S -> A -> option S) (g : S -> A -> S)
  (l : list A) (s : S) :
  (forall s a, a ∈ l -> f s a = Some (g s a)) ->
  forEachM f l s = Some (foldl g s l).
Proof.
  revert s. induction l as [|a l IH]; intros s H; simpl; [done|].
  rewrite H by left. simpl. apply IH. intros s' b Hb. apply H. by right.
Qed.

(** ** The accessor of the intra-cluster edges *)

(** What [getIntraClusterEdges] hands back is the memo of the inter-cluster
    edges; the intra-cluster edges are computed into their own memo. *)
Lemma getIntraClusterEdges_result (c : CiSECircle) :
  (getIntraClusterEdges c).1 = interClusterEdges c /\
  (intraClusterEdges c = None ->
   intraClusterEdges (getIntraClusterEdges c).2 =
     Some (filter (fun e => isIntraCluster e = true) (edges (base c)))).
Proof.
  unfold getIntraClusterEdges. destruct (intraClusterEdges c) eqn:E; simpl;
    split; try done.
Qed.

(** C1: on the first circle of the worked graph, whose edges are the two
    intra-cluster edges a-b and b-c, [getIntraClusterEdges] returns null
    after construction, and the list of the circle's two inter-cluster edges
    once [prepareCirclesForReversal] has filled that memo; the intra-cluster
    edges end up in a field the accessor does not return. *)
Theorem C1_getIntraClusterEdges_returns_inter_memo :
  (ly ← Ex.built1;
   c ← circles (graphManager ly) !! 0%nat;
   Some (edges (base c), (getIntraClusterEdges c).1,
         intraClusterEdges (getIntraClusterEdges c).2))
  = Some ([mkCiSEEdge 2 3 true; mkCiSEEdge 3 4 true], None,
          Some [mkCiSEEdge 2 3 true; mkCiSEEdge 3 4 true]) /\
  (ly ← Ex.run [ConvertToClusteredGraph Ex.nodes1 Ex.edges1 Ex.clusters1;
                PrepareCirclesForReversal];
   c ← circles (graphManager ly) !! 0%nat;
   Some (getIntraClusterEdges c).1)
  = Some (Some [mkCiSEEdge 2 6 false; mkCiSEEdge 6 2 false]).
Proof. split; vm_compute; reflexivity. Qed.

(** ** The indices of a reduced edge *)

(** C2: on a circle of eleven nodes in index order whose nodes 2 and 10 are
    joined to one outside node, the indices gathered for the reduced edge are
    2 and 10, and the list read by the largest-gap scan is 10, 2: the sort
    without a comparator orders the numbers as strings.  The representative
    index comes out as 6. *)
Theorem C2_indices_sorted_as_strings :
  (ly ← Ex.laidOut11;
   '(tb, gm) ← buildReducedGraph (graphManager ly);
   ciseEdges ← coseEdgeToCiseEdges tb !! 0%nat;
   Some (gatherEdgeIndices gm 0 ciseEdges,
         edgeIndicesForScan gm 0 ciseEdges,
         representativeIndex gm 0 ciseEdges))
  = Some (Some [2; 10]%Z, Some [10; 2]%Z, Some 6%float).
Proof. vm_compute. reflexivity. Qed.

(** C4: on a circle of 6 on-circle nodes the circular-mean heuristic gives
    the representative index 0 for the indices [0,1,5] (the index 5 behind
    the largest gap is lowered by 6 before averaging) and the representative
    index 2 for the indices [1,2,3] (nothing is lowered, the largest gap being
    the wrap-around one).  Where the mean of the lowered indices is negative,
    6 is added back: the indices [0,4,5] are lowered to [0,-2,-1], whose mean
    is -1, and the representative index is 5; the indices [0,5] are lowered
    to [0,-1], whose mean is -0.5, and the representative index is 5.5. *)
Theorem C4_circular_mean_examples :
  CircularMean.adjustIndices 6 (CircularMean.sortedIndices [0; 1; 5]%Z)
    = [0; 1; -1]%Z /\
  CircularMean.averageIndex 6 [0; 1; 5]%Z = 0%float /\
  CircularMean.adjustIndices 6 (CircularMean.sortedIndices [1; 2; 3]%Z)
    = [1; 2; 3]%Z /\
  CircularMean.averageIndex 6 [1; 2; 3]%Z = 2%float /\
  CircularMean.adjustIndices 6 (CircularMean.sortedIndices [0; 4; 5]%Z)
    = [0; -2; -1]%Z /\
  PrimFloat.div (Num.ofZ (foldl Z.add 0%Z [0; -2; -1]%Z)) (Num.ofZ 3)
    = (-1)%float /\
  CircularMean.averageIndex 6 [0; 4; 5]%Z = 5%float /\
  CircularMean.adjustIndices 6 (CircularMean.sortedIndices [5; 0]%Z)
    = [0; -1]%Z /\
  PrimFloat.div (Num.ofZ (foldl Z.add 0%Z [0; -1]%Z)) (Num.ofZ 2)
    = (-0.5)%float /\
  CircularMean.averageIndex 6 [5; 0]%Z = 5.5%float.
Proof.
  do 9 (split; [vm_compute; reflexivity|]). vm_compute. reflexivity.
Qed.

(** ** The order matrix *)


Lemma squareOf_setCell N i j v m : squareOf N m -> squareOf N (setCell i j v m).
Proof.
  intros [Hl Hr]. split; unfold setCell.
  - by rewrite length_alter.
  - intros row Hin. apply list_elem_of_lookup in Hin as [a Ha].
    destruct (decide (a = i)) as [->|Hne].
    + rewrite list_lookup_alter_eq in Ha.
      destruct (m !! i) as [r|] eqn:E; simplify_eq/=.
      rewrite length_insert. apply Hr. by eapply list_elem_of_lookup_2.
    + rewrite list_lookup_alter_ne in Ha by done.
      apply Hr. by eapply list_elem_of_lookup_2.
Qed.

Lemma cellAt_setCell N i j v m a b :
  squareOf N m -> (i < N)%nat -> (j < N)%nat ->
  cellAt (setCell i j v m) a b =
    if bool_decide (a = i /\ b = j) then Some (Some v) else cellAt m a b.
Proof.
  intros [Hl Hr] Hi Hj. unfold cellAt, setCell.
  destruct (decide (a = i)) as [->|Hne].
  - rewrite list_lookup_alter_eq.
    destruct (m !! i) as [r|] eqn:E; simpl.
    + assert (length r = N) as Hlen by (apply Hr; by eapply list_elem_of_lookup_2).
      destruct (decide (b = j)) as [->|Hb].
      * rewrite bool_decide_eq_true_2 by done.
        apply list_lookup_insert_eq. lia.
      * rewrite bool_decide_eq_false_2 by (intros [_ ?]; done).
        by rewrite list_lookup_insert_ne.
    + apply lookup_ge_None in E. lia.
  - rewrite list_lookup_alter_ne by done.
    by rewrite bool_decide_eq_false_2 by (intros [? _]; done).
Qed.

(** Closes a goal whose hypotheses about pairs of positions contradict each
    other. *)
Ltac case_split_contra :=
  repeat match goal with
         | H : _ /\ _ |- _ => destruct H
         | H : _ ∈ _ :: _ |- _ => apply elem_of_cons in H as [?|?]
         end;
  subst; try done; try lia; exfalso;
  match goal with
  | H : ¬ _ |- _ =>
      apply H; repeat split;
      solve [ done | lia | by left | by right ]
  end.

Section OrderMatrix.

Variable t : nat -> nat -> bool.

Local Abbreviation orderCellOf := (orderCellOf t).


Lemma squareOf_orderCellOf N i m j : squareOf N m -> squareOf N (orderCellOf i m j).
Proof.
  intros H. unfold orderCellOf.
  destruct (i <? j)%nat; [|done].
  destruct (t i j); by do 2 apply squareOf_setCell.
Qed.

Lemma cellAt_orderCellOf N i m j a b :
  squareOf N m -> (i < N)%nat -> (j < N)%nat ->
  cellAt (orderCellOf i m j) a b =
    if bool_decide (a = i /\ b = j /\ (i < j)%nat)
    then Some (Some (t i j))
    else if bool_decide (a = j /\ b = i /\ (i < j)%nat)
    then Some (Some (negb (t i j)))
    else cellAt m a b.
Proof.
  intros Hsq Hi Hj. unfold orderCellOf.
  destruct (Nat.ltb_spec i j) as [Hlt|Hge].
  - destruct (t i j);
      rewrite (cellAt_setCell N) by (try apply squareOf_setCell; done);
      rewrite (cellAt_setCell N) by done;
      repeat case_bool_decide; try done; try lia; naive_solver lia.
  - repeat case_bool_decide; try done; lia.
Qed.

Lemma squareOf_row N i m js :
  squareOf N m -> squareOf N (foldl (orderCellOf i) m js).
Proof.
  revert m. induction js as [|j js IH]; intros m H; simpl; [done|].
  apply IH. by apply squareOf_orderCellOf.
Qed.

(** The cells after the inner loop for row [i] over the columns [js]. *)
Lemma cellAt_row N i m js a b :
  squareOf N m -> (i < N)%nat -> (forall j, j ∈ js -> (j < N)%nat) ->
  cellAt (foldl (orderCellOf i) m js) a b =
    if bool_decide (a = i /\ (i < b)%nat /\ b ∈ js)
    then Some (Some (t i b))
    else if bool_decide (b = i /\ (i < a)%nat /\ a ∈ js)
    then Some (Some (negb (t i a)))
    else cellAt m a b.
Proof.
  revert m. induction js as [|j js IH]; intros m Hsq Hi Hjs; simpl.
  - rewrite !bool_decide_eq_false_2; [done| |]; intros (_ & _ & H); inversion H.
  - rewrite IH; [|by apply squareOf_orderCellOf|done|intros; apply Hjs; by right].
    rewrite (cellAt_orderCellOf N) by (try done; apply Hjs; by left).
    repeat case_bool_decide; try done; case_split_contra.
Qed.

Lemma squareOf_rows N m is_ js :
  squareOf N m ->
  squareOf N (foldl (fun m i => foldl (orderCellOf i) m js) m is_).
Proof.
  revert m. induction is_ as [|i is_ IH]; intros m H; simpl; [done|].
  apply IH. by apply squareOf_row.
Qed.

(** The cells after the outer loop over the rows [is_], the columns being all
    of [0..N-1]. *)
Lemma cellAt_rows N m is_ a b :
  squareOf N m -> (forall i, i ∈ is_ -> (i < N)%nat) ->
  (a < N)%nat -> (b < N)%nat ->
  cellAt (foldl (fun m i => foldl (orderCellOf i) m (seq 0 N)) m is_) a b =
    if bool_decide ((a < b)%nat /\ a ∈ is_)
    then Some (Some (t a b))
    else if bool_decide ((b < a)%nat /\ b ∈ is_)
    then Some (Some (negb (t b a)))
    else cellAt m a b.
Proof.
  revert m. induction is_ as [|i is_ IH]; intros m Hsq His Ha Hb; simpl.
  - rewrite !bool_decide_eq_false_2; [done| |]; intros (_ & H); inversion H.
  - rewrite IH; [|by apply squareOf_row|intros; apply His; by right|done|done].
    rewrite (cellAt_row N); [|done|apply His; by left|].
    2:{ intros j Hj. apply elem_of_seq in Hj. lia. }
    assert (a ∈ seq 0 N) by (apply elem_of_seq; lia).
    assert (b ∈ seq 0 N) by (apply elem_of_seq; lia).
    repeat case_bool_decide; try done; case_split_contra.
Qed.

End OrderMatrix.


Lemma squareOf_replicate N : squareOf N (replicate N (replicate N None)).
Proof.
  split; [by rewrite length_replicate|].
  intros row Hin. apply elem_of_replicate in Hin as [-> _].
  by rewrite length_replicate.
Qed.

Lemma cellAt_replicate N a b :
  (a < N)%nat -> (b < N)%nat ->
  cellAt (replicate N (replicate N None)) a b = Some None.
Proof.
  intros Ha Hb. unfold cellAt.
  rewrite lookup_replicate_2 by done. simpl. by rewrite lookup_replicate_2.
Qed.

Lemma isMatrixOf_fold t N :
  isMatrixOf t N
    (foldl (fun m i => foldl (orderCellOf t i) m (seq 0 N))
           (replicate N (replicate N None)) (seq 0 N)).
Proof.
  pose proof (squareOf_replicate N) as Hsq.
  assert (forall i, i ∈ seq 0 N -> (i < N)%nat) as Hseq
    by (intros i Hi; apply elem_of_seq in Hi; lia).
  assert (forall a b, (a < b)%nat -> (b < N)%nat ->
     cellAt (foldl (fun m i => foldl (orderCellOf t i) m (seq 0 N))
               (replicate N (replicate N None)) (seq 0 N)) a b
       = Some (Some (t a b)) /\
     cellAt (foldl (fun m i => foldl (orderCellOf t i) m (seq 0 N))
               (replicate N (replicate N None)) (seq 0 N)) b a
       = Some (Some (negb (t a b)))) as Hpair.
  { intros a b Hab Hb.
    assert (a ∈ seq 0 N) by (apply elem_of_seq; lia).
    split; rewrite (cellAt_rows t N) by (done || lia).
    - by rewrite bool_decide_eq_true_2.
    - rewrite bool_decide_eq_false_2 by lia. by rewrite bool_decide_eq_true_2. }
  split; [by apply squareOf_rows|]. split; [done|]. split.
  - intros i j Hne Hi Hj. destruct (decide (i < j)%nat) as [Hlt|Hge].
    + destruct (Hpair i j Hlt Hj) as [H1 H2]. eauto.
    + destruct (Hpair j i ltac:(lia) Hi) as [H1 H2].
      exists (negb (t j i)).
      by rewrite negb_involutive.
  - intros i Hi. rewrite (cellAt_rows t N) by done.
    rewrite !bool_decide_eq_false_2 by lia. by apply cellAt_replicate.
Qed.

Lemma orderCell_read h c angles i m j :
  (forall i, (i < length (onCircleNodes c))%nat -> getAngleAt h c i = Some (angles i)) ->
  (i < length (onCircleNodes c))%nat -> (j < length (onCircleNodes c))%nat ->
  orderCell h c i m j = Some (orderCellOf (orderTest angles) i m j).
Proof.
  intros Hang Hi Hj. unfold orderCell, orderCellOf, orderTest.
  destruct (i <? j)%nat; [|done].
  rewrite !Hang by done. simpl.
  by destruct (PrimFloat.leb _ _).
Qed.

(** [computeOrderMatrix] returns, and stores the matrix of its test of the
    angles. *)
Lemma computeOrderMatrix_test h c angles :
  (forall i, (i < length (onCircleNodes c))%nat ->
             getAngleAt h c i = Some (angles i)) ->
  exists m,
    computeOrderMatrix h c = Some (setOrderMatrix m c) /\
    isMatrixOf (orderTest angles) (length (onCircleNodes c)) m.
Proof.
  intros Hang. eexists. split; [|apply isMatrixOf_fold].
  unfold computeOrderMatrix.
  erewrite (forEachM_total _
              (fun m i => foldl (orderCellOf (orderTest angles) i) m
                            (seq 0 (length (onCircleNodes c))))); [done|].
  intros m i Hi. apply elem_of_seq in Hi.
  apply forEachM_total. intros m' j Hj. apply elem_of_seq in Hj.
  apply orderCell_read; [done|lia|lia].
Qed.

(** Of an angle less than a full turn away from 0 nothing is taken off. *)
Lemma rem_within d :
  PrimFloat.ltb (PrimFloat.abs d) Num.TWO_PI = true -> Num.rem d Num.TWO_PI = d.
Proof.
  intros H. unfold Num.rem.
  change (PrimFloat.abs Num.TWO_PI) with Num.TWO_PI. by rewrite H.
Qed.

(** For two angles less than a full turn apart, the difference that
    [computeOrderMatrix] takes (lines 208-214: one turn is added when it is
    negative) is the normalized clockwise difference. *)
Lemma angleDiff_clockwiseDifference ai aj :
  withinOneTurn ai aj -> angleDiff ai aj = clockwiseDifference ai aj.
Proof.
  unfold withinOneTurn, angleDiff, clockwiseDifference, normalizedTurn.
  intros H. by rewrite (rem_within _ H).
Qed.

(** Beyond a full turn the two part: from a node at angle 7 a node at angle
    0 lies more than half a turn clockwise, but with the single turn that
    [computeOrderMatrix] adds the difference comes out below pi. *)
Lemma angleDiff_beyond_one_turn :
  orderTest (fun i => if (i =? 0)%nat then 7%float else 0%float) 0 1 = true /\
  clockwiseWithinHalfTurn
    (fun i => if (i =? 0)%nat then 7%float else 0%float) 0 1 = false.
Proof. split; vm_compute; reflexivity. Qed.

(** The matrix of the test of [computeOrderMatrix] is the order matrix. *)
Lemma isMatrixOf_isOrderMatrix angles N m :
  isMatrixOf (orderTest angles) N m -> isOrderMatrix angles N m.
Proof.
  intros (Hsq & Hpair & Hanti & Hdiag).
  split; [done|]. split; [|done].
  intros i j Hij Hj Hturn. unfold clockwiseWithinHalfTurn.
  rewrite <- (angleDiff_clockwiseDifference _ _ Hturn). by apply Hpair.
Qed.



(** ** Reversal preparation *)

Lemma computeOrderMatrix_Some h c c' :
  computeOrderMatrix h c = Some c' -> exists m, c' = setOrderMatrix m c.
Proof.
  unfold computeOrderMatrix. intros H.
  apply bind_Some in H as (m & _ & H). exists m. by simplify_eq.
Qed.

Lemma getInterClusterEdges_Some h c l c' :
  getInterClusterEdges h c = Some (l, c') ->
  interClusterEdges c' = Some l /\
  mayBeReversed c' = mayBeReversed c /\
  (c' = c \/ c' = setInterClusterEdges l c).
Proof.
  unfold getInterClusterEdges. destruct (interClusterEdges c) as [l0|] eqn:E.
  - intros ?; simplify_eq. auto.
  - intros H. apply bind_Some in H as (l1 & _ & H). simplify_eq. auto.
Qed.

(** Once the memo is filled, [getInterClusterEdges] returns it. *)
Lemma getInterClusterEdges_memo h c l :
  interClusterEdges c = Some l -> getInterClusterEdges h c = Some (l, c).
Proof. unfold getInterClusterEdges. by intros ->. Qed.

(** One turn of [prepareCirclesForReversal]: a node without a child changes
    nothing; for the parent of the circle at [k] that circle, and only it, is
    replaced by one with the memo of its inter-cluster edges filled, the flag
    cleared when they are fewer than two, and the order matrix set. *)
Lemma prepareCircle_Some gm n gm' :
  prepareCircle gm n = Some gm' ->
  heap gm' = heap gm /\ rootGraph gm' = rootGraph gm /\
  exists nd, heap gm !! n = Some nd /\
    ((child nd = None /\ gm' = gm) \/
     (exists k c l c',
        child nd = Some (CircleGraph k) /\ circles gm !! k = Some c /\
        circles gm' = <[k := c']> (circles gm) /\
        interClusterEdges c' = Some l /\
        ((length l < 2)%nat -> mayBeReversed c' = false) /\
        (mayBeReversed c = false -> mayBeReversed c' = false))).
Proof.
  unfold prepareCircle. intros H.
  apply bind_Some in H as (nd & Hnd & H).
  destruct (child nd) as [[|k]|] eqn:Hch; [done| |].
  - apply bind_Some in H as (c & Hc & H).
    apply bind_Some in H as ([l c1] & Hget & H).
    apply bind_Some in H as (c2 & Hcom & H). simplify_eq. simpl.
    split; [done|]. split; [done|]. exists nd. split; [done|]. right.
    apply getInterClusterEdges_Some in Hget as (Hmemo & Hflag & _).
    apply computeOrderMatrix_Some in Hcom as [m ->].
    exists k, c, l, (setOrderMatrix m
      (if (length l <? 2)%nat then setMayNotBeReversed c1 else c1)).
    repeat split; try done.
    + by destruct (length l <? 2)%nat.
    + intros Hlt. apply Nat.ltb_lt in Hlt. by rewrite Hlt.
    + intros Hc0. destruct (length l <? 2)%nat; simpl; congruence.
  - simplify_eq. split; [done|]. split; [done|]. exists nd. auto.
Qed.

(** C8: after [prepareCirclesForReversal], every circle that is the child of
    a node of the root graph and whose list of inter-cluster edges (what
    [getInterClusterEdges] returns for it) has fewer than two elements, none
    or exactly one, has [mayBeReversed] false. *)
Theorem C8_few_inter_cluster_edges_not_reversible
  (gm gm' : CiSEGraphManager) (n : nat) (nd : CiSENode) (k : nat) :
  prepareCirclesForReversal gm = Some gm' ->
  n ∈ nodes (rootGraph gm) ->
  heap gm !! n = Some nd ->
  child nd = Some (CircleGraph k) ->
  exists c l,
    circles gm' !! k = Some c /\
    getInterClusterEdges (heap gm') c = Some (l, c) /\
    ((length l < 2)%nat -> mayBeReversed c = false).
Proof.
  intros Hrun Hn Hnd Hch.
  pose (I := fun (pre : list nat) (s : CiSEGraphManager) =>
     heap s = heap gm /\
     forall n nd k, n ∈ pre -> heap gm !! n = Some nd ->
       child nd = Some (CircleGraph k) ->
       exists c l, circles s !! k = Some c /\ interClusterEdges c = Some l /\
                   ((length l < 2)%nat -> mayBeReversed c = false)).
  assert (I (nodes (rootGraph gm)) gm') as [Hheap HI].
  { eapply (forEachM_inv_prefix I); [|by split; [|intros ??? H; inversion H]|exact Hrun].
    intros pre a suf s s' _ [Hh Hpre] Hstep.
    apply prepareCircle_Some in Hstep as (Hh' & _ & nda & Hnda & Hcase).
    split; [congruence|].
    intros n0 nd0 k0 Hin Hnd0 Hch0.
    destruct Hcase as [[Hnone ->]|(k1 & c & l & c' & Hch1 & Hc & Hcs & Hmemo & Hfew & _)].
    - apply elem_of_app in Hin as [Hin|Hin]; [by eapply Hpre|].
      apply list_elem_of_singleton in Hin as ->. rewrite Hh in Hnda. congruence.
    - rewrite Hcs. destruct (decide (k0 = k1)) as [->|Hne].
      + exists c', l. rewrite list_lookup_insert_eq by by eapply lookup_lt_Some.
        done.
      + rewrite list_lookup_insert_ne by done.
        apply elem_of_app in Hin as [Hin|Hin]; [by eapply Hpre|].
        apply list_elem_of_singleton in Hin as ->. rewrite Hh in Hnda. congruence. }
  destruct (HI n nd k Hn Hnd Hch) as (c & l & Hc & Hmemo & Hfew).
  exists c, l. split; [done|]. split; [|done]. by apply getInterClusterEdges_memo.
Qed.

Lemma C8_few_inter_cluster_edges_witness :
  exists c l,
    circles (Ex.gmOf Ex.prepared2) !! 1%nat = Some c /\
    getInterClusterEdges (heap (Ex.gmOf Ex.prepared2)) c = Some (l, c) /\
    ((length l < 2)%nat -> mayBeReversed c = false).
Proof.
  apply (C8_few_inter_cluster_edges_not_reversible
           (Ex.gmOf Ex.laidOut2) (Ex.gmOf Ex.prepared2) 5
           (Ex.nodeOf Ex.laidOut2 5) 1).
  - vm_compute. reflexivity.
  - apply list_elem_of_In. vm_compute. auto.
  - vm_compute. reflexivity.
  - vm_compute. reflexivity.
Defined.

(** ** Construction of the clustered graph *)

Lemma alter_snoc {A : Type} (f : A -> A) (l : list A) (x : A) :
  alter f (length l) (l ++ [x]) = l ++ [f x].
Proof.
  rewrite alter_app_r_alt by done. by rewrite Nat.sub_diag.
Qed.

(** What one member adds (lines 204-223). *)
Lemma addClusterMember_Some tbl i k gm m nodeID st' :
  addClusterMember tbl i k (gm, m) nodeID = Some st' ->
  exists cy, tbl !! nodeID = Some cy /\
    st' = (mkGM (heap gm ++ [memberNode i k nodeID cy]) (rootGraph gm)
             (alter (addMember (length (heap gm))) k (circles gm))
             (gmEdges gm) (allNodes gm) (allEdges gm)
             (gmOnCircleNodes gm) (nonOnCircleNodes gm),
           <[nodeID := length (heap gm)]> m).
Proof.
  unfold addClusterMember, tableSet. rewrite entryOf_hashMapGet. intros H.
  apply bind_Some in H as (cy & Hcy & H). exists cy. split; [done|].
  simpl in H. simplify_eq. f_equal.
  unfold LGraph_addNode, updGraph, updCircle, updNode, setCircles, setHeap,
    alloc; simpl.
  f_equal.
  - by rewrite alter_snoc.
  - rewrite !list_alter_alter_eq. done.
Qed.

(** The start of a cluster (lines 187-201). *)
Lemma addCluster_unfold tbl gm m i ids :
  addCluster tbl (gm, m) (i, ids) =
  forEachM (addClusterMember tbl i (length (circles gm))) ids
           (clusterStart i gm, m).
Proof.
  unfold addCluster, clusterStart. simpl. f_equal. f_equal.
  unfold LGraphManager_addGraph, LGraph_addNode, updGraph, updCircle, updNode,
    setCircles, setHeap, setRootGraph; simpl.
  f_equal.
  - by rewrite list_alter_alter_eq, alter_snoc.
  - by rewrite alter_snoc.
Qed.

(** What an unclustered node adds (lines 235-249). *)
Lemma addUnclustered_unfold clusters gm m cy :
  addUnclustered clusters (gm, m) cy =
  if existsb (fun cluster => bool_decide (cyId cy ∈ cluster)) clusters
  then (gm, m)
  else (mkGM (heap gm ++ [unclusteredNode cy])
             (pushNode (length (heap gm)) (rootGraph gm))
             (circles gm) (gmEdges gm) (allNodes gm) (allEdges gm)
             (gmOnCircleNodes gm) (nonOnCircleNodes gm),
        <[cyId cy := length (heap gm)]> m).
Proof.
  unfold addUnclustered, tableSet. destruct (existsb _ _); [done|]. simpl.
  unfold LGraph_addNode, updGraph, updNode, setHeap, setRootGraph; simpl.
  by rewrite alter_snoc.
Qed.

Lemma circleOk_heap_app h h' k c : circleOk h k c -> circleOk (h ++ h') k c.
Proof.
  intros [Hnd Hin]. split; [done|]. intros n Hn.
  destruct (Hin n Hn) as (nd & Hl & Ho). exists nd.
  split; [by apply lookup_app_l_Some|done].
Qed.

Lemma Built_heap_snoc gm m nd gm' :
  Built gm m -> nodeOk nd ->
  heap gm' = heap gm ++ [nd] -> circles gm' = circles gm ->
  Built gm' m.
Proof.
  intros [Hn Hc Hm] Hok Hh Hcs. split.
  - intros n nd0. rewrite Hh. intros [[_ ?]|[_ ->]]%lookup_snoc_Some; [|done].
    naive_solver.
  - intros k c. rewrite Hcs, Hh. intros Hk. apply circleOk_heap_app. eauto.
  - intros i n Hi. destruct (Hm i n Hi) as (nd0 & Hl & Hid). exists nd0.
    rewrite Hh. split; [by apply lookup_app_l_Some|done].
Qed.

Lemma Built_map_insert gm m i n nd :
  Built gm m -> heap gm !! n = Some nd -> is_Some (ID nd) ->
  Built gm (<[i := n]> m).
Proof.
  intros [Hn Hc Hm] Hl Hid. split; [done|done|].
  intros j n0 [[-> ->]|[_ ?]]%lookup_insert_Some; eauto.
Qed.

(** The start of cluster [i] keeps the construction well formed when the
    circles so far are [i] in number. *)
Lemma clusterStart_Built gm m :
  Built gm m -> Fresh gm ->
  Built (clusterStart (length (circles gm)) gm) m /\
  Fresh (clusterStart (length (circles gm)) gm).
Proof.
  intros HB HF. split.
  - destruct (Built_heap_snoc gm m
                (placeholderNode (length (circles gm)) (length (circles gm)))
                (setHeap (heap gm ++ [placeholderNode (length (circles gm))
                                         (length (circles gm))]) gm) HB)
      as [Hn Hc Hm]; [by unfold nodeOk|done|done|].
    simpl in Hn, Hc, Hm. split; [done| |done].
    intros k c. simpl. intros [[_ ?]|[_ <-]]%lookup_snoc_Some; [by apply Hc|].
    split; [constructor|]. simpl. intros n Hn0. inversion Hn0.
  - destruct HF as [Hr Hg Hmemo Hcs]. split; try done.
    intros k c. simpl. intros [[_ ?]|[_ <-]]%lookup_snoc_Some; [by eapply Hcs|done].
Qed.

(** One member keeps the construction well formed; it goes to the circle at
    the position of its cluster. *)
Lemma addClusterMember_Built tbl i gm m nodeID st' :
  Built gm m -> Fresh gm ->
  addClusterMember tbl i i (gm, m) nodeID = Some st' ->
  Built st'.1 st'.2 /\ Fresh st'.1 /\
  length (circles st'.1) = length (circles gm).
Proof.
  intros HB HF H. apply addClusterMember_Some in H as (cy & _ & ->). simpl.
  assert (forall k c n, circles gm !! k = Some c -> n ∈ onCircleNodes c ->
            (n < length (heap gm))%nat) as Hlt.
  { intros k c n Hk Hn. destruct (built_circles _ _ HB k c Hk) as [_ Hin].
    destruct (Hin n Hn) as (nd & Hl & _). by eapply lookup_lt_Some. }
  split; [|split; [|by rewrite length_alter]].
  - apply (Built_map_insert _ _ _ _ (memberNode i i nodeID cy));
      [|by apply list_lookup_middle|by eexists].
    destruct HB as [Hn Hc Hm]. split; simpl.
    + intros n nd. intros [[_ ?]|[_ <-]]%lookup_snoc_Some; [by eapply Hn|].
      unfold nodeOk; simpl. repeat split; by eexists.
    + intros k c Hk. destruct (decide (k = i)) as [->|Hne].
      * rewrite list_lookup_alter_eq in Hk.
        destruct (circles gm !! i) as [c0|] eqn:Hc0; simplify_eq/=.
        destruct (Hc i c0 Hc0) as [Hnd Hin]. split; simpl.
        -- apply NoDup_app. split; [done|]. split; [|apply NoDup_singleton].
           intros x Hx ->%list_elem_of_singleton.
           specialize (Hlt i c0 _ Hc0 Hx). lia.
        -- intros n [Hn0| ->%list_elem_of_singleton]%elem_of_app.
           ++ destruct (Hin n Hn0) as (nd & Hl & Ho). exists nd.
              split; [by apply lookup_app_l_Some|done].
           ++ exists (memberNode i i nodeID cy).
              split; [by apply list_lookup_middle|done].
      * rewrite list_lookup_alter_ne in Hk by done.
        apply circleOk_heap_app. by apply Hc.
    + intros j n Hj. destruct (Hm j n Hj) as (nd & Hl & Hid). exists nd.
      split; [by apply lookup_app_l_Some|done].
  - destruct HF as [Hr Hg Hmemo Hcs]. split; try done.
    intros k c. simpl. intros Hk. destruct (decide (k = i)) as [->|Hne].
    + rewrite list_lookup_alter_eq in Hk.
      destruct (circles gm !! i) as [c0|] eqn:Hc0; simplify_eq/=.
      destruct (Hcs i c0 Hc0) as (He & Hin & Hout & Hnodes).
      repeat split; try done; by f_equal.
    + rewrite list_lookup_alter_ne in Hk by done. by eapply Hcs.
Qed.

(** A whole cluster keeps the construction well formed and adds one circle. *)
Lemma addCluster_Built tbl gm m ids st' :
  Built gm m -> Fresh gm ->
  addCluster tbl (gm, m) (length (circles gm), ids) = Some st' ->
  Built st'.1 st'.2 /\ Fresh st'.1 /\
  length (circles st'.1) = S (length (circles gm)).
Proof.
  intros HB HF. rewrite addCluster_unfold.
  destruct (clusterStart_Built gm m HB HF) as [HB1 HF1].
  apply (forEachM_inv
           (fun st => Built st.1 st.2 /\ Fresh st.1 /\
                      length (circles st.1) = S (length (circles gm)))).
  - intros [gm1 m1] a st1 _ (HB2 & HF2 & Hlen) Hstep. simpl in *.
    destruct (addClusterMember_Built _ _ _ _ _ _ HB2 HF2 Hstep)
      as (? & ? & Hlen'). split; [done|]. split; [done|]. by rewrite Hlen'.
  - simpl. split; [done|]. split; [done|]. rewrite length_app. simpl. lia.
Qed.

Lemma Built_newGraphManager : Built newGraphManager ∅ /\ Fresh newGraphManager.
Proof.
  split; split; try done.
  - intros [|n] nd; simpl; [|done]. intros ?; simplify_eq. by unfold nodeOk.
Qed.

(** The loop over the clusters (lines 185-224). *)
Lemma clusters_Built tbl clusters st' :
  forEachM (addCluster tbl) (imap (fun i c => (i, c)) clusters)
           (newGraphManager, ∅) = Some st' ->
  Built st'.1 st'.2 /\ Fresh st'.1 /\
  length (circles st'.1) = length clusters.
Proof.
  intros Hrun.
  assert (length (circles st'.1) = length (imap (fun i c => (i, c)) clusters)
          /\ Built st'.1 st'.2 /\ Fresh st'.1) as (Hlen & ? & ?).
  { eapply (forEachM_inv_prefix
              (fun pre st => length (circles st.1) = length pre /\
                             Built st.1 st.2 /\ Fresh st.1));
      [| |exact Hrun].
    - intros pre [i ids] suf [gm m] st1 Hl (Hlen & HB & HF) Hstep. simpl in *.
      assert (i = length (circles gm)) as ->.
      { assert (imap (fun i c => (i, c)) clusters !! length pre = Some (i, ids))
          as Hlook by (rewrite Hl; by apply list_lookup_middle).
        rewrite list_lookup_imap in Hlook.
        destruct (clusters !! length pre); simplify_eq/=. done. }
      destruct (addCluster_Built _ _ _ _ _ HB HF Hstep) as (? & ? & Hlen').
      split; [|done]. rewrite length_app. simpl. lia.
    - simpl. destruct Built_newGraphManager. done. }
  rewrite length_imap in Hlen. done.
Qed.

(** The loop over the nodes that adds the unclustered ones (lines 227-250). *)
Lemma unclustered_Built clusters nodes_ gm m :
  Built gm m -> Fresh gm ->
  Built (foldl (addUnclustered clusters) (gm, m) nodes_).1
        (foldl (addUnclustered clusters) (gm, m) nodes_).2 /\
  Fresh (foldl (addUnclustered clusters) (gm, m) nodes_).1 /\
  circles (foldl (addUnclustered clusters) (gm, m) nodes_).1 = circles gm.
Proof.
  revert gm m. induction nodes_ as [|cy l IH]; intros gm m HB HF; simpl; [done|].
  rewrite addUnclustered_unfold. destruct (existsb _ _); [by apply IH|].
  match goal with |- context [foldl _ (?g, ?m') l] =>
    destruct (IH g m') as (? & ? & Hcs) end.
  - apply (Built_map_insert _ _ _ _ (unclusteredNode cy));
      [|by apply list_lookup_middle|by eexists].
    apply (Built_heap_snoc gm m (unclusteredNode cy)); try done.
  - destruct HF as [Hr Hg Hmemo Hcs]. split; done.
  - done.
Qed.

(** *** Adding the edges *)

Lemma eraseEdges_alter (f : CiSENode -> CiSENode) (n : nat) (h : list CiSENode) :
  (forall nd, eraseEdges (f nd) = eraseEdges nd) ->
  eraseEdges <$> alter f n h = eraseEdges <$> h.
Proof.
  intros Hf. rewrite (list_fmap_alter eraseEdges f id).
  - by apply list_alter_id.
  - apply Forall_forall. intros x _. apply Hf.
Qed.

Lemma eraseCircleEdges_alter (f : CiSECircle -> CiSECircle) (k : nat)
  (cs : list CiSECircle) :
  (forall c, eraseCircleEdges (f c) = eraseCircleEdges c) ->
  eraseCircleEdges <$> alter f k cs = eraseCircleEdges <$> cs.
Proof.
  intros Hf. rewrite (list_fmap_alter eraseCircleEdges f id).
  - by apply list_alter_id.
  - apply Forall_forall. intros x _. apply Hf.
Qed.

Lemma concat_alter_push {A B : Type} (F : A -> list B) (f : A -> A) (e : B)
  (k : nat) (cs : list A) (c : A) :
  cs !! k = Some c -> (forall c, F (f c) = F c ++ [e]) ->
  concat (F <$> alter f k cs) ≡ₚ e :: concat (F <$> cs).
Proof.
  intros Hk HF. revert k Hk. induction cs as [|c0 cs IH]; intros [|k] Hk;
    simplify_eq/=.
  - rewrite HF. rewrite <- app_assoc. simpl.
    by rewrite <- Permutation_middle.
  - rewrite (IH k Hk). by rewrite <- Permutation_middle.
Qed.

(** An edge added to a graph (its ends have one owner). *)
Lemma LGraph_addEdge_Some g e gm gm' :
  LGraph_addEdge g e gm = Some gm' ->
  eraseAllEdges gm' = eraseAllEdges gm /\
  allEdgesOf gm' ≡ₚ e :: allEdgesOf gm /\
  gmEdges gm' = gmEdges gm /\
  exists s t, heap gm !! source e = Some s /\ heap gm !! target e = Some t /\
              owner s = owner t.
Proof.
  unfold LGraph_addEdge. intros H.
  apply bind_Some in H as (lg & Hlg & H).
  apply bind_Some in H as (s & Hs & H).
  apply bind_Some in H as (t & Ht & H).
  destruct (bool_decide _ && bool_decide _) eqn:Hchk; [|done].
  apply andb_true_iff in Hchk as [_ Hown%bool_decide_eq_true].
  destruct Hown as [Hown _]. simplify_eq.
  split; [|split; [|split]].
  - destruct g as [|k]; destruct (decide (target e = source e));
      unfold eraseAllEdges, updNode, updGraph, updCircle, setHeap, setCircles,
        setRootGraph; simpl; f_equal;
      rewrite ?eraseEdges_alter, ?eraseCircleEdges_alter; done.
  - assert (forall gm0 : CiSEGraphManager,
      allEdgesOf (if decide (target e = source e)
         then updNode (source e) (pushIncidentEdge e) gm0
         else updNode (target e) (pushIncidentEdge e)
                (updNode (source e) (pushIncidentEdge e) gm0)) = allEdgesOf gm0)
      as -> by (intros gm0; by destruct (decide _)).
    destruct g as [|k]; unfold allEdgesOf; simpl.
    + rewrite <- !app_assoc. simpl. by rewrite <- Permutation_middle.
    + simpl in Hlg. destruct (circles gm !! k) as [c|] eqn:Hc; [|done].
      rewrite (concat_alter_push _ _ e k _ c) by done.
      simpl. symmetry. apply Permutation_middle.
  - by destruct g, (decide _).
  - eauto.
Qed.

(** An edge added through the graph manager. *)
Lemma LGraphManager_addEdge_Some e gm gm' :
  LGraphManager_addEdge e gm = Some gm' ->
  eraseAllEdges gm' = eraseAllEdges gm /\
  allEdgesOf gm' ≡ₚ e :: allEdgesOf gm /\
  (gmEdges gm' = gmEdges gm ++ [e] \/
   gmEdges gm' = gmEdges gm /\
   exists s t, heap gm !! source e = Some s /\ heap gm !! target e = Some t /\
               owner s = owner t).
Proof.
  unfold LGraphManager_addEdge. intros H.
  apply bind_Some in H as (s & Hs & H).
  apply bind_Some in H as (t & Ht & H).
  apply bind_Some in H as (sg & Hsg & H).
  apply bind_Some in H as (tg & Htg & H).
  destruct (decide (sg = tg)) as [->|Hne].
  - apply LGraph_addEdge_Some in H as (? & ? & ? & ?). auto.
  - simplify_eq. split; [|split].
    + unfold eraseAllEdges, updNode, setHeap, setGmEdges; simpl. f_equal.
      by rewrite !eraseEdges_alter.
    + unfold allEdgesOf; simpl. rewrite !app_assoc.
      by rewrite <- Permutation_cons_append.
    + by left.
Qed.

Lemma addCiseEdge_Some e gm gm' :
  addCiseEdge e gm = Some gm' ->
  eraseAllEdges gm' = eraseAllEdges gm /\
  allEdgesOf gm' ≡ₚ e :: allEdgesOf gm /\
  (gmEdges gm' = gmEdges gm ++ [e] \/
   gmEdges gm' = gmEdges gm /\
   exists s t, heap gm !! source e = Some s /\ heap gm !! target e = Some t /\
               owner s = owner t).
Proof.
  unfold addCiseEdge. destruct (isIntraCluster e).
  - intros H. apply bind_Some in H as (s & Hs & H).
    apply bind_Some in H as (g & Hg & H).
    apply LGraph_addEdge_Some in H as (? & ? & ? & ?). auto.
  - apply LGraphManager_addEdge_Some.
Qed.

Lemma eraseEdges_fields nd nd' :
  eraseEdges nd = eraseEdges nd' ->
  ID nd = ID nd' /\ clusterID nd = clusterID nd' /\ rect nd = rect nd' /\
  owner nd = owner nd' /\ child nd = child nd' /\
  onCircleNodeExt nd = onCircleNodeExt nd'.
Proof. unfold eraseEdges. intros [= ? ? ? ? ? ?]. repeat split; assumption. Qed.

Lemma eraseCircleEdges_fields c c' :
  eraseCircleEdges c = eraseCircleEdges c' ->
  parent (base c) = parent (base c') /\ nodes (base c) = nodes (base c') /\
  inNodes c = inNodes c' /\ outNodes c = outNodes c' /\
  onCircleNodes c = onCircleNodes c' /\ mayBeReversed c = mayBeReversed c' /\
  radius c = radius c' /\ interClusterEdges c = interClusterEdges c'.
Proof.
  unfold eraseCircleEdges, setBase. intros [= ? ? ? ? ? ? ? ? ? ? ? ?].
  repeat split; assumption.
Qed.

(** Nodes and circles of two graph managers that differ in edges only. *)
Lemma erase_heap_lookup gm gm' n :
  eraseAllEdges gm' = eraseAllEdges gm ->
  eraseEdges <$> heap gm' !! n = eraseEdges <$> heap gm !! n.
Proof.
  intros H. pose proof (f_equal (fun g => heap g !! n) H) as E. simpl in E.
  by rewrite !list_lookup_fmap in E.
Qed.

Lemma erase_heap_Some gm gm' n nd' :
  eraseAllEdges gm' = eraseAllEdges gm -> heap gm' !! n = Some nd' ->
  exists nd, heap gm !! n = Some nd /\ eraseEdges nd = eraseEdges nd'.
Proof.
  intros H Hl. pose proof (erase_heap_lookup gm gm' n H) as E.
  rewrite Hl in E. destruct (heap gm !! n) as [nd|]; simpl in E; [|done].
  exists nd. split; [done|]. injection E as E. unfold eraseEdges. congruence.
Qed.

Lemma erase_circle_Some gm gm' k c' :
  eraseAllEdges gm' = eraseAllEdges gm -> circles gm' !! k = Some c' ->
  exists c, circles gm !! k = Some c /\ eraseCircleEdges c = eraseCircleEdges c'.
Proof.
  intros H Hl.
  pose proof (f_equal (fun g => circles g !! k) H) as E. simpl in E.
  rewrite !list_lookup_fmap, Hl in E.
  destruct (circles gm !! k) as [c|]; simpl in E; [|done].
  exists c. split; [done|]. injection E as E.
  unfold eraseCircleEdges, setBase. congruence.
Qed.

Lemma Built_erase gm gm' m :
  Built gm m -> eraseAllEdges gm' = eraseAllEdges gm -> Built gm' m.
Proof.
  intros [Hn Hc Hm] H. split.
  - intros n nd' Hl. destruct (erase_heap_Some _ _ _ _ H Hl) as (nd & Hl0 & E).
    apply eraseEdges_fields in E as (E1 & E2 & _ & E3 & E4 & E5).
    specialize (Hn n nd Hl0). unfold nodeOk in *.
    by rewrite <- E1, <- E2, <- E3, <- E4, <- E5.
  - intros k c' Hk. destruct (erase_circle_Some _ _ _ _ H Hk) as (c & Hk0 & E).
    apply eraseCircleEdges_fields in E as (_ & _ & _ & _ & E & _).
    destruct (Hc k c Hk0) as [Hnd Hin]. split; [by rewrite <- E|].
    intros n Hn0. rewrite <- E in Hn0. destruct (Hin n Hn0) as (nd & Hl & Ho).
    destruct (erase_heap_Some gm' gm n nd (eq_sym H) Hl) as (nd' & Hl' & E').
    apply eraseEdges_fields in E' as (_ & _ & _ & E3 & _).
    exists nd'. split; [done|congruence].
  - intros i n Hi. destruct (Hm i n Hi) as (nd & Hl & Hid).
    destruct (erase_heap_Some gm' gm n nd (eq_sym H) Hl) as (nd' & Hl' & E').
    apply eraseEdges_fields in E' as (E1 & _).
    exists nd'. split; [done|congruence].
Qed.

Lemma newCiseEdge_erase gm gm' m e :
  eraseAllEdges gm' = eraseAllEdges gm ->
  newCiseEdge gm' m e = newCiseEdge gm m e.
Proof.
  intros H. unfold newCiseEdge. rewrite !entryOf_tableGet.
  destruct (m !! cySource e) as [s|]; simpl; [|done].
  destruct (m !! cyTarget e) as [t|]; simpl; [|done].
  pose proof (erase_heap_lookup gm gm' s H) as Es.
  pose proof (erase_heap_lookup gm gm' t H) as Et.
  destruct (heap gm' !! s) as [sn'|], (heap gm !! s) as [sn|]; simpl in *;
    try done.
  destruct (heap gm' !! t) as [tn'|], (heap gm !! t) as [tn|]; simpl in *;
    try done.
  injection Es as _ Es _. injection Et as _ Et _. by rewrite Es, Et.
Qed.

Lemma edgePlaced_mono gm gm' e :
  eraseAllEdges gm' = eraseAllEdges gm ->
  (forall x, x ∈ gmEdges gm -> x ∈ gmEdges gm') ->
  edgePlaced gm e -> edgePlaced gm' e.
Proof.
  intros H Hsub [Hin|(s & t & Hs & Ht & Ho)]; [left; auto|right].
  destruct (erase_heap_Some gm' gm _ s (eq_sym H) Hs) as (s' & Hs' & Es).
  destruct (erase_heap_Some gm' gm _ t (eq_sym H) Ht) as (t' & Ht' & Et).
  apply eraseEdges_fields in Es as (_ & _ & _ & Es & _).
  apply eraseEdges_fields in Et as (_ & _ & _ & Et & _).
  exists s', t'. repeat split; try done. congruence.
Qed.

Lemma Fresh_allEdgesOf gm : Fresh gm -> allEdgesOf gm = [].
Proof.
  intros [Hr Hg _ Hcs]. unfold allEdgesOf. rewrite Hr, Hg. simpl.
  rewrite app_nil_r.
  assert (Forall (fun l => l = []) ((edges ∘ base) <$> circles gm)) as HF.
  { apply Forall_fmap, Forall_lookup. intros k c Hk. simpl.
    by destruct (Hcs k c Hk). }
  induction HF as [|l ls -> _ IH]; simpl; done.
Qed.

(** One turn of the loop over the edges. *)
Lemma addEdge_Some gm m e st' :
  addEdge (gm, m) e = Some st' ->
  st'.2 = m /\ eraseAllEdges st'.1 = eraseAllEdges gm /\
  (forall x, x ∈ gmEdges gm -> x ∈ gmEdges st'.1) /\
  exists made, newCiseEdge gm m e = Some made /\
    allEdgesOf st'.1 ≡ₚ from_option (fun x => [x]) [] made ++ allEdgesOf gm /\
    forall x, made = Some x -> edgePlaced st'.1 x.
Proof.
  unfold addEdge. simpl. intros H.
  apply bind_Some in H as (made & Hmade & H). destruct made as [ce|].
  - apply bind_Some in H as (gm' & Hadd & H). simplify_eq. simpl.
    apply addCiseEdge_Some in Hadd as (He & Hperm & Hplace).
    split; [done|]. split; [done|]. split.
    { intros x Hx. destruct Hplace as [->|[-> _]]; [|done].
      apply elem_of_app. by left. }
    exists (Some ce). split; [done|]. split; [done|].
    intros x [= <-]. destruct Hplace as [Hg|[Hg Hp]].
    + left. rewrite Hg. apply elem_of_app. right. by left.
    + apply (edgePlaced_mono gm); [done|by rewrite Hg|by right].
  - simplify_eq. simpl. split; [done|]. split; [done|]. split; [done|].
    exists None. done.
Qed.

(** The loop over the edges (lines 253-275): only edges are added; the
    edges of the graph are, in some order, the ones made for the input
    edges. *)
Lemma addEdges_Some gm m edges_ st' :
  forEachM addEdge edges_ (gm, m) = Some st' ->
  st'.2 = m /\ eraseAllEdges st'.1 = eraseAllEdges gm /\
  exists made,
    Forall2 (fun e o => newCiseEdge gm m e = Some o) edges_ made /\
    allEdgesOf st'.1 ≡ₚ omap id made ++ allEdgesOf gm /\
    forall x, x ∈ omap id made -> edgePlaced st'.1 x.
Proof.
  intros Hrun.
  eapply (forEachM_inv_prefix
            (fun pre st =>
               st.2 = m /\ eraseAllEdges st.1 = eraseAllEdges gm /\
               exists made,
                 Forall2 (fun e o => newCiseEdge gm m e = Some o) pre made /\
                 allEdgesOf st.1 ≡ₚ omap id made ++ allEdgesOf gm /\
                 forall x, x ∈ omap id made -> edgePlaced st.1 x));
    [| |exact Hrun].
  - intros pre e suf [gm1 m1] st1 _ (Hm & He & made & HF & Hperm & Hpl) Hstep.
    simpl in *. subst m1.
    apply addEdge_Some in Hstep as (Hm' & He' & Hsub & o & Ho & Hperm' & Hpl').
    split; [done|]. split; [congruence|].
    exists (made ++ [o]). split; [|split].
    + apply Forall2_app; [done|]. constructor; [|constructor].
      by rewrite <- (newCiseEdge_erase gm gm1).
    + rewrite Hperm', Hperm. rewrite omap_app. simpl.
      destruct o as [x|]; simpl.
      * rewrite <- app_assoc. simpl. apply Permutation_middle.
      * by rewrite app_nil_r.
    + intros x. rewrite omap_app, elem_of_app. intros [Hx|Hx].
      * apply (edgePlaced_mono gm1); [done|done|]. by apply Hpl.
      * destruct o as [y|]; simpl in Hx; [|by inversion Hx].
        apply list_elem_of_singleton in Hx as ->. by apply Hpl'.
  - simpl. split; [done|]. split; [done|]. exists []. split; [constructor|].
    split; [done|]. intros x Hx. inversion Hx.
Qed.

(** *** The node lists and the out-nodes *)

Lemma populateReferences_frame gm :
  heap (populateReferences gm) = heap gm /\
  circles (populateReferences gm) = circles gm /\
  rootGraph (populateReferences gm) = rootGraph gm /\
  gmEdges (populateReferences gm) = gmEdges gm /\
  allEdges (populateReferences gm) = allEdges gm.
Proof. unfold populateReferences, getAllNodes. by destruct (allNodes gm). Qed.

Lemma indexOf_Some x l i : indexOf x l = Some i -> l !! i = Some x.
Proof.
  unfold indexOf. intros H. apply fmap_Some in H as ([j y] & Hf & ->).
  apply list_find_Some in Hf as (Hl & -> & _). done.
Qed.

Lemma indexOf_None x l : indexOf x l = None -> x ∉ l.
Proof.
  unfold indexOf. intros H. apply fmap_None in H.
  apply list_find_None in H. intros Hin.
  by apply (proj1 (Forall_forall _ _) H x Hin).
Qed.

(** A node is moved to the out-nodes of its circle, or nothing changes:
    the node is unclustered, or no longer among the in-nodes. *)
Lemma moveToOutNodes_Some n gm gm' :
  moveToOutNodes n gm = Some gm' ->
  exists nd, heap gm !! n = Some nd /\
    ((gm' = gm /\
      (clusterID nd = Some (-1)%Z \/
       exists k c, owner nd = Some (CircleGraph k) /\
                   circles gm !! k = Some c /\ n ∉ inNodes c)) \/
     (exists k c index,
        clusterID nd ≠ Some (-1)%Z /\ owner nd = Some (CircleGraph k) /\
        circles gm !! k = Some c /\ inNodes c !! index = Some n /\
        gm' = updCircle k (moveOut n index) gm)).
Proof.
  unfold moveToOutNodes. intros H.
  apply bind_Some in H as (nd & Hnd & H). exists nd. split; [done|].
  case_bool_decide as Hcid; [left; by simplify_eq; auto|].
  apply bind_Some in H as (g & Hg & H). destruct g as [|k]; [done|].
  apply bind_Some in H as (c & Hc & H).
  destruct (indexOf n (inNodes c)) as [index|] eqn:Hi.
  - right. exists k, c, index. apply indexOf_Some in Hi. by simplify_eq.
  - left. apply indexOf_None in Hi. simplify_eq. split; [done|]. right. eauto.
Qed.

Lemma eraseInOut_alter (f : CiSECircle -> CiSECircle) (k : nat)
  (cs : list CiSECircle) :
  (forall c, eraseInOut (f c) = eraseInOut c) ->
  eraseInOut <$> alter f k cs = eraseInOut <$> cs.
Proof.
  intros Hf. rewrite (list_fmap_alter eraseInOut f id).
  - by apply list_alter_id.
  - apply Forall_forall. intros x _. apply Hf.
Qed.

(** The state kept while the out-nodes are determined: relative to the graph
    manager [gm0] the loop started from, only in-nodes and out-nodes differ;
    in every circle in-nodes and out-nodes together are the on-circle
    nodes. *)
Definition outNodesInv (gm0 gm : CiSEGraphManager) : Prop :=
  eraseInOutAll gm = eraseInOutAll gm0 /\
  forall k c, circles gm !! k = Some c ->
    inNodes c ++ outNodes c ≡ₚ onCircleNodes c /\ NoDup (onCircleNodes c).

Lemma outNodesInv_move gm0 gm n gm' :
  outNodesInv gm0 gm -> moveToOutNodes n gm = Some gm' ->
  outNodesInv gm0 gm' /\
  (forall k c c' x, circles gm !! k = Some c -> circles gm' !! k = Some c' ->
                    x ∉ inNodes c -> x ∉ inNodes c') /\
  (forall nd k c', heap gm !! n = Some nd -> clusterID nd ≠ Some (-1)%Z ->
                   owner nd = Some (CircleGraph k) ->
                   circles gm' !! k = Some c' -> n ∉ inNodes c').
Proof.
  intros [He Hc] H.
  apply moveToOutNodes_Some in H
    as (nd & Hnd & [[-> Hcase]|(k & c & index & Hcid & Ho & Hk & Hi & ->)]).
  - split; [done|]. split; [intros; congruence|].
    intros nd' k c' Hnd0 Hcid Ho Hk.
    rewrite Hnd in Hnd0. injection Hnd0 as <-.
    destruct Hcase as [?|(k' & c & Ho' & Hk' & Hnin)]; [done|]. congruence.
  - destruct (Hc k c Hk) as [Hperm Hnd'].
    assert (NoDup (inNodes c)) as Hndin.
    { assert (NoDup (inNodes c ++ outNodes c)) as Hall by by rewrite Hperm.
      by apply NoDup_app in Hall as (? & _). }
    assert (n ∉ delete index (inNodes c)) as Hnin.
    { pose proof (delete_Permutation _ _ _ Hi) as Hp.
      rewrite Hp in Hndin. by apply NoDup_cons in Hndin as [? _]. }
    split; [split|split].
    + rewrite <- He. unfold eraseInOutAll, updCircle, setCircles; simpl.
      f_equal. by apply eraseInOut_alter.
    + intros k0 c0. unfold updCircle; simpl. intros Hk0.
      destruct (decide (k0 = k)) as [->|Hne].
      * rewrite list_lookup_alter_eq, Hk in Hk0. injection Hk0 as <-. simpl.
        split; [|done]. rewrite <- Hperm.
        rewrite (delete_Permutation _ _ _ Hi) at 2.
        simpl. rewrite app_assoc. symmetry. apply Permutation_cons_append.
      * rewrite list_lookup_alter_ne in Hk0 by done. by eapply Hc.
    + intros k0 c0 c0' x Hk0. unfold updCircle; simpl. intros Hk0' Hx.
      destruct (decide (k0 = k)) as [->|Hne].
      * rewrite list_lookup_alter_eq, Hk in Hk0'. injection Hk0' as <-.
        rewrite Hk in Hk0. injection Hk0 as <-. simpl.
        intros Hin. apply Hx. by eapply list_elem_of_delete_inv.
      * rewrite list_lookup_alter_ne in Hk0' by done. congruence.
    + intros nd' k0 c0' Hnd0 _ Ho' Hk0'.
      rewrite Hnd in Hnd0. injection Hnd0 as <-.
      rewrite Ho in Ho'. injection Ho' as <-.
      unfold updCircle in Hk0'; simpl in Hk0'.
      rewrite list_lookup_alter_eq, Hk in Hk0'. by injection Hk0' as <-.
Qed.

Lemma indexOf_notin x l : x ∉ l -> indexOf x l = None.
Proof.
  intros Hx. destruct (indexOf x l) as [i|] eqn:E; [|done].
  apply indexOf_Some in E. exfalso. apply Hx. by eapply list_elem_of_lookup_2.
Qed.

(** For a settled node [moveToOutNodes] changes nothing. *)
Lemma settled_noop gm n : settled gm n -> moveToOutNodes n gm = Some gm.
Proof.
  intros (nd & Hnd & Hcase). unfold moveToOutNodes. rewrite Hnd. simpl.
  case_bool_decide as Hcid; [done|].
  destruct Hcase as [?|(k & c & -> & Hk & Hnin)]; [done|]. simpl.
  rewrite Hk. simpl. by rewrite indexOf_notin.
Qed.

Lemma eraseInOutAll_fields gm gm' :
  eraseInOutAll gm' = eraseInOutAll gm ->
  heap gm' = heap gm /\ rootGraph gm' = rootGraph gm /\
  gmEdges gm' = gmEdges gm /\ allEdges gm' = allEdges gm /\
  eraseInOut <$> circles gm' = eraseInOut <$> circles gm.
Proof.
  unfold eraseInOutAll, setCircles. intros [= ? ? ? ? ? ? ? ?].
  repeat split; assumption.
Qed.

Lemma eraseInOut_fields c c' :
  eraseInOut c = eraseInOut c' ->
  base c = base c' /\ onCircleNodes c = onCircleNodes c' /\
  mayBeReversed c = mayBeReversed c'.
Proof.
  unfold eraseInOut, setOutNodes, setInNodes; simpl.
  intros [= ? ? ? ? ? ? ? ?]. repeat split; assumption.
Qed.

Lemma eraseInOut_lookup gm gm' k c' :
  eraseInOutAll gm' = eraseInOutAll gm -> circles gm' !! k = Some c' ->
  exists c, circles gm !! k = Some c /\ eraseInOut c = eraseInOut c'.
Proof.
  intros H Hl. apply eraseInOutAll_fields in H as (_ & _ & _ & _ & E).
  apply (f_equal (fun l => l !! k)) in E. rewrite !list_lookup_fmap, Hl in E.
  destruct (circles gm !! k) as [c|]; simpl in E; [|done].
  exists c. split; [done|]. apply (inj Some) in E. by symmetry.
Qed.

Lemma settled_move gm0 gm n gm' :
  outNodesInv gm0 gm -> moveToOutNodes n gm = Some gm' ->
  settled gm' n /\ forall x, settled gm x -> settled gm' x.
Proof.
  intros HI H. pose proof H as H0.
  destruct (outNodesInv_move gm0 gm n gm' HI H) as ([He' _] & Hmono & Hnew).
  destruct HI as [He _].
  assert (heap gm' = heap gm) as Hh.
  { apply eraseInOutAll_fields in He as (-> & _).
    by apply eraseInOutAll_fields in He' as (-> & _). }
  assert (eraseInOutAll gm' = eraseInOutAll gm) as Hgg by congruence.
  split.
  - apply moveToOutNodes_Some in H0
      as (nd & Hnd & [[-> Hcase]|(k & c & index & Hcid & Ho & Hk & Hi & Hgm)]).
    + exists nd. done.
    + exists nd. rewrite Hh. split; [done|]. right.
      destruct (eraseInOut_lookup gm' gm k c (eq_sym Hgg) Hk) as (c' & Hk' & _).
      exists k, c'. split; [done|]. split; [done|]. by eapply Hnew.
  - intros x (nd & Hnd & Hcase). exists nd. rewrite Hh. split; [done|].
    destruct Hcase as [?|(k & c & Ho & Hk & Hnin)]; [by left|right].
    destruct (eraseInOut_lookup gm' gm k c (eq_sym Hgg) Hk) as (c' & Hk' & _).
    exists k, c'. split; [done|]. split; [done|]. by eapply Hmono.
Qed.

(** The loop that determines the out-nodes (lines 294-325). *)
Lemma determineOutNodes_loop gm0 l gm' :
  (forall k c, circles gm0 !! k = Some c ->
     inNodes c ++ outNodes c ≡ₚ onCircleNodes c /\ NoDup (onCircleNodes c)) ->
  forEachM determineOutNodes l gm0 = Some gm' ->
  outNodesInv gm0 gm' /\
  forall e, e ∈ l -> settled gm' (source e) /\ settled gm' (target e).
Proof.
  intros H0 Hrun.
  eapply (forEachM_inv_prefix
            (fun pre gm => outNodesInv gm0 gm /\
               forall e, e ∈ pre ->
                 settled gm (source e) /\ settled gm (target e)));
    [| |exact Hrun].
  - intros pre e suf gm gm1 _ [HI Hpre] Hstep. unfold determineOutNodes in Hstep.
    apply bind_Some in Hstep as (gma & Ha & Hb).
    destruct (outNodesInv_move _ _ _ _ HI Ha) as (HIa & _ & _).
    destruct (outNodesInv_move _ _ _ _ HIa Hb) as (HIb & _ & _).
    destruct (settled_move _ _ _ _ HI Ha) as [Hsa Hma].
    destruct (settled_move _ _ _ _ HIa Hb) as [Hsb Hmb].
    split; [done|]. intros x [Hx| ->%list_elem_of_singleton]%elem_of_app.
    + destruct (Hpre x Hx). split; auto.
    + split; auto.
  - split; [by split|]. intros e He. inversion He.
Qed.

(** *** The whole construction *)

Lemma Built_ext gm gm' m :
  heap gm' = heap gm ->
  onCircleNodes <$> circles gm' = onCircleNodes <$> circles gm ->
  Built gm m -> Built gm' m.
Proof.
  intros Hh Hc [Hn Hcs Hm]. split.
  - rewrite Hh. apply Hn.
  - intros k c' Hk. rewrite Hh.
    apply (f_equal (fun l => l !! k)) in Hc. rewrite !list_lookup_fmap, Hk in Hc.
    destruct (circles gm !! k) as [c|] eqn:Hk0; simpl in Hc; [|done].
    apply (inj Some) in Hc. unfold circleOk. rewrite Hc. by apply Hcs.
  - rewrite Hh. apply Hm.
Qed.

Lemma eraseInOut_onCircleNodes (cs cs' : list CiSECircle) :
  eraseInOut <$> cs' = eraseInOut <$> cs ->
  onCircleNodes <$> cs' = onCircleNodes <$> cs /\
  (edges ∘ base) <$> cs' = (edges ∘ base) <$> cs.
Proof.
  intros H. split.
  - apply (f_equal (fmap onCircleNodes)) in H.
    by rewrite <- !list_fmap_compose in H.
  - apply (f_equal (fmap (edges ∘ base))) in H.
    by rewrite <- !list_fmap_compose in H.
Qed.

(** The phases of [convertToClusteredGraph]: the state [gm2] once the nodes
    are in, the state [gm3] once the edges are in, the node lists, and the
    out-nodes. *)
Lemma convertToClusteredGraph_phases nodes_ edges_ clusters gm m :
  convertToClusteredGraph newGraphManager nodes_ edges_ clusters = Some (gm, m) ->
  exists gm2 gm3,
    Built gm2 m /\ Fresh gm2 /\ length (circles gm2) = length clusters /\
    forEachM addEdge edges_ (gm2, m) = Some (gm3, m) /\
    forEachM determineOutNodes (gmEdges (populateReferences gm3))
      (populateReferences gm3) = Some gm.
Proof.
  unfold convertToClusteredGraph. intros H.
  apply bind_Some in H as (st1 & H1 & H).
  apply bind_Some in H as ([gm3 m3] & H3 & H).
  apply bind_Some in H as (gm5 & H5 & H). simpl in *.
  injection H as -> ->.
  apply clusters_Built in H1 as (HB1 & HF1 & Hlen1).
  destruct st1 as [gm1 m1]. simpl in *.
  destruct (unclustered_Built clusters nodes_ gm1 m1 HB1 HF1) as (HB2 & HF2 & Hcs).
  destruct (foldl (addUnclustered clusters) (gm1, m1) nodes_) as [gm2 m2] eqn:E2.
  simpl in *.
  pose proof (addEdges_Some _ _ _ _ H3) as (Hm & _). simpl in Hm. subst m2.
  exists gm2, gm3. split; [done|]. split; [done|]. split; [congruence|].
  split; done.
Qed.

(** What the construction leaves: the state is well formed, in every circle
    in-nodes and out-nodes together are the on-circle nodes, the ends of
    every inter-graph edge are settled, and the edges are the ones made for
    the input edges. *)
Lemma convertToClusteredGraph_Built nodes_ edges_ clusters gm m :
  convertToClusteredGraph newGraphManager nodes_ edges_ clusters = Some (gm, m) ->
  Built gm m /\
  (forall k c, circles gm !! k = Some c ->
     inNodes c ++ outNodes c ≡ₚ onCircleNodes c /\ NoDup (onCircleNodes c)) /\
  (forall e, e ∈ gmEdges gm -> settled gm (source e) /\ settled gm (target e)) /\
  allEdges gm = None /\
  exists made,
    Forall2 (fun e o => newCiseEdge gm m e = Some o) edges_ made /\
    allEdgesOf gm ≡ₚ omap id made /\
    forall x, x ∈ omap id made -> edgePlaced gm x.
Proof.
  intros H.
  apply convertToClusteredGraph_phases in H
    as (gm2 & gm3 & HB2 & HF2 & _ & H3 & H5).
  apply addEdges_Some in H3 as (_ & He3 & made & HF & Hperm & Hpl).
  simpl in He3, Hperm, Hpl.
  pose proof (Built_erase _ _ _ HB2 He3) as HB3.
  destruct (populateReferences_frame gm3) as (Hh4 & Hc4 & Hr4 & Hg4 & Ha4).
  set (gm4 := populateReferences gm3) in *.
  assert (forall k c, circles gm4 !! k = Some c ->
     inNodes c ++ outNodes c ≡ₚ onCircleNodes c /\ NoDup (onCircleNodes c))
    as Hstart.
  { intros k c. rewrite Hc4. intros Hk.
    destruct (erase_circle_Some _ _ _ _ He3 Hk) as (c2 & Hk2 & E).
    apply eraseCircleEdges_fields in E as (_ & _ & Ein & Eout & Eon & _).
    destruct (fresh_circles _ HF2 k c2 Hk2) as (_ & Hin & Hout & _).
    destruct (built_circles _ _ HB2 k c2 Hk2) as [Hnd _].
    rewrite <- Ein, <- Eout, <- Eon, Hin, Hout, app_nil_r. done. }
  destruct (determineOutNodes_loop _ _ _ Hstart H5) as [[He5 Hio] Hset].
  pose proof He5 as He5'.
  apply eraseInOutAll_fields in He5' as (Hh5 & Hr5 & Hg5 & Ha5 & Hc5).
  apply eraseInOut_onCircleNodes in Hc5 as [Hon5 Hed5].
  assert (eraseAllEdges gm3 = eraseAllEdges gm2 -> allEdges gm3 = allEdges gm2)
    as Hmemo by (unfold eraseAllEdges; by intros [= ? ? ? ? ? ? ? ? ?]).
  assert (allEdgesOf gm = allEdgesOf gm3) as Hall.
  { unfold allEdgesOf. by rewrite Hr5, Hg5, Hed5, Hr4, Hg4, Hc4. }
  split; [|split; [|split; [|split]]].
  - apply (Built_ext gm3); [congruence|by rewrite Hon5, Hc4|done].
  - done.
  - intros e He. apply Hset. by rewrite <- Hg5.
  - rewrite Ha5, Ha4, (Hmemo He3). by destruct (fresh_memo _ HF2).
  - exists made. split; [|split].
    + eapply Forall2_impl; [exact HF|]. intros e o Ho. simpl in Ho.
      rewrite <- Ho. unfold newCiseEdge. rewrite Hh5, Hh4.
      apply (newCiseEdge_erase gm2 gm3 m e He3).
    + rewrite Hall, Hperm, (Fresh_allEdgesOf _ HF2). by rewrite app_nil_r.
    + intros x Hx. destruct (Hpl x Hx) as [Hin|(s & t & Hs & Ht & Ho)].
      * left. by rewrite Hg5, Hg4.
      * right. exists s, t. by rewrite Hh5, Hh4.
Qed.

Lemma state1_built :
  convertToClusteredGraph newGraphManager Ex.nodes1 Ex.edges1 Ex.clusters1
  = Some (Ex.state1.1, Ex.state1.2).
Proof. vm_compute. reflexivity. Qed.

(** C3 as stated fails: the placeholder of the first cluster of the worked
    input, node 1, owns the circle at 0 and carries the cluster id 0. *)
Lemma C3_placeholder_has_cluster_id : ~ placeholdersHaveNoClusterId.
Proof.
  intros H.
  specialize (H Ex.nodes1 Ex.edges1 Ex.clusters1 Ex.state1.1 Ex.state1.2
                1%nat (default (newNode None None) (heap Ex.state1.1 !! 1%nat))
                0%nat state1_built).
  assert (Some 0%Z = None) as E; [|discriminate E].
  apply H; vm_compute; reflexivity.
Qed.

(** C6: after the construction, in every circle no node is both an in-node
    and an out-node or listed twice, in-nodes and out-nodes together are
    exactly the on-circle nodes, every on-circle node at an end of an
    inter-cluster edge is an out-node, and determining the out-nodes once
    more for any inter-graph edge changes nothing. *)
Theorem C6_in_out_partition
  (nodes_ : list CyNode) (edges_ : list CyEdge) (clusters : list (list string))
  (gm : CiSEGraphManager) (m : gmap string nat) (k : nat) (c : CiSECircle) :
  convertToClusteredGraph newGraphManager nodes_ edges_ clusters = Some (gm, m) ->
  circles gm !! k = Some c ->
  NoDup (inNodes c ++ outNodes c) /\
  inNodes c ++ outNodes c ≡ₚ onCircleNodes c /\
  (forall e n, e ∈ (getAllEdges gm).1 -> isIntraCluster e = false ->
               n = source e \/ n = target e ->
               n ∈ onCircleNodes c -> n ∈ outNodes c) /\
  (forall e, e ∈ gmEdges gm -> determineOutNodes gm e = Some gm).
Proof.
  intros H Hk.
  apply convertToClusteredGraph_Built in H
    as (HB & Hio & Hset & Hmemo & made & HF & Hperm & Hpl).
  destruct (Hio k c Hk) as [Hp Hnd].
  split; [by rewrite Hp|]. split; [done|]. split.
  - intros e n He Hintra Hn Hon.
    unfold getAllEdges in He. rewrite Hmemo in He. simpl in He.
    change (e ∈ allEdgesOf gm) in He. rewrite Hperm in He.
    destruct (built_circles _ _ HB k c Hk) as [_ Hown].
    destruct (Hown n Hon) as (nd & Hl & Ho).
    pose proof (built_nodes _ _ HB n nd Hl) as Hok. unfold nodeOk in Hok.
    rewrite Ho in Hok. destruct Hok as (_ & Hcid & _).
    assert (n ∉ inNodes c) as Hnin.
    { destruct (Hpl e He) as [Hg|(s & t & Hs & Ht & Hst)].
      - destruct (Hset e Hg) as [Hss Hst].
        assert (settled gm n) as (nd' & Hl' & Hcase)
          by (destruct Hn as [-> | ->]; done).
        rewrite Hl in Hl'. injection Hl' as <-.
        destruct Hcase as [Hm1|(k' & c' & Ho' & Hk' & Hnin)];
          [rewrite Hcid in Hm1; injection Hm1; lia|].
        rewrite Ho in Ho'. injection Ho' as <-. congruence.
      - exfalso.
        apply list_elem_of_omap in He as (o & Ho0 & Hid). simpl in Hid. subst o.
        apply list_elem_of_lookup in Ho0 as [i Hi].
        destruct (Forall2_lookup_r _ _ _ i (Some e) HF Hi) as (ce & _ & Hnew).
        unfold newCiseEdge in Hnew. rewrite !entryOf_tableGet in Hnew.
        apply bind_Some in Hnew as (sr & _ & Hnew).
        apply bind_Some in Hnew as (tr & _ & Hnew).
        apply bind_Some in Hnew as (sn & Hsn & Hnew).
        apply bind_Some in Hnew as (tn & Htn & Hnew).
        destruct (decide (sr = tr)); [done|].
        injection Hnew as <-. simpl in *.
        rewrite Hsn in Hs. injection Hs as <-.
        rewrite Htn in Ht. injection Ht as <-.
        pose proof (built_nodes _ _ HB sr sn Hsn) as Hoks.
        pose proof (built_nodes _ _ HB tr tn Htn) as Hokt.
        unfold nodeOk in Hoks, Hokt.
        assert (owner sn = Some (CircleGraph k) /\ owner tn = Some (CircleGraph k))
          as [Hos Hot].
        { destruct Hn as [-> | ->].
          - rewrite Hsn in Hl. injection Hl as <-. split; congruence.
          - rewrite Htn in Hl. injection Hl as <-. split; congruence. }
        rewrite Hos in Hoks. rewrite Hot in Hokt.
        destruct Hoks as (_ & Hcs & _). destruct Hokt as (_ & Hct & _).
        unfold sameCluster in Hintra. rewrite Hcs, Hct in Hintra.
        rewrite bool_decide_eq_true_2 in Hintra by done.
        rewrite bool_decide_eq_false_2 in Hintra by (intros [= ?]; lia).
        done. }
    assert (n ∈ inNodes c ++ outNodes c) as Hin by by rewrite Hp.
    apply elem_of_app in Hin as [?|?]; done.
  - intros e He. destruct (Hset e He) as [Hs Ht].
    unfold determineOutNodes. rewrite (settled_noop _ _ Hs). simpl.
    by apply settled_noop.
Qed.

Lemma C6_in_out_partition_witness :
  NoDup (inNodes (Ex.circleOf Ex.built1 0) ++ outNodes (Ex.circleOf Ex.built1 0)) /\
  inNodes (Ex.circleOf Ex.built1 0) ++ outNodes (Ex.circleOf Ex.built1 0)
    ≡ₚ onCircleNodes (Ex.circleOf Ex.built1 0) /\
  (forall e n, e ∈ (getAllEdges Ex.state1.1).1 -> isIntraCluster e = false ->
               n = source e \/ n = target e ->
               n ∈ onCircleNodes (Ex.circleOf Ex.built1 0) ->
               n ∈ outNodes (Ex.circleOf Ex.built1 0)) /\
  (forall e, e ∈ gmEdges Ex.state1.1 ->
             determineOutNodes Ex.state1.1 e = Some Ex.state1.1).
Proof.
  apply (C6_in_out_partition Ex.nodes1 Ex.edges1 Ex.clusters1
           Ex.state1.1 Ex.state1.2 0 (Ex.circleOf Ex.built1 0)).
  - vm_compute. reflexivity.
  - vm_compute. reflexivity.
Defined.

Lemma sameCluster_true a b :
  sameCluster a b = true <-> a = b /\ a ≠ Some (-1)%Z.
Proof.
  unfold sameCluster. rewrite !andb_true_iff, !negb_true_iff.
  rewrite bool_decide_eq_true, !bool_decide_eq_false. split.
  - by intros [[-> ?] ?].
  - intros [-> ?]. done.
Qed.

Lemma newCiseEdge_edgeMadeFor gm m e o :
  newCiseEdge gm m e = Some o -> edgeMadeFor gm m e o.
Proof.
  unfold newCiseEdge. rewrite !entryOf_tableGet. intros H.
  apply bind_Some in H as (s & Hs & H).
  apply bind_Some in H as (t & Ht & H).
  apply bind_Some in H as (sn & Hsn & H).
  apply bind_Some in H as (tn & Htn & H).
  exists s, t, sn, tn. do 4 (split; [done|]).
  destruct (decide (s = t)) as [->|Hne]; injection H as <-; [done|].
  simpl. split; [done|]. split; [done|]. split; [done|].
  split; [apply sameCluster_true|].
  intros Hm1. destruct (sameCluster (clusterID sn) (clusterID tn)) eqn:E; [|done].
  apply sameCluster_true in E as [E1 E2]. destruct Hm1; congruence.
Qed.

(** C7: the edges of the constructed graph are, in some order, the edges
    made for the input edges one by one: for an input edge whose ends
    resolve to two distinct nodes, one edge between them whose
    [isIntraCluster] is true exactly when both nodes carry the same cluster
    id and that id is not -1 (so an edge at an unclustered node is
    inter-cluster); for an input edge whose ends resolve to one node, no
    edge. *)
Theorem C7_edge_classification
  (nodes_ : list CyNode) (edges_ : list CyEdge) (clusters : list (list string))
  (gm : CiSEGraphManager) (m : gmap string nat) :
  convertToClusteredGraph newGraphManager nodes_ edges_ clusters = Some (gm, m) ->
  exists made : list (option CiSEEdge),
    Forall2 (edgeMadeFor gm m) edges_ made /\
    (getAllEdges gm).1 ≡ₚ omap id made.
Proof.
  intros H.
  apply convertToClusteredGraph_Built in H
    as (_ & _ & _ & Hmemo & made & HF & Hperm & _).
  exists made. split.
  - eapply Forall2_impl; [exact HF|]. apply newCiseEdge_edgeMadeFor.
  - unfold getAllEdges. rewrite Hmemo. exact Hperm.
Qed.

Lemma C7_edge_classification_witness :
  exists made : list (option CiSEEdge),
    Forall2 (edgeMadeFor Ex.state1.1 Ex.state1.2) Ex.edges1 made /\
    (getAllEdges Ex.state1.1).1 ≡ₚ omap id made.
Proof.
  apply (C7_edge_classification Ex.nodes1 Ex.edges1 Ex.clusters1
           Ex.state1.1 Ex.state1.2).
  vm_compute. reflexivity.
Defined.

(** ** Placement of the quotient graph *)

Lemma setLocation_same nd :
  setLocation (rectX (rect nd)) (rectY (rect nd)) nd = nd.
Proof. destruct nd as [? ? [? ? ? ?] ? ? ? ?]. reflexivity. Qed.

Lemma sameButLocation_refl nd : sameButLocation nd nd.
Proof. unfold sameButLocation. by rewrite setLocation_same. Qed.

Lemma sameButLocation_setLocation x y nd : sameButLocation nd (setLocation x y nd).
Proof. reflexivity. Qed.

Lemma getAllEdges_frame gm :
  heap (getAllEdges gm).2 = heap gm /\
  circles (getAllEdges gm).2 = circles gm /\
  rootGraph (getAllEdges gm).2 = rootGraph gm /\
  gmEdges (getAllEdges gm).2 = gmEdges gm /\
  allNodes (getAllEdges gm).2 = allNodes gm /\
  gmOnCircleNodes (getAllEdges gm).2 = gmOnCircleNodes gm /\
  nonOnCircleNodes (getAllEdges gm).2 = nonOnCircleNodes gm /\
  allEdges (getAllEdges gm).2 = Some (getAllEdges gm).1.
Proof. unfold getAllEdges. by destruct (allEdges gm) eqn:E. Qed.

Section Step2.

Variable runCoSE : list DelegateNode -> list (nat * nat) -> nat -> PointD.

(** Lines 538-544 as a whole: the listed nodes, and only they, take the
    locations of their reduced nodes. *)
Lemma placeNonOnCircleNodes_Some tb l gm gm' :
  forEachM (placeNonOnCircleNode runCoSE tb) l gm = Some gm' ->
  (forall n, n ∈ l -> is_Some (ciseNodeToCoseNode tb !! n)) /\
  gm' = setHeap (imap (fun n nd =>
                         if decide (n ∈ l)
                         then relocate (coseLocationOf runCoSE tb n) nd
                         else nd) (heap gm)) gm.
Proof.
  revert gm. induction l as [|a l IH]; intros gm H; simpl in H.
  - injection H as <-. split; [intros n Hn; inversion Hn|].
    destruct gm; unfold setHeap; simpl. f_equal.
    apply list_eq. intros n. rewrite list_lookup_imap.
    by destruct (_ !! n).
  - apply bind_Some in H as (gm1 & Hstep & H).
    unfold placeNonOnCircleNode in Hstep.
    apply bind_Some in Hstep as (i & Hi & Hstep). injection Hstep as <-.
    apply IH in H as [Hl ->]. split.
    + intros n [->|Hn]%elem_of_cons; [by eexists|by apply Hl].
    + unfold updNode, setHeap; simpl. f_equal.
      apply list_eq. intros n. rewrite !list_lookup_imap.
      destruct (decide (n = a)) as [->|Hne].
      * rewrite list_lookup_alter_eq.
        destruct (heap gm !! a) as [nd|]; simpl; [|done].
        rewrite (decide_True (P := a ∈ a :: l)) by by left.
        unfold coseLocationOf. rewrite Hi.
        by destruct (decide (a ∈ l)).
      * rewrite list_lookup_alter_ne by done.
        destruct (heap gm !! n) as [nd|]; simpl; [|done].
        destruct (decide (n ∈ l)) as [Hin|Hin].
        -- rewrite decide_True by by right. done.
        -- rewrite decide_False; [done|].
           intros [?|?]%elem_of_cons; done.
Qed.

End Step2.

Lemma parentNodeOf_setHeap gm h nd :
  parentNodeOf (setHeap h gm) nd = parentNodeOf gm nd.
Proof. unfold parentNodeOf. by destruct (owner nd) as [[|k]|]. Qed.

Lemma parentNodeOf_setLocation gm x y nd :
  parentNodeOf gm (setLocation x y nd) = parentNodeOf gm nd.
Proof. reflexivity. Qed.

(** Lines 551-557 as a whole: the listed nodes, and only they, are shifted by
    the location of the parent of their owner. *)
Lemma placeOnCircleNodes_Some l gm gm' :
  forEachM placeOnCircleNode l gm = Some gm' ->
  NoDup l ->
  (forall n nd p, n ∈ l -> heap gm !! n = Some nd ->
                  parentNodeOf gm nd = Some p -> p ∉ l) ->
  (forall n, n ∈ l ->
     exists nd p pn, heap gm !! n = Some nd /\
                     parentNodeOf gm nd = Some p /\ heap gm !! p = Some pn) /\
  gm' = setHeap (imap (fun n nd =>
                         if decide (n ∈ l)
                         then shiftedByParent gm (heap gm) nd
                         else nd) (heap gm)) gm.
Proof.
  revert gm. induction l as [|a l IH]; intros gm H Hnd Hpar; simpl in H.
  - injection H as <-. split; [intros n Hn; inversion Hn|].
    destruct gm; unfold setHeap; simpl. f_equal.
    apply list_eq. intros n. rewrite list_lookup_imap.
    by destruct (_ !! n).
  - apply bind_Some in H as (gm1 & Hstep & H).
    unfold placeOnCircleNode in Hstep.
    apply bind_Some in Hstep as (nd & Ha & Hstep).
    apply bind_Some in Hstep as (g & Hg & Hstep).
    apply bind_Some in Hstep as (lg & Hlg & Hstep).
    apply bind_Some in Hstep as (p & Hp & Hstep).
    apply bind_Some in Hstep as (pn & Hpn & Hstep). injection Hstep as <-.
    assert (parentNodeOf gm nd = Some p) as Hpnd
      by (unfold parentNodeOf; rewrite Hg; simpl; rewrite Hlg; done).
    apply NoDup_cons in Hnd as [Hanl Hnd].
    assert (p ≠ a) as Hpa.
    { intros ->. apply (Hpar a nd a); [by left|done|done|by left]. }
    apply IH in H as [Hex ->]; [|done|].
    2:{ intros n nd1 p1 Hn Hl1 Hp1. unfold updNode in Hl1, Hp1.
        rewrite parentNodeOf_setHeap in Hp1. simpl in Hl1.
        assert (n ≠ a) as Hna by (intros ->; done).
        rewrite list_lookup_alter_ne in Hl1 by done.
        intros Hin. apply (Hpar n nd1 p1); [by right|done|done|by right]. }
    split.
    + intros n [->|Hn]%elem_of_cons; [by exists nd, p, pn|].
      destruct (Hex n Hn) as (nd1 & p1 & pn1 & Hl1 & Hp1 & Hpn1).
      unfold updNode in Hl1, Hp1, Hpn1. rewrite parentNodeOf_setHeap in Hp1.
      simpl in Hl1, Hpn1.
      assert (n ≠ a) as Hna by (intros ->; done).
      rewrite list_lookup_alter_ne in Hl1 by done.
      assert (p1 ≠ a) as Hp1a.
      { intros ->. apply (Hpar n nd1 a); [by right|done|done|by left]. }
      rewrite list_lookup_alter_ne in Hpn1 by done. by exists nd1, p1, pn1.
    + unfold updNode, setHeap; simpl. f_equal.
      apply list_eq. intros n. rewrite !list_lookup_imap.
      destruct (decide (n = a)) as [->|Hne].
      * rewrite list_lookup_alter_eq, Ha. simpl.
        rewrite decide_False by done. rewrite decide_True by by left.
        unfold shiftedByParent. rewrite Hpnd. simpl. by rewrite Hpn.
      * rewrite list_lookup_alter_ne by done.
        destruct (heap gm !! n) as [nd1|] eqn:Hl1; simpl; [|done].
        destruct (decide (n ∈ l)) as [Hin|Hin].
        -- rewrite decide_True by by right. f_equal.
           unfold shiftedByParent.
           change (parentNodeOf (mkGM _ _ _ _ _ _ _ _) nd1)
             with (parentNodeOf gm nd1).
           destruct (parentNodeOf gm nd1) as [p1|] eqn:Hp1; simpl; [|done].
           assert (p1 ≠ a) as Hp1a.
           { intros ->. apply (Hpar n nd1 a); [by right|done|done|by left]. }
           by rewrite list_lookup_alter_ne.
        -- rewrite decide_False; [done|].
           intros [?|?]%elem_of_cons; done.
Qed.

Lemma buildReducedGraph_Some gm tb gm1 :
  buildReducedGraph gm = Some (tb, gm1) -> gm1 = (getAllEdges gm).2.
Proof.
  unfold buildReducedGraph. intros H.
  apply bind_Some in H as (tb0 & _ & H).
  destruct (getAllEdges gm) as [l g] eqn:E.
  apply bind_Some in H as (tb1 & _ & H). by injection H as _ <-.
Qed.

Lemma sameGraphs_setHeap gm h :
  length h = length (heap gm) ->
  sameGraphs gm (setHeap h (getAllEdges gm).2).
Proof.
  intros Hlen. unfold sameGraphs, getAllEdges, getAllNodes.
  destruct (allEdges gm) eqn:E, (allNodes gm) eqn:E'; simpl;
    rewrite ?E, ?E'; repeat split; done.
Qed.

(** C10: [doStep2] changes node locations only.  Circles (order of the
    on-circle nodes, radius, [mayBeReversed] and every other field), root
    graph, edges and node lists stay as they are, and every node keeps all
    its fields but the location (so its circular index and angle).  A node
    outside the circles gets the location the embedder gave to its reduced
    node; an on-circle node gets its previous location plus the new location
    of the parent of its owner; any other node stays put.  The step and
    phase fields are set to their constants. *)
Theorem C10_doStep2_moves_nodes_only
  (runCoSE : list DelegateNode -> list (nat * nat) -> nat -> PointD)
  (ly ly' : CiSELayout) :
  nodeListsSplit (graphManager ly) ->
  doStep2 runCoSE ly = Some ly' ->
  sameGraphs (graphManager ly) (graphManager ly') /\
  (step ly', phase ly') = (STEP_2, PHASE_OTHER) /\
  forall n nd, heap (graphManager ly) !! n = Some nd ->
    exists nd', heap (graphManager ly') !! n = Some nd' /\
      sameButLocation nd nd' /\
      (n ∈ nonOnCircleNodes (graphManager ly) ->
       exists tb gm1,
         buildReducedGraph (graphManager ly) = Some (tb, gm1) /\
         is_Some (ciseNodeToCoseNode tb !! n) /\
         getLocation nd' = coseLocationOf runCoSE tb n) /\
      (n ∈ gmOnCircleNodes (graphManager ly) ->
       exists p pn',
         parentNodeOf (graphManager ly) nd = Some p /\
         heap (graphManager ly') !! p = Some pn' /\
         getLocation nd' =
           mkPointD (PrimFloat.add (ptX (getLocation nd)) (ptX (getLocation pn')))
                    (PrimFloat.add (ptY (getLocation nd)) (ptY (getLocation pn')))) /\
      (n ∉ nonOnCircleNodes (graphManager ly) ->
       n ∉ gmOnCircleNodes (graphManager ly) -> nd' = nd).
Proof.
  destruct ly as [gm st ph]. simpl. intros (Hnd & Hdisj & Hpar) H.
  unfold doStep2 in H. simpl in H.
  apply bind_Some in H as ([tb gm1] & Hb & H).
  apply bind_Some in H as (gm2 & H1 & H).
  apply bind_Some in H as (gm3 & H2 & H). injection H as <-. simpl.
  pose proof (buildReducedGraph_Some _ _ _ Hb) as ->.
  destruct (getAllEdges_frame gm) as (Hh & Hc & Hr & Hg & Han & Hon & Hnon & Hae).
  rewrite Hnon in H1.
  apply placeNonOnCircleNodes_Some in H1 as [Hidx ->].
  rewrite Hh in *.
  set (h1 := imap (fun n nd => if decide (n ∈ nonOnCircleNodes gm)
                               then relocate (coseLocationOf runCoSE tb n) nd
                               else nd) (heap gm)) in *.
  assert (forall n, h1 !! n =
            (fun nd => if decide (n ∈ nonOnCircleNodes gm)
                       then relocate (coseLocationOf runCoSE tb n) nd
                       else nd) <$> heap gm !! n) as Hh1
    by (intros n; apply list_lookup_imap).
  assert (forall nd, parentNodeOf (setHeap h1 (getAllEdges gm).2) nd
                     = parentNodeOf gm nd) as Hpeq.
  { intros nd. unfold parentNodeOf, getGraph. simpl. by rewrite Hc, Hr. }
  simpl in H2. rewrite Hon in H2.
  apply placeOnCircleNodes_Some in H2 as [Hex ->]; [|done|].
  2:{ simpl. intros n nd1 p Hn Hl1 Hp1. rewrite Hpeq in Hp1.
      rewrite Hh1 in Hl1. destruct (heap gm !! n) as [nd|] eqn:Hl; [|done].
      simpl in Hl1. rewrite decide_False in Hl1 by by apply Hdisj.
      injection Hl1 as <-. by eapply Hpar. }
  simpl in Hex. simpl.
  split; [|split; [done|]].
  - replace (setHeap _ (setHeap h1 (getAllEdges gm).2))
      with (setHeap (imap (fun n nd =>
              if decide (n ∈ gmOnCircleNodes gm)
              then shiftedByParent (setHeap h1 (getAllEdges gm).2) h1 nd
              else nd) h1) (getAllEdges gm).2) by done.
    apply sameGraphs_setHeap. unfold h1. by rewrite !length_imap.
  - intros n nd Hl. rewrite list_lookup_imap, Hh1, Hl. simpl.
    destruct (decide (n ∈ gmOnCircleNodes gm)) as [Hin|Hin].
    + rewrite decide_False by by apply Hdisj.
      destruct (Hex n Hin) as (nd1 & p & pn & Hl1 & Hp1 & Hpn).
      rewrite Hh1, Hl in Hl1. simpl in Hl1.
      rewrite decide_False in Hl1 by by apply Hdisj. injection Hl1 as <-.
      unfold shiftedByParent. rewrite Hp1. simpl. rewrite Hpn.
      eexists. split; [done|]. split; [apply sameButLocation_setLocation|].
      split; [intros Hnon'; by apply Hdisj in Hin|]. split; [|done].
      intros _. rewrite Hpeq in Hp1. exists p, pn. split; [done|].
      split; [|done].
      rewrite list_lookup_imap, Hpn. simpl.
      rewrite decide_False; [done|]. by eapply Hpar.
    + destruct (decide (n ∈ nonOnCircleNodes gm)) as [Hnon'|Hnon'].
      * eexists. split; [done|]. split; [apply sameButLocation_setLocation|].
        split; [|split; [done|done]].
        intros _. exists tb, (getAllEdges gm).2. split; [done|].
        split; [by apply Hidx|]. unfold relocate, getLocation. simpl.
        by destruct (coseLocationOf runCoSE tb n).
      * exists nd. split; [done|]. split; [apply sameButLocation_refl|]. done.
Qed.

Lemma nodeListsSplitb_true gm : nodeListsSplitb gm = true -> nodeListsSplit gm.
Proof.
  unfold nodeListsSplitb, nodeListsSplit. rewrite !andb_true_iff.
  intros [[H1 H2] H3]. apply bool_decide_eq_true in H1.
  rewrite forallb_forall in H2, H3. split; [done|]. split.
  - intros n Hn. apply list_elem_of_In in Hn.
    specialize (H2 n Hn). by apply bool_decide_eq_true in H2.
  - intros n nd p Hn Hl Hp. apply list_elem_of_In in Hn.
    specialize (H3 n Hn). rewrite Hl, Hp in H3.
    by apply bool_decide_eq_true in H3.
Qed.

Lemma C10_doStep2_witness :
  sameGraphs (graphManager (Ex.lyOf Ex.laidOut1)) (graphManager (Ex.lyOf Ex.placed1)) /\
  (step (Ex.lyOf Ex.placed1), phase (Ex.lyOf Ex.placed1)) = (STEP_2, PHASE_OTHER) /\
  forall n nd, heap (graphManager (Ex.lyOf Ex.laidOut1)) !! n = Some nd ->
    exists nd', heap (graphManager (Ex.lyOf Ex.placed1)) !! n = Some nd' /\
      sameButLocation nd nd' /\
      (n ∈ nonOnCircleNodes (graphManager (Ex.lyOf Ex.laidOut1)) ->
       exists tb gm1,
         buildReducedGraph (graphManager (Ex.lyOf Ex.laidOut1)) = Some (tb, gm1) /\
         is_Some (ciseNodeToCoseNode tb !! n) /\
         getLocation nd' = coseLocationOf Ex.coseOnARow tb n) /\
      (n ∈ gmOnCircleNodes (graphManager (Ex.lyOf Ex.laidOut1)) ->
       exists p pn',
         parentNodeOf (graphManager (Ex.lyOf Ex.laidOut1)) nd = Some p /\
         heap (graphManager (Ex.lyOf Ex.placed1)) !! p = Some pn' /\
         getLocation nd' =
           mkPointD (PrimFloat.add (ptX (getLocation nd)) (ptX (getLocation pn')))
                    (PrimFloat.add (ptY (getLocation nd)) (ptY (getLocation pn')))) /\
      (n ∉ nonOnCircleNodes (graphManager (Ex.lyOf Ex.laidOut1)) ->
       n ∉ gmOnCircleNodes (graphManager (Ex.lyOf Ex.laidOut1)) -> nd' = nd).
Proof.
  apply (C10_doStep2_moves_nodes_only Ex.coseOnARow
           (Ex.lyOf Ex.laidOut1) (Ex.lyOf Ex.placed1)).
  - apply nodeListsSplitb_true. vm_compute. reflexivity.
  - vm_compute. reflexivity.
Defined.

(** ** Reversal eligibility over time *)

Lemma flagsKept_refl cs : flagsKept cs cs.
Proof. intros k c Hk. eauto. Qed.

Lemma flagsKept_trans cs1 cs2 cs3 :
  flagsKept cs1 cs2 -> flagsKept cs2 cs3 -> flagsKept cs1 cs3.
Proof.
  intros H12 H23 k c Hk. destruct (H12 k c Hk) as (c2 & Hk2 & Hf2).
  destruct (H23 k c2 Hk2) as (c3 & Hk3 & Hf3). eauto.
Qed.

Lemma flagsKept_eq cs cs' : cs' = cs -> flagsKept cs cs'.
Proof. intros ->. apply flagsKept_refl. Qed.

Lemma flagsKept_alter (f : CiSECircle -> CiSECircle) k cs :
  (forall c, mayBeReversed (f c) = mayBeReversed c) ->
  flagsKept cs (alter f k cs).
Proof.
  intros Hf j c Hj. destruct (decide (j = k)) as [->|Hne].
  - exists (f c). rewrite list_lookup_alter_eq, Hj. split; [done|].
    by rewrite Hf.
  - exists c. by rewrite list_lookup_alter_ne.
Qed.

Lemma flagsKept_app cs l : flagsKept cs (cs ++ l).
Proof. intros k c Hk. exists c. split; [by apply lookup_app_l_Some|done]. Qed.

Lemma flagsKept_insert k c c' cs :
  cs !! k = Some c ->
  (mayBeReversed c = false -> mayBeReversed c' = false) ->
  flagsKept cs (<[k := c']> cs).
Proof.
  intros Hk Hf j c0 Hj. destruct (decide (j = k)) as [->|Hne].
  - exists c'. rewrite list_lookup_insert_eq by by eapply lookup_lt_Some.
    split; [done|]. rewrite Hk in Hj. injection Hj as <-. done.
  - exists c0. by rewrite list_lookup_insert_ne.
Qed.

Lemma flagsKept_fmap {X : Type} (F : CiSECircle -> X) cs cs' :
  (forall c c', F c = F c' -> mayBeReversed c = mayBeReversed c') ->
  F <$> cs' = F <$> cs -> flagsKept cs cs'.
Proof.
  intros HF E k c Hk. apply (f_equal (fun l => l !! k)) in E.
  rewrite !list_lookup_fmap, Hk in E.
  destruct (cs' !! k) as [c'|]; simpl in E; [|done].
  exists c'. split; [done|]. apply (inj Some) in E. apply HF in E. congruence.
Qed.

Lemma flagsKept_eraseAllEdges gm gm' :
  eraseAllEdges gm' = eraseAllEdges gm -> flagsKept (circles gm) (circles gm').
Proof.
  intros H. apply (flagsKept_fmap eraseCircleEdges).
  - intros c c' E. by apply eraseCircleEdges_fields in E as (_&_&_&_&_&E&_).
  - exact (f_equal circles H).
Qed.

Lemma flagsKept_eraseInOutAll gm gm' :
  eraseInOutAll gm' = eraseInOutAll gm -> flagsKept (circles gm) (circles gm').
Proof.
  intros H. apply (flagsKept_fmap eraseInOut).
  - intros c c' E. by apply eraseInOut_fields in E as (_&_&E).
  - by apply eraseInOutAll_fields in H as (_&_&_&_&E).
Qed.

(** The construction, from any graph manager. *)
Lemma moveToOutNodes_erase n gm gm' :
  moveToOutNodes n gm = Some gm' -> eraseInOutAll gm' = eraseInOutAll gm.
Proof.
  intros H. apply moveToOutNodes_Some in H
    as (nd & _ & [[-> _]|(k & c & index & _ & _ & _ & _ & ->)]); [done|].
  unfold eraseInOutAll, updCircle, setCircles; simpl. f_equal.
  by apply eraseInOut_alter.
Qed.

Lemma convertToClusteredGraph_flags gm nodes_ edges_ clusters st :
  convertToClusteredGraph gm nodes_ edges_ clusters = Some st ->
  flagsKept (circles gm) (circles st.1).
Proof.
  unfold convertToClusteredGraph. intros H.
  apply bind_Some in H as ([gm1 m1] & H1 & H).
  apply bind_Some in H as ([gm3 m3] & H3 & H).
  apply bind_Some in H as (gm5 & H5 & H). injection H as <-. simpl in *.
  assert (flagsKept (circles gm) (circles gm1)) as K1.
  { apply (forEachM_run_inv
             (fun st => flagsKept (circles gm) (circles st.1)) _ _ _ _ H1);
      [apply flagsKept_refl|].
    intros [g m] [i ids] st' _ HK Hstep. simpl in *.
    rewrite addCluster_unfold in Hstep.
    apply (forEachM_run_inv
             (fun st => flagsKept (circles gm) (circles st.1)) _ _ _ _ Hstep).
    - simpl. eapply flagsKept_trans; [exact HK|]. apply flagsKept_app.
    - intros [g1 m']  a st2 _ HK1 Hm.
      apply addClusterMember_Some in Hm as (cy & _ & ->). simpl in *.
      eapply flagsKept_trans; [exact HK1|]. by apply flagsKept_alter. }
  assert (forall l g m, circles (foldl (addUnclustered clusters) (g, m) l).1
                        = circles g) as K2.
  { induction l as [|cy l IH]; intros g m; simpl; [done|].
    rewrite addUnclustered_unfold. destruct (existsb _ _); by rewrite IH. }
  destruct (foldl (addUnclustered clusters) (gm1, m1) nodes_) as [gm2 m2] eqn:E2.
  pose proof (K2 nodes_ gm1 m1) as K2'. rewrite E2 in K2'. simpl in K2'.
  apply addEdges_Some in H3 as (_ & He3 & _). simpl in He3.
  apply flagsKept_eraseAllEdges in He3.
  destruct (populateReferences_frame gm3) as (_ & Hc4 & _).
  assert (eraseInOutAll gm5 = eraseInOutAll (populateReferences gm3)) as K5.
  { apply (forEachM_run_inv
             (fun g => eraseInOutAll g = eraseInOutAll (populateReferences gm3))
             _ _ _ _ H5); [reflexivity|].
    intros g e g' _ Hg Hstep. unfold determineOutNodes in Hstep.
    apply bind_Some in Hstep as (ga & Ha & Hb).
    apply moveToOutNodes_erase in Ha, Hb. congruence. }
  apply flagsKept_eraseInOutAll in K5. rewrite Hc4 in K5.
  rewrite K2' in He3.
  eauto using flagsKept_trans.
Qed.

Lemma calculateParentNodeDimension_circles k gm gm' :
  calculateParentNodeDimension k gm = Some gm' -> circles gm' = circles gm.
Proof.
  unfold calculateParentNodeDimension. intros H.
  apply bind_Some in H as (c & _ & H).
  apply bind_Some in H as (mx & _ & H).
  apply bind_Some in H as (p & _ & H). by injection H as <-.
Qed.

Section StepFlags.

Variable runAVSDF : list DelegateNode -> list (nat * nat) -> AVSDFResult.
Variable runCoSE : list DelegateNode -> list (nat * nat) -> nat -> PointD.

Lemma step1Circle_flags st k st' :
  step1Circle runAVSDF st k = Some st' ->
  flagsKept (circles (s1Manager st)) (circles (s1Manager st')).
Proof.
  unfold step1Circle. intros H.
  apply bind_Some in H as (graph & _ & H).
  apply bind_Some in H as (avsdfNodes & _ & H).
  destruct (getAllEdges_frame (s1Manager st)) as (_ & Hc & _).
  destruct (getAllEdges (s1Manager st)) as [allEdges_ gm0]. simpl in Hc.
  apply bind_Some in H as (avsdfEdges & _ & H).
  apply bind_Some in H as (gm1 & H1 & H).
  apply bind_Some in H as (keyed & _ & H).
  apply bind_Some in H as (gm2 & H2 & H). injection H as <-. simpl.
  assert (circles gm1 = circles gm0) as Hc1.
  { apply (forEachM_run_inv (fun g => circles g = circles gm0) _ _ _ _ H1);
      [done|].
    intros g n g' _ Hg Hstep. unfold reflectAVSDF in Hstep.
    apply bind_Some in Hstep as (i & _ & Hstep).
    apply bind_Some in Hstep as (r & _ & Hstep).
    apply bind_Some in Hstep as (nd & _ & Hstep).
    apply bind_Some in Hstep as (ext & _ & Hstep). by injection Hstep as <-. }
  rewrite <- Hc, <- Hc1.
  destruct (0 <? length (onCircleNodes graph))%nat.
  - apply bind_Some in H2 as (p & _ & H2).
    apply calculateParentNodeDimension_circles in H2. rewrite H2.
    unfold updCircle, updNode; simpl.
    eapply flagsKept_trans; by apply flagsKept_alter.
  - injection H2 as <-. unfold updCircle; simpl. by apply flagsKept_alter.
Qed.

Lemma doStep1_flags ly ly' :
  doStep1 runAVSDF ly = Some ly' ->
  flagsKept (circles (graphManager ly)) (circles (graphManager ly')).
Proof.
  unfold doStep1. intros H. apply bind_Some in H as (st & H & E).
  injection E as <-. simpl.
  apply (forEachM_run_inv
           (fun s => flagsKept (circles (graphManager ly)) (circles (s1Manager s)))
           _ _ _ _ H); [apply flagsKept_refl|].
  intros s k s' _ Hs Hstep. apply step1Circle_flags in Hstep.
  by eapply flagsKept_trans.
Qed.

Lemma doStep2_circles ly ly' :
  doStep2 runCoSE ly = Some ly' ->
  circles (graphManager ly') = circles (graphManager ly).
Proof.
  unfold doStep2. intros H.
  apply bind_Some in H as ([tb gm1] & Hb & H).
  apply bind_Some in H as (gm2 & H1 & H).
  apply bind_Some in H as (gm3 & H2 & H). injection H as <-. simpl.
  apply buildReducedGraph_Some in Hb as ->.
  destruct (getAllEdges_frame (graphManager ly)) as (_ & Hc & _).
  apply placeNonOnCircleNodes_Some in H1 as [_ ->].
  rewrite <- Hc.
  apply (forEachM_run_inv
           (fun g => circles g = circles (getAllEdges (graphManager ly)).2)
           _ _ _ _ H2); [done|].
  intros g n g' _ Hg Hstep. unfold placeOnCircleNode in Hstep.
  apply bind_Some in Hstep as (nd & _ & Hstep).
  apply bind_Some in Hstep as (g0 & _ & Hstep).
  apply bind_Some in Hstep as (lg & _ & Hstep).
  apply bind_Some in Hstep as (p & _ & Hstep).
  apply bind_Some in Hstep as (pn & _ & Hstep). by injection Hstep as <-.
Qed.

Lemma prepareCirclesForReversal_flags gm gm' :
  prepareCirclesForReversal gm = Some gm' ->
  flagsKept (circles gm) (circles gm').
Proof.
  unfold prepareCirclesForReversal. intros H.
  apply (forEachM_run_inv (fun g => flagsKept (circles gm) (circles g))
           _ _ _ _ H); [apply flagsKept_refl|].
  intros g n g' _ Hg Hstep.
  apply prepareCircle_Some in Hstep
    as (_ & _ & nd & _ & [[_ ->]|(k & c & l & c' & _ & Hk & -> & _ & _ & Hf)]);
    [done|].
  eapply flagsKept_trans; [exact Hg|]. by eapply flagsKept_insert.
Qed.

Lemma onCircle_flags k f ly ly' :
  (forall c c', f c = Some c' ->
                mayBeReversed c = false -> mayBeReversed c' = false) ->
  onCircle k f ly = Some ly' ->
  flagsKept (circles (graphManager ly)) (circles (graphManager ly')).
Proof.
  intros Hf H. unfold onCircle in H.
  apply bind_Some in H as (c & Hc & H).
  apply bind_Some in H as (c' & Hc' & H). injection H as <-. simpl.
  eapply flagsKept_insert; [done|]. by eapply Hf.
Qed.

(** No operation makes a circle reversible again. *)
Lemma runOp_flags ly op ly' :
  runOp runAVSDF runCoSE ly op = Some ly' ->
  flagsKept (circles (graphManager ly)) (circles (graphManager ly')).
Proof.
  destruct op; simpl; intros H.
  - apply bind_Some in H as (st & Hst & H). injection H as <-. simpl.
    by eapply convertToClusteredGraph_flags.
  - by apply doStep1_flags.
  - apply flagsKept_eq. by apply doStep2_circles.
  - apply fmap_Some in H as (gm' & Hp & ->). simpl.
    by apply prepareCirclesForReversal_flags.
  - eapply onCircle_flags; [|exact H]. by intros c c' [= <-].
  - eapply onCircle_flags; [|exact H]. by intros c c' [= <-].
  - apply fmap_Some in H as (gm' & Hp & ->). simpl.
    apply flagsKept_eq. by eapply calculateParentNodeDimension_circles.
  - eapply onCircle_flags; [|exact H]. intros c c' Hg Hc.
    apply fmap_Some in Hg as ([l c0] & Hg & ->).
    apply getInterClusterEdges_Some in Hg as (_ & Hfl & _). simpl. congruence.
  - eapply onCircle_flags; [|exact H]. intros c c' [= <-].
    unfold getIntraClusterEdges. by destruct (intraClusterEdges c).
  - eapply onCircle_flags; [|exact H]. intros c c' Hc.
    by apply computeOrderMatrix_Some in Hc as [m ->].
Qed.

End StepFlags.

(** C9: a new circle may be reversed, and no sequence of operations of the
    layout (construction, steps 1 and 2, reversal preparation, and the
    methods of a circle) makes a circle that is marked non-reversible
    reversible again: the circle stays in place and its [mayBeReversed]
    stays false. *)
Theorem C9_mayBeReversed_monotone
  (runAVSDF : list DelegateNode -> list (nat * nat) -> AVSDFResult)
  (runCoSE : list DelegateNode -> list (nat * nat) -> nat -> PointD)
  (ops : list Op) (ly ly' : CiSELayout) (k : nat) (c : CiSECircle) :
  runOps runAVSDF runCoSE ops ly = Some ly' ->
  circles (graphManager ly) !! k = Some c ->
  mayBeReversed newCiSECircle = true /\
  mayBeReversed (setMayNotBeReversed c) = false /\
  exists c', circles (graphManager ly') !! k = Some c' /\
             (mayBeReversed c = false -> mayBeReversed c' = false).
Proof.
  intros Hrun Hk. split; [done|]. split; [done|].
  assert (flagsKept (circles (graphManager ly)) (circles (graphManager ly')))
    as HK; [|by apply HK].
  apply (forEachM_run_inv
           (fun l => flagsKept (circles (graphManager ly)) (circles (graphManager l)))
           _ _ _ _ Hrun); [apply flagsKept_refl|].
  intros l op l' _ Hl Hstep. apply runOp_flags in Hstep.
  by eapply flagsKept_trans.
Qed.

Lemma C9_mayBeReversed_witness :
  mayBeReversed newCiSECircle = true /\
  mayBeReversed (setMayNotBeReversed (Ex.circleOf Ex.prepared2 0)) = false /\
  exists c', circles (graphManager (Ex.lyOf Ex.again2)) !! 0%nat = Some c' /\
             (mayBeReversed (Ex.circleOf Ex.prepared2 0) = false ->
              mayBeReversed c' = false).
Proof.
  apply (C9_mayBeReversed_monotone Ex.avsdfInOrder Ex.coseOnARow Ex.moreOps
           (Ex.lyOf Ex.prepared2) (Ex.lyOf Ex.again2) 0
           (Ex.circleOf Ex.prepared2 0)).
  - vm_compute. reflexivity.
  - vm_compute. reflexivity.
Defined.

(** ** How the construction links nodes and graphs *)

Lemma Linked_newGraphManager : Linked newGraphManager.
Proof.
  split; try done.
  - intros [|n] nd; simpl; [|done]. by intros [= <-].
  - intros [|n] nd k; simpl; [|done]. by intros [= <-].
  - split; [constructor|]. intros n Hn. inversion Hn.
Qed.

Lemma allNodesOf_root_snoc gm gm' n :
  nodes (rootGraph gm') = nodes (rootGraph gm) ++ [n] ->
  concat ((nodes ∘ base) <$> circles gm') = concat ((nodes ∘ base) <$> circles gm) ->
  allNodesOf gm' ≡ₚ n :: allNodesOf gm.
Proof.
  intros Hr Hc. unfold allNodesOf. rewrite Hr, Hc.
  rewrite <- app_assoc. simpl. symmetry. apply Permutation_middle.
Qed.

Lemma linked_all_snoc gm gm' nd :
  (NoDup (allNodesOf gm) /\ forall n, n ∈ allNodesOf gm -> (n < length (heap gm))%nat) ->
  heap gm' = heap gm ++ [nd] ->
  allNodesOf gm' ≡ₚ length (heap gm) :: allNodesOf gm ->
  NoDup (allNodesOf gm') /\
  forall n, n ∈ allNodesOf gm' -> (n < length (heap gm'))%nat.
Proof.
  intros [Hnd Hlt] Hh Hp. rewrite Hh, length_app. simpl. split.
  - rewrite Hp. apply NoDup_cons. split; [|done].
    intros Hin. apply Hlt in Hin. lia.
  - intros n Hn. rewrite Hp in Hn.
    apply elem_of_cons in Hn as [->|Hn]; [lia|]. apply Hlt in Hn. lia.
Qed.

Lemma clusterStart_Linked i gm :
  Linked gm -> Linked (clusterStart i gm).
Proof.
  intros [L1 L2 L3 L4 L5]. split; [simpl|simpl|simpl| |simpl].
  - intros n nd [[_ Hl]|[-> <-]]%lookup_snoc_Some Ho;
      apply elem_of_app; [left; by eapply L1|right; by left].
  - intros n nd k [[_ Hl]|[-> <-]]%lookup_snoc_Some Ho; [|done].
    destruct (L2 n nd k Hl Ho) as (c & Hc & Hn). exists c.
    split; [by apply lookup_app_l_Some|done].
  - intros k c [[_ Hk]|[-> <-]]%lookup_snoc_Some.
    + destruct (L3 k c Hk) as (p & pn & Hp & Hl & Hch & Ho & Hin).
      exists p, pn. split; [done|]. split; [by apply lookup_app_l_Some|].
      split; [done|]. split; [done|]. apply elem_of_app. by left.
    + exists (length (heap gm)), (placeholderNode i (length (circles gm))).
      split; [done|]. split; [by apply list_lookup_middle|].
      split; [done|]. split; [done|]. apply elem_of_app. right. by left.
  - apply (linked_all_snoc gm _ (placeholderNode i (length (circles gm))) L4);
      [done|].
    apply allNodesOf_root_snoc; [done|]. simpl.
    rewrite fmap_app, concat_app. simpl. by rewrite app_nil_r.
  - intros k c [[_ Hk]|[-> <-]]%lookup_snoc_Some; [by eapply L5|done].
Qed.

Lemma addClusterMember_Linked tbl i k gm m nodeID st' :
  Linked gm -> is_Some (circles gm !! k) ->
  addClusterMember tbl i k (gm, m) nodeID = Some st' ->
  Linked st'.1 /\ length (circles st'.1) = length (circles gm).
Proof.
  intros [L1 L2 L3 L4 L5] [c0 Hc0] H.
  apply addClusterMember_Some in H as (cy & _ & ->). simpl.
  split; [|by rewrite length_alter]. split; [simpl|simpl|simpl| |simpl].
  - intros n nd [[_ Hl]|[-> <-]]%lookup_snoc_Some Ho; [by eapply L1|done].
  - intros n nd k' [[_ Hl]|[-> <-]]%lookup_snoc_Some Ho.
    + destruct (L2 n nd k' Hl Ho) as (c & Hc & Hn).
      destruct (decide (k' = k)) as [->|Hne].
      * exists (addMember (length (heap gm)) c).
        rewrite list_lookup_alter_eq, Hc. split; [done|]. simpl.
        apply elem_of_app. by left.
      * exists c. by rewrite list_lookup_alter_ne.
    + simpl in Ho. injection Ho as <-.
      exists (addMember (length (heap gm)) c0).
      rewrite list_lookup_alter_eq, Hc0. split; [done|]. simpl.
      apply elem_of_app. right. by left.
  - intros k' c Hk'.
    assert (exists c1, circles gm !! k' = Some c1 /\
                       parent (base c) = parent (base c1)) as (c1 & Hc1 & ->).
    { destruct (decide (k' = k)) as [->|Hne].
      - rewrite list_lookup_alter_eq, Hc0 in Hk'. injection Hk' as <-. eauto.
      - rewrite list_lookup_alter_ne in Hk' by done. eauto. }
    destruct (L3 k' c1 Hc1) as (p & pn & Hp & Hl & Hch & Ho & Hin).
    exists p, pn. split; [done|]. split; [by apply lookup_app_l_Some|done].
  - apply (linked_all_snoc gm _ (memberNode i k nodeID cy) L4); [done|].
    unfold allNodesOf. simpl.
    rewrite (concat_alter_push _ _ (length (heap gm)) k _ c0) by done.
    symmetry. apply Permutation_middle.
  - intros k' c Hk'. destruct (decide (k' = k)) as [->|Hne].
    + rewrite list_lookup_alter_eq, Hc0 in Hk'. injection Hk' as <-. simpl.
      by rewrite (L5 k c0 Hc0).
    + rewrite list_lookup_alter_ne in Hk' by done. by eapply L5.
Qed.

Lemma addCluster_Linked tbl gm m ic st' :
  Linked gm -> addCluster tbl (gm, m) ic = Some st' -> Linked st'.1.
Proof.
  intros HL. destruct ic as [i ids]. rewrite addCluster_unfold. intros H.
  apply (forEachM_run_inv
           (fun st => Linked st.1 /\
                      length (circles st.1) = S (length (circles gm)))
           _ _ _ _ H).
  - simpl. split; [by apply clusterStart_Linked|].
    rewrite length_app. simpl. lia.
  - intros [g1 m1] a st2 _ [HL1 Hlen] Hstep. simpl in *.
    assert (is_Some (circles g1 !! length (circles gm))) as Hk
      by (apply lookup_lt_is_Some; lia).
    destruct (addClusterMember_Linked _ _ _ _ _ _ _ HL1 Hk Hstep) as [? Hlen'].
    split; [done|congruence].
Qed.

Lemma unclustered_Linked clusters nodes_ gm m :
  Linked gm -> Linked (foldl (addUnclustered clusters) (gm, m) nodes_).1.
Proof.
  revert gm m. induction nodes_ as [|cy l IH]; intros gm m HL; simpl; [done|].
  rewrite addUnclustered_unfold. destruct (existsb _ _); [by apply IH|].
  apply IH. destruct HL as [L1 L2 L3 L4 L5]. split; [simpl|simpl|simpl| |simpl].
  - intros n nd [[_ Hl]|[-> <-]]%lookup_snoc_Some Ho;
      apply elem_of_app; [left; by eapply L1|right; by left].
  - intros n nd k [[_ Hl]|[-> <-]]%lookup_snoc_Some Ho; [by eapply L2|done].
  - intros k c Hk. destruct (L3 k c Hk) as (p & pn & Hp & Hl & Hch & Ho & Hin).
    exists p, pn. split; [done|]. split; [by apply lookup_app_l_Some|].
    split; [done|]. split; [done|]. apply elem_of_app. by left.
  - apply (linked_all_snoc gm _ (unclusteredNode cy) L4); [done|].
    by apply allNodesOf_root_snoc.
  - done.
Qed.

Lemma linkView_heap gm gm' n nd' :
  linkView gm' = linkView gm -> heap gm' !! n = Some nd' ->
  exists nd, heap gm !! n = Some nd /\ owner nd = owner nd' /\ child nd = child nd'.
Proof.
  unfold linkView. intros [= E _ _] Hl.
  apply (f_equal (fun l => l !! n)) in E. rewrite !list_lookup_fmap, Hl in E.
  destruct (heap gm !! n) as [nd|]; simpl in E; [|done].
  injection E as E1 E2. by exists nd.
Qed.

Lemma linkView_circle gm gm' k c' :
  linkView gm' = linkView gm -> circles gm' !! k = Some c' ->
  exists c, circles gm !! k = Some c /\ parent (base c) = parent (base c') /\
            nodes (base c) = nodes (base c') /\ onCircleNodes c = onCircleNodes c'.
Proof.
  unfold linkView. intros [= _ _ E] Hl.
  apply (f_equal (fun l => l !! k)) in E. rewrite !list_lookup_fmap, Hl in E.
  destruct (circles gm !! k) as [c|]; simpl in E; [|done].
  injection E as E1 E2 E3. by exists c.
Qed.

Lemma linkView_allNodesOf gm gm' :
  linkView gm' = linkView gm ->
  allNodesOf gm' = allNodesOf gm /\ length (heap gm') = length (heap gm).
Proof.
  unfold linkView. intros [= E1 E2 E3]. split.
  - unfold allNodesOf. rewrite E2. f_equal. f_equal.
    apply (f_equal (fmap (fun x : option nat * list nat * list nat => x.1.2)))
      in E3.
    by rewrite <- !list_fmap_compose in E3.
  - apply (f_equal length) in E1. by rewrite !length_fmap in E1.
Qed.

Lemma Linked_view gm gm' : linkView gm' = linkView gm -> Linked gm -> Linked gm'.
Proof.
  intros E [L1 L2 L3 L4 L5].
  assert (nodes (rootGraph gm') = nodes (rootGraph gm)) as Er
    by (unfold linkView in E; by injection E).
  split.
  - intros n nd' Hl Ho. rewrite Er.
    destruct (linkView_heap _ _ _ _ E Hl) as (nd & Hl0 & Eo & _).
    apply (L1 n nd Hl0). congruence.
  - intros n nd' k Hl Ho.
    destruct (linkView_heap _ _ _ _ E Hl) as (nd & Hl0 & Eo & _).
    destruct (L2 n nd k Hl0 ltac:(congruence)) as (c & Hc & Hn).
    destruct (linkView_circle gm' gm k c (eq_sym E) Hc) as (c' & Hc' & _ & En & _).
    exists c'. split; [done|]. congruence.
  - intros k c' Hk.
    destruct (linkView_circle _ _ _ _ E Hk) as (c & Hc & Ep & _).
    destruct (L3 k c Hc) as (p & pn & Hp & Hl & Hch & Ho & Hin).
    destruct (linkView_heap gm' gm p pn (eq_sym E) Hl) as (pn' & Hl' & Eo & Ec).
    exists p, pn'. rewrite Er. repeat split; try done; congruence.
  - destruct (linkView_allNodesOf _ _ E) as [-> ->]. done.
  - intros k c' Hk.
    destruct (linkView_circle _ _ _ _ E Hk) as (c & Hc & _ & En & Eon).
    rewrite <- En, <- Eon. by eapply L5.
Qed.

Lemma linkView_eraseAllEdges gm gm' :
  eraseAllEdges gm' = eraseAllEdges gm -> linkView gm' = linkView gm.
Proof.
  unfold eraseAllEdges, linkView. intros [= E1 E2 E3 E4 E5 E6 E7 E8 E9].
  f_equal; [f_equal|]; [|done|].
  - apply (f_equal (fmap (fun nd => (owner nd, child nd)))) in E1.
    by rewrite <- !list_fmap_compose in E1.
  - apply (f_equal (fmap (fun c => (parent (base c), nodes (base c),
                                    onCircleNodes c)))) in E5.
    by rewrite <- !list_fmap_compose in E5.
Qed.

Lemma linkView_eraseInOutAll gm gm' :
  eraseInOutAll gm' = eraseInOutAll gm -> linkView gm' = linkView gm.
Proof.
  intros E. apply eraseInOutAll_fields in E as (Eh & Er & _ & _ & Ec).
  unfold linkView. rewrite Eh, Er. f_equal.
  apply (f_equal (fmap (fun c => (parent (base c), nodes (base c),
                                  onCircleNodes c)))) in Ec.
  by rewrite <- !list_fmap_compose in Ec.
Qed.

Lemma linkView_populateReferences gm :
  linkView (populateReferences gm) = linkView gm.
Proof.
  destruct (populateReferences_frame gm) as (Hh & Hc & Hr & _).
  unfold linkView. by rewrite Hh, Hc, Hr.
Qed.

(** The construction leaves nodes and graphs linked. *)
Lemma convertToClusteredGraph_Linked nodes_ edges_ clusters gm m :
  convertToClusteredGraph newGraphManager nodes_ edges_ clusters = Some (gm, m) ->
  Linked gm.
Proof.
  unfold convertToClusteredGraph. intros H.
  apply bind_Some in H as ([gm1 m1] & H1 & H).
  apply bind_Some in H as ([gm3 m3] & H3 & H).
  apply bind_Some in H as (gm5 & H5 & H). simpl in *. injection H as -> ->.
  assert (Linked gm1) as HL1.
  { apply (forEachM_run_inv (fun st => Linked st.1) _ _ _ _ H1);
      [apply Linked_newGraphManager|].
    intros [g m0] ic st' _ HL Hstep. by eapply addCluster_Linked. }
  pose proof (unclustered_Linked clusters nodes_ gm1 m1 HL1) as HL2.
  destruct (foldl (addUnclustered clusters) (gm1, m1) nodes_) as [gm2 m2].
  apply addEdges_Some in H3 as (_ & He3 & _). simpl in *.
  assert (eraseInOutAll gm = eraseInOutAll (populateReferences gm3)) as K5.
  { apply (forEachM_run_inv
             (fun g => eraseInOutAll g = eraseInOutAll (populateReferences gm3))
             _ _ _ _ H5); [reflexivity|].
    intros g e g' _ Hg Hstep. unfold determineOutNodes in Hstep.
    apply bind_Some in Hstep as (ga & Ha & Hb).
    apply moveToOutNodes_erase in Ha, Hb. congruence. }
  apply (Linked_view gm2); [|done].
  rewrite (linkView_eraseInOutAll _ _ K5), linkView_populateReferences.
  by apply linkView_eraseAllEdges.
Qed.

(** A node owns a circle as its child only as the parent of that circle. *)
Lemma Fathered_newGraphManager : Fathered newGraphManager.
Proof. intros [|n] nd k; simpl; [|done]. by intros [= <-]. Qed.

Lemma clusterStart_Fathered i gm :
  Fathered gm -> Fathered (clusterStart i gm).
Proof.
  intros HF n nd k. simpl.
  intros [[_ Hl]|[-> <-]]%lookup_snoc_Some Hch.
  - destruct (HF n nd k Hl Hch) as (c & Hc & Hp). exists c.
    split; [by apply lookup_app_l_Some|done].
  - simpl in Hch. injection Hch as <-.
    exists (emptyCircle (length (heap gm))).
    split; [by apply list_lookup_middle|done].
Qed.

Lemma addClusterMember_Fathered tbl i k gm m nodeID st' :
  Fathered gm -> addClusterMember tbl i k (gm, m) nodeID = Some st' ->
  Fathered st'.1.
Proof.
  intros HF H. apply addClusterMember_Some in H as (cy & _ & ->). simpl.
  intros n nd k'. simpl.
  intros [[_ Hl]|[-> <-]]%lookup_snoc_Some Hch; [|done].
  destruct (HF n nd k' Hl Hch) as (c & Hc & Hp).
  destruct (decide (k' = k)) as [->|Hne].
  - exists (addMember (length (heap gm)) c).
    by rewrite list_lookup_alter_eq, Hc.
  - exists c. by rewrite list_lookup_alter_ne.
Qed.

Lemma unclustered_Fathered clusters nodes_ gm m :
  Fathered gm -> Fathered (foldl (addUnclustered clusters) (gm, m) nodes_).1.
Proof.
  revert gm m. induction nodes_ as [|cy l IH]; intros gm m HF; simpl; [done|].
  rewrite addUnclustered_unfold. destruct (existsb _ _); [by apply IH|].
  apply IH. intros n nd k. simpl.
  intros [[_ Hl]|[-> <-]]%lookup_snoc_Some Hch; [by eapply HF|done].
Qed.

Lemma Fathered_view gm gm' :
  linkView gm' = linkView gm -> Fathered gm -> Fathered gm'.
Proof.
  intros E HF n nd' k Hl Hch.
  destruct (linkView_heap _ _ _ _ E Hl) as (nd & Hl0 & _ & Ec).
  destruct (HF n nd k Hl0 ltac:(congruence)) as (c & Hc & Hp).
  destruct (linkView_circle gm' gm k c (eq_sym E) Hc) as (c' & Hc' & Ep & _).
  exists c'. split; [done|]. congruence.
Qed.

Lemma convertToClusteredGraph_Fathered nodes_ edges_ clusters gm m :
  convertToClusteredGraph newGraphManager nodes_ edges_ clusters = Some (gm, m) ->
  Fathered gm.
Proof.
  unfold convertToClusteredGraph. intros H.
  apply bind_Some in H as ([gm1 m1] & H1 & H).
  apply bind_Some in H as ([gm3 m3] & H3 & H).
  apply bind_Some in H as (gm5 & H5 & H). simpl in *. injection H as -> ->.
  assert (Fathered gm1) as HL1.
  { apply (forEachM_run_inv (fun st => Fathered st.1) _ _ _ _ H1);
      [apply Fathered_newGraphManager|].
    intros [g m0] [i ids] st' _ HL Hstep. rewrite addCluster_unfold in Hstep.
    apply (forEachM_run_inv (fun st => Fathered st.1) _ _ _ _ Hstep);
      [by apply clusterStart_Fathered|].
    intros [g1 m2] a st2 _ HL2 Hs. by eapply addClusterMember_Fathered. }
  pose proof (unclustered_Fathered clusters nodes_ gm1 m1 HL1) as HL2.
  destruct (foldl (addUnclustered clusters) (gm1, m1) nodes_) as [gm2 m2].
  apply addEdges_Some in H3 as (_ & He3 & _). simpl in *.
  assert (eraseInOutAll gm = eraseInOutAll (populateReferences gm3)) as K5.
  { apply (forEachM_run_inv
             (fun g => eraseInOutAll g = eraseInOutAll (populateReferences gm3))
             _ _ _ _ H5); [reflexivity|].
    intros g e g' _ Hg Hstep. unfold determineOutNodes in Hstep.
    apply bind_Some in Hstep as (ga & Ha & Hb).
    apply moveToOutNodes_erase in Ha, Hb. congruence. }
  apply (Fathered_view gm2); [|done].
  rewrite (linkView_eraseInOutAll _ _ K5), linkView_populateReferences.
  by apply linkView_eraseAllEdges.
Qed.

(** C3, amended: every node that owns a child circle after the construction
    has no node id, and carries the cluster id of its cluster, the position
    of its circle; the on-circle nodes of that circle carry the same cluster
    id, and no other node does: a node with this cluster id is that
    placeholder or one of the on-circle nodes of its circle. *)
Theorem C3_placeholder_carries_cluster_id
  (nodes_ : list CyNode) (edges_ : list CyEdge) (clusters : list (list string))
  (gm : CiSEGraphManager) (m : gmap string nat) (n : nat) (nd : CiSENode)
  (k : nat) :
  convertToClusteredGraph newGraphManager nodes_ edges_ clusters = Some (gm, m) ->
  heap gm !! n = Some nd ->
  child nd = Some (CircleGraph k) ->
  ID nd = None /\ clusterID nd = Some (Z.of_nat k) /\
  (forall c x, circles gm !! k = Some c -> x ∈ onCircleNodes c ->
     exists xd, heap gm !! x = Some xd /\ clusterID xd = Some (Z.of_nat k)) /\
  (forall x xd, heap gm !! x = Some xd -> clusterID xd = Some (Z.of_nat k) ->
     x = n \/ exists c, circles gm !! k = Some c /\ x ∈ onCircleNodes c).
Proof.
  intros H Hn Hch.
  pose proof (convertToClusteredGraph_Linked _ _ _ _ _ H) as HL.
  pose proof (convertToClusteredGraph_Fathered _ _ _ _ _ H) as HF.
  apply convertToClusteredGraph_Built in H as ([Hnodes Hcs _] & _).
  pose proof (Hnodes n nd Hn) as Hok. unfold nodeOk in Hok.
  destruct (owner nd) as [[|k']|].
  - destruct Hok as [_ Hok]. rewrite Hch in Hok. destruct Hok as [-> ->].
    split; [done|]. split; [done|]. split.
    + intros c x Hc Hx. destruct (Hcs k c Hc) as [_ Hin].
      destruct (Hin x Hx) as (xd & Hxd & Ho). exists xd. split; [done|].
      pose proof (Hnodes x xd Hxd) as Hokx. unfold nodeOk in Hokx.
      rewrite Ho in Hokx. by destruct Hokx as (_ & -> & _).
    + intros x xd Hxd Hcl.
      pose proof (Hnodes x xd Hxd) as Hokx. unfold nodeOk in Hokx.
      destruct (owner xd) as [[|j]|] eqn:Ho.
      * destruct Hokx as [_ Hokx].
        destruct (child xd) as [[|j]|] eqn:Hcx; [done| |].
        -- left. destruct Hokx as [Hid Hj].
           assert (j = k) as -> by (apply Nat2Z.inj; congruence).
           destruct (HF x xd k Hxd Hcx) as (c & Hc & Hp).
           destruct (HF n nd k Hn Hch) as (c' & Hc' & Hp'). congruence.
        -- destruct Hokx as [Hm1 _]. rewrite Hm1 in Hcl.
           injection Hcl as Hcl. lia.
      * right. destruct Hokx as (_ & Hj & _).
        assert (j = k) as -> by (apply Nat2Z.inj; congruence).
        destruct (linked_circle _ HL x xd k Hxd Ho) as (c & Hc & Hin).
        exists c. split; [done|]. by rewrite <- (linked_nodes _ HL k c Hc).
      * destruct Hokx as (_ & _ & Hnone). congruence.
  - destruct Hok as [Hnone _]. congruence.
  - destruct Hok as [Hroot _]. congruence.
Qed.

Lemma C3_placeholder_witness :
  ID (Ex.nodeOf Ex.built1 1) = None /\
  clusterID (Ex.nodeOf Ex.built1 1) = Some (Z.of_nat 0) /\
  (forall c x, circles Ex.state1.1 !! 0%nat = Some c -> x ∈ onCircleNodes c ->
     exists xd, heap Ex.state1.1 !! x = Some xd /\
                clusterID xd = Some (Z.of_nat 0)) /\
  (forall x xd, heap Ex.state1.1 !! x = Some xd ->
     clusterID xd = Some (Z.of_nat 0) ->
     x = 1%nat \/
     exists c, circles Ex.state1.1 !! 0%nat = Some c /\ x ∈ onCircleNodes c).
Proof.
  apply (C3_placeholder_carries_cluster_id Ex.nodes1 Ex.edges1 Ex.clusters1
           Ex.state1.1 Ex.state1.2 1 (Ex.nodeOf Ex.built1 1) 0).
  - vm_compute. reflexivity.
  - vm_compute. reflexivity.
  - vm_compute. reflexivity.
Defined.

(** ** The node lists after the construction and after step 1 *)

Lemma parentNodeOf_view gm gm' n nd nd' :
  splitView gm' = splitView gm ->
  heap gm !! n = Some nd -> heap gm' !! n = Some nd' ->
  parentNodeOf gm' nd' = parentNodeOf gm nd.
Proof.
  unfold splitView. intros [= Eh Er Ec _ _] Hl Hl'.
  apply (f_equal (fun l => l !! n)) in Eh.
  rewrite !list_lookup_fmap, Hl, Hl' in Eh. simpl in Eh.
  apply (inj Some) in Eh.
  unfold parentNodeOf. rewrite Eh.
  destruct (owner nd) as [[|k]|]; simpl; [by rewrite Er| |done].
  apply (f_equal (fun l => l !! k)) in Ec. rewrite !list_lookup_fmap in Ec.
  destruct (circles gm' !! k), (circles gm !! k); simpl in *; try done.
  by apply (inj Some) in Ec.
Qed.

Lemma nodeListsSplit_view gm gm' :
  splitView gm' = splitView gm -> nodeListsSplit gm -> nodeListsSplit gm'.
Proof.
  unfold nodeListsSplit. intros E (H1 & H2 & H3).
  assert (gmOnCircleNodes gm' = gmOnCircleNodes gm /\
          nonOnCircleNodes gm' = nonOnCircleNodes gm) as [-> ->]
    by (unfold splitView in E; by injection E).
  split; [done|]. split; [done|].
  intros n nd' p Hn Hl' Hp.
  assert (exists nd, heap gm !! n = Some nd) as [nd Hl].
  { unfold splitView in E. injection E as Eh _ _ _ _.
    apply (f_equal (fun l => l !! n)) in Eh.
    rewrite !list_lookup_fmap, Hl' in Eh.
    destruct (heap gm !! n); [eauto|done]. }
  rewrite (parentNodeOf_view gm gm' n nd nd' E Hl Hl') in Hp. by eapply H3.
Qed.

Lemma populateReferences_lists gm :
  allNodes gm = None ->
  gmOnCircleNodes (populateReferences gm)
    = filter (fun n => isOnCircle (heap gm) n = true) (allNodesOf gm) /\
  nonOnCircleNodes (populateReferences gm)
    = filter (fun n => isOnCircle (heap gm) n = false) (allNodesOf gm).
Proof.
  intros H. unfold populateReferences, getAllNodes. rewrite H. by simpl.
Qed.

(** The construction leaves the node lists split. *)
Lemma convertToClusteredGraph_nodeListsSplit nodes_ edges_ clusters gm m :
  convertToClusteredGraph newGraphManager nodes_ edges_ clusters = Some (gm, m) ->
  nodeListsSplit gm.
Proof.
  intros H.
  pose proof (convertToClusteredGraph_Linked _ _ _ _ _ H) as HL.
  pose proof (convertToClusteredGraph_Built _ _ _ _ _ H) as (HB & _).
  apply convertToClusteredGraph_phases in H
    as (gm2 & gm3 & _ & HF2 & _ & H3 & H5).
  apply addEdges_Some in H3 as (_ & He3 & _). simpl in He3.
  assert (allNodes gm3 = None) as Hmemo.
  { destruct (fresh_memo _ HF2) as [_ <-].
    unfold eraseAllEdges in He3. by injection He3. }
  destruct (populateReferences_lists gm3 Hmemo) as [Hon Hnon].
  destruct (populateReferences_frame gm3) as (Hh4 & Hc4 & Hr4 & _).
  assert (eraseInOutAll gm = eraseInOutAll (populateReferences gm3)) as K5.
  { apply (forEachM_run_inv
             (fun g => eraseInOutAll g = eraseInOutAll (populateReferences gm3))
             _ _ _ _ H5); [reflexivity|].
    intros g e g' _ Hg Hstep. unfold determineOutNodes in Hstep.
    apply bind_Some in Hstep as (ga & Ha & Hb).
    apply moveToOutNodes_erase in Ha, Hb. congruence. }
  assert (gmOnCircleNodes gm = gmOnCircleNodes (populateReferences gm3) /\
          nonOnCircleNodes gm = nonOnCircleNodes (populateReferences gm3))
    as [Eon Enon]
    by (unfold eraseInOutAll, setCircles in K5; by injection K5).
  pose proof (linkView_eraseInOutAll _ _ K5) as Ev.
  rewrite linkView_populateReferences in Ev.
  destruct (linkView_allNodesOf _ _ Ev) as [Eall _].
  apply eraseInOutAll_fields in K5 as (Eh & _).
  rewrite Hh4 in Eh. rewrite Hon in Eon. rewrite Hnon in Enon.
  rewrite <- Eh, <- Eall in Eon, Enon.
  assert (forall n, n ∈ gmOnCircleNodes gm -> isOnCircle (heap gm) n = true) as Hin.
  { intros n. rewrite Eon. by intros [? _]%list_elem_of_filter. }
  unfold nodeListsSplit. split; [|split].
  - rewrite Eon. apply NoDup_filter. by destruct (linked_all _ HL).
  - intros n Hn. apply Hin in Hn. rewrite Enon.
    intros [Hf _]%list_elem_of_filter. congruence.
  - intros n nd p Hn Hl Hp Hpin. apply Hin in Hn. apply Hin in Hpin.
    unfold isOnCircle in Hn, Hpin. rewrite Hl in Hn.
    apply bool_decide_eq_true in Hn.
    pose proof (built_nodes _ _ HB n nd Hl) as Hok. unfold nodeOk in Hok.
    unfold parentNodeOf in Hp.
    destruct (owner nd) as [[|k]|]; simpl in Hp.
    + destruct Hok as [Hext _]. rewrite Hext in Hn. by destruct Hn.
    + destruct (circles gm !! k) as [c|] eqn:Hc; simpl in Hp; [|done].
      destruct (linked_parent _ HL k c Hc) as (p' & pn & Hp' & Hlp & _ & Hop & _).
      rewrite Hp in Hp'. injection Hp' as <-. rewrite Hlp in Hpin.
      apply bool_decide_eq_true in Hpin.
      pose proof (built_nodes _ _ HB p pn Hlp) as Hokp. unfold nodeOk in Hokp.
      rewrite Hop in Hokp. destruct Hokp as [Hext _]. rewrite Hext in Hpin.
      by destruct Hpin.
    + done.
Qed.

(** Every circle the construction makes is the child of a node of the root
    graph: the circles [prepareCirclesForReversal] visits are all of them. *)
Lemma convertToClusteredGraph_parents nodes_ edges_ clusters gm m k c :
  convertToClusteredGraph newGraphManager nodes_ edges_ clusters = Some (gm, m) ->
  circles gm !! k = Some c ->
  exists p pn, p ∈ nodes (rootGraph gm) /\ heap gm !! p = Some pn /\
               child pn = Some (CircleGraph k).
Proof.
  intros H Hk. apply convertToClusteredGraph_Linked in H.
  destruct (linked_parent _ H k c Hk) as (p & pn & _ & Hl & Hch & _ & Hin).
  by exists p, pn.
Qed.

Lemma splitView_updNode n (f : CiSENode -> CiSENode) gm :
  (forall nd, owner (f nd) = owner nd) ->
  splitView (updNode n f gm) = splitView gm.
Proof.
  intros Hf. unfold splitView, updNode, setHeap; simpl. f_equal. f_equal.
  f_equal. f_equal.
  apply list_eq. intros i. rewrite !list_lookup_fmap.
  destruct (decide (i = n)) as [->|Hne].
  - rewrite list_lookup_alter_eq. destruct (heap gm !! n); simpl; [|done].
    by rewrite Hf.
  - by rewrite list_lookup_alter_ne.
Qed.

Lemma splitView_updCircle k (f : CiSECircle -> CiSECircle) gm :
  (forall c, parent (base (f c)) = parent (base c)) ->
  splitView (updCircle k f gm) = splitView gm.
Proof.
  intros Hf. unfold splitView, updCircle, setCircles; simpl. f_equal. f_equal.
  f_equal.
  apply list_eq. intros i. rewrite !list_lookup_fmap.
  destruct (decide (i = k)) as [->|Hne].
  - rewrite list_lookup_alter_eq. destruct (circles gm !! k); simpl; [|done].
    by rewrite Hf.
  - by rewrite list_lookup_alter_ne.
Qed.

Lemma splitView_getAllEdges gm : splitView (getAllEdges gm).2 = splitView gm.
Proof.
  destruct (getAllEdges_frame gm) as (Hh & Hc & Hr & _ & _ & Hon & Hnon & _).
  unfold splitView. by rewrite Hh, Hc, Hr, Hon, Hnon.
Qed.

Lemma calculateParentNodeDimension_splitView k gm gm' :
  calculateParentNodeDimension k gm = Some gm' -> splitView gm' = splitView gm.
Proof.
  unfold calculateParentNodeDimension. intros H.
  apply bind_Some in H as (c & _ & H).
  apply bind_Some in H as (mx & _ & H).
  apply bind_Some in H as (p & _ & H). injection H as <-.
  by rewrite !splitView_updNode.
Qed.

Section StepLists.

Variable runAVSDF : list DelegateNode -> list (nat * nat) -> AVSDFResult.

Lemma step1Circle_splitView st k st' :
  step1Circle runAVSDF st k = Some st' ->
  splitView (s1Manager st') = splitView (s1Manager st).
Proof.
  unfold step1Circle. intros H.
  apply bind_Some in H as (graph & _ & H).
  apply bind_Some in H as (avsdfNodes & _ & H).
  pose proof (splitView_getAllEdges (s1Manager st)) as Hv.
  destruct (getAllEdges (s1Manager st)) as [allEdges_ gm0]. simpl in Hv.
  apply bind_Some in H as (avsdfEdges & _ & H).
  apply bind_Some in H as (gm1 & H1 & H).
  apply bind_Some in H as (keyed & _ & H).
  apply bind_Some in H as (gm2 & H2 & H). injection H as <-. simpl.
  assert (splitView gm1 = splitView gm0) as Hv1.
  { apply (forEachM_run_inv (fun g => splitView g = splitView gm0) _ _ _ _ H1);
      [done|].
    intros g n g' _ Hg Hstep. unfold reflectAVSDF in Hstep.
    apply bind_Some in Hstep as (i & _ & Hstep).
    apply bind_Some in Hstep as (r & _ & Hstep).
    apply bind_Some in Hstep as (nd & _ & Hstep).
    apply bind_Some in Hstep as (ext & _ & Hstep). injection Hstep as <-.
    by rewrite splitView_updNode. }
  rewrite <- Hv, <- Hv1.
  destruct (0 <? length (onCircleNodes graph))%nat.
  - apply bind_Some in H2 as (p & _ & H2).
    apply calculateParentNodeDimension_splitView in H2. rewrite H2.
    by rewrite splitView_updCircle, splitView_updNode, splitView_updCircle.
  - injection H2 as <-. by rewrite splitView_updCircle.
Qed.

Lemma doStep1_splitView ly ly' :
  doStep1 runAVSDF ly = Some ly' ->
  splitView (graphManager ly') = splitView (graphManager ly).
Proof.
  unfold doStep1. intros H. apply bind_Some in H as (st & H & E).
  injection E as <-. simpl.
  apply (forEachM_run_inv
           (fun s => splitView (s1Manager s) = splitView (graphManager ly))
           _ _ _ _ H); [done|].
  intros s k s' _ Hs Hstep. apply step1Circle_splitView in Hstep. congruence.
Qed.

(** The circular layout step keeps the node lists split. *)
Lemma doStep1_nodeListsSplit ly ly' :
  doStep1 runAVSDF ly = Some ly' ->
  nodeListsSplit (graphManager ly) -> nodeListsSplit (graphManager ly').
Proof.
  intros H. apply nodeListsSplit_view. by apply doStep1_splitView.
Qed.

End StepLists.

(** ** The construction succeeds on well-formed input *)

Lemma forEachM_succeeds {A S : Type} (I : list A -> S -> Prop)
  (f : S -> A -> option S) (l : list A) (s : S) :
  I [] s ->
  (forall pre a suf s, l = pre ++ a :: suf -> I pre s ->
     exists s', f s a = Some s' /\ I (pre ++ [a]) s') ->
  exists s', forEachM f l s = Some s' /\ I l s'.
Proof.
  revert I s. induction l as [|a l IH]; intros I s H0 Hstep; simpl.
  - eauto.
  - destruct (Hstep [] a l s eq_refl H0) as (s1 & -> & H1). simpl.
    apply (IH (fun pre => I (a :: pre))); [done|].
    intros pre b suf s2 -> H2. by apply (Hstep (a :: pre) b suf s2).
Qed.

Lemma hashMapPut_is_Some `{Countable K} {V : Type} (k k' : K) (v : V)
  (m : gmap K V) :
  is_Some (hashMapPut k v m !! k') <-> k = k' \/ is_Some (m !! k').
Proof.
  unfold hashMapPut. destruct (m !! k) eqn:E.
  - split; [by right|]. intros [<-|?]; [by rewrite E|done].
  - apply lookup_insert_is_Some'.
Qed.

Lemma hashMapPutString_is_Some {V : Type} (k k' : string) (v : V)
  (m : gmap string V) :
  is_Some (hashMapPutString k v m !! k') <->
  (k = k' /\ k ∉ objectPrototypeNames) \/ is_Some (m !! k').
Proof.
  unfold hashMapPutString. case_bool_decide.
  - split; [by right|]. by intros [[_ ?]|?].
  - rewrite hashMapPut_is_Some. split.
    + intros [->|?]; [by left|by right].
    + intros [[-> _]|?]; [by left|by right].
Qed.

(** The table of the Cytoscape nodes knows the ids of the input nodes, the
    names of the members of [Object.prototype] apart. *)
Lemma buildIdToCytoscapeNode_is_Some nodes_ id :
  is_Some (buildIdToCytoscapeNode nodes_ !! id) <->
  id ∈ cyId <$> nodes_ /\ id ∉ objectPrototypeNames.
Proof.
  unfold buildIdToCytoscapeNode.
  assert (forall l (m : gmap string CyNode),
             is_Some (foldl (fun m n => hashMapPutString (cyId n) n m) m l !! id)
             <-> is_Some (m !! id) \/
                 (id ∈ cyId <$> l /\ id ∉ objectPrototypeNames)) as G.
  { induction l as [|n l IH]; intros m; simpl.
    - split; [by left|]. intros [?|[Hin _]]; [done|by apply elem_of_nil in Hin].
    - rewrite IH, hashMapPutString_is_Some, elem_of_cons. split.
      + intros [[[<- ?]|?]|[? ?]];
          [right; split; [by left|done]|by left|right; split; [by right|done]].
      + intros [?|[[->|?] ?]]; [left; by right|left; by left|by right]. }
  rewrite G, lookup_empty. split; [|by right].
  intros [[? ?]|?]; [done|done].
Qed.

Lemma buildIdToCytoscapeNode_lookup nodes_ id :
  id ∈ cyId <$> nodes_ -> id ∉ objectPrototypeNames ->
  is_Some (buildIdToCytoscapeNode nodes_ !! id).
Proof. intros. by apply buildIdToCytoscapeNode_is_Some. Qed.

Lemma addClusterMember_succeeds tbl i k gm m nodeID :
  is_Some (tbl !! nodeID) ->
  exists st', addClusterMember tbl i k (gm, m) nodeID = Some st' /\
              st'.2 = <[nodeID := length (heap gm)]> m.
Proof.
  intros [cy Hcy]. unfold addClusterMember. rewrite entryOf_hashMapGet, Hcy. simpl.
  eexists. split; [reflexivity|done].
Qed.

Lemma addCluster_succeeds tbl gm m i ids :
  (forall id, id ∈ ids -> is_Some (tbl !! id)) ->
  exists st', addCluster tbl (gm, m) (i, ids) = Some st' /\
    forall id, is_Some (m !! id) \/ id ∈ ids -> is_Some (st'.2 !! id).
Proof.
  intros Htbl. rewrite addCluster_unfold.
  apply (forEachM_succeeds
           (fun pre st => forall id, is_Some (m !! id) \/ id ∈ pre ->
                                     is_Some (st.2 !! id))).
  - intros id [?|Hin]; [done|by apply elem_of_nil in Hin].
  - intros pre a suf [g m0] -> HI.
    destruct (addClusterMember_succeeds tbl i (length (circles gm)) g m0 a)
      as (st' & -> & Hm).
    { apply Htbl. apply elem_of_app. right. by left. }
    exists st'. split; [done|]. intros id Hid. rewrite Hm.
    apply lookup_insert_is_Some'.
    destruct Hid as [?|[Hin|Hin%list_elem_of_singleton]%elem_of_app].
    + right. apply HI. by left.
    + right. apply HI. by right.
    + by left.
Qed.

Lemma clusters_succeed tbl clusters gm :
  (forall cluster id, cluster ∈ clusters -> id ∈ cluster -> is_Some (tbl !! id)) ->
  exists st',
    forEachM (addCluster tbl) (imap (fun i c => (i, c)) clusters) (gm, ∅)
      = Some st' /\
    forall cluster id, cluster ∈ clusters -> id ∈ cluster -> is_Some (st'.2 !! id).
Proof.
  intros Htbl.
  destruct (forEachM_succeeds
              (fun pre st => forall ic id, ic ∈ pre -> id ∈ ic.2 ->
                                           is_Some (st.2 !! id))
              (addCluster tbl) (imap (fun i c => (i, c)) clusters) (gm, ∅))
    as (st' & Hrun & HI).
  - intros ic id Hin. by apply elem_of_nil in Hin.
  - intros pre [i ids] suf [g m0] Hl HI.
    destruct (addCluster_succeeds tbl g m0 i ids) as (st' & Hst & Hm).
    { intros id Hid. apply (Htbl ids); [|done].
      assert ((i, ids) ∈ imap (fun i c => (i, c)) clusters) as Hin.
      { rewrite Hl. apply elem_of_app. right. by left. }
      apply elem_of_lookup_imap in Hin as (j & c & [= -> ->] & Hj).
      by eapply list_elem_of_lookup_2. }
    exists st'. split; [done|]. intros ic id Hic Hid.
    apply Hm. apply elem_of_app in Hic as [Hic|Hic].
    + left. by eapply HI.
    + apply list_elem_of_singleton in Hic as ->. by right.
  - exists st'. split; [done|]. intros cluster id Hc Hid.
    apply list_elem_of_lookup in Hc as [i Hi].
    apply (HI (i, cluster)); [|done].
    apply elem_of_lookup_imap. by exists i, cluster.
Qed.

Lemma unclustered_map clusters nodes_ gm m :
  (forall cluster id, cluster ∈ clusters -> id ∈ cluster -> is_Some (m !! id)) ->
  forall id, is_Some (m !! id) \/ id ∈ cyId <$> nodes_ ->
    is_Some ((foldl (addUnclustered clusters) (gm, m) nodes_).2 !! id).
Proof.
  revert gm m. induction nodes_ as [|cy l IH]; intros gm m Hcl id Hid; simpl.
  - destruct Hid as [?|Hin]; [done|by apply elem_of_nil in Hin].
  - rewrite addUnclustered_unfold.
    destruct (existsb _ clusters) eqn:Ex.
    + apply IH; [done|]. destruct Hid as [?|Hin]; [by left|].
      rewrite fmap_cons in Hin. apply elem_of_cons in Hin as [->|Hin]; [|by right].
      left. apply existsb_exists in Ex as (cluster & Hc & Hb).
      apply bool_decide_eq_true in Hb. apply (Hcl cluster); [|done].
      by apply list_elem_of_In.
    + apply IH.
      * intros cluster id' Hc Hid'. apply lookup_insert_is_Some'. right.
        by eapply Hcl.
      * destruct Hid as [?|Hin]; [left; apply lookup_insert_is_Some'; by right|].
        rewrite fmap_cons in Hin.
        apply elem_of_cons in Hin as [->|Hin]; [|by right].
        left. apply lookup_insert_is_Some'. by left.
Qed.

Lemma nodeOk_with_ID nd :
  nodeOk nd -> is_Some (ID nd) ->
  (owner nd = Some RootGraph /\ clusterID nd = Some (-1)%Z) \/
  exists k, owner nd = Some (CircleGraph k) /\ clusterID nd = Some (Z.of_nat k).
Proof.
  unfold nodeOk. intros H [i Hi].
  destruct (owner nd) as [[|k]|].
  - destruct H as [_ H]. destruct (child nd) as [[|k]|].
    + done.
    + destruct H; congruence.
    + left. by destruct H.
  - right. exists k. by destruct H as (_ & ? & _).
  - destruct H as (_ & ? & _); congruence.
Qed.

Lemma LGraph_addEdge_succeeds g e gm s t :
  Linked gm -> heap gm !! source e = Some s -> heap gm !! target e = Some t ->
  owner s = Some g -> owner t = Some g -> is_Some (LGraph_addEdge g e gm).
Proof.
  intros HL Hs Ht Hos Hot. unfold LGraph_addEdge.
  assert (exists lg, getGraph gm g = Some lg /\
                     source e ∈ nodes lg /\ target e ∈ nodes lg)
    as (lg & -> & Hsn & Htn).
  { destruct g as [|k]; simpl.
    - exists (rootGraph gm). split; [done|]. split; by eapply linked_root.
    - destruct (linked_circle _ HL _ _ _ Hs Hos) as (c & Hc & Hin).
      destruct (linked_circle _ HL _ _ _ Ht Hot) as (c' & Hc' & Hin').
      rewrite Hc in Hc'. injection Hc' as <-. exists (base c).
      by rewrite Hc. }
  simpl. rewrite Hs, Ht. simpl.
  rewrite bool_decide_eq_true_2 by done.
  rewrite bool_decide_eq_true_2 by (split; congruence).
  simpl. eauto.
Qed.

Lemma addCiseEdge_succeeds gm m e s t :
  Built gm m -> Linked gm ->
  heap gm !! source e = Some s -> heap gm !! target e = Some t ->
  is_Some (ID s) -> is_Some (ID t) ->
  isIntraCluster e = sameCluster (clusterID s) (clusterID t) ->
  is_Some (addCiseEdge e gm).
Proof.
  intros HB HL Hs Ht Hids Hidt Hintra. unfold addCiseEdge.
  pose proof (nodeOk_with_ID s (built_nodes _ _ HB _ _ Hs) Hids) as Hcs.
  pose proof (nodeOk_with_ID t (built_nodes _ _ HB _ _ Ht) Hidt) as Hct.
  destruct (isIntraCluster e).
  - symmetry in Hintra. apply sameCluster_true in Hintra as [Heq Hne].
    destruct Hcs as [[_ ?]|(k & Hos & Hk)]; [done|].
    destruct Hct as [[_ Hm1]|(k' & Hot & Hk')]; [congruence|].
    assert (k' = k) as -> by (rewrite Hk, Hk' in Heq; injection Heq; lia).
    rewrite Hs. simpl. rewrite Hos. simpl.
    by eapply LGraph_addEdge_succeeds.
  - unfold LGraphManager_addEdge. rewrite Hs, Ht. simpl.
    assert (exists gs, owner s = Some gs) as [gs Hos]
      by (destruct Hcs as [[? _]|(? & ? & _)]; eauto).
    assert (exists gt, owner t = Some gt) as [gt Hot]
      by (destruct Hct as [[? _]|(? & ? & _)]; eauto).
    rewrite Hos, Hot. simpl.
    destruct (decide (gs = gt)) as [->|]; [|eauto].
    by eapply LGraph_addEdge_succeeds.
Qed.

Lemma addEdge_succeeds gm m e :
  Built gm m -> Linked gm ->
  is_Some (m !! cySource e) -> is_Some (m !! cyTarget e) ->
  is_Some (addEdge (gm, m) e).
Proof.
  intros HB HL [sn Hsn] [tn Htn].
  destruct (built_map _ _ HB _ _ Hsn) as (s & Hs & Hids).
  destruct (built_map _ _ HB _ _ Htn) as (t & Ht & Hidt).
  unfold addEdge, newCiseEdge. rewrite !entryOf_tableGet. simpl. rewrite Hsn, Htn. simpl.
  rewrite Hs, Ht. simpl.
  destruct (decide (sn = tn)); simpl; [eauto|].
  destruct (addCiseEdge_succeeds gm m
              (newEdge sn tn (sameCluster (clusterID s) (clusterID t))) s t)
    as [gm' ->]; done.
Qed.

Lemma addEdges_succeed gm m edges_ :
  Built gm m -> Linked gm ->
  (forall e, e ∈ edges_ ->
             is_Some (m !! cySource e) /\ is_Some (m !! cyTarget e)) ->
  is_Some (forEachM addEdge edges_ (gm, m)).
Proof.
  intros HB HL He.
  destruct (forEachM_succeeds
              (fun _ st => st.2 = m /\ eraseAllEdges st.1 = eraseAllEdges gm)
              addEdge edges_ (gm, m)) as (st' & Hrun & _);
    [done| |by exists st'].
  intros pre e suf [g m0] Hl [Hm Hg]. simpl in Hm, Hg. subst m0.
  destruct (He e) as [Hs Ht].
  { rewrite Hl. apply elem_of_app. right. by left. }
  destruct (addEdge_succeeds g m e) as [st' Hst]; [| |done|done|].
  { by eapply Built_erase. }
  { eapply Linked_view; [by apply linkView_eraseAllEdges|done]. }
  exists st'. split; [done|].
  apply addEdge_Some in Hst as (Hm' & Hg' & _). split; [done|congruence].
Qed.

Lemma moveToOutNodes_succeeds gm m id n :
  Built gm m -> Linked gm -> m !! id = Some n -> is_Some (moveToOutNodes n gm).
Proof.
  intros HB HL Hm. destruct (built_map _ _ HB _ _ Hm) as (nd & Hnd & Hid).
  unfold moveToOutNodes. rewrite Hnd. simpl.
  destruct (nodeOk_with_ID nd (built_nodes _ _ HB _ _ Hnd) Hid)
    as [[Ho Hc]|(k & Ho & Hc)].
  - rewrite bool_decide_eq_true_2 by done. eauto.
  - destruct (bool_decide _); [eauto|]. rewrite Ho. simpl.
    destruct (linked_circle _ HL _ _ _ Hnd Ho) as (c & -> & _). simpl.
    destruct (indexOf n (inNodes c)); eauto.
Qed.

Lemma determineOutNodes_succeed gm m l :
  Built gm m -> Linked gm ->
  (forall e, e ∈ l ->
     exists i j, m !! i = Some (source e) /\ m !! j = Some (target e)) ->
  is_Some (forEachM determineOutNodes l gm).
Proof.
  intros HB HL He.
  assert (forall g, eraseInOutAll g = eraseInOutAll gm -> Built g m /\ Linked g)
    as Hinv.
  { intros g0 Hg0. split.
    - pose proof (eraseInOutAll_fields _ _ Hg0) as (Hh & _ & _ & _ & Hcs).
      apply (Built_ext gm); [done| |done].
      by apply eraseInOut_onCircleNodes in Hcs as [? _].
    - apply (Linked_view gm); [by apply linkView_eraseInOutAll|done]. }
  destruct (forEachM_succeeds
              (fun _ g => eraseInOutAll g = eraseInOutAll gm)
              determineOutNodes l gm) as (g' & -> & _); [done| |eauto].
  intros pre e suf g Hl Hg.
  destruct (He e) as (i & j & Hi & Hj).
  { rewrite Hl. apply elem_of_app. right. by left. }
  destruct (Hinv g Hg) as [HBg HLg].
  destruct (moveToOutNodes_succeeds g m i _ HBg HLg Hi) as [ga Ha].
  pose proof (moveToOutNodes_erase _ _ _ Ha) as Hga.
  destruct (Hinv ga) as [HBa HLa]; [congruence|].
  destruct (moveToOutNodes_succeeds ga m j _ HBa HLa Hj) as [gb Hb].
  exists gb. split.
  - unfold determineOutNodes. rewrite Ha. by simpl.
  - apply moveToOutNodes_erase in Hb. congruence.
Qed.

(** The construction returns whenever every cluster member and every edge
    end is the id of an input node, and no cluster member is named like a
    member of [Object.prototype]. *)
Lemma convertToClusteredGraph_succeeds nodes_ edges_ clusters :
  (forall cluster id, cluster ∈ clusters -> id ∈ cluster ->
                      id ∈ cyId <$> nodes_ /\ id ∉ objectPrototypeNames) ->
  (forall e, e ∈ edges_ ->
             cySource e ∈ cyId <$> nodes_ /\ cyTarget e ∈ cyId <$> nodes_) ->
  is_Some (convertToClusteredGraph newGraphManager nodes_ edges_ clusters).
Proof.
  intros Hcl He. unfold convertToClusteredGraph.
  destruct (clusters_succeed (buildIdToCytoscapeNode nodes_) clusters
              newGraphManager) as ([gm1 m1] & H1 & Hm1).
  { intros cluster id Hc Hid. apply buildIdToCytoscapeNode_is_Some.
    by eapply Hcl. }
  rewrite H1. simpl.
  assert (Linked gm1) as HL1.
  { apply (forEachM_run_inv (fun st => Linked st.1) _ _ _ _ H1);
      [apply Linked_newGraphManager|].
    intros [g m0] ic st' _ HL Hstep. by eapply addCluster_Linked. }
  apply clusters_Built in H1 as (HB1 & HF1 & _). simpl in *.
  pose proof (unclustered_Built clusters nodes_ gm1 m1 HB1 HF1) as (HB2 & HF2 & _).
  pose proof (unclustered_Linked clusters nodes_ gm1 m1 HL1) as HL2.
  pose proof (unclustered_map clusters nodes_ gm1 m1 Hm1) as Hm2.
  destruct (foldl (addUnclustered clusters) (gm1, m1) nodes_) as [gm2 m2].
  simpl in *.
  destruct (addEdges_succeed gm2 m2 edges_ HB2 HL2) as [[gm3 m3] H3].
  { intros e Hin. destruct (He e Hin). split; apply Hm2; by right. }
  rewrite H3. simpl.
  apply addEdges_Some in H3 as (Hm3 & He3 & made & Hmade & Hperm & _).
  simpl in *. subst m3.
  destruct (populateReferences_frame gm3) as (Hh4 & Hc4 & Hr4 & Hg4 & _).
  destruct (determineOutNodes_succeed (populateReferences gm3) m2
              (gmEdges (populateReferences gm3))) as [gm5 H5].
  - apply (Built_ext gm3); [done|by rewrite Hc4|]. by eapply Built_erase.
  - apply (Linked_view gm2); [|done].
    rewrite linkView_populateReferences. by apply linkView_eraseAllEdges.
  - intros e Hin. rewrite Hg4 in Hin.
    assert (e ∈ allEdgesOf gm3) as Hall.
    { unfold allEdgesOf. rewrite !elem_of_app. by right; right. }
    rewrite Hperm, (Fresh_allEdgesOf _ HF2), app_nil_r in Hall.
    apply list_elem_of_omap in Hall as (o & Ho & Hoe). simpl in Hoe. subst o.
    apply list_elem_of_lookup in Ho as [i Hi].
    destruct (Forall2_lookup_r _ _ _ _ _ Hmade Hi) as (ce & _ & Hce).
    apply newCiseEdge_edgeMadeFor in Hce
      as (s & t & sn & tn & Hs & Ht & _ & _ & _ & <- & <- & _).
    by exists (cySource ce), (cyTarget ce).
  - rewrite H5. simpl. eauto.
Qed.

(** * Further properties *)

(** ** What the construction makes of the input *)

Lemma forEachM_steps {A S : Type} (f : S -> A -> option S) (l : list A)
  (s s' : S) (pre suf : list A) (a : A) :
  forEachM f l s = Some s' -> l = pre ++ a :: suf ->
  exists s1 s2, forEachM f pre s = Some s1 /\ f s1 a = Some s2 /\
                forEachM f suf s2 = Some s'.
Proof.
  intros H ->. rewrite forEachM_app in H.
  apply bind_Some in H as (s1 & H1 & H). simpl in H.
  apply bind_Some in H as (s2 & H2 & H). by exists s1, s2.
Qed.

Lemma buildIdToCytoscapeNode_Some nodes_ id cy :
  buildIdToCytoscapeNode nodes_ !! id = Some cy -> cy ∈ nodes_ /\ cyId cy = id.
Proof.
  unfold buildIdToCytoscapeNode.
  assert (forall l (m : gmap string CyNode),
             foldl (fun m n => hashMapPutString (cyId n) n m) m l !! id = Some cy ->
             m !! id = Some cy \/ (cy ∈ l /\ cyId cy = id)) as G.
  { induction l as [|n l IH]; intros m H; simpl in H; [by left|].
    apply IH in H as [H|[H1 H2]]; [|right; split; [by right|done]].
    unfold hashMapPutString in H. case_bool_decide; [by left|].
    unfold hashMapPut in H. destruct (m !! cyId n) eqn:E; [by left|].
    apply lookup_insert_Some in H as [[<- <-]|[_ H]]; [|by left].
    right. split; [by left|done]. }
  intros H. by apply G in H as [H|H].
Qed.

Lemma nodeView_eraseAllEdges gm gm' :
  eraseAllEdges gm' = eraseAllEdges gm -> nodeView gm' = nodeView gm.
Proof.
  unfold eraseAllEdges, nodeView. intros [= E1 E2 E3 E4 E5 E6 E7 E8 E9].
  f_equal; [f_equal|]; [done|done|].
  apply (f_equal (fmap (fun c => (parent (base c), nodes (base c),
                                  onCircleNodes c)))) in E5.
  by rewrite <- !list_fmap_compose in E5.
Qed.

Lemma nodeView_eraseInOutAll gm gm' :
  eraseInOutAll gm' = eraseInOutAll gm -> nodeView gm' = nodeView gm.
Proof.
  intros E. apply eraseInOutAll_fields in E as (Eh & Er & _ & _ & Ec).
  unfold nodeView. rewrite Eh, Er. f_equal.
  apply (f_equal (fmap (fun c => (parent (base c), nodes (base c),
                                  onCircleNodes c)))) in Ec.
  by rewrite <- !list_fmap_compose in Ec.
Qed.

Lemma nodeView_populateReferences gm :
  nodeView (populateReferences gm) = nodeView gm.
Proof.
  destruct (populateReferences_frame gm) as (Hh & Hc & Hr & _).
  unfold nodeView. by rewrite Hh, Hc, Hr.
Qed.

(** The construction in stages: the clusters, the unclustered nodes, and the
    rest, which leaves nodes and graphs as they are but for the edges and the
    in- and out-nodes. *)
Lemma convertToClusteredGraph_stages nodes_ edges_ clusters gm m :
  convertToClusteredGraph newGraphManager nodes_ edges_ clusters = Some (gm, m) ->
  exists gm1 m1 gm2 gm3,
    forEachM (addCluster (buildIdToCytoscapeNode nodes_))
      (imap (fun i c => (i, c)) clusters) (newGraphManager, ∅) = Some (gm1, m1) /\
    foldl (addUnclustered clusters) (gm1, m1) nodes_ = (gm2, m) /\
    forEachM addEdge edges_ (gm2, m) = Some (gm3, m) /\
    forEachM determineOutNodes (gmEdges (populateReferences gm3))
      (populateReferences gm3) = Some gm /\
    nodeView gm = nodeView gm2.
Proof.
  unfold convertToClusteredGraph. intros H.
  apply bind_Some in H as ([gm1 m1] & H1 & H).
  apply bind_Some in H as ([gm3 m3] & H3 & H).
  apply bind_Some in H as (gm5 & H5 & H). simpl in *. injection H as -> ->.
  destruct (foldl (addUnclustered clusters) (gm1, m1) nodes_) as [gm2 m2] eqn:E2.
  pose proof (addEdges_Some _ _ _ _ H3) as (Hm & He3 & _). simpl in *. subst m2.
  exists gm1, m1, gm2, gm3. split; [done|]. split; [done|]. split; [done|].
  split; [done|].
  assert (eraseInOutAll gm = eraseInOutAll (populateReferences gm3)) as K5.
  { apply (forEachM_run_inv
             (fun g => eraseInOutAll g = eraseInOutAll (populateReferences gm3))
             _ _ _ _ H5); [reflexivity|].
    intros g e g' _ Hg Hstep. unfold determineOutNodes in Hstep.
    apply bind_Some in Hstep as (ga & Ha & Hb).
    apply moveToOutNodes_erase in Ha, Hb. congruence. }
  rewrite (nodeView_eraseInOutAll _ _ K5), nodeView_populateReferences.
  by apply nodeView_eraseAllEdges.
Qed.

Lemma erased_lookup (h h' : list CiSENode) n nd :
  eraseEdges <$> h' = eraseEdges <$> h -> h !! n = Some nd ->
  exists nd', h' !! n = Some nd' /\ eraseEdges nd' = eraseEdges nd.
Proof.
  intros E Hl. apply (f_equal (fun l => l !! n)) in E.
  rewrite !list_lookup_fmap, Hl in E.
  destruct (h' !! n) as [nd'|]; simpl in E; [|done].
  exists nd'. split; [done|]. by apply (inj Some) in E.
Qed.

Lemma carriesId_erased h h' n id :
  eraseEdges <$> h' = eraseEdges <$> h -> carriesId h n id -> carriesId h' n id.
Proof.
  intros E (nd & Hl & Hid).
  destruct (erased_lookup _ _ _ _ E Hl) as (nd' & Hl' & Ee).
  apply eraseEdges_fields in Ee as (? & _). exists nd'. split; [done|congruence].
Qed.

Lemma carriesId_app h h' n id : carriesId h n id -> carriesId (h ++ h') n id.
Proof.
  intros (nd & Hl & Hid). exists nd. split; [by apply lookup_app_l_Some|done].
Qed.

Lemma circlesHold_impl (h h' : list CiSENode) cs cl :
  (forall n id, carriesId h n id -> carriesId h' n id) ->
  circlesHold h cs cl -> circlesHold h' cs cl.
Proof.
  intros Himp H. unfold circlesHold. eapply Forall2_impl; [exact H|].
  intros c cluster Hc. simpl in Hc. eapply Forall2_impl; [exact Hc|]. apply Himp.
Qed.

Lemma resolves_erased nodes_ clusters h h' id n :
  eraseEdges <$> h' = eraseEdges <$> h ->
  resolves nodes_ clusters h id n -> resolves nodes_ clusters h' id n.
Proof.
  intros E (nd & cy & Hl & Hid & Hcy & Hcid & Hrect & Hkind).
  destruct (erased_lookup _ _ _ _ E Hl) as (nd' & Hl' & Ee).
  apply eraseEdges_fields in Ee as (E1 & E2 & E3 & E4 & E5 & E6).
  exists nd', cy. rewrite E1, E2, E3, E4, E6. done.
Qed.

Lemma resolves_app nodes_ clusters h h' id n :
  resolves nodes_ clusters h id n -> resolves nodes_ clusters (h ++ h') id n.
Proof.
  intros (nd & cy & Hl & H). exists nd, cy.
  split; [by apply lookup_app_l_Some|done].
Qed.

Lemma Populated_view nodes_ clusters gm gm' m :
  nodeView gm' = nodeView gm ->
  Populated nodes_ clusters gm m -> Populated nodes_ clusters gm' m.
Proof.
  unfold nodeView. intros [= Eh Er Ec] [Hm Hr]. split.
  - intros id n Hid. eapply resolves_erased; [exact Eh|]. by apply Hm.
  - intros n. rewrite Er. intros Hn. destruct (Hr n Hn) as (nd & Hl & Ho & Hx).
    destruct (erased_lookup _ _ _ _ Eh Hl) as (nd' & Hl' & Ee).
    apply eraseEdges_fields in Ee as (_ & _ & _ & E4 & _ & E6).
    exists nd'. split; [done|]. split; congruence.
Qed.

Lemma circlesHold_view gm gm' cl :
  nodeView gm' = nodeView gm ->
  circlesHold (heap gm) (circles gm) cl -> circlesHold (heap gm') (circles gm') cl.
Proof.
  unfold nodeView. intros [= Eh Er Ec] H.
  apply (circlesHold_impl (heap gm)); [intros n id; by apply carriesId_erased|].
  unfold circlesHold in *.
  apply (f_equal (fmap (fun x : option nat * list nat * list nat => x.2))) in Ec.
  rewrite <- !list_fmap_compose in Ec.
  apply (Forall2_fmap_l onCircleNodes). change (fun c => _) with onCircleNodes.
  change ((fun x : option nat * list nat * list nat => x.2)
            ∘ (fun c => (parent (base c), nodes (base c), onCircleNodes c)))
    with onCircleNodes in Ec.
  rewrite Ec. by apply Forall2_fmap_l.
Qed.

Lemma Populated_newGraphManager nodes_ clusters :
  Populated nodes_ clusters newGraphManager ∅.
Proof.
  split.
  - intros id n Hid. by rewrite lookup_empty in Hid.
  - simpl. intros n Hn. by apply elem_of_nil in Hn.
Qed.

Lemma clusterStart_Populated nodes_ clusters i gm m :
  Populated nodes_ clusters gm m ->
  Populated nodes_ clusters (clusterStart i gm) m.
Proof.
  intros [Hm Hr]. split; simpl.
  - intros id n Hid. apply resolves_app. by apply Hm.
  - intros n [Hn| ->%list_elem_of_singleton]%elem_of_app.
    + destruct (Hr n Hn) as (nd & Hl & Ho). exists nd.
      split; [by apply lookup_app_l_Some|done].
    + eexists. split; [by apply list_lookup_middle|done].
Qed.

Lemma addClusterMember_Populated nodes_ clusters i ids gm m nodeID st' :
  clusters !! i = Some ids -> nodeID ∈ ids ->
  Populated nodes_ clusters gm m ->
  addClusterMember (buildIdToCytoscapeNode nodes_) i i (gm, m) nodeID = Some st' ->
  Populated nodes_ clusters st'.1 st'.2.
Proof.
  intros Hi Hin [Hm Hr] H.
  apply addClusterMember_Some in H as (cy & Hcy & ->).
  apply buildIdToCytoscapeNode_Some in Hcy as [Hcy Hid]. split; simpl.
  - intros id n [[<- <-]|[_ Hl]]%lookup_insert_Some.
    + exists (memberNode i i nodeID cy), cy.
      split; [by apply list_lookup_middle|]. split; [done|]. split; [done|].
      split; [done|]. split; [done|]. right. exists i, ids.
      split; [done|]. split; [done|]. split; [by eexists|done].
    + apply resolves_app. by apply Hm.
  - intros n Hn. destruct (Hr n Hn) as (nd & Hl & Ho). exists nd.
    split; [by apply lookup_app_l_Some|done].
Qed.

(** One cluster: the new circle stands for it. *)
Lemma addCluster_Populated nodes_ clusters gm m ids st' :
  clusters !! length (circles gm) = Some ids ->
  Populated nodes_ clusters gm m ->
  circlesHold (heap gm) (circles gm) (take (length (circles gm)) clusters) ->
  addCluster (buildIdToCytoscapeNode nodes_) (gm, m) (length (circles gm), ids)
    = Some st' ->
  Populated nodes_ clusters st'.1 st'.2 /\
  circlesHold (heap st'.1) (circles st'.1) (take (S (length (circles gm))) clusters).
Proof.
  intros Hi HP HC. rewrite addCluster_unfold. intros Hrun.
  rewrite (take_S_r _ _ _ Hi).
  apply (forEachM_inv_prefix
           (fun pre st =>
              Populated nodes_ clusters st.1 st.2 /\
              circlesHold (heap st.1) (circles st.1)
                (take (length (circles gm)) clusters ++ [pre]))
           _ _ _ _) in Hrun; [done| |].
  - intros pre a suf [g m0] st1 Hl [HP1 HC1] Hstep. simpl in *. split.
    + eapply addClusterMember_Populated; [exact Hi| |exact HP1|exact Hstep].
      rewrite Hl. apply elem_of_app. right. by left.
    + apply addClusterMember_Some in Hstep as (cy & _ & ->). simpl.
      apply Forall2_app_inv_r in HC1 as (cs1 & cs2 & H1 & H2 & Ecs).
      apply Forall2_cons_inv_r in H2 as (cj & cs3 & Hj & H3 & ->).
      apply Forall2_nil_inv_r in H3 as ->.
      assert (length cs1 = length (circles gm)) as Hlen.
      { apply Forall2_length in H1. rewrite H1, length_take.
        apply lookup_lt_Some in Hi. lia. }
      rewrite Ecs. rewrite <- Hlen. rewrite <- Hlen in H1. rewrite alter_snoc.
      apply Forall2_app.
      * eapply Forall2_impl; [exact H1|]. intros c cluster Hc. simpl in Hc.
        eapply Forall2_impl; [exact Hc|]. intros n id. apply carriesId_app.
      * constructor; [|constructor]. simpl.
        apply Forall2_app.
        -- eapply Forall2_impl; [exact Hj|]. intros n id. apply carriesId_app.
        -- constructor; [|constructor]. eexists.
           split; [by apply list_lookup_middle|done].
  - simpl. split; [by apply clusterStart_Populated|].
    apply Forall2_app.
    + eapply Forall2_impl; [exact HC|]. intros c cluster Hc. simpl in Hc.
      eapply Forall2_impl; [exact Hc|]. intros n id. apply carriesId_app.
    + constructor; [|constructor]. simpl. constructor.
Qed.

(** The loop over the clusters (lines 185-224). *)
Lemma clusters_Populated nodes_ clusters st' :
  forEachM (addCluster (buildIdToCytoscapeNode nodes_))
           (imap (fun i c => (i, c)) clusters) (newGraphManager, ∅) = Some st' ->
  Populated nodes_ clusters st'.1 st'.2 /\
  circlesHold (heap st'.1) (circles st'.1) clusters.
Proof.
  intros Hrun.
  apply (forEachM_inv_prefix
           (fun pre st =>
              Populated nodes_ clusters st.1 st.2 /\
              circlesHold (heap st.1) (circles st.1) (take (length pre) clusters))
           _ _ _ _) in Hrun.
  - rewrite length_imap, firstn_all in Hrun. done.
  - intros pre [i ids] suf [gm m] st1 Hl (HP & HC) Hstep. simpl in *.
    assert (clusters !! length pre = Some ids /\ i = length pre) as [Hi ->].
    { assert (imap (fun i c => (i, c)) clusters !! length pre = Some (i, ids))
        as Hlook by (rewrite Hl; by apply list_lookup_middle).
      rewrite list_lookup_imap in Hlook.
      destruct (clusters !! length pre); simplify_eq/=. done. }
    assert (length (circles gm) = length pre) as Hlen.
    { apply Forall2_length in HC. rewrite HC, length_take.
      apply lookup_lt_Some in Hi. lia. }
    rewrite <- Hlen in Hi, Hstep, HC.
    destruct (addCluster_Populated _ _ _ _ _ _ Hi HP HC Hstep) as [HP1 HC1].
    split; [done|]. rewrite length_app. simpl.
    by replace (length pre + 1)%nat with (S (length (circles gm))) by lia.
  - simpl. split; [apply Populated_newGraphManager|]. constructor.
Qed.

(** The loop over the nodes that adds the unclustered ones (lines 227-250). *)
Lemma unclustered_Populated nodes_ clusters l gm m cl :
  (forall cy, cy ∈ l -> cy ∈ nodes_) ->
  Populated nodes_ clusters gm m ->
  circlesHold (heap gm) (circles gm) cl ->
  Populated nodes_ clusters (foldl (addUnclustered clusters) (gm, m) l).1
            (foldl (addUnclustered clusters) (gm, m) l).2 /\
  circlesHold (heap (foldl (addUnclustered clusters) (gm, m) l).1)
              (circles (foldl (addUnclustered clusters) (gm, m) l).1) cl.
Proof.
  revert gm m. induction l as [|cy l IH]; intros gm m Hsub HP HC; simpl; [done|].
  rewrite addUnclustered_unfold.
  destruct (existsb _ _) eqn:Ex.
  - apply IH; [|done|done]. intros c Hc. apply Hsub. by right.
  - apply IH; [intros c Hc; apply Hsub; by right| |].
    + destruct HP as [Hm Hr]. split; simpl.
      * intros id n [[<- <-]|[_ Hl]]%lookup_insert_Some.
        -- exists (unclusteredNode cy), cy.
           split; [by apply list_lookup_middle|]. split; [done|].
           split; [apply Hsub; by left|]. split; [done|]. split; [done|].
           left. split; [done|]. split; [done|]. split; [done|].
           intros cluster Hc Hin.
           assert (existsb (fun cluster => bool_decide (cyId cy ∈ cluster))
                     clusters = true) as Ht; [|congruence].
           apply existsb_exists. exists cluster.
           split; [by apply list_elem_of_In|by apply bool_decide_eq_true].
        -- apply resolves_app. by apply Hm.
      * intros n [Hn| ->%list_elem_of_singleton]%elem_of_app.
        -- destruct (Hr n Hn) as (nd & Hl & Ho). exists nd.
           split; [by apply lookup_app_l_Some|done].
        -- eexists. split; [by apply list_lookup_middle|done].
    + simpl. eapply circlesHold_impl; [|exact HC]. intros n id.
      apply carriesId_app.
Qed.

(** What the construction makes of the input: [idToLNode] resolves its keys,
    the nodes of the root graph are owned by it, and the circles stand for
    the clusters. *)
Lemma convertToClusteredGraph_Populated nodes_ edges_ clusters gm m :
  convertToClusteredGraph newGraphManager nodes_ edges_ clusters = Some (gm, m) ->
  Populated nodes_ clusters gm m /\
  circlesHold (heap gm) (circles gm) clusters.
Proof.
  intros H.
  apply convertToClusteredGraph_stages in H
    as (gm1 & m1 & gm2 & gm3 & H1 & H2 & _ & _ & Ev).
  apply clusters_Populated in H1 as [HP1 HC1]. simpl in *.
  destruct (unclustered_Populated nodes_ clusters nodes_ gm1 m1 clusters)
    as [HP2 HC2]; [done|done|done|].
  rewrite H2 in HP2, HC2. simpl in *.
  split; [by apply (Populated_view _ _ gm2)|by apply (circlesHold_view gm2)].
Qed.

Lemma filter_all {A : Type} (P : A -> Prop) `{forall x, Decision (P x)}
  (l : list A) :
  (forall x, x ∈ l -> P x) -> filter P l = l.
Proof.
  induction l as [|a l IH]; intros Hl; [done|].
  rewrite filter_cons_True by (apply Hl; by left).
  f_equal. apply IH. intros x Hx. apply Hl. by right.
Qed.

Lemma filter_none {A : Type} (P : A -> Prop) `{forall x, Decision (P x)}
  (l : list A) :
  (forall x, x ∈ l -> ~ P x) -> filter P l = [].
Proof.
  induction l as [|a l IH]; intros Hl; [done|].
  rewrite filter_cons_False by (apply Hl; by left).
  apply IH. intros x Hx. apply Hl. by right.
Qed.

Lemma elem_of_concat {A : Type} (x : A) (ls : list (list A)) :
  x ∈ concat ls <-> exists l, x ∈ l /\ l ∈ ls.
Proof.
  induction ls as [|l ls IH]; simpl.
  - split; [by intros ?%elem_of_nil|by intros (? & _ & ?%elem_of_nil)].
  - rewrite elem_of_app, IH. split.
    + intros [?|(l' & ? & ?)]; [exists l; split; [done|by left]|].
      exists l'. split; [done|by right].
    + intros (l' & Hx & [->|?]%elem_of_cons); [by left|right; by exists l'].
Qed.

(** The members of the clusters are known when the loop over the clusters
    returns, and none is named like a member of [Object.prototype]. *)
Lemma clusters_members_known nodes_ clusters st st' cluster id :
  forEachM (addCluster (buildIdToCytoscapeNode nodes_))
           (imap (fun i c => (i, c)) clusters) st = Some st' ->
  cluster ∈ clusters -> id ∈ cluster ->
  id ∈ cyId <$> nodes_ /\ id ∉ objectPrototypeNames.
Proof.
  intros Hrun Hc Hid.
  apply list_elem_of_lookup in Hc as [i Hi].
  assert ((i, cluster) ∈ imap (fun i c => (i, c)) clusters) as Hin
    by (apply elem_of_lookup_imap; by exists i, cluster).
  apply list_elem_of_split in Hin as (pre & suf & Hl).
  destruct (forEachM_steps _ _ _ _ _ _ _ Hrun Hl) as ([g m0] & s2 & _ & Hstep & _).
  rewrite addCluster_unfold in Hstep.
  apply list_elem_of_split in Hid as (pre' & suf' & Hl').
  destruct (forEachM_steps _ _ _ _ _ _ _ Hstep Hl')
    as ([g1 m1] & s3 & _ & Hmem & _).
  apply addClusterMember_Some in Hmem as (cy & Hcy & _).
  apply buildIdToCytoscapeNode_is_Some. by exists cy.
Qed.

Lemma resolves_known nodes_ clusters h id n :
  resolves nodes_ clusters h id n -> id ∈ cyId <$> nodes_.
Proof.
  intros (nd & cy & _ & _ & Hcy & <- & _). by apply list_elem_of_fmap_2.
Qed.

(** The construction returns exactly when the ids are known and no cluster
    member is named like a member of [Object.prototype]. *)
Lemma convertToClusteredGraph_returns_iff nodes_ edges_ clusters :
  is_Some (convertToClusteredGraph newGraphManager nodes_ edges_ clusters) <->
  (forall cluster id, cluster ∈ clusters -> id ∈ cluster ->
                      id ∈ cyId <$> nodes_ /\ id ∉ objectPrototypeNames) /\
  (forall e, e ∈ edges_ ->
             cySource e ∈ cyId <$> nodes_ /\ cyTarget e ∈ cyId <$> nodes_).
Proof.
  split; [|intros [Hcl He]; by apply convertToClusteredGraph_succeeds].
  intros [[gm m] H].
  pose proof (convertToClusteredGraph_Populated _ _ _ _ _ H) as [HP _].
  apply convertToClusteredGraph_stages in H
    as (gm1 & m1 & gm2 & gm3 & H1 & _ & H3 & _).
  split.
  - intros cluster id Hc Hid. by eapply clusters_members_known.
  - intros e Hin. apply list_elem_of_split in Hin as (pre & suf & Hl).
    destruct (forEachM_steps _ _ _ _ _ _ _ H3 Hl) as ([g m0] & s2 & Hpre & Hstep & _).
    apply addEdges_Some in Hpre as (Hm & _). simpl in Hm. subst m0.
    apply addEdge_Some in Hstep as (_ & _ & _ & made & Hmade & _).
    unfold newCiseEdge in Hmade. rewrite !entryOf_tableGet in Hmade.
    apply bind_Some in Hmade as (sn & Hs & Hmade).
    apply bind_Some in Hmade as (tn & Ht & _).
    split; eapply resolves_known; by eapply (pop_map _ _ _ _ HP).
Qed.

(** X1: [convertToClusteredGraph] returns exactly when every member of a
    cluster is the id of an input node and is not named like a member of
    [Object.prototype] (constructor, toString, __proto__ and the like, for
    which the table of the Cytoscape nodes yields the inherited member), and
    every end of an edge is the id of an input node; on any other input it
    throws. *)
Theorem X1_construction_returns_iff_ids_known
  (nodes_ : list CyNode) (edges_ : list CyEdge) (clusters : list (list string)) :
  is_Some (convertToClusteredGraph newGraphManager nodes_ edges_ clusters) <->
  (forall cluster id, cluster ∈ clusters -> id ∈ cluster ->
                      id ∈ cyId <$> nodes_ /\ id ∉ objectPrototypeNames) /\
  (forall e, e ∈ edges_ ->
             cySource e ∈ cyId <$> nodes_ /\ cyTarget e ∈ cyId <$> nodes_).
Proof. apply convertToClusteredGraph_returns_iff. Qed.

(** The construction throws on a cluster member named like a member of
    [Object.prototype], although a node has this id, and returns where the
    same node is left unclustered, edges at it included; it throws on an
    edge to such a name that no node has. *)
Lemma convertToClusteredGraph_prototype_names :
  convertToClusteredGraph newGraphManager
    [mkCyNode "constructor" 0 0 1 1; mkCyNode "b" 0 0 1 1] []
    [["constructor"; "b"]] = None /\
  convertToClusteredGraph newGraphManager
    [mkCyNode "__proto__" 0 0 1 1; mkCyNode "b" 0 0 1 1] []
    [["__proto__"; "b"]] = None /\
  convertToClusteredGraph newGraphManager Ex.nodes3 Ex.edges3 [["b"]]
    = Some Ex.state3 /\
  convertToClusteredGraph newGraphManager
    [mkCyNode "a" 0 0 1 1; mkCyNode "b" 0 0 1 1] [mkCyEdge "a" "toString"]
    [["b"]] = None.
Proof.
  split; [vm_compute; reflexivity|].
  split; [vm_compute; reflexivity|].
  split; vm_compute; reflexivity.
Qed.

(** What the table [idToLNode] of that run yields: the nodes made for the
    three ids, the node for [__proto__] being the prototype of the table;
    an inherited member for [toString]; and for a name of no member what the
    prototype has under it. *)
Lemma idToLNode_prototype_names :
  tableGet Ex.state3.2 "b" = Entry 2%nat /\
  tableGet Ex.state3.2 "constructor" = Entry 3%nat /\
  tableGet Ex.state3.2 "__proto__" = Entry 4%nat /\
  tableGet Ex.state3.2 "toString" = Inherited /\
  tableGet Ex.state3.2 "a" = OfPrototype 4%nat /\
  tableGet Ex.state1.2 "toString" = Inherited /\
  tableGet Ex.state1.2 "z" = Undefined.
Proof.
  do 6 (split; [vm_compute; reflexivity|]). vm_compute. reflexivity.
Qed.

(** The table [idToLNode] at the end of the construction. *)
Lemma idToLNode_reads nodes_ edges_ clusters gm m :
  convertToClusteredGraph newGraphManager nodes_ edges_ clusters = Some (gm, m) ->
  (forall id n, m !! id = Some n -> resolves nodes_ clusters (heap gm) id n) /\
  (forall id, id ∈ cyId <$> nodes_ <-> is_Some (m !! id)).
Proof.
  intros H.
  pose proof (convertToClusteredGraph_Populated _ _ _ _ _ H) as [HP _].
  split; [apply (pop_map _ _ _ _ HP)|].
  intros id. split.
  - intros Hid.
    apply convertToClusteredGraph_stages in H
      as (gm1 & m1 & gm2 & gm3 & H1 & H2 & _).
    destruct (clusters_succeed (buildIdToCytoscapeNode nodes_) clusters
                newGraphManager) as (st' & Hrun & Hm1).
    { intros cluster id' Hc Hid'. apply buildIdToCytoscapeNode_is_Some.
      by eapply clusters_members_known. }
    rewrite H1 in Hrun. injection Hrun as <-. simpl in Hm1.
    pose proof (unclustered_map clusters nodes_ gm1 m1 Hm1 id (or_intror Hid))
      as Hm2.
    by rewrite H2 in Hm2.
  - intros [n Hn]. eapply resolves_known. by eapply (pop_map _ _ _ _ HP).
Qed.

(** X2: reading [idToLNode[id]] in the table that [convertToClusteredGraph]
    returns yields a node exactly for the ids of the input nodes, and this
    node carries the id and has the place and size of an input node of this
    id: a node of the root graph with cluster id -1 when no cluster lists the
    id, and else an on-circle node of the circle of a cluster that lists it,
    with that cluster's index as its cluster id.  For any other name the
    table yields no node: the inherited member for the name of a member of
    [Object.prototype], and else undefined, or, where an input node with the
    id [__proto__] became the prototype of the table, what this node has
    under the name. *)
Theorem X2_idToLNode_resolves_input_ids
  (nodes_ : list CyNode) (edges_ : list CyEdge) (clusters : list (list string))
  (gm : CiSEGraphManager) (m : gmap string nat) :
  convertToClusteredGraph newGraphManager nodes_ edges_ clusters = Some (gm, m) ->
  (forall id n, tableGet m id = Entry n ->
     resolves nodes_ clusters (heap gm) id n) /\
  (forall id, id ∈ cyId <$> nodes_ <-> exists n, tableGet m id = Entry n) /\
  (forall id, id ∉ cyId <$> nodes_ -> id ∈ objectPrototypeNames ->
     tableGet m id = Inherited) /\
  (forall id, id ∉ cyId <$> nodes_ -> id ∉ objectPrototypeNames ->
     (("__proto__" ∉ cyId <$> nodes_) /\ tableGet m id = Undefined) \/
     (exists p, resolves nodes_ clusters (heap gm) "__proto__" p /\
                tableGet m id = OfPrototype p)).
Proof.
  intros H. destruct (idToLNode_reads _ _ _ _ _ H) as [Hres Hkeys].
  split; [|split; [|split]].
  - intros id n Hn. apply Hres. by apply tableGet_Entry.
  - intros id. rewrite Hkeys. split.
    + intros [n Hn]. exists n. by apply tableGet_Entry.
    + intros [n Hn]. exists n. by apply tableGet_Entry.
  - intros id Hid Hname. unfold tableGet.
    destruct (m !! id) as [n|] eqn:E.
    + exfalso. apply Hid, Hkeys. by exists n.
    + by rewrite bool_decide_eq_true_2.
  - intros id Hid Hname. unfold tableGet.
    destruct (m !! id) as [n|] eqn:E.
    + exfalso. apply Hid, Hkeys. by exists n.
    + rewrite bool_decide_eq_false_2 by done.
      destruct (m !! "__proto__") as [p|] eqn:Ep.
      * right. exists p. split; [by apply Hres|done].
      * left. split; [|done]. intros Hin. apply Hkeys in Hin as [p Hp].
        congruence.
Qed.

Lemma X2_idToLNode_witness :
  (forall id n, tableGet Ex.state1.2 id = Entry n ->
     resolves Ex.nodes1 Ex.clusters1 (heap Ex.state1.1) id n) /\
  (forall id, id ∈ cyId <$> Ex.nodes1 <->
     exists n, tableGet Ex.state1.2 id = Entry n) /\
  (forall id, id ∉ cyId <$> Ex.nodes1 -> id ∈ objectPrototypeNames ->
     tableGet Ex.state1.2 id = Inherited) /\
  (forall id, id ∉ cyId <$> Ex.nodes1 -> id ∉ objectPrototypeNames ->
     (("__proto__" ∉ cyId <$> Ex.nodes1) /\
      tableGet Ex.state1.2 id = Undefined) \/
     (exists p, resolves Ex.nodes1 Ex.clusters1 (heap Ex.state1.1) "__proto__" p /\
                tableGet Ex.state1.2 id = OfPrototype p)).
Proof.
  apply (X2_idToLNode_resolves_input_ids Ex.nodes1 Ex.edges1 Ex.clusters1
           Ex.state1.1 Ex.state1.2).
  vm_compute. reflexivity.
Defined.

(** The node lists as [populateReferences] leaves them. *)
Lemma convertToClusteredGraph_lists nodes_ edges_ clusters gm m :
  convertToClusteredGraph newGraphManager nodes_ edges_ clusters = Some (gm, m) ->
  gmOnCircleNodes gm
    = filter (fun n => isOnCircle (heap gm) n = true) (allNodesOf gm) /\
  nonOnCircleNodes gm
    = filter (fun n => isOnCircle (heap gm) n = false) (allNodesOf gm).
Proof.
  intros H.
  apply convertToClusteredGraph_phases in H
    as (gm2 & gm3 & _ & HF2 & _ & H3 & H5).
  apply addEdges_Some in H3 as (_ & He3 & _). simpl in He3.
  assert (allNodes gm3 = None) as Hmemo.
  { destruct (fresh_memo _ HF2) as [_ <-].
    unfold eraseAllEdges in He3. by injection He3. }
  destruct (populateReferences_lists gm3 Hmemo) as [Hon Hnon].
  destruct (populateReferences_frame gm3) as (Hh4 & Hc4 & Hr4 & _).
  assert (eraseInOutAll gm = eraseInOutAll (populateReferences gm3)) as K5.
  { apply (forEachM_run_inv
             (fun g => eraseInOutAll g = eraseInOutAll (populateReferences gm3))
             _ _ _ _ H5); [reflexivity|].
    intros g e g' _ Hg Hstep. unfold determineOutNodes in Hstep.
    apply bind_Some in Hstep as (ga & Ha & Hb).
    apply moveToOutNodes_erase in Ha, Hb. congruence. }
  assert (gmOnCircleNodes gm = gmOnCircleNodes (populateReferences gm3) /\
          nonOnCircleNodes gm = nonOnCircleNodes (populateReferences gm3))
    as [Eon Enon]
    by (unfold eraseInOutAll, setCircles in K5; by injection K5).
  pose proof (linkView_eraseInOutAll _ _ K5) as Ev.
  rewrite linkView_populateReferences in Ev.
  destruct (linkView_allNodesOf _ _ Ev) as [Eall _].
  apply eraseInOutAll_fields in K5 as (Eh & _).
  rewrite Hh4 in Eh. rewrite Hon in Eon. rewrite Hnon in Enon.
  rewrite <- Eh, <- Eall in Eon, Enon. done.
Qed.

(** The node lists of the graph manager after the construction. *)
Lemma convertToClusteredGraph_node_lists
  (nodes_ : list CyNode) (edges_ : list CyEdge) (clusters : list (list string))
  (gm : CiSEGraphManager) (m : gmap string nat) :
  convertToClusteredGraph newGraphManager nodes_ edges_ clusters = Some (gm, m) ->
  gmOnCircleNodes gm = concat (onCircleNodes <$> circles gm) /\
  nonOnCircleNodes gm = nodes (rootGraph gm) /\
  (getAllNodes gm).1 = nodes (rootGraph gm) ++ concat (onCircleNodes <$> circles gm).
Proof.
  intros H.
  pose proof (convertToClusteredGraph_Populated _ _ _ _ _ H) as [HP _].
  pose proof (convertToClusteredGraph_Linked _ _ _ _ _ H) as HL.
  pose proof (convertToClusteredGraph_Built _ _ _ _ _ H) as (HB & _).
  pose proof (convertToClusteredGraph_lists _ _ _ _ _ H) as [Eon Enon].
  assert (concat ((nodes ∘ base) <$> circles gm)
          = concat (onCircleNodes <$> circles gm)) as Ecs.
  { f_equal. apply list_eq. intros k. rewrite !list_lookup_fmap.
    destruct (circles gm !! k) as [c|] eqn:Hk; simpl; [|done].
    f_equal. by apply (linked_nodes _ HL k). }
  assert (forall n, n ∈ nodes (rootGraph gm) -> isOnCircle (heap gm) n = false)
    as Hroot.
  { intros n Hn. destruct (pop_root _ _ _ _ HP n Hn) as (nd & Hl & _ & Hx).
    unfold isOnCircle. rewrite Hl, Hx. apply bool_decide_eq_false.
    by intros [? ?]. }
  assert (forall n, n ∈ concat (onCircleNodes <$> circles gm) ->
                    isOnCircle (heap gm) n = true) as Hcirc.
  { intros n Hn. apply elem_of_concat in Hn as (l & Hn & Hl).
    apply list_elem_of_fmap in Hl as (c & -> & Hc).
    apply list_elem_of_lookup in Hc as [k Hk].
    destruct (built_circles _ _ HB k c Hk) as [_ Hin].
    destruct (Hin n Hn) as (nd & Hl & Ho).
    pose proof (built_nodes _ _ HB n nd Hl) as Hok. unfold nodeOk in Hok.
    rewrite Ho in Hok. destruct Hok as (_ & _ & Hx & _).
    unfold isOnCircle. rewrite Hl. by apply bool_decide_eq_true. }
  unfold allNodesOf in Eon, Enon. rewrite Ecs, filter_app in Eon, Enon.
  split; [|split].
  - rewrite Eon, (filter_none _ (nodes (rootGraph gm))), filter_all; [done|done|].
    intros n Hn. rewrite (Hroot n Hn). done.
  - rewrite Enon, (filter_all _ (nodes (rootGraph gm))), filter_none;
      [by rewrite app_nil_r| |done].
    intros n Hn. rewrite (Hcirc n Hn). done.
  - destruct (convertToClusteredGraph_phases _ _ _ _ _ H)
      as (gm2 & gm3 & _ & HF2 & _ & H3 & H5).
    assert (allNodes gm = allNodes (populateReferences gm3)) as Ea.
    { assert (eraseInOutAll gm = eraseInOutAll (populateReferences gm3)) as K5.
      { apply (forEachM_run_inv
                 (fun g => eraseInOutAll g = eraseInOutAll (populateReferences gm3))
                 _ _ _ _ H5); [reflexivity|].
        intros g e g' _ Hg Hstep. unfold determineOutNodes in Hstep.
        apply bind_Some in Hstep as (ga & Ha & Hb).
        apply moveToOutNodes_erase in Ha, Hb. congruence. }
      unfold eraseInOutAll, setCircles in K5. by injection K5. }
    apply addEdges_Some in H3 as (_ & He3 & _). simpl in He3.
    assert (allNodes gm3 = None) as Hmemo.
    { destruct (fresh_memo _ HF2) as [_ <-].
      unfold eraseAllEdges in He3. by injection He3. }
    assert (allNodes (populateReferences gm3) = Some (allNodesOf gm3)) as Ep.
    { unfold populateReferences, getAllNodes. rewrite Hmemo. done. }
    unfold getAllNodes. rewrite Ea, Ep. simpl. rewrite <- Ecs.
    change (nodes (rootGraph gm) ++ concat ((nodes ∘ base) <$> circles gm))
      with (allNodesOf gm).
    assert (linkView gm = linkView gm3) as Ev.
    { assert (eraseInOutAll gm = eraseInOutAll (populateReferences gm3)) as K5.
      { apply (forEachM_run_inv
                 (fun g => eraseInOutAll g = eraseInOutAll (populateReferences gm3))
                 _ _ _ _ H5); [reflexivity|].
        intros g e g' _ Hg Hstep. unfold determineOutNodes in Hstep.
        apply bind_Some in Hstep as (ga & Ha & Hb).
        apply moveToOutNodes_erase in Ha, Hb. congruence. }
      rewrite (linkView_eraseInOutAll _ _ K5). apply linkView_populateReferences. }
    by destruct (linkView_allNodesOf _ _ Ev) as [-> _].
Qed.

(** X3: after the construction, the on-circle node list of the graph manager
    is the on-circle nodes of the circles, circle by circle in order, and its
    list of the other nodes is the nodes of the root graph (the cluster
    placeholders and the unclustered nodes); [getAllNodes] lists the nodes of
    the root graph and then those of the circles. *)
Theorem X3_manager_node_lists
  (nodes_ : list CyNode) (edges_ : list CyEdge) (clusters : list (list string))
  (gm : CiSEGraphManager) (m : gmap string nat) :
  convertToClusteredGraph newGraphManager nodes_ edges_ clusters = Some (gm, m) ->
  gmOnCircleNodes gm = concat (onCircleNodes <$> circles gm) /\
  nonOnCircleNodes gm = nodes (rootGraph gm) /\
  (getAllNodes gm).1 = nodes (rootGraph gm) ++ concat (onCircleNodes <$> circles gm).
Proof. apply convertToClusteredGraph_node_lists. Qed.

Lemma X3_manager_node_lists_witness :
  gmOnCircleNodes Ex.state1.1 = concat (onCircleNodes <$> circles Ex.state1.1) /\
  nonOnCircleNodes Ex.state1.1 = nodes (rootGraph Ex.state1.1) /\
  (getAllNodes Ex.state1.1).1
    = nodes (rootGraph Ex.state1.1)
      ++ concat (onCircleNodes <$> circles Ex.state1.1).
Proof.
  apply (X3_manager_node_lists Ex.nodes1 Ex.edges1 Ex.clusters1
           Ex.state1.1 Ex.state1.2).
  vm_compute. reflexivity.
Defined.

(** X4: after the construction there is one circle per cluster, in the
    order of the clusters, and the on-circle nodes of a circle are one node
    per member of its cluster, in the order the cluster lists them (a member
    listed twice has two nodes), each carrying the id of its member. *)
Theorem X4_circles_stand_for_clusters
  (nodes_ : list CyNode) (edges_ : list CyEdge) (clusters : list (list string))
  (gm : CiSEGraphManager) (m : gmap string nat) :
  convertToClusteredGraph newGraphManager nodes_ edges_ clusters = Some (gm, m) ->
  length (circles gm) = length clusters /\
  circlesHold (heap gm) (circles gm) clusters.
Proof.
  intros H. apply convertToClusteredGraph_Populated in H as [_ HC].
  split; [by eapply Forall2_length|done].
Qed.

Lemma X4_circles_stand_for_clusters_witness :
  length (circles Ex.state1.1) = length Ex.clusters1 /\
  circlesHold (heap Ex.state1.1) (circles Ex.state1.1) Ex.clusters1.
Proof.
  apply (X4_circles_stand_for_clusters Ex.nodes1 Ex.edges1 Ex.clusters1
           Ex.state1.1 Ex.state1.2).
  vm_compute. reflexivity.
Defined.

(** ** Where the construction keeps the edges *)

Lemma filter_snoc {A : Type} (P : A -> Prop) `{forall x, Decision (P x)}
  (l : list A) (x : A) :
  filter P (l ++ [x]) = filter P l ++ (if decide (P x) then [x] else []).
Proof.
  rewrite filter_app. by f_equal.
Qed.

Lemma determineOutNodes_loop_erase l gm gm' :
  forEachM determineOutNodes l gm = Some gm' ->
  eraseInOutAll gm' = eraseInOutAll gm.
Proof.
  intros H.
  apply (forEachM_run_inv (fun g => eraseInOutAll g = eraseInOutAll gm)
           _ _ _ _ H); [reflexivity|].
  intros g e g' _ Hg Hstep. unfold determineOutNodes in Hstep.
  apply bind_Some in Hstep as (ga & Ha & Hb).
  apply moveToOutNodes_erase in Ha, Hb. congruence.
Qed.

(** No node has an incident edge before the edges are added. *)
Definition NoIncident (gm : CiSEGraphManager) : Prop :=
  forall n nd, heap gm !! n = Some nd -> incidentEdges nd = [].

Lemma NoIncident_snoc gm gm' nd :
  NoIncident gm -> incidentEdges nd = [] -> heap gm' = heap gm ++ [nd] ->
  NoIncident gm'.
Proof.
  intros Hn Hnd Hh n nd0. rewrite Hh.
  intros [[_ ?]|[_ <-]]%lookup_snoc_Some; [by eapply Hn|done].
Qed.

Lemma clusters_NoIncident tbl clusters st' :
  forEachM (addCluster tbl) (imap (fun i c => (i, c)) clusters)
           (newGraphManager, ∅) = Some st' ->
  NoIncident st'.1.
Proof.
  intros Hrun.
  apply (forEachM_run_inv (fun st => NoIncident st.1) _ _ _ _ Hrun).
  - intros [|n] nd; simpl; [|done]. by intros [= <-].
  - intros [gm m] [i ids] st1 _ Hn Hstep. simpl in Hn.
    rewrite addCluster_unfold in Hstep.
    apply (forEachM_run_inv (fun st => NoIncident st.1) _ _ _ _ Hstep).
    + simpl. eapply (NoIncident_snoc gm); [done| |reflexivity]. done.
    + intros [g m0] a st2 _ Hg Hmem. simpl in Hg.
      apply addClusterMember_Some in Hmem as (cy & _ & ->). simpl.
      eapply (NoIncident_snoc g); [done| |reflexivity]. done.
Qed.

Lemma unclustered_NoIncident clusters l gm m :
  NoIncident gm -> NoIncident (foldl (addUnclustered clusters) (gm, m) l).1.
Proof.
  revert gm m. induction l as [|cy l IH]; intros gm m Hn; simpl; [done|].
  rewrite addUnclustered_unfold. destruct (existsb _ _); [by apply IH|].
  apply IH. eapply (NoIncident_snoc gm); [done| |reflexivity]. done.
Qed.

(** What adding an edge between two different nodes does. *)
Lemma LGraph_addEdge_result g e gm gm' :
  LGraph_addEdge g e gm = Some gm' -> target e ≠ source e ->
  exists s t, heap gm !! source e = Some s /\ heap gm !! target e = Some t /\
    owner s = Some g /\ owner t = Some g /\
    gm' = updNode (target e) (pushIncidentEdge e)
            (updNode (source e) (pushIncidentEdge e)
               (updGraph g (pushEdge e) gm)).
Proof.
  unfold LGraph_addEdge. intros H Hne.
  apply bind_Some in H as (lg & Hlg & H).
  apply bind_Some in H as (s & Hs & H).
  apply bind_Some in H as (t & Ht & H).
  destruct (bool_decide _ && bool_decide _) eqn:Hchk; [|done].
  apply andb_true_iff in Hchk as [_ Hown%bool_decide_eq_true].
  destruct Hown as [Hown Hg].
  assert (heap (updGraph g (pushEdge e) gm) = heap gm) as Hh by (by destruct g).
  exists s, t. rewrite <- Hh. split; [by rewrite Hh|]. split; [by rewrite Hh|].
  split; [done|]. split; [congruence|].
  destruct (decide (target e = source e)); [done|]. by injection H as <-.
Qed.

Lemma addCiseEdge_result e gm gm' :
  addCiseEdge e gm = Some gm' -> target e ≠ source e ->
  exists s t, heap gm !! source e = Some s /\ heap gm !! target e = Some t /\
    ((exists g, owner s = Some g /\ owner t = Some g /\
        gm' = updNode (target e) (pushIncidentEdge e)
                (updNode (source e) (pushIncidentEdge e)
                   (updGraph g (pushEdge e) gm))) \/
     (owner s ≠ owner t /\
      gm' = updNode (target e) (pushIncidentEdge e)
              (updNode (source e) (pushIncidentEdge e)
                 (setGmEdges (gmEdges gm ++ [e]) gm)))).
Proof.
  unfold addCiseEdge. intros H Hne. destruct (isIntraCluster e).
  - apply bind_Some in H as (s0 & Hs0 & H).
    apply bind_Some in H as (g & Hg & H).
    apply LGraph_addEdge_result in H as (s & t & Hs & Ht & Hos & Hot & ->);
      [|done].
    exists s, t. split; [done|]. split; [done|]. left. by exists g.
  - unfold LGraphManager_addEdge in H.
    apply bind_Some in H as (s & Hs & H).
    apply bind_Some in H as (t & Ht & H).
    apply bind_Some in H as (sg & Hsg & H).
    apply bind_Some in H as (tg & Htg & H).
    destruct (decide (sg = tg)) as [->|Hd].
    + apply LGraph_addEdge_result in H as (s' & t' & Hs' & Ht' & Hos & Hot & ->);
        [|done].
      exists s', t'. split; [done|]. split; [done|]. left. by exists tg.
    + injection H as <-. exists s, t. split; [done|]. split; [done|]. right.
      split; [congruence|done].
Qed.

Lemma incident_push (h : list CiSENode) es e :
  (forall n nd, h !! n = Some nd ->
     incidentEdges nd = filter (fun x => source x = n \/ target x = n) es) ->
  target e ≠ source e ->
  forall n nd,
    alter (pushIncidentEdge e) (target e)
      (alter (pushIncidentEdge e) (source e) h) !! n = Some nd ->
    incidentEdges nd = filter (fun x => source x = n \/ target x = n) (es ++ [e]).
Proof.
  intros Hinc Hne n nd Hl. rewrite filter_snoc.
  destruct (decide (n = target e)) as [->|Ht].
  - rewrite list_lookup_alter_eq, list_lookup_alter_ne in Hl by done.
    destruct (h !! target e) as [nd0|] eqn:E; simplify_eq/=.
    rewrite (Hinc _ _ E). by rewrite decide_True by (by right).
  - rewrite list_lookup_alter_ne in Hl by done.
    destruct (decide (n = source e)) as [->|Hs].
    + rewrite list_lookup_alter_eq in Hl.
      destruct (h !! source e) as [nd0|] eqn:E; simplify_eq/=.
      rewrite (Hinc _ _ E). by rewrite decide_True by (by left).
    + rewrite list_lookup_alter_ne in Hl by done.
      rewrite (Hinc _ _ Hl). rewrite decide_False; [by rewrite app_nil_r|].
      intros [?|?]; congruence.
Qed.

(** One more edge keeps the edges placed. *)
Lemma EdgesPlaced_add own gm es e gm' :
  EdgesPlaced own gm es -> (forall n, own n = ownerOf gm n) ->
  addCiseEdge e gm = Some gm' -> target e ≠ source e ->
  EdgesPlaced own gm' (es ++ [e]).
Proof.
  intros [Pr Pc Pm Pi] Hown H Hne.
  apply addCiseEdge_result in H as (s & t & Hs & Ht & H); [|done].
  assert (own (source e) = owner s) as Eos
    by (rewrite Hown; unfold ownerOf; by rewrite Hs).
  assert (own (target e) = owner t) as Eot
    by (rewrite Hown; unfold ownerOf; by rewrite Ht).
  destruct H as [(g & Hos & Hot & ->)|(Hd & ->)].
  - rewrite Hos in Eos. rewrite Hot in Eot. split.
    + rewrite filter_snoc, Eos, Eot. case_decide as D.
      * destruct D as [[= ->] _]. simpl. by rewrite Pr.
      * rewrite app_nil_r. destruct g as [|k0]; [by destruct D|].
        simpl. by rewrite Pr.
    + intros k c. rewrite filter_snoc, Eos, Eot. case_decide as D.
      * destruct D as [[= ->] _]. simpl. rewrite list_lookup_alter_eq.
        destruct (circles gm !! k) as [c0|] eqn:E; [|done].
        simpl. intros [= <-]. simpl. by rewrite (Pc k c0 E).
      * rewrite app_nil_r. destruct g as [|k0]; simpl; [by apply Pc|].
        destruct (decide (k = k0)) as [->|Hk0]; [by destruct D|].
        rewrite list_lookup_alter_ne by done. by apply Pc.
    + rewrite filter_snoc, Eos, Eot. rewrite decide_False by (by intros ?).
      rewrite app_nil_r. by destruct g.
    + assert (heap (updGraph g (pushEdge e) gm) = heap gm) as Hh
        by (by destruct g).
      simpl. rewrite Hh. by apply incident_push.
  - split; simpl.
    + rewrite filter_snoc, Eos, Eot. rewrite decide_False;
        [by rewrite app_nil_r|]. intros [? ?]. congruence.
    + intros k c Hk. rewrite filter_snoc, Eos, Eot.
      rewrite (Pc k c Hk). rewrite decide_False; [by rewrite app_nil_r|].
      intros [? ?]. congruence.
    + rewrite filter_snoc, Eos, Eot. rewrite Pm. by rewrite decide_True.
    + by apply incident_push.
Qed.

Lemma ownerOf_erased gm gm' n :
  eraseEdges <$> heap gm' = eraseEdges <$> heap gm ->
  ownerOf gm' n = ownerOf gm n.
Proof.
  intros E. apply (f_equal (fun l => l !! n)) in E.
  rewrite !list_lookup_fmap in E. unfold ownerOf.
  destruct (heap gm' !! n) as [nd'|], (heap gm !! n) as [nd|]; simpl in *;
    try done.
  apply (inj Some) in E. by apply eraseEdges_fields in E as (_ & _ & _ & ? & _).
Qed.

Lemma newCiseEdge_erased gm gm' m e :
  eraseEdges <$> heap gm' = eraseEdges <$> heap gm ->
  newCiseEdge gm' m e = newCiseEdge gm m e.
Proof.
  intros H. unfold newCiseEdge. rewrite !entryOf_tableGet.
  destruct (m !! cySource e) as [s|]; simpl; [|done].
  destruct (m !! cyTarget e) as [t|]; simpl; [|done].
  pose proof (f_equal (fun l => l !! s) H) as Es.
  pose proof (f_equal (fun l => l !! t) H) as Et.
  simpl in Es, Et. rewrite !list_lookup_fmap in Es, Et.
  destruct (heap gm' !! s) as [sn'|], (heap gm !! s) as [sn|]; simpl in *;
    try done.
  destruct (heap gm' !! t) as [tn'|], (heap gm !! t) as [tn|]; simpl in *;
    try done.
  injection Es as _ Es _. injection Et as _ Et _. by rewrite Es, Et.
Qed.

Lemma edgesMade_erased gm gm' m l :
  eraseEdges <$> heap gm' = eraseEdges <$> heap gm ->
  edgesMade gm' m l = edgesMade gm m l.
Proof.
  intros E. induction l as [|e l IH]; [done|].
  change (edgesMade gm' m (e :: l))
    with (match default None (newCiseEdge gm' m e) with
          | Some y => y :: edgesMade gm' m l
          | None => edgesMade gm' m l
          end).
  change (edgesMade gm m (e :: l))
    with (match default None (newCiseEdge gm m e) with
          | Some y => y :: edgesMade gm m l
          | None => edgesMade gm m l
          end).
  by rewrite (newCiseEdge_erased _ _ _ _ E), IH.
Qed.

Lemma eraseAllEdges_heap gm gm' :
  eraseAllEdges gm' = eraseAllEdges gm ->
  eraseEdges <$> heap gm' = eraseEdges <$> heap gm.
Proof. unfold eraseAllEdges. by intros [= E _]. Qed.

(** The loop over the edges (lines 253-275) keeps them by owner. *)
Lemma addEdges_placed gm m edges_ st' :
  Fresh gm -> NoIncident gm ->
  forEachM addEdge edges_ (gm, m) = Some st' ->
  EdgesPlaced (ownerOf gm) st'.1 (edgesMade gm m edges_).
Proof.
  intros HF HN Hrun.
  apply (forEachM_inv_prefix
           (fun pre st =>
              st.2 = m /\ eraseAllEdges st.1 = eraseAllEdges gm /\
              EdgesPlaced (ownerOf gm) st.1 (edgesMade gm m pre))
           _ _ _ _) in Hrun; [by destruct Hrun as (_ & _ & ?)| |].
  - intros pre e suf [g m0] st1 _ (Hm & He & HP) Hstep. simpl in *. subst m0.
    unfold addEdge in Hstep. simpl in Hstep.
    apply bind_Some in Hstep as (made & Hmade & Hstep).
    rewrite (newCiseEdge_erase _ _ _ _ He) in Hmade.
    unfold edgesMade. rewrite omap_app. simpl. rewrite Hmade. simpl.
    destruct made as [ce|].
    + apply bind_Some in Hstep as (g1 & Hadd & Hstep). injection Hstep as <-.
      simpl. split; [done|].
      pose proof (addCiseEdge_Some _ _ _ Hadd) as (He1 & _).
      split; [congruence|].
      apply (EdgesPlaced_add _ g); [done| |done|].
      * intros n. symmetry. apply ownerOf_erased. by apply eraseAllEdges_heap.
      * unfold newCiseEdge in Hmade. rewrite !entryOf_tableGet in Hmade.
        apply bind_Some in Hmade as (sn & _ & Hmade).
        apply bind_Some in Hmade as (tn & _ & Hmade).
        apply bind_Some in Hmade as (s & _ & Hmade).
        apply bind_Some in Hmade as (t & _ & Hmade).
        destruct (decide (sn = tn)); [done|].
        injection Hmade as <-. simpl. congruence.
    + injection Hstep as <-. simpl. rewrite app_nil_r. done.
  - simpl. split; [done|]. split; [done|].
    destruct HF as [Hr Hg _ Hcs]. split; simpl.
    + done.
    + intros k c Hk. by destruct (Hcs k c Hk) as (-> & _).
    + done.
    + intros n nd Hl. by rewrite (HN n nd Hl).
Qed.

Lemma EdgesPlaced_ext own own' gm es :
  (forall n, own n = own' n) -> EdgesPlaced own gm es -> EdgesPlaced own' gm es.
Proof.
  intros Hx [Pr Pc Pm Pi]. split.
  - rewrite Pr. apply list_filter_iff. intros e. by rewrite !Hx.
  - intros k c Hk. rewrite (Pc k c Hk). apply list_filter_iff. intros e.
    by rewrite !Hx.
  - rewrite Pm. apply list_filter_iff. intros e. by rewrite !Hx.
  - done.
Qed.

(** The construction keeps the edges by owner. *)
Lemma convertToClusteredGraph_placed
  (nodes_ : list CyNode) (edges_ : list CyEdge) (clusters : list (list string))
  (gm : CiSEGraphManager) (m : gmap string nat) :
  convertToClusteredGraph newGraphManager nodes_ edges_ clusters = Some (gm, m) ->
  EdgesPlaced (ownerOf gm) gm (edgesMade gm m edges_).
Proof.
  intros H.
  pose proof (convertToClusteredGraph_stages _ _ _ _ _ H)
    as (gm1 & m1 & gm2 & gm3 & H1 & H2 & H3 & H5 & Ev).
  pose proof (clusters_NoIncident _ _ _ H1) as HN1.
  pose proof (unclustered_NoIncident clusters nodes_ gm1 m1 HN1) as HN2.
  pose proof (clusters_Built _ _ _ H1) as (HB1 & HF1 & _).
  pose proof (unclustered_Built clusters nodes_ gm1 m1 HB1 HF1) as (_ & HF2 & _).
  rewrite H2 in HN2, HF2. simpl in *.
  pose proof (addEdges_placed _ _ _ _ HF2 HN2 H3) as HP. simpl in HP.
  assert (eraseEdges <$> heap gm = eraseEdges <$> heap gm2) as Eh
    by (unfold nodeView in Ev; by injection Ev).
  rewrite (edgesMade_erased _ _ _ _ Eh).
  apply (EdgesPlaced_ext (ownerOf gm2));
    [intros n; symmetry; by apply ownerOf_erased|].
  apply determineOutNodes_loop_erase in H5.
  pose proof (eraseInOutAll_fields _ _ H5) as (Hh & Hr & Hg & _ & Hcs).
  destruct (populateReferences_frame gm3) as (Hh4 & Hc4 & Hr4 & Hg4 & _).
  destruct HP as [Pr Pc Pm Pi]. split.
  - by rewrite Hr, Hr4.
  - intros k c Hk.
    destruct (eraseInOut_lookup _ _ _ _ H5 Hk) as (c0 & Hc0 & Ec).
    apply eraseInOut_fields in Ec as (Eb & _). rewrite Hc4 in Hc0.
    rewrite <- Eb. by apply Pc.
  - by rewrite Hg, Hg4.
  - intros n nd. rewrite Hh, Hh4. apply Pi.
Qed.

(** X5: after the construction the edges made for the input edges (one per
    input edge that is no self-loop, in input order) are kept by owner: the
    edge list of the root graph holds those that join two nodes of the root
    graph, the edge list of a circle those that join two of its nodes, the
    inter-graph list of the graph manager those whose ends have different
    owners, and the incident edges of a node those that start or end at it;
    every list is in input order. *)
Theorem X5_edges_kept_by_owner
  (nodes_ : list CyNode) (edges_ : list CyEdge) (clusters : list (list string))
  (gm : CiSEGraphManager) (m : gmap string nat) :
  convertToClusteredGraph newGraphManager nodes_ edges_ clusters = Some (gm, m) ->
  EdgesPlaced (ownerOf gm) gm (edgesMade gm m edges_).
Proof. apply convertToClusteredGraph_placed. Qed.

Lemma X5_edges_kept_by_owner_witness :
  EdgesPlaced (ownerOf Ex.state1.1) Ex.state1.1
    (edgesMade Ex.state1.1 Ex.state1.2 Ex.edges1).
Proof.
  apply (X5_edges_kept_by_owner Ex.nodes1 Ex.edges1 Ex.clusters1
           Ex.state1.1 Ex.state1.2).
  vm_compute. reflexivity.
Defined.

Lemma edgesMade_elem gm m edges_ e :
  e ∈ edgesMade gm m edges_ ->
  exists ce sn tn s t,
    ce ∈ edges_ /\ m !! cySource ce = Some sn /\ m !! cyTarget ce = Some tn /\
    heap gm !! sn = Some s /\ heap gm !! tn = Some t /\ sn ≠ tn /\
    e = mkCiSEEdge sn tn (sameCluster (clusterID s) (clusterID t)).
Proof.
  unfold edgesMade. intros (ce & Hce & Hmade)%list_elem_of_omap.
  destruct (newCiseEdge gm m ce) as [o|] eqn:E; simpl in Hmade; [|done].
  subst o. unfold newCiseEdge in E. rewrite !entryOf_tableGet in E.
  apply bind_Some in E as (sn & Hsn & E).
  apply bind_Some in E as (tn & Htn & E).
  apply bind_Some in E as (s & Hs & E).
  apply bind_Some in E as (t & Ht & E).
  destruct (decide (sn = tn)); [done|]. injection E as <-.
  by exists ce, sn, tn, s, t.
Qed.

Lemma resolves_owner nodes_ clusters h id n nd :
  resolves nodes_ clusters h id n -> h !! n = Some nd ->
  (owner nd = Some RootGraph /\ clusterID nd = Some (-1)%Z) \/
  exists i, owner nd = Some (CircleGraph i) /\ clusterID nd = Some (Z.of_nat i).
Proof.
  intros (nd' & cy & Hl & _ & _ & _ & _ & Hkind) Hnd.
  rewrite Hnd in Hl. injection Hl as <-.
  destruct Hkind as [(? & ? & _)|(i & cluster & ? & ? & _)]; [by left|].
  right. by exists i.
Qed.

(** X6: after the construction every edge in the edge list of a circle is
    an intra-cluster edge, and every edge in the edge list of the root graph
    or in the inter-graph list of the graph manager is an inter-cluster
    edge: the intra-cluster edges that [getIntraClusterEdges] collects from
    the edges of a circle are all of that circle's edges. *)
Theorem X6_circle_edges_are_intra_cluster
  (nodes_ : list CyNode) (edges_ : list CyEdge) (clusters : list (list string))
  (gm : CiSEGraphManager) (m : gmap string nat) :
  convertToClusteredGraph newGraphManager nodes_ edges_ clusters = Some (gm, m) ->
  (forall k c, circles gm !! k = Some c ->
     filter (fun e => isIntraCluster e = true) (edges (base c)) = edges (base c)) /\
  (forall e, e ∈ edges (rootGraph gm) -> isIntraCluster e = false) /\
  (forall e, e ∈ gmEdges gm -> isIntraCluster e = false).
Proof.
  intros H.
  pose proof (convertToClusteredGraph_Populated _ _ _ _ _ H) as [HP _].
  pose proof (convertToClusteredGraph_placed _ _ _ _ _ H) as [Pr Pc Pm _].
  assert (forall e, e ∈ edgesMade gm m edges_ ->
            exists s t, heap gm !! source e = Some s /\
                        heap gm !! target e = Some t /\
              ((owner s = Some RootGraph /\ clusterID s = Some (-1)%Z) \/
               exists i, owner s = Some (CircleGraph i) /\
                         clusterID s = Some (Z.of_nat i)) /\
              ((owner t = Some RootGraph /\ clusterID t = Some (-1)%Z) \/
               exists i, owner t = Some (CircleGraph i) /\
                         clusterID t = Some (Z.of_nat i)) /\
              isIntraCluster e = sameCluster (clusterID s) (clusterID t)) as Hends.
  { intros e (ce & sn & tn & s & t & _ & Hsn & Htn & Hs & Ht & _ & ->)%edgesMade_elem.
    exists s, t. simpl. split; [done|]. split; [done|].
    split; [|split; [|done]].
    - eapply resolves_owner; [by apply (pop_map _ _ _ _ HP _ _ Hsn)|done].
    - eapply resolves_owner; [by apply (pop_map _ _ _ _ HP _ _ Htn)|done]. }
  split; [|split].
  - intros k c Hk. apply filter_all. intros e. rewrite (Pc k c Hk).
    intros [[Hos Hot] He]%list_elem_of_filter.
    destruct (Hends e He) as (s & t & Hs & Ht & Hks & Hkt & ->).
    unfold ownerOf in Hos, Hot. rewrite Hs in Hos. rewrite Ht in Hot.
    simpl in Hos, Hot.
    destruct Hks as [[? _]|(i & Hoi & Hci)]; [congruence|].
    destruct Hkt as [[? _]|(j & Hoj & Hcj)]; [congruence|].
    assert (i = k) as -> by congruence. assert (j = k) as -> by congruence.
    apply sameCluster_true. split; [congruence|]. rewrite Hci.
    intros [= ?]. lia.
  - intros e. rewrite Pr. intros [[Hos Hot] He]%list_elem_of_filter.
    destruct (Hends e He) as (s & t & Hs & Ht & Hks & Hkt & ->).
    unfold ownerOf in Hos. rewrite Hs in Hos. simpl in Hos.
    destruct Hks as [[_ Hc]|(i & Hoi & _)]; [|congruence].
    apply not_true_is_false. intros [_ Hne]%sameCluster_true. done.
  - intros e. rewrite Pm. intros [Hd He]%list_elem_of_filter.
    destruct (Hends e He) as (s & t & Hs & Ht & Hks & Hkt & ->).
    unfold ownerOf in Hd. rewrite Hs, Ht in Hd. simpl in Hd.
    apply not_true_is_false. intros [Heq Hne]%sameCluster_true.
    destruct Hks as [[_ Hc]|(i & Hoi & Hci)]; [done|].
    destruct Hkt as [[_ Hc]|(j & Hoj & Hcj)]; [congruence|].
    apply Hd. rewrite Hoi, Hoj. rewrite Hci, Hcj in Heq.
    injection Heq as Heq. apply Nat2Z.inj in Heq. by subst.
Qed.

Lemma X6_circle_edges_witness :
  (forall k c, circles Ex.state1.1 !! k = Some c ->
     filter (fun e => isIntraCluster e = true) (edges (base c)) = edges (base c)) /\
  (forall e, e ∈ edges (rootGraph Ex.state1.1) -> isIntraCluster e = false) /\
  (forall e, e ∈ gmEdges Ex.state1.1 -> isIntraCluster e = false).
Proof.
  apply (X6_circle_edges_are_intra_cluster Ex.nodes1 Ex.edges1 Ex.clusters1
           Ex.state1.1 Ex.state1.2).
  vm_compute. reflexivity.
Defined.

(** ** In-nodes and out-nodes *)

Lemma delete_NoDup_filter {A : Type} `{EqDecision A} (l : list A) (i : nat)
  (x : A) :
  NoDup l -> l !! i = Some x -> delete i l = filter (fun y => y ≠ x) l.
Proof.
  revert i. induction l as [|a l IH]; intros i Hnd Hi; [done|].
  apply NoDup_cons in Hnd as [Ha Hnd].
  destruct i as [|i]; simpl in *.
  - injection Hi as ->. rewrite filter_cons_False by (by intros ?).
    symmetry. apply filter_all. intros y Hy ->. done.
  - rewrite filter_cons_True.
    + f_equal. by apply IH.
    + intros ->. apply Ha. by eapply list_elem_of_lookup_2.
Qed.

(** What the reclassification keeps in a circle: the out-nodes are ends of
    the edges [es], and the in-nodes are the on-circle nodes that are no
    out-nodes, in their order. *)
Definition outNodesFrom (es : list CiSEEdge) (c : CiSECircle) : Prop :=
  (forall n, n ∈ outNodes c -> exists e, e ∈ es /\ (n = source e \/ n = target e)) /\
  inNodes c = filter (fun n => n ∉ outNodes c) (onCircleNodes c) /\
  NoDup (onCircleNodes c).

Lemma outNodesFrom_mono es es' c :
  (forall e, e ∈ es -> e ∈ es') -> outNodesFrom es c -> outNodesFrom es' c.
Proof.
  intros Hs (Ho & Hi & Hnd). split; [|done].
  intros n Hn. destruct (Ho n Hn) as (e & He & Hend). exists e. auto.
Qed.

Lemma outNodesFrom_moveOut es c n index e :
  outNodesFrom es c -> inNodes c !! index = Some n ->
  e ∈ es -> n = source e \/ n = target e ->
  outNodesFrom es (moveOut n index c).
Proof.
  intros (Ho & Hi & Hnd) Hidx He Hend. split; [|split]; simpl.
  - intros x [Hx| ->%list_elem_of_singleton]%elem_of_app; [by apply Ho|].
    by exists e.
  - rewrite (delete_NoDup_filter _ _ n); [|rewrite Hi; by apply NoDup_filter|done].
    rewrite Hi, list_filter_filter. apply list_filter_iff. intros y.
    rewrite elem_of_app, list_elem_of_singleton. tauto.
  - done.
Qed.

Lemma moveToOutNodes_outNodesFrom es n gm gm' e :
  (forall k c, circles gm !! k = Some c -> outNodesFrom es c) ->
  e ∈ es -> n = source e \/ n = target e ->
  moveToOutNodes n gm = Some gm' ->
  forall k c, circles gm' !! k = Some c -> outNodesFrom es c.
Proof.
  intros Hinv He Hend H.
  apply moveToOutNodes_Some in H
    as (nd & _ & [[-> _]|(k0 & c0 & index & _ & _ & Hc0 & Hidx & ->)]); [done|].
  intros k c. unfold updCircle; simpl. intros Hk.
  destruct (decide (k = k0)) as [->|Hne].
  - rewrite list_lookup_alter_eq, Hc0 in Hk. simpl in Hk. injection Hk as <-.
    eapply outNodesFrom_moveOut; [by eapply Hinv|done|done|done].
  - rewrite list_lookup_alter_ne in Hk by done. by eapply Hinv.
Qed.

Lemma determineOutNodes_outNodesFrom l gm gm' :
  (forall k c, circles gm !! k = Some c -> outNodesFrom [] c) ->
  forEachM determineOutNodes l gm = Some gm' ->
  forall k c, circles gm' !! k = Some c -> outNodesFrom l c.
Proof.
  intros H0 Hrun.
  refine (forEachM_inv_prefix
            (fun pre g => forall k c, circles g !! k = Some c -> outNodesFrom pre c)
            determineOutNodes l gm gm' _ H0 Hrun).
  intros pre e suf g g' _ Hinv Hstep. unfold determineOutNodes in Hstep.
  apply bind_Some in Hstep as (ga & Ha & Hb).
  assert (forall k c, circles g !! k = Some c -> outNodesFrom (pre ++ [e]) c)
    as Hinv'.
  { intros k c Hk. eapply outNodesFrom_mono; [|by eapply Hinv].
    intros x Hx. apply elem_of_app. by left. }
  assert (e ∈ pre ++ [e]) as He by (apply elem_of_app; right; by left).
  eapply moveToOutNodes_outNodesFrom; [|exact He| |exact Hb]; [|by right].
  eapply moveToOutNodes_outNodesFrom; [exact Hinv'|exact He| |exact Ha].
  by left.
Qed.

(** The construction makes out-nodes of ends of inter-graph edges only, and
    leaves the other on-circle nodes as in-nodes, in their order. *)
Lemma convertToClusteredGraph_outNodesFrom nodes_ edges_ clusters gm m k c :
  convertToClusteredGraph newGraphManager nodes_ edges_ clusters = Some (gm, m) ->
  circles gm !! k = Some c -> outNodesFrom (gmEdges gm) c.
Proof.
  intros H Hk.
  pose proof (convertToClusteredGraph_phases _ _ _ _ _ H)
    as (gm2 & gm3 & HB2 & HF2 & _ & H3 & H5).
  pose proof (determineOutNodes_loop_erase _ _ _ H5) as K5.
  apply eraseInOutAll_fields in K5 as (_ & _ & -> & _).
  refine (determineOutNodes_outNodesFrom _ _ _ _ H5 k c Hk).
  intros k0 c0. destruct (populateReferences_frame gm3) as (_ & -> & _).
  intros Hk0.
  apply addEdges_Some in H3 as (_ & He3 & _). simpl in He3.
  destruct (erase_circle_Some _ _ _ _ He3 Hk0) as (c2 & Hc2 & Ec).
  apply eraseCircleEdges_fields in Ec as (_ & _ & Ein & Eout & Eon & _).
  destruct (fresh_circles _ HF2 k0 c2 Hc2) as (_ & Hin & Hout & _).
  destruct (built_circles _ _ HB2 k0 c2 Hc2) as [Hnd _].
  split; [|split].
  - rewrite <- Eout, Hout. by intros n ?%elem_of_nil.
  - rewrite <- Ein, <- Eout, <- Eon, Hin, Hout. symmetry. apply filter_all.
    by intros n _ ?%elem_of_nil.
  - by rewrite <- Eon.
Qed.

(** X7: after the construction every out-node of a circle is an end of an
    inter-graph edge of the graph manager, and the in-nodes of the circle are
    its on-circle nodes that are no out-nodes, in the order of the on-circle
    nodes. *)
Theorem X7_out_nodes_are_ends_of_inter_graph_edges
  (nodes_ : list CyNode) (edges_ : list CyEdge) (clusters : list (list string))
  (gm : CiSEGraphManager) (m : gmap string nat) (k : nat) (c : CiSECircle) :
  convertToClusteredGraph newGraphManager nodes_ edges_ clusters = Some (gm, m) ->
  circles gm !! k = Some c ->
  (forall n, n ∈ outNodes c ->
     exists e, e ∈ gmEdges gm /\ (n = source e \/ n = target e)) /\
  inNodes c = filter (fun n => n ∉ outNodes c) (onCircleNodes c).
Proof.
  intros H Hk.
  destruct (convertToClusteredGraph_outNodesFrom _ _ _ _ _ _ _ H Hk)
    as (Ho & Hi & _).
  done.
Qed.

Lemma X7_out_nodes_witness :
  (forall n, n ∈ outNodes (Ex.circleOf Ex.built1 0) ->
     exists e, e ∈ gmEdges Ex.state1.1 /\ (n = source e \/ n = target e)) /\
  inNodes (Ex.circleOf Ex.built1 0)
  = filter (fun n => n ∉ outNodes (Ex.circleOf Ex.built1 0))
           (onCircleNodes (Ex.circleOf Ex.built1 0)).
Proof.
  apply (X7_out_nodes_are_ends_of_inter_graph_edges Ex.nodes1 Ex.edges1
           Ex.clusters1 Ex.state1.1 Ex.state1.2 0).
  - vm_compute. reflexivity.
  - vm_compute. reflexivity.
Defined.

(** ** The methods of a circle *)

(** When [computeOrderMatrix] returns. *)
Lemma computeOrderMatrix_is_Some
  (h : list CiSENode) (c : CiSECircle) :
  is_Some (computeOrderMatrix h c) <->
  (length (onCircleNodes c) < 2)%nat \/
  forall i, (i < length (onCircleNodes c))%nat -> is_Some (getAngleAt h c i).
Proof.
  split.
  - intros [c' H]. unfold computeOrderMatrix in H.
    apply bind_Some in H as (m & Hrun & _).
    destruct (decide (length (onCircleNodes c) < 2)%nat) as [|HN]; [by left|].
    right. set (N := length (onCircleNodes c)) in *.
    assert (forall i j, (i < j)%nat -> (j < N)%nat ->
              is_Some (getAngleAt h c i) /\ is_Some (getAngleAt h c j)) as Hpair.
    { intros i j Hij Hj.
      assert (i ∈ seq 0 N) as Hi by (apply elem_of_seq; lia).
      apply list_elem_of_split in Hi as (pre & suf & Hl).
      destruct (forEachM_steps _ _ _ _ _ _ _ Hrun Hl) as (m1 & m2 & _ & Hrow & _).
      assert (j ∈ seq 0 N) as Hjin by (apply elem_of_seq; lia).
      apply list_elem_of_split in Hjin as (pre' & suf' & Hl').
      destruct (forEachM_steps _ _ _ _ _ _ _ Hrow Hl') as (m3 & m4 & _ & Hcell & _).
      unfold orderCell in Hcell.
      rewrite (proj2 (Nat.ltb_lt i j) Hij) in Hcell.
      apply bind_Some in Hcell as (aj & Haj & Hcell).
      apply bind_Some in Hcell as (ai & Hai & _). by split; eexists. }
    intros i Hi. destruct (decide (i = N - 1)%nat) as [->|Hne].
    + apply (Hpair 0%nat (N - 1)%nat); lia.
    + apply (Hpair i (N - 1)%nat); lia.
  - intros HN. unfold computeOrderMatrix.
    set (N := length (onCircleNodes c)) in *.
    set (angles := fun i => default 0%float (getAngleAt h c i)).
    rewrite (forEachM_total _
               (fun m i => foldl (orderCellOf (orderTest angles) i) m (seq 0 N)));
      [by eexists|].
    intros m i Hi. apply elem_of_seq in Hi.
    apply forEachM_total. intros m' j Hj. apply elem_of_seq in Hj.
    destruct HN as [HN|HN].
    + unfold orderCell, orderCellOf.
      replace (i <? j)%nat with false; [done|].
      symmetry. apply Nat.ltb_ge. lia.
    + apply orderCell_read; [|lia|lia].
      intros i0 Hi0. unfold angles. by destruct (HN i0 Hi0) as [a ->].
Qed.

(** X8: [computeOrderMatrix] returns for every circle with fewer than two
    on-circle nodes, whatever they are (no angle is read), and for a larger
    circle exactly when the angle of every on-circle node can be read (each
    is a node with an on-circle extension); otherwise it throws. *)
Theorem X8_computeOrderMatrix_returns_iff_angles_readable
  (h : list CiSENode) (c : CiSECircle) :
  is_Some (computeOrderMatrix h c) <->
  (length (onCircleNodes c) < 2)%nat \/
  forall i, (i < length (onCircleNodes c))%nat -> is_Some (getAngleAt h c i).
Proof. apply computeOrderMatrix_is_Some. Qed.

(** What one turn of [prepareCirclesForReversal] does to the circles. *)
Lemma prepareCircle_circles gm n gm' :
  prepareCircle gm n = Some gm' ->
  heap gm' = heap gm /\ rootGraph gm' = rootGraph gm /\
  gmEdges gm' = gmEdges gm /\ gmOnCircleNodes gm' = gmOnCircleNodes gm /\
  nonOnCircleNodes gm' = nonOnCircleNodes gm /\
  forall k c, circles gm !! k = Some c ->
    exists c', circles gm' !! k = Some c' /\ sameButPreparation c c' /\
               flagClearedForFewEdges c c' /\
               (forall l, interClusterEdges c = Some l ->
                          interClusterEdges c' = Some l).
Proof.
  unfold prepareCircle. intros H.
  apply bind_Some in H as (nd & Hnd & H).
  assert (forall k c, circles gm !! k = Some c ->
            exists c', circles gm !! k = Some c' /\ sameButPreparation c c' /\
                       flagClearedForFewEdges c c' /\
                       (forall l, interClusterEdges c = Some l ->
                                  interClusterEdges c' = Some l))
    as Hsame.
  { intros k c Hk. exists c. split; [done|]. split; [by repeat split|].
    split; [by left|done]. }
  destruct (child nd) as [[|k0]|] eqn:Hch; [done| |by injection H as <-].
  apply bind_Some in H as (c0 & Hc0 & H).
  apply bind_Some in H as ([l c1] & Hget & H).
  apply bind_Some in H as (c2 & Hcom & H). injection H as <-. simpl.
  do 5 (split; [done|]).
  intros k c Hk. destruct (decide (k = k0)) as [->|Hne].
  - rewrite Hc0 in Hk. injection Hk as <-.
    rewrite list_lookup_insert_eq by (by eapply lookup_lt_Some).
    exists c2. split; [done|].
    assert (forall l0, interClusterEdges c0 = Some l0 -> l = l0) as Hkept.
    { intros l0 E. unfold getInterClusterEdges in Hget. rewrite E in Hget.
      by injection Hget as <- _. }
    apply getInterClusterEdges_Some in Hget as (Hmemo & Hflag & Hc1).
    apply computeOrderMatrix_Some in Hcom as [mx ->].
    assert (interClusterEdges
              (setOrderMatrix mx
                 (if (length l <? 2)%nat then setMayNotBeReversed c1 else c1))
            = Some l) as Hm2 by (by destruct (length l <? 2)%nat).
    split; [|split].
    + destruct (length l <? 2)%nat, Hc1 as [->| ->]; by repeat split.
    + destruct (length l <? 2)%nat eqn:Hlen.
      * apply Nat.ltb_lt in Hlen. right. split; [done|]. by exists l.
      * left. simpl. done.
    + intros l0 E. by rewrite <- (Hkept l0 E).
  - rewrite list_lookup_insert_ne by done. by apply Hsame.
Qed.

(** The circles over the whole of [prepareCirclesForReversal]. *)
Lemma prepareCirclesForReversal_circles gm gm' :
  prepareCirclesForReversal gm = Some gm' ->
  heap gm' = heap gm /\ rootGraph gm' = rootGraph gm /\
  gmEdges gm' = gmEdges gm /\ gmOnCircleNodes gm' = gmOnCircleNodes gm /\
  nonOnCircleNodes gm' = nonOnCircleNodes gm /\
  forall k c, circles gm !! k = Some c ->
    exists c', circles gm' !! k = Some c' /\ sameButPreparation c c' /\
               flagClearedForFewEdges c c'.
Proof.
  unfold prepareCirclesForReversal. intros H.
  refine (forEachM_run_inv
            (fun g =>
               heap g = heap gm /\ rootGraph g = rootGraph gm /\
               gmEdges g = gmEdges gm /\ gmOnCircleNodes g = gmOnCircleNodes gm /\
               nonOnCircleNodes g = nonOnCircleNodes gm /\
               forall k c, circles gm !! k = Some c ->
                 exists c', circles g !! k = Some c' /\ sameButPreparation c c' /\
                            flagClearedForFewEdges c c')
            _ _ _ _ H _ _).
  - do 5 (split; [done|]). intros k c Hk. exists c.
    split; [done|]. split; [by repeat split|by left].
  - intros g n g' _ (Eh & Er & Eg & Eon & Enon & Hcs) Hstep.
    apply prepareCircle_circles in Hstep as (Eh' & Er' & Eg' & Eon' & Enon' & Hcs').
    split; [congruence|]. split; [congruence|]. split; [congruence|].
    split; [congruence|]. split; [congruence|].
    intros k c Hk. destruct (Hcs k c Hk) as (c1 & Hc1 & Hs1 & Hf1).
    destruct (Hcs' k c1 Hc1) as (c2 & Hc2 & Hs2 & Hf2 & Hmemo).
    exists c2. split; [done|]. split.
    + destruct Hs1 as (?&?&?&?&?&?&?), Hs2 as (?&?&?&?&?&?&?).
      repeat split; congruence.
    + destruct Hf2 as [Hf2|Hf2]; [|by right].
      destruct Hf1 as [Hf1|(Hf1 & l & Hl & Hlen)]; [left; congruence|].
      right. split; [congruence|]. exists l. split; [by apply Hmemo|done].
Qed.

(** X9: [prepareCirclesForReversal] changes no node, neither the root
    graph nor the inter-graph edges nor the node lists of the graph manager,
    and of a circle only the memo of the inter-cluster edges, the order
    matrix and the reversal flag; the flag changes only by being cleared,
    and only for a circle whose memo holds fewer than two inter-cluster
    edges. *)
Theorem X9_prepareCirclesForReversal_touches_preparation_only
  (gm gm' : CiSEGraphManager) :
  prepareCirclesForReversal gm = Some gm' ->
  heap gm' = heap gm /\ rootGraph gm' = rootGraph gm /\
  gmEdges gm' = gmEdges gm /\ gmOnCircleNodes gm' = gmOnCircleNodes gm /\
  nonOnCircleNodes gm' = nonOnCircleNodes gm /\
  forall k c, circles gm !! k = Some c ->
    exists c', circles gm' !! k = Some c' /\ sameButPreparation c c' /\
               flagClearedForFewEdges c c'.
Proof. apply prepareCirclesForReversal_circles. Qed.

Lemma X9_prepareCirclesForReversal_witness :
  heap (Ex.gmOf Ex.prepared2) = heap (Ex.gmOf Ex.laidOut2) /\
  rootGraph (Ex.gmOf Ex.prepared2) = rootGraph (Ex.gmOf Ex.laidOut2) /\
  gmEdges (Ex.gmOf Ex.prepared2) = gmEdges (Ex.gmOf Ex.laidOut2) /\
  gmOnCircleNodes (Ex.gmOf Ex.prepared2) = gmOnCircleNodes (Ex.gmOf Ex.laidOut2) /\
  nonOnCircleNodes (Ex.gmOf Ex.prepared2) = nonOnCircleNodes (Ex.gmOf Ex.laidOut2) /\
  forall k c, circles (Ex.gmOf Ex.laidOut2) !! k = Some c ->
    exists c', circles (Ex.gmOf Ex.prepared2) !! k = Some c' /\
               sameButPreparation c c' /\ flagClearedForFewEdges c c'.
Proof.
  apply (X9_prepareCirclesForReversal_touches_preparation_only
           (Ex.gmOf Ex.laidOut2) (Ex.gmOf Ex.prepared2)).
  vm_compute. reflexivity.
Defined.

(** ** What the steps keep *)

Lemma Forall2_refl_on {A : Type} (R : A -> A -> Prop) (l : list A) :
  (forall x, R x x) -> Forall2 R l l.
Proof. intros H. induction l; constructor; auto. Qed.

Lemma Forall2_trans_on {A : Type} (R : A -> A -> Prop) (l1 l2 l3 : list A) :
  (forall x y z, R x y -> R y z -> R x z) ->
  Forall2 R l1 l2 -> Forall2 R l2 l3 -> Forall2 R l1 l3.
Proof.
  intros Ht H1. revert l3. induction H1; intros l3 H2; inversion H2; subst;
    constructor; eauto.
Qed.

Lemma circleShape_refl c : circleShape c c.
Proof. by repeat split. Qed.

Lemma sameShape_refl gm : sameShape gm gm.
Proof.
  repeat split; try done. apply Forall2_refl_on, circleShape_refl.
Qed.

Lemma circleShape_trans c1 c2 c3 :
  circleShape c1 c2 -> circleShape c2 c3 -> circleShape c1 c3.
Proof.
  intros (?&?&?&?) (?&?&?&?). repeat split; try congruence. by etrans.
Qed.

Lemma sameShape_trans gm1 gm2 gm3 :
  sameShape gm1 gm2 -> sameShape gm2 gm3 -> sameShape gm1 gm3.
Proof.
  intros (?&?&?&?&?&?&HA) (?&?&?&?&?&?&HB).
  repeat split; try congruence.
  eapply Forall2_trans_on; [|exact HA|exact HB].
  intros c1 c2 c3. apply circleShape_trans.
Qed.

Lemma getAllEdges_setHeap gm h : (getAllEdges (setHeap h gm)).1 = (getAllEdges gm).1.
Proof. unfold getAllEdges. simpl. by destruct (allEdges gm). Qed.

(** A node changed in what the steps do not keep. *)
Lemma sameShape_updNode n (f : CiSENode -> CiSENode) gm :
  (forall nd, heap gm !! n = Some nd -> nodeShape (f nd) = nodeShape nd) ->
  sameShape gm (updNode n f gm).
Proof.
  intros Hf. unfold sameShape, updNode. rewrite getAllEdges_setHeap. simpl.
  split; [|repeat split; try done].
  - apply list_eq. intros i. rewrite !list_lookup_fmap.
    destruct (decide (i = n)) as [->|Hne].
    + rewrite list_lookup_alter_eq.
      destruct (heap gm !! n) as [nd|] eqn:E; simpl; [|done].
      by rewrite Hf.
    + by rewrite list_lookup_alter_ne.
  - apply Forall2_refl_on, circleShape_refl.
Qed.

(** A circle changed in what the steps do not keep. *)
Lemma sameShape_setCircles gm cs :
  Forall2 circleShape (circles gm) cs ->
  sameShape gm (setCircles cs gm).
Proof.
  intros H. unfold sameShape. simpl. repeat split; try done.
  unfold getAllEdges. simpl. destruct (allEdges gm); [done|]. simpl.
  f_equal. f_equal. f_equal.
  apply list_eq. intros k. rewrite !list_lookup_fmap.
  destruct (circles gm !! k) as [c|] eqn:E.
  - destruct (Forall2_lookup_l _ _ _ _ _ H E) as (c' & -> & (Hb & _)).
    simpl. by rewrite Hb.
  - apply Forall2_length in H. apply lookup_ge_None in E.
    rewrite (proj2 (lookup_ge_None cs k)) by lia. done.
Qed.

Lemma Forall2_alter_diag {A : Type} (R : A -> A -> Prop) (f : A -> A) (k : nat)
  (l : list A) :
  (forall x, R x x) -> (forall x, l !! k = Some x -> R x (f x)) ->
  Forall2 R l (alter f k l).
Proof.
  intros Hrefl Hf. apply Forall2_same_length_lookup.
  split; [by rewrite length_alter|].
  intros i x y Hx Hy. destruct (decide (i = k)) as [->|Hne].
  - rewrite list_lookup_alter_eq, Hx in Hy. simpl in Hy. injection Hy as <-.
    by apply Hf.
  - rewrite list_lookup_alter_ne, Hx in Hy by done. injection Hy as <-.
    apply Hrefl.
Qed.

Lemma sameShape_updCircle k (f : CiSECircle -> CiSECircle) gm :
  (forall c, circles gm !! k = Some c -> circleShape c (f c)) ->
  sameShape gm (updCircle k f gm).
Proof.
  intros Hf. apply sameShape_setCircles.
  apply Forall2_alter_diag; [apply circleShape_refl|done].
Qed.

Lemma sameShape_getAllEdges gm : sameShape gm (getAllEdges gm).2.
Proof.
  destruct (getAllEdges_frame gm) as (Hh & Hc & Hr & Hg & _ & Hon & Hnon & Hm).
  unfold sameShape. rewrite Hh, Hc, Hr, Hg, Hon, Hnon.
  repeat split; try done.
  - unfold getAllEdges at 1. by rewrite Hm.
  - apply Forall2_refl_on, circleShape_refl.
Qed.

Lemma shape_lookup gm gm' n nd :
  nodeShape <$> heap gm' = nodeShape <$> heap gm -> heap gm !! n = Some nd ->
  exists nd', heap gm' !! n = Some nd' /\ nodeShape nd' = nodeShape nd.
Proof.
  intros E Hl. apply (f_equal (fun l => l !! n)) in E.
  rewrite !list_lookup_fmap, Hl in E.
  destruct (heap gm' !! n) as [nd'|]; simpl in E; [|done].
  exists nd'. split; [done|]. by apply (inj Some) in E.
Qed.

Lemma nodeShape_fields nd nd' :
  nodeShape nd' = nodeShape nd ->
  ID nd' = ID nd /\ clusterID nd' = clusterID nd /\ owner nd' = owner nd /\
  child nd' = child nd /\
  (is_Some (onCircleNodeExt nd') <-> is_Some (onCircleNodeExt nd)) /\
  (onCircleNodeExt nd' = None <-> onCircleNodeExt nd = None) /\
  incidentEdges nd' = incidentEdges nd.
Proof.
  unfold nodeShape. intros [= E1 E2 E3 E4 E5 E6].
  assert (is_Some (onCircleNodeExt nd') <-> is_Some (onCircleNodeExt nd)) as Hiff.
  { split; intros H.
    - apply (bool_decide_eq_true_1 (is_Some (onCircleNodeExt nd))).
      rewrite <- E5. by apply bool_decide_eq_true_2.
    - apply (bool_decide_eq_true_1 (is_Some (onCircleNodeExt nd'))).
      rewrite E5. by apply bool_decide_eq_true_2. }
  do 4 (split; [done|]). split; [done|]. split; [|done].
  rewrite !eq_None_not_Some. by rewrite Hiff.
Qed.

Lemma nodeOk_shape nd nd' : nodeShape nd' = nodeShape nd -> nodeOk nd -> nodeOk nd'.
Proof.
  intros E. apply nodeShape_fields in E as (E1 & E2 & E3 & E4 & E5 & E6 & _).
  unfold nodeOk. rewrite E1, E2, E3, E4.
  destruct (owner nd) as [[|k]|]; [| |done].
  - intros [Hx H]. split; [by apply E6|done].
  - intros (? & ? & Hx & ?). repeat split; try done. by apply E5.
Qed.

Lemma sameShape_sym_nodes gm gm' :
  sameShape gm gm' -> nodeShape <$> heap gm = nodeShape <$> heap gm'.
Proof. by intros (-> & _). Qed.

(** What the steps keep is enough for them to go on. *)
Lemma Steady_shape gm gm' : Steady gm -> sameShape gm gm' -> Steady gm'.
Proof.
  intros [Hn Hcn Hp Ho Hch Hon Hnon Hr Hnd He] HS.
  pose proof HS as (Eh & Er & Eg & Eon & Enon & Ea & Ecs).
  assert (forall n nd', heap gm' !! n = Some nd' ->
            exists nd, heap gm !! n = Some nd /\ nodeShape nd' = nodeShape nd)
    as Hback.
  { intros n nd' Hl. destruct (shape_lookup gm' gm n nd' (eq_sym Eh) Hl)
      as (nd & ? & ?). by exists nd. }
  assert (forall n nd, heap gm !! n = Some nd ->
            exists nd', heap gm' !! n = Some nd' /\ nodeShape nd' = nodeShape nd)
    as Hfwd by (intros n nd; by apply shape_lookup).
  assert (forall k c', circles gm' !! k = Some c' ->
            exists c, circles gm !! k = Some c /\ circleShape c c') as Hcback.
  { intros k c' Hk. destruct (Forall2_lookup_r _ _ _ _ _ Ecs Hk) as (c & ? & ?).
    by exists c. }
  assert (forall k c, circles gm !! k = Some c ->
            exists c', circles gm' !! k = Some c' /\ circleShape c c') as Hcfwd.
  { intros k c Hk. destruct (Forall2_lookup_l _ _ _ _ _ Ecs Hk) as (c' & ? & ?).
    by exists c'. }
  split.
  - intros n nd' Hl. destruct (Hback n nd' Hl) as (nd & Hl0 & E).
    eapply nodeOk_shape; [exact E|by eapply Hn].
  - intros k c' Hk. destruct (Hcback k c' Hk) as (c & Hc & (Eb & Ei & Eo & Ep)).
    destruct (Hcn k c Hc) as (Hnodup & Hown & Hio).
    split; [by rewrite Ep|]. split.
    + intros n Hin. rewrite Ep in Hin. destruct (Hown n Hin) as (nd & Hl & Hon').
      destruct (Hfwd n nd Hl) as (nd' & Hl' & E).
      apply nodeShape_fields in E as (_ & _ & E3 & _).
      exists nd'. split; [done|congruence].
    + by rewrite Ei, Eo, Ep.
  - intros k c' Hk. destruct (Hcback k c' Hk) as (c & Hc & (Eb & _)).
    destruct (Hp k c Hc) as (p & pn & Hpar & Hl & Hop & Hcp).
    destruct (Hfwd p pn Hl) as (pn' & Hl' & E).
    apply nodeShape_fields in E as (_ & _ & E3 & E4 & _).
    exists p, pn'. rewrite Eb. repeat split; try done; congruence.
  - intros n nd' k Hl Hown. destruct (Hback n nd' Hl) as (nd & Hl0 & E).
    apply nodeShape_fields in E as (_ & _ & E3 & _).
    destruct (Ho n nd k Hl0 ltac:(congruence)) as (c & Hc & Hin).
    destruct (Hcfwd k c Hc) as (c' & Hc' & (_ & _ & _ & Ep)).
    exists c'. split; [done|]. by rewrite Ep.
  - intros n nd' k Hl Hchild. destruct (Hback n nd' Hl) as (nd & Hl0 & E).
    apply nodeShape_fields in E as (_ & _ & _ & E4 & _).
    destruct (Hch n nd k Hl0 ltac:(congruence)) as [c Hc].
    destruct (Hcfwd k c Hc) as (c' & Hc' & _). by exists c'.
  - intros n. rewrite Eon, Hon. split.
    + intros (nd & k & Hl & Hown). destruct (Hfwd n nd Hl) as (nd' & Hl' & E).
      apply nodeShape_fields in E as (_ & _ & E3 & _).
      exists nd', k. split; [done|congruence].
    + intros (nd' & k & Hl & Hown). destruct (Hback n nd' Hl) as (nd & Hl0 & E).
      apply nodeShape_fields in E as (_ & _ & E3 & _).
      exists nd, k. split; [done|congruence].
  - intros n. rewrite Enon, Hnon. split.
    + intros (nd & Hl & Hown). destruct (Hfwd n nd Hl) as (nd' & Hl' & E).
      apply nodeShape_fields in E as (_ & _ & E3 & _).
      exists nd'. split; [done|congruence].
    + intros (nd' & Hl & Hown). destruct (Hback n nd' Hl) as (nd & Hl0 & E).
      apply nodeShape_fields in E as (_ & _ & E3 & _).
      exists nd. split; [done|congruence].
  - by rewrite Er, Enon.
  - by rewrite Eon.
  - intros e. rewrite Ea. intros Hin.
    destruct (He e Hin) as (s & t & Hs & Ht & Hos & Hot).
    destruct (Hfwd _ s Hs) as (s' & Hs' & Es).
    destruct (Hfwd _ t Ht) as (t' & Ht' & Et).
    apply nodeShape_fields in Es as (_ & _ & Es & _).
    apply nodeShape_fields in Et as (_ & _ & Et & _).
    exists s', t'. rewrite Es, Et. done.
Qed.

(** ** The circular layout step keeps the shape *)

Lemma insertByIndex_perm x l : insertByIndex x l ≡ₚ x :: l.
Proof.
  induction l as [|y l IH]; simpl; [done|].
  destruct (y.2 <? x.2)%Z; [|done]. rewrite IH. apply Permutation_swap.
Qed.

Lemma sortByIndex_perm l : sortByIndex l ≡ₚ l.
Proof.
  induction l as [|x l IH]; simpl; [done|].
  unfold sortByIndex in *. simpl. rewrite insertByIndex_perm. by rewrite IH.
Qed.

Lemma keyed_fst (h : list CiSENode) l keyed :
  mapM (fun n => nd ← h !! n; ext ← onCircleNodeExt nd;
                 Some (n, orderIndex ext)) l = Some keyed ->
  fst <$> keyed = l.
Proof.
  intros H. apply mapM_Some in H.
  induction H as [|n y l k Hy _ IH]; [done|]. rewrite fmap_cons.
  f_equal; [|exact IH].
  apply bind_Some in Hy as (nd & _ & Hy).
  apply bind_Some in Hy as (ext & _ & Hy). by injection Hy as <-.
Qed.

Lemma sorted_keys_perm (h : list CiSENode) l keyed :
  mapM (fun n => nd ← h !! n; ext ← onCircleNodeExt nd;
                 Some (n, orderIndex ext)) l = Some keyed ->
  fst <$> sortByIndex keyed ≡ₚ l.
Proof.
  intros H. rewrite sortByIndex_perm. by rewrite (keyed_fst _ _ _ H).
Qed.

Lemma calculateParentNodeDimension_shape k gm gm' :
  calculateParentNodeDimension k gm = Some gm' -> sameShape gm gm'.
Proof.
  unfold calculateParentNodeDimension. intros H.
  apply bind_Some in H as (c & _ & H).
  apply bind_Some in H as (mx & _ & H).
  apply bind_Some in H as (p & _ & H). injection H as <-.
  match goal with
  | |- sameShape ?g (updNode ?p0 ?f1 (updNode ?p0 ?f2 ?g)) =>
      apply (sameShape_trans g (updNode p0 f2 g));
        apply sameShape_updNode; intros nd _; reflexivity
  end.
Qed.

Section StepShape.

Variable runAVSDF : list DelegateNode -> list (nat * nat) -> AVSDFResult.
Variable runCoSE : list DelegateNode -> list (nat * nat) -> nat -> PointD.

Lemma reflectAVSDF_shape mp runs gm n gm' :
  reflectAVSDF mp runs gm n = Some gm' -> sameShape gm gm'.
Proof.
  unfold reflectAVSDF. intros H.
  apply bind_Some in H as (v & _ & H).
  apply bind_Some in H as (r & _ & H).
  apply bind_Some in H as (nd & Hnd & H).
  apply bind_Some in H as (ext & Hext & H). injection H as <-.
  apply sameShape_updNode. intros nd0 Hl. rewrite Hnd in Hl. injection Hl as <-.
  unfold nodeShape. simpl. rewrite Hext. done.
Qed.

Lemma reflectAVSDF_circles mp runs gm n gm' :
  reflectAVSDF mp runs gm n = Some gm' -> circles gm' = circles gm.
Proof.
  unfold reflectAVSDF. intros H.
  apply bind_Some in H as (v & _ & H).
  apply bind_Some in H as (r & _ & H).
  apply bind_Some in H as (nd & Hnd & H).
  apply bind_Some in H as (ext & Hext & H). by injection H as <-.
Qed.

(** The circular layout of one circle keeps the shape. *)
Lemma step1Circle_shape st k st' :
  step1Circle runAVSDF st k = Some st' ->
  sameShape (s1Manager st) (s1Manager st').
Proof.
  unfold step1Circle. intros H.
  apply bind_Some in H as (graph & Hgraph & H).
  apply bind_Some in H as (avsdfNodes & _ & H).
  pose proof (sameShape_getAllEdges (s1Manager st)) as HS0.
  destruct (getAllEdges_frame (s1Manager st)) as (_ & Hc0 & _).
  destruct (getAllEdges (s1Manager st)) as [allEdges_ gm0]. simpl in HS0, Hc0.
  apply bind_Some in H as (avsdfEdges & _ & H).
  apply bind_Some in H as (gm1 & H1 & H).
  apply bind_Some in H as (keyed & Hkeyed & H).
  apply bind_Some in H as (gm2 & H2 & H). injection H as <-. simpl.
  assert (sameShape gm0 gm1 /\ circles gm1 = circles gm0) as [HS1 Hc1].
  { apply (forEachM_run_inv
             (fun g => sameShape gm0 g /\ circles g = circles gm0) _ _ _ _ H1);
      [split; [apply sameShape_refl|done]|].
    intros g n g' _ [Hg Hcg] Hstep. split.
    - eapply sameShape_trans; [exact Hg|]. by eapply reflectAVSDF_shape.
    - apply reflectAVSDF_circles in Hstep. congruence. }
  eapply sameShape_trans; [exact HS0|].
  eapply sameShape_trans; [exact HS1|].
  assert (sameShape gm1
            (updCircle k (setOnCircleNodes (sortByIndex keyed).*1) gm1)) as HS2.
  { apply sameShape_updCircle. intros c Hc. rewrite Hc1, Hc0, Hgraph in Hc.
    injection Hc as <-. repeat split; try done. simpl.
    by apply (sorted_keys_perm (heap gm1)). }
  eapply sameShape_trans; [exact HS2|].
  destruct (0 <? length (onCircleNodes graph))%nat.
  - apply bind_Some in H2 as (p & _ & H2).
    apply calculateParentNodeDimension_shape in H2.
    match type of H2 with
    | sameShape (updCircle ?k0 ?fc (updNode ?p0 ?fn ?g)) _ =>
        assert (sameShape g (updNode p0 fn g)) as HA
          by (apply sameShape_updNode; intros nd _; reflexivity);
        assert (sameShape (updNode p0 fn g) (updCircle k0 fc (updNode p0 fn g)))
          as HB by (apply sameShape_updCircle; intros c _; by repeat split)
    end.
    eapply sameShape_trans; [exact HA|].
    eapply sameShape_trans; [exact HB|exact H2].
  - injection H2 as <-. apply sameShape_refl.
Qed.

Lemma doStep1_shape ly ly' :
  doStep1 runAVSDF ly = Some ly' ->
  sameShape (graphManager ly) (graphManager ly').
Proof.
  unfold doStep1. intros H. apply bind_Some in H as (st & H & E).
  injection E as <-. simpl.
  apply (forEachM_run_inv
           (fun s => sameShape (graphManager ly) (s1Manager s)) _ _ _ _ H);
    [apply sameShape_refl|].
  intros s k s' _ Hs Hstep. eapply sameShape_trans; [exact Hs|].
  by eapply step1Circle_shape.
Qed.

End StepShape.

(** ** The circular layout step returns *)

Lemma hashMapPut_keeps `{Countable K} {V : Type} (k n : K) (v w : V)
  (m : gmap K V) :
  m !! n = Some w -> hashMapPut k v m !! n = Some w.
Proof.
  intros Hn. unfold hashMapPut. destruct (m !! k) eqn:E; [done|].
  rewrite lookup_insert_ne; [done|]. intros ->. congruence.
Qed.

Lemma delegates_keep (k : nat) (ps : list (nat * nat)) (m0 : gmap nat (nat * nat))
  n w :
  m0 !! n = Some w ->
  foldl (fun m ni => hashMapPut ni.2 (k, ni.1) m) m0 ps !! n = Some w.
Proof.
  revert m0. induction ps as [|p ps IH]; intros m0 Hn; [done|].
  simpl. apply IH. by apply hashMapPut_keeps.
Qed.

Lemma delegates_known (k : nat) (ps : list (nat * nat)) (m0 : gmap nat (nat * nat))
  n :
  n ∈ ps.*2 ->
  is_Some (foldl (fun m ni => hashMapPut ni.2 (k, ni.1) m) m0 ps !! n).
Proof.
  revert m0. induction ps as [|p ps IH]; intros m0 Hn; [by apply elem_of_nil in Hn|].
  rewrite fmap_cons in Hn. simpl.
  apply elem_of_cons in Hn as [->|Hn]; [|by apply IH].
  assert (is_Some (hashMapPut p.2 (k, p.1) m0 !! p.2)) as [w Hw]
    by (apply hashMapPut_is_Some; by left).
  exists w. by apply delegates_keep.
Qed.

Lemma delegates_from (k : nat) (ps : list (nat * nat)) (m0 : gmap nat (nat * nat))
  n v :
  foldl (fun m ni => hashMapPut ni.2 (k, ni.1) m) m0 ps !! n = Some v ->
  m0 !! n = Some v \/ (v.1 = k /\ n ∈ ps.*2).
Proof.
  revert m0. induction ps as [|p ps IH]; intros m0 Hn; [by left|].
  simpl in Hn. apply IH in Hn as [Hn|[? ?]].
  - unfold hashMapPut in Hn. destruct (m0 !! p.2) eqn:E; [by left|].
    apply lookup_insert_Some in Hn as [[<- <-]|[_ ?]]; [|by left].
    right. split; [done|]. rewrite fmap_cons. by left.
  - right. split; [done|]. rewrite fmap_cons. by right.
Qed.

Lemma imap_pair_snd (l : list nat) : (imap (fun i n => (i, n)) l).*2 = l.
Proof.
  apply list_eq. intros i. rewrite list_lookup_fmap, list_lookup_imap.
  by destruct (l !! i).
Qed.

Lemma calculateParentNodeDimension_succeeds k gm c :
  circles gm !! k = Some c ->
  (forall n, n ∈ onCircleNodes c -> is_Some (heap gm !! n)) ->
  is_Some (parent (base c)) ->
  is_Some (calculateParentNodeDimension k gm).
Proof.
  intros Hc Hn [p Hp]. unfold calculateParentNodeDimension. rewrite Hc. simpl.
  destruct (forEachM_succeeds (fun _ _ => True) (maxDimensionStep (heap gm))
              (onCircleNodes c) MIN_SAFE_INTEGER) as (mx & -> & _); [done| |].
  - intros pre a suf s Hl _. destruct (Hn a) as [nd Hnd].
    { rewrite Hl. apply elem_of_app. right. by left. }
    unfold maxDimensionStep. rewrite Hnd. simpl. eauto.
  - simpl. rewrite Hp. simpl. eauto.
Qed.

Section StepReturns.

Variable runAVSDF : list DelegateNode -> list (nat * nat) -> AVSDFResult.

(** The circular layout of a circle of a steady graph manager returns. *)
Lemma step1Circle_succeeds st k :
  Steady (s1Manager st) -> delegatesOwned (s1Manager st) (ciseToAvsdf st) ->
  is_Some (circles (s1Manager st) !! k) ->
  exists st', step1Circle runAVSDF st k = Some st' /\
              delegatesOwned (s1Manager st') (ciseToAvsdf st').
Proof.
  intros HS HD [graph Hgraph].
  assert (is_Some (step1Circle runAVSDF st k)) as [st' Hst'].
  2:{ exists st'. split; [done|].
      pose proof (step1Circle_shape _ _ _ _ Hst') as Hshape.
      unfold step1Circle in Hst'.
      apply bind_Some in Hst' as (graph' & Hgraph' & H).
      rewrite Hgraph in Hgraph'. injection Hgraph' as <-.
      apply bind_Some in H as (avsdfNodes & _ & H).
      destruct (getAllEdges (s1Manager st)) as [allEdges_ gm0].
      apply bind_Some in H as (avsdfEdges & _ & H).
      apply bind_Some in H as (gm1 & _ & H).
      apply bind_Some in H as (keyed & _ & H).
      apply bind_Some in H as (gm2 & _ & H). injection H as <-. simpl in *.
      intros n v Hv. apply delegates_from in Hv as [Hv|[Hv Hin]].
      - destruct (HD n v Hv) as (nd & Hl & Ho).
        destruct (shape_lookup _ _ n nd (proj1 Hshape) Hl) as (nd' & Hl' & E).
        apply nodeShape_fields in E as (_ & _ & E3 & _).
        exists nd'. split; [done|congruence].
      - rewrite imap_pair_snd in Hin.
        destruct (st_circle_nodes _ HS k graph Hgraph) as (_ & Hown & _).
        destruct (Hown n Hin) as (nd & Hl & Ho).
        destruct (shape_lookup _ _ n nd (proj1 Hshape) Hl) as (nd' & Hl' & E).
        apply nodeShape_fields in E as (_ & _ & E3 & _).
        exists nd'. split; [done|]. rewrite Hv. congruence. }
  destruct (st_circle_nodes _ HS k graph Hgraph) as (Hnodup & Hown & _).
  destruct (st_parent _ HS k graph Hgraph) as (p & pn & Hp & _).
  unfold step1Circle. rewrite Hgraph. simpl.
  assert (is_Some (mapM (fun n => nd ← heap (s1Manager st) !! n;
                           Some (mkDelegateNode (getLocation nd) (getWidth nd)
                                   (getHeight nd)))
                        (onCircleNodes graph))) as [avsdfNodes ->].
  { apply mapM_is_Some, Forall_forall. intros n Hn. simpl.
    destruct (Hown n Hn) as (nd & -> & _). by eexists. }
  simpl.
  pose proof (sameShape_getAllEdges (s1Manager st)) as HS0.
  destruct (getAllEdges_frame (s1Manager st)) as (Hh0 & Hc0 & _).
  destruct (getAllEdges (s1Manager st)) as [allEdges_ gm0]. simpl in *.
  set (mp := foldl (fun m ni => hashMapPut ni.2 (k, ni.1) m) (ciseToAvsdf st)
               (imap (fun i n => (i, n)) (onCircleNodes graph))).
  assert (forall n, n ∈ onCircleNodes graph ->
            exists v, mp !! n = Some v /\ v.1 = k) as Hmp.
  { intros n Hn.
    destruct (delegates_known k (imap (fun i n => (i, n)) (onCircleNodes graph))
                (ciseToAvsdf st) n) as [v Hv]; [by rewrite imap_pair_snd|].
    exists v. split; [done|].
    apply delegates_from in Hv as [Hv|[? _]]; [|done].
    destruct (HD n v Hv) as (nd & Hl & Ho).
    destruct (Hown n Hn) as (nd' & Hl' & Ho'). congruence. }
  destruct (forEachM_succeeds (fun _ _ => True)
              (avsdfEdgeFor mp k (onCircleNodes graph)) allEdges_ [])
    as (avsdfEdges & -> & _); [done| |].
  { intros pre e suf acc _ _. unfold avsdfEdgeFor. case_bool_decide as Hin.
    - destruct Hin as [Hs Ht].
      destruct (Hmp _ Hs) as (vs & -> & Hvs).
      destruct (Hmp _ Ht) as (vt & -> & Hvt). simpl.
      rewrite bool_decide_eq_true_2 by done. eauto.
    - eauto. }
  simpl.
  set (runs := <[k := runAVSDF avsdfNodes avsdfEdges]> (avsdfRuns st)).
  destruct (forEachM_succeeds (fun _ g => sameShape gm0 g /\ circles g = circles gm0)
              (reflectAVSDF mp runs) (onCircleNodes graph) gm0)
    as (gm1 & -> & HS1 & Hc1); [split; [apply sameShape_refl|done]| |].
  { intros pre n suf g Hl [Hg Hcg].
    assert (n ∈ onCircleNodes graph) as Hn
      by (rewrite Hl; apply elem_of_app; right; by left).
    destruct (Hmp n Hn) as (v & Hv & Hvk).
    destruct (Hown n Hn) as (nd & Hnd & Ho).
    pose proof (st_nodes _ HS n nd Hnd) as Hok. unfold nodeOk in Hok.
    rewrite Ho in Hok. destruct Hok as (_ & _ & Hx & _).
    rewrite <- Hh0 in Hnd.
    destruct (shape_lookup _ _ n nd (proj1 Hg) Hnd) as (nd' & Hnd' & E).
    apply nodeShape_fields in E as (_ & _ & _ & _ & Ex & _).
    destruct (proj2 Ex Hx) as [ext Hext].
    assert (exists g', reflectAVSDF mp runs g n = Some g') as [g' Hg'].
    { unfold reflectAVSDF. rewrite Hv. simpl. unfold runs. rewrite Hvk.
      rewrite lookup_insert_eq. simpl. rewrite Hnd'. simpl. rewrite Hext. simpl.
      eauto. }
    exists g'. split; [done|]. split.
    - eapply sameShape_trans; [exact Hg|]. by eapply reflectAVSDF_shape.
    - apply reflectAVSDF_circles in Hg'. congruence. }
  simpl.
  assert (forall n, n ∈ onCircleNodes graph ->
            exists nd ext, heap gm1 !! n = Some nd /\
                           onCircleNodeExt nd = Some ext) as Hgm1.
  { intros n Hn. destruct (Hown n Hn) as (nd & Hnd & Ho).
    pose proof (st_nodes _ HS n nd Hnd) as Hok. unfold nodeOk in Hok.
    rewrite Ho in Hok. destruct Hok as (_ & _ & Hx & _).
    rewrite <- Hh0 in Hnd.
    destruct (shape_lookup _ _ n nd (proj1 HS1) Hnd) as (nd' & Hnd' & E).
    apply nodeShape_fields in E as (_ & _ & _ & _ & Ex & _).
    destruct (proj2 Ex Hx) as [ext Hext]. by exists nd', ext. }
  assert (is_Some (mapM (fun n => nd ← heap gm1 !! n;
                           ext ← onCircleNodeExt nd;
                           Some (n, orderIndex ext))
                        (onCircleNodes graph))) as [keyed Hkeyed].
  { apply mapM_is_Some, Forall_forall. intros n Hn. simpl.
    destruct (Hgm1 n Hn) as (nd & ext & -> & Hext). simpl. rewrite Hext.
    by eexists. }
  rewrite Hkeyed. simpl.
  destruct (0 <? length (onCircleNodes graph))%nat; [|by eexists].
  rewrite Hp. simpl.
  match goal with
  | |- is_Some (calculateParentNodeDimension k ?g ≫= _) =>
      destruct (calculateParentNodeDimension_succeeds k g
                  (setRadius (avsdfRadius (runAVSDF avsdfNodes avsdfEdges))
                     (setOnCircleNodes (sortByIndex keyed).*1 graph)))
        as [gm2 ->]
  end.
  - simpl. rewrite !list_lookup_alter_eq, Hc1, Hc0, Hgraph. done.
  - simpl. intros n Hn.
    rewrite (sorted_keys_perm _ _ _ Hkeyed) in Hn.
    destruct (Hgm1 n Hn) as (nd & _ & Hnd & _).
    destruct (decide (n = p)) as [->|Hne].
    + rewrite list_lookup_alter_eq, Hnd. by eexists.
    + rewrite list_lookup_alter_ne by done. by eexists.
  - simpl. by eexists.
  - by eexists.
Qed.

(** The circular layout step returns on a steady graph manager, and leaves
    it steady. *)
Lemma doStep1_succeeds ly :
  Steady (graphManager ly) ->
  exists ly', doStep1 runAVSDF ly = Some ly' /\ Steady (graphManager ly').
Proof.
  intros HS. unfold doStep1.
  destruct (forEachM_succeeds
              (fun _ st => sameShape (graphManager ly) (s1Manager st) /\
                           delegatesOwned (s1Manager st) (ciseToAvsdf st))
              (step1Circle runAVSDF)
              (seq 0 (length (circles (graphManager ly))))
              (mkStep1State (graphManager ly) ∅ ∅))
    as (st' & -> & Hshape & _).
  - split; [apply sameShape_refl|]. intros n v Hv. simpl in Hv.
    by rewrite lookup_empty in Hv.
  - intros pre k suf st Hl [Hshape HD].
    pose proof (Steady_shape _ _ HS Hshape) as HSt.
    assert (is_Some (circles (s1Manager st) !! k)) as Hk.
    { apply lookup_lt_is_Some.
      destruct Hshape as (_ & _ & _ & _ & _ & _ & Hcs).
      apply Forall2_length in Hcs. rewrite <- Hcs.
      assert (k ∈ seq 0 (length (circles (graphManager ly)))) as Hin
        by (rewrite Hl; apply elem_of_app; right; by left).
      apply elem_of_seq in Hin. lia. }
    destruct (step1Circle_succeeds st k HSt HD Hk) as (st' & Hst' & HD').
    exists st'. split; [done|]. split; [|done].
    eapply sameShape_trans; [exact Hshape|]. by eapply step1Circle_shape.
  - simpl. eexists. split; [done|]. simpl. by eapply Steady_shape.
Qed.

End StepReturns.

(** ** The placement step keeps the shape and returns *)

Section Step2Returns.

Variable runCoSE : list DelegateNode -> list (nat * nat) -> nat -> PointD.

Lemma placeNonOnCircleNode_shape tb gm n gm' :
  placeNonOnCircleNode runCoSE tb gm n = Some gm' -> sameShape gm gm'.
Proof.
  unfold placeNonOnCircleNode. intros H.
  apply bind_Some in H as (i & _ & H). injection H as <-.
  apply sameShape_updNode. intros nd _. reflexivity.
Qed.

Lemma placeOnCircleNode_shape gm n gm' :
  placeOnCircleNode gm n = Some gm' -> sameShape gm gm'.
Proof.
  unfold placeOnCircleNode. intros H.
  apply bind_Some in H as (nd & _ & H).
  apply bind_Some in H as (g & _ & H).
  apply bind_Some in H as (lg & _ & H).
  apply bind_Some in H as (p & _ & H).
  apply bind_Some in H as (pn & _ & H). injection H as <-.
  apply sameShape_updNode. intros nd0 _. reflexivity.
Qed.

Lemma doStep2_shape ly ly' :
  doStep2 runCoSE ly = Some ly' ->
  sameShape (graphManager ly) (graphManager ly').
Proof.
  unfold doStep2. intros H.
  apply bind_Some in H as ([tb gm1] & Hb & H).
  apply bind_Some in H as (gm2 & H1 & H).
  apply bind_Some in H as (gm3 & H2 & H). injection H as <-. simpl.
  apply buildReducedGraph_Some in Hb as ->.
  eapply sameShape_trans; [apply sameShape_getAllEdges|].
  assert (sameShape (getAllEdges (graphManager ly)).2 gm2) as HS2.
  { apply (forEachM_run_inv
             (fun g => sameShape (getAllEdges (graphManager ly)).2 g)
             _ _ _ _ H1); [apply sameShape_refl|].
    intros g n g' _ Hg Hstep. eapply sameShape_trans; [exact Hg|].
    by eapply placeNonOnCircleNode_shape. }
  eapply sameShape_trans; [exact HS2|].
  apply (forEachM_run_inv (fun g => sameShape gm2 g) _ _ _ _ H2);
    [apply sameShape_refl|].
  intros g n g' _ Hg Hstep. eapply sameShape_trans; [exact Hg|].
  by eapply placeOnCircleNode_shape.
Qed.

(** The end of an edge in the reduced graph is a node of the root graph. *)
Lemma reducedEnd_steady gm n nd :
  Steady gm -> heap gm !! n = Some nd -> is_Some (owner nd) ->
  exists r, reducedEnd gm n = Some (Some r) /\ r ∈ nonOnCircleNodes gm.
Proof.
  intros HS Hnd [g Hg]. unfold reducedEnd. rewrite Hnd. simpl.
  pose proof (st_nodes _ HS n nd Hnd) as Hok. unfold nodeOk in Hok.
  rewrite Hg in Hok. destruct g as [|k].
  - destruct Hok as [-> _]. exists n. split; [done|].
    apply (st_non _ HS). by exists nd.
  - destruct Hok as (_ & _ & [ext ->] & _). rewrite Hg. simpl.
    destruct (st_owner _ HS n nd k Hnd Hg) as (c & Hc & _).
    destruct (st_parent _ HS k c Hc) as (p & pn & Hp & Hpn & Hop & _).
    rewrite Hc. simpl. rewrite Hp. exists p. split; [done|].
    apply (st_non _ HS). by exists pn.
Qed.

Lemma addCoSEEdge_succeeds gm tb e :
  Steady gm -> e ∈ (getAllEdges gm).1 ->
  (forall n, n ∈ nonOnCircleNodes gm -> is_Some (ciseNodeToCoseNode tb !! n)) ->
  pairsOk tb ->
  exists tb', addCoSEEdge gm tb e = Some tb' /\
              ciseNodeToCoseNode tb' = ciseNodeToCoseNode tb /\ pairsOk tb'.
Proof.
  intros HS He Hmap (Hsym & Hbound & Hlen).
  destruct (st_edges _ HS e He) as (s & t & Hs & Ht & Hos & Hot).
  destruct (reducedEnd_steady gm _ s HS Hs Hos) as (rs & Hrs & Hrsn).
  destruct (reducedEnd_steady gm _ t HS Ht Hot) as (rt & Hrt & Hrtn).
  destruct (Hmap rs Hrsn) as [si Hsi]. destruct (Hmap rt Hrtn) as [ti Hti].
  unfold addCoSEEdge. rewrite Hrs, Hrt. simpl. rewrite Hsi, Hti.
  destruct (decide (Some si = Some ti)) as [|Hne]; [by exists tb|].
  simpl.
  destruct (nodePairs tb !! (si, ti)) as [v|] eqn:E1.
  - simpl. destruct (lookup_lt_is_Some_2 (coseEdgeToCiseEdges tb) v) as [l Hl];
      [by eapply Hbound|].
    rewrite Hl. simpl. eexists. split; [done|]. split; [done|].
    split; [|split]; simpl; [done| |by rewrite length_alter].
    intros p w Hw. rewrite length_alter. by eapply Hbound.
  - assert (nodePairs tb !! (ti, si) = None) as -> by (by apply Hsym).
    eexists. split; [done|]. split; [done|]. split; [|split]; simpl.
    + intros a b.
      rewrite !lookup_insert_None. split.
      * intros ((Hx & Hy) & Hz). split; [split|].
        -- by apply Hsym.
        -- intros [= -> ->]. by apply Hz.
        -- intros [= -> ->]. by apply Hy.
      * intros ((Hx & Hy) & Hz). split; [split|].
        -- by apply Hsym.
        -- intros [= -> ->]. by apply Hz.
        -- intros [= -> ->]. by apply Hy.
    + intros p w. rewrite length_app. simpl.
      intros [[_ <-]|[_ [[_ <-]|[_ Hw]]%lookup_insert_Some]]%lookup_insert_Some.
      * lia.
      * lia.
      * specialize (Hbound p w Hw). lia.
    + rewrite !length_app. simpl. lia.
Qed.

(** The reduced graph can be built for a steady graph manager. *)
Lemma buildReducedGraph_succeeds gm :
  Steady gm ->
  exists tb, buildReducedGraph gm = Some (tb, (getAllEdges gm).2) /\
    forall n, n ∈ nonOnCircleNodes gm -> is_Some (ciseNodeToCoseNode tb !! n).
Proof.
  intros HS. unfold buildReducedGraph.
  destruct (forEachM_succeeds
              (fun pre tb =>
                 (forall n, n ∈ pre -> is_Some (ciseNodeToCoseNode tb !! n)) /\
                 nodePairs tb = ∅ /\ coseEdgeToCiseEdges tb = [] /\
                 newCoSEEdges tb = [])
              (addCoSENode (heap gm)) (nonOnCircleNodes gm) emptyStep2Tables)
    as (tb0 & -> & Hmap & Hp & Hc & He0).
  - split; [by intros n ?%elem_of_nil|done].
  - intros pre n suf tb Hl (Hmap & Hp & Hc & He0).
    assert (n ∈ nonOnCircleNodes gm) as Hn
      by (rewrite Hl; apply elem_of_app; right; by left).
    apply (st_non _ HS) in Hn as (nd & Hnd & _).
    unfold addCoSENode. rewrite Hnd. simpl.
    destruct (child nd); simpl; (eexists; split; [done|]); simpl;
      (split; [|done]); intros x [Hx| ->%list_elem_of_singleton]%elem_of_app;
      apply hashMapPut_is_Some; auto.
  - simpl.
    pose proof (sameShape_getAllEdges gm) as HS0.
    pose proof (Steady_shape _ _ HS HS0) as HSt.
    assert ((getAllEdges (getAllEdges gm).2).1 = (getAllEdges gm).1) as Ea
      by (by destruct HS0 as (_ & _ & _ & _ & _ & ? & _)).
    assert (nonOnCircleNodes (getAllEdges gm).2 = nonOnCircleNodes gm) as Enon
      by (by destruct HS0 as (_ & _ & _ & _ & ? & _)).
    destruct (getAllEdges gm) as [allEdges_ gm0]. simpl in *.
    destruct (forEachM_succeeds
                (fun _ tb => ciseNodeToCoseNode tb = ciseNodeToCoseNode tb0 /\
                             pairsOk tb)
                (addCoSEEdge gm0) allEdges_ tb0) as (tb1 & -> & Hm1 & _).
    + split; [done|]. split; [|split].
      * intros si ti. by rewrite Hp, !lookup_empty.
      * intros p v. by rewrite Hp, lookup_empty.
      * by rewrite He0, Hc.
    + intros pre e suf tb Hl [Hm Hok].
      destruct (addCoSEEdge_succeeds gm0 tb e HSt) as (tb' & Htb' & Hm' & Hok').
      * rewrite Ea, Hl. apply elem_of_app. right. by left.
      * intros n Hn. rewrite Hm. apply Hmap. by rewrite <- Enon.
      * done.
      * exists tb'. split; [done|]. split; [congruence|done].
    + simpl. exists tb1. split; [done|]. intros n Hn. rewrite Hm1. by apply Hmap.
Qed.

(** The placement step returns on a steady graph manager, and leaves it
    steady. *)
Lemma doStep2_succeeds ly :
  Steady (graphManager ly) ->
  exists ly', doStep2 runCoSE ly = Some ly' /\ Steady (graphManager ly').
Proof.
  intros HS.
  assert (is_Some (doStep2 runCoSE ly)) as [ly' Hly'].
  2:{ exists ly'. split; [done|]. eapply Steady_shape; [exact HS|].
      by apply doStep2_shape. }
  unfold doStep2.
  destruct (buildReducedGraph_succeeds _ HS) as (tb & -> & Hmap). simpl.
  pose proof (sameShape_getAllEdges (graphManager ly)) as HS0.
  pose proof (Steady_shape _ _ HS HS0) as HSt.
  assert (nonOnCircleNodes (getAllEdges (graphManager ly)).2
          = nonOnCircleNodes (graphManager ly)) as Enon
    by (by destruct HS0 as (_ & _ & _ & _ & ? & _)).
  set (gm1 := (getAllEdges (graphManager ly)).2) in *.
  destruct (forEachM_succeeds (fun _ g => sameShape gm1 g)
              (placeNonOnCircleNode runCoSE tb) (nonOnCircleNodes gm1) gm1)
    as (gm2 & -> & HS2); [apply sameShape_refl| |].
  { intros pre n suf g Hl Hg.
    assert (n ∈ nonOnCircleNodes gm1) as Hn
      by (rewrite Hl; apply elem_of_app; right; by left).
    rewrite Enon in Hn. destruct (Hmap n Hn) as [i Hi].
    unfold placeNonOnCircleNode. rewrite Hi. simpl. eexists. split; [done|].
    eapply sameShape_trans; [exact Hg|].
    apply sameShape_updNode. intros nd _. reflexivity. }
  simpl.
  pose proof (Steady_shape _ _ HSt HS2) as HS2t.
  destruct (forEachM_succeeds (fun _ g => sameShape gm2 g)
              placeOnCircleNode (gmOnCircleNodes gm2) gm2)
    as (gm3 & -> & HS3); [apply sameShape_refl| |by eexists].
  intros pre n suf g Hl Hg.
  assert (n ∈ gmOnCircleNodes gm2) as Hn
    by (rewrite Hl; apply elem_of_app; right; by left).
  pose proof (Steady_shape _ _ HS2t Hg) as HSg.
  assert (n ∈ gmOnCircleNodes g) as Hng
    by (destruct Hg as (_ & _ & _ & -> & _); done).
  apply (st_on _ HSg) in Hng as (nd & k & Hnd & Ho).
  destruct (st_owner _ HSg n nd k Hnd Ho) as (c & Hc & _).
  destruct (st_parent _ HSg k c Hc) as (p & pn & Hp & Hpn & _).
  assert (exists g', placeOnCircleNode g n = Some g') as [g' Hg'].
  { unfold placeOnCircleNode. rewrite Hnd. simpl. rewrite Ho. simpl.
    rewrite Hc. simpl. rewrite Hp. simpl. rewrite Hpn. simpl. eauto. }
  exists g'. split; [done|]. eapply sameShape_trans; [exact Hg|].
  by eapply placeOnCircleNode_shape.
Qed.

End Step2Returns.

(** ** Reversal preparation keeps the shape and returns *)

Lemma prepareCircle_shape gm n gm' :
  prepareCircle gm n = Some gm' -> sameShape gm gm'.
Proof.
  unfold prepareCircle. intros H.
  apply bind_Some in H as (nd & Hnd & H).
  destruct (child nd) as [[|k]|]; [done| |injection H as <-; apply sameShape_refl].
  apply bind_Some in H as (c & Hc & H).
  apply bind_Some in H as ([l c1] & Hget & H).
  apply bind_Some in H as (c2 & Hcom & H). injection H as <-.
  apply sameShape_setCircles.
  apply getInterClusterEdges_Some in Hget as (_ & _ & Hc1).
  apply computeOrderMatrix_Some in Hcom as [mx ->].
  apply Forall2_same_length_lookup. split; [by rewrite length_insert|].
  intros i x y Hx Hy. destruct (decide (i = k)) as [->|Hne].
  - rewrite list_lookup_insert_eq in Hy by (by eapply lookup_lt_Some).
    injection Hy as <-. rewrite Hc in Hx. injection Hx as <-.
    destruct (length l <? 2)%nat, Hc1 as [->| ->]; by repeat split.
  - rewrite list_lookup_insert_ne in Hy by done.
    rewrite Hx in Hy. injection Hy as <-. apply circleShape_refl.
Qed.

Lemma prepareCirclesForReversal_shape gm gm' :
  prepareCirclesForReversal gm = Some gm' -> sameShape gm gm'.
Proof.
  unfold prepareCirclesForReversal. intros H.
  apply (forEachM_run_inv (fun g => sameShape gm g) _ _ _ _ H);
    [apply sameShape_refl|].
  intros g n g' _ Hg Hstep. eapply sameShape_trans; [exact Hg|].
  by eapply prepareCircle_shape.
Qed.

Lemma getInterClusterEdges_succeeds h c :
  (forall n, n ∈ outNodes c ->
     exists nd, h !! n = Some nd /\ is_Some (onCircleNodeExt nd)) ->
  exists l c', getInterClusterEdges h c = Some (l, c') /\
               onCircleNodes c' = onCircleNodes c.
Proof.
  intros Hout. unfold getInterClusterEdges.
  destruct (interClusterEdges c) as [l|]; [by exists l, c|].
  destruct (forEachM_succeeds (fun _ _ => True) (collectInterClusterEdges h)
              (outNodes c) []) as (l & -> & _); [done| |].
  - intros pre n suf acc Hl _.
    destruct (Hout n) as (nd & Hnd & [ext Hext]).
    { rewrite Hl. apply elem_of_app. right. by left. }
    unfold collectInterClusterEdges. rewrite Hnd. simpl. rewrite Hext. simpl.
    eauto.
  - simpl. by eexists _, _.
Qed.

(** One turn of the reversal preparation returns on a steady graph manager. *)
Lemma prepareCircle_succeeds gm n :
  Steady gm -> n ∈ nodes (rootGraph gm) -> is_Some (prepareCircle gm n).
Proof.
  intros HS Hn. rewrite (st_root _ HS) in Hn.
  apply (st_non _ HS) in Hn as (nd & Hnd & Ho).
  unfold prepareCircle. rewrite Hnd. simpl.
  pose proof (st_nodes _ HS n nd Hnd) as Hok. unfold nodeOk in Hok.
  rewrite Ho in Hok. destruct Hok as [_ Hok].
  destruct (child nd) as [[|k]|] eqn:Hch; [done| |by eexists].
  destruct (st_child _ HS n nd k Hnd Hch) as [c Hc]. rewrite Hc. simpl.
  destruct (st_circle_nodes _ HS k c Hc) as (_ & Hown & Hio).
  assert (forall x, x ∈ onCircleNodes c ->
            exists xd, heap gm !! x = Some xd /\ is_Some (onCircleNodeExt xd))
    as Hext.
  { intros x Hx. destruct (Hown x Hx) as (xd & Hxd & Hox).
    pose proof (st_nodes _ HS x xd Hxd) as Hokx. unfold nodeOk in Hokx.
    rewrite Hox in Hokx. destruct Hokx as (_ & _ & ? & _). by exists xd. }
  destruct (getInterClusterEdges_succeeds (heap gm) c) as (l & c1 & -> & Hon).
  { intros x Hx. apply Hext. rewrite <- Hio. apply elem_of_app. by right. }
  simpl.
  set (c2 := if (length l <? 2)%nat then setMayNotBeReversed c1 else c1).
  assert (onCircleNodes c2 = onCircleNodes c) as Hon2
    by (unfold c2; by destruct (length l <? 2)%nat).
  destruct (proj2 (computeOrderMatrix_is_Some (heap gm) c2)) as [c3 ->];
    [|by eexists].
  right. intros i Hi. unfold getAngleAt. rewrite Hon2 in *.
  destruct (lookup_lt_is_Some_2 _ _ Hi) as [x Hx]. rewrite Hx. simpl.
  destruct (Hext x) as (xd & -> & [ext Hxe]); [by eapply list_elem_of_lookup_2|].
  simpl. rewrite Hxe. by eexists.
Qed.

(** The reversal preparation returns on a steady graph manager, and leaves
    it steady. *)
Lemma prepareCirclesForReversal_succeeds gm :
  Steady gm ->
  exists gm', prepareCirclesForReversal gm = Some gm' /\ Steady gm'.
Proof.
  intros HS.
  assert (is_Some (prepareCirclesForReversal gm)) as [gm' Hgm'].
  2:{ exists gm'. split; [done|]. eapply Steady_shape; [exact HS|].
      by apply prepareCirclesForReversal_shape. }
  unfold prepareCirclesForReversal.
  destruct (forEachM_succeeds (fun _ g => sameShape gm g) prepareCircle
              (nodes (rootGraph gm)) gm) as (gm' & -> & _);
    [apply sameShape_refl| |by eexists].
  intros pre n suf g Hl Hg.
  pose proof (Steady_shape _ _ HS Hg) as HSg.
  destruct (prepareCircle_succeeds g n HSg) as [g' Hg'].
  { destruct Hg as (_ & -> & _). rewrite Hl. apply elem_of_app. right. by left. }
  exists g'. split; [done|]. eapply sameShape_trans; [exact Hg|].
  by eapply prepareCircle_shape.
Qed.

(** ** The construction leaves a steady graph manager *)

(** A child is a circle that exists. *)
Definition ChildOk (gm : CiSEGraphManager) : Prop :=
  forall n nd k, heap gm !! n = Some nd -> child nd = Some (CircleGraph k) ->
                 (k < length (circles gm))%nat.

Lemma ChildOk_snoc gm gm' nd :
  ChildOk gm -> child nd = None -> heap gm' = heap gm ++ [nd] ->
  length (circles gm') = length (circles gm) -> ChildOk gm'.
Proof.
  intros Hc Hnd Hh Hl n nd0 k. rewrite Hh, Hl.
  intros [[_ ?]|[_ <-]]%lookup_snoc_Some; [by eapply Hc|congruence].
Qed.

Lemma clusters_ChildOk tbl clusters st' :
  forEachM (addCluster tbl) (imap (fun i c => (i, c)) clusters)
           (newGraphManager, ∅) = Some st' ->
  ChildOk st'.1.
Proof.
  intros Hrun.
  apply (forEachM_run_inv (fun st => ChildOk st.1) _ _ _ _ Hrun).
  - intros [|n] nd k; simpl; [|done]. by intros [= <-].
  - intros [gm m] [i ids] st1 _ Hn Hstep. simpl in Hn.
    rewrite addCluster_unfold in Hstep.
    apply (forEachM_run_inv (fun st => ChildOk st.1) _ _ _ _ Hstep).
    + simpl. intros n nd k. simpl. rewrite length_app. simpl.
      intros [[_ Hl]|[_ <-]]%lookup_snoc_Some.
      * intros Hk. specialize (Hn n nd k Hl Hk). lia.
      * simpl. intros [= <-]. lia.
    + intros [g m0] a st2 _ Hg Hmem. simpl in Hg.
      apply addClusterMember_Some in Hmem as (cy & _ & ->). simpl.
      eapply (ChildOk_snoc g); [done| |reflexivity|]; [done|].
      simpl. by rewrite length_alter.
Qed.

Lemma unclustered_ChildOk clusters l gm m :
  ChildOk gm -> ChildOk (foldl (addUnclustered clusters) (gm, m) l).1.
Proof.
  revert gm m. induction l as [|cy l IH]; intros gm m Hn; simpl; [done|].
  rewrite addUnclustered_unfold. destruct (existsb _ _); [by apply IH|].
  apply IH. eapply (ChildOk_snoc gm); [done| |reflexivity|done]. done.
Qed.

Lemma convertToClusteredGraph_ChildOk nodes_ edges_ clusters gm m :
  convertToClusteredGraph newGraphManager nodes_ edges_ clusters = Some (gm, m) ->
  ChildOk gm.
Proof.
  intros H.
  apply convertToClusteredGraph_stages in H
    as (gm1 & m1 & gm2 & gm3 & H1 & H2 & _ & _ & Ev).
  pose proof (clusters_ChildOk _ _ _ H1) as HC1.
  pose proof (unclustered_ChildOk clusters nodes_ gm1 m1 HC1) as HC2.
  rewrite H2 in HC2. simpl in *.
  unfold nodeView in Ev. injection Ev as Eh _ Ec.
  intros n nd k Hl Hch.
  destruct (erased_lookup _ _ n nd (eq_sym Eh) Hl) as (nd2 & Hl2 & Ee).
  apply eraseEdges_fields in Ee as (_ & _ & _ & _ & E5 & _).
  apply (f_equal length) in Ec. rewrite !length_fmap in Ec. rewrite Ec.
  apply (HC2 n nd2 k Hl2). congruence.
Qed.

(** The construction leaves a steady graph manager. *)
Lemma convertToClusteredGraph_Steady nodes_ edges_ clusters gm m :
  convertToClusteredGraph newGraphManager nodes_ edges_ clusters = Some (gm, m) ->
  Steady gm.
Proof.
  intros H.
  pose proof (convertToClusteredGraph_Built _ _ _ _ _ H)
    as (HB & Hio & _ & Hmemo & made & Hmade & Hperm & _).
  pose proof (convertToClusteredGraph_Linked _ _ _ _ _ H) as HL.
  pose proof (convertToClusteredGraph_Populated _ _ _ _ _ H) as [HP _].
  pose proof (convertToClusteredGraph_node_lists _ _ _ _ _ H) as (Eon & Enon & _).
  pose proof (convertToClusteredGraph_nodeListsSplit _ _ _ _ _ H) as (Hnd & _).
  pose proof (convertToClusteredGraph_ChildOk _ _ _ _ _ H) as HC.
  assert (forall n nd k, heap gm !! n = Some nd ->
            owner nd = Some (CircleGraph k) ->
            exists c, circles gm !! k = Some c /\ n ∈ onCircleNodes c) as Hown.
  { intros n nd k Hl Ho.
    destruct (linked_circle _ HL n nd k Hl Ho) as (c & Hc & Hin).
    exists c. split; [done|]. by rewrite <- (linked_nodes _ HL k c Hc). }
  split.
  - apply (built_nodes _ _ HB).
  - intros k c Hk. destruct (built_circles _ _ HB k c Hk) as [Hnodup Hin].
    destruct (Hio k c Hk) as [Hperm' _]. done.
  - intros k c Hk.
    destruct (linked_parent _ HL k c Hk) as (p & pn & ? & ? & ? & ? & _).
    by exists p, pn.
  - done.
  - intros n nd k Hl Hch. apply lookup_lt_is_Some. by eapply HC.
  - intros n. rewrite Eon, elem_of_concat. split.
    + intros (l & Hn & Hl). apply list_elem_of_fmap in Hl as (c & -> & Hc).
      apply list_elem_of_lookup in Hc as [k Hk].
      destruct (built_circles _ _ HB k c Hk) as [_ Hin].
      destruct (Hin n Hn) as (nd & ? & ?). by exists nd, k.
    + intros (nd & k & Hl & Ho). destruct (Hown n nd k Hl Ho) as (c & Hc & Hin).
      exists (onCircleNodes c). split; [done|].
      apply list_elem_of_fmap. exists c. split; [done|].
      by eapply list_elem_of_lookup_2.
  - intros n. rewrite Enon. split.
    + intros Hn. destruct (pop_root _ _ _ _ HP n Hn) as (nd & ? & ? & _).
      by exists nd.
    + intros (nd & Hl & Ho). by eapply (linked_root _ HL).
  - done.
  - done.
  - intros e. unfold getAllEdges. rewrite Hmemo. simpl.
    change (edges (rootGraph gm) ++ concat ((edges ∘ base) <$> circles gm)
              ++ gmEdges gm) with (allEdgesOf gm).
    rewrite Hperm. intros (o & Ho & Hoe)%list_elem_of_omap. simpl in Hoe.
    subst o. apply list_elem_of_lookup in Ho as [i Hi].
    destruct (Forall2_lookup_r _ _ _ _ _ Hmade Hi) as (ce & _ & Hce).
    unfold newCiseEdge in Hce. rewrite !entryOf_tableGet in Hce.
    apply bind_Some in Hce as (sn & Hsn & Hce).
    apply bind_Some in Hce as (tn & Htn & Hce).
    apply bind_Some in Hce as (s & Hs & Hce).
    apply bind_Some in Hce as (t & Ht & Hce).
    destruct (decide (sn = tn)); [done|]. injection Hce as <-. simpl.
    exists s, t. split; [done|]. split; [done|].
    destruct (built_map _ _ HB _ _ Hsn) as (s' & Hs' & Hids).
    destruct (built_map _ _ HB _ _ Htn) as (t' & Ht' & Hidt).
    rewrite Hs in Hs'. rewrite Ht in Ht'. injection Hs' as <-. injection Ht' as <-.
    split.
    + destruct (nodeOk_with_ID s (built_nodes _ _ HB _ _ Hs) Hids)
        as [[-> _]|(? & -> & _)]; by eexists.
    + destruct (nodeOk_with_ID t (built_nodes _ _ HB _ _ Ht) Hidt)
        as [[-> _]|(? & -> & _)]; by eexists.
Qed.

(** ** The steps after the construction *)

Section Pipeline.

Variable runAVSDF : list DelegateNode -> list (nat * nat) -> AVSDFResult.
Variable runCoSE : list DelegateNode -> list (nat * nat) -> nat -> PointD.

Lemma step_shape ly op ly' :
  isStep op = true -> runOp runAVSDF runCoSE ly op = Some ly' ->
  sameShape (graphManager ly) (graphManager ly').
Proof.
  destruct op; try done; intros _ H; simpl in H.
  - by eapply doStep1_shape.
  - by eapply doStep2_shape.
  - apply fmap_Some in H as (gm' & Hp & ->). simpl.
    by apply prepareCirclesForReversal_shape.
Qed.

Lemma steps_shape ops ly ly' :
  Forall (fun op => isStep op = true) ops ->
  runOps runAVSDF runCoSE ops ly = Some ly' ->
  sameShape (graphManager ly) (graphManager ly').
Proof.
  intros Hops H. unfold runOps in H.
  apply (forEachM_run_inv
           (fun l => sameShape (graphManager ly) (graphManager l)) _ _ _ _ H);
    [apply sameShape_refl|].
  intros l op l' Hop Hl Hstep. eapply sameShape_trans; [exact Hl|].
  eapply step_shape; [|exact Hstep].
  by apply (proj1 (Forall_forall _ _) Hops).
Qed.

Lemma step_succeeds ly op :
  isStep op = true -> Steady (graphManager ly) ->
  exists ly', runOp runAVSDF runCoSE ly op = Some ly' /\
              Steady (graphManager ly').
Proof.
  destruct op; try done; intros _ HS; simpl.
  - by apply doStep1_succeeds.
  - by apply doStep2_succeeds.
  - destruct (prepareCirclesForReversal_succeeds _ HS) as (gm' & -> & HS').
    simpl. by eexists.
Qed.

Lemma steps_succeed ops ly :
  Forall (fun op => isStep op = true) ops -> Steady (graphManager ly) ->
  exists ly', runOps runAVSDF runCoSE ops ly = Some ly' /\
              Steady (graphManager ly').
Proof.
  intros Hops. revert ly. induction Hops as [|op ops Hop _ IH]; intros ly HS.
  - by exists ly.
  - destruct (step_succeeds ly op Hop HS) as (ly1 & H1 & HS1).
    destruct (IH ly1 HS1) as (ly' & H' & HS').
    exists ly'. split; [|done]. unfold runOps in *. simpl. by rewrite H1.
Qed.

End Pipeline.

(** ** The order of the on-circle nodes after the circular layout step *)

Lemma insertByIndex_sorted x l :
  Sorted Z.le l.*2 -> Sorted Z.le (insertByIndex x l).*2.
Proof.
  induction l as [|y l IH]; intros Hs; simpl.
  - repeat constructor.
  - rewrite fmap_cons in Hs. apply Sorted_inv in Hs as [Hs Hhd].
    destruct (y.2 <? x.2)%Z eqn:E.
    + rewrite fmap_cons. constructor; [by apply IH|].
      apply Z.ltb_lt in E.
      destruct l as [|z l]; simpl.
      * constructor. lia.
      * destruct (z.2 <? x.2)%Z; rewrite fmap_cons; constructor; [|lia].
        by apply HdRel_inv in Hhd.
    + apply Z.ltb_ge in E. rewrite !fmap_cons.
      constructor; [|by constructor].
      by constructor.
Qed.

Lemma sortByIndex_sorted l : Sorted Z.le (sortByIndex l).*2.
Proof.
  induction l as [|x l IH]; [constructor|].
  unfold sortByIndex in *. simpl. by apply insertByIndex_sorted.
Qed.

Lemma indicesAscend_ext h h' l :
  (forall n, n ∈ l -> extOf h' n = extOf h n) ->
  indicesAscend h l -> indicesAscend h' l.
Proof.
  intros Hx (keys & Hk & Hs). exists keys. split; [|done].
  rewrite <- Hk. apply Forall_mapM_ext, Forall_forall. intros n Hn.
  by rewrite (Hx n Hn).
Qed.

Lemma mapM_keyed {A B : Type} (f : A -> option B) (l : list (A * B)) :
  Forall (fun p => f p.1 = Some p.2) l -> mapM f l.*1 = Some l.*2.
Proof.
  intros H. apply mapM_Some_2. induction H; simpl; constructor; auto.
Qed.

Lemma extOf_alter (f : CiSENode -> CiSENode) (p : nat) (h : list CiSENode) n :
  (forall nd, onCircleNodeExt (f nd) = onCircleNodeExt nd) ->
  extOf (alter f p h) n = extOf h n.
Proof.
  intros Hf. unfold extOf. destruct (decide (n = p)) as [->|Hne].
  - rewrite list_lookup_alter_eq. destruct (h !! p); simpl; [apply Hf|done].
  - by rewrite list_lookup_alter_ne.
Qed.

Section StepOrder.

Variable runAVSDF : list DelegateNode -> list (nat * nat) -> AVSDFResult.

(** The circular layout of the circle at [k] leaves the other circles and
    the extensions of the nodes outside the circle as they are, and the
    on-circle nodes of the circle in ascending order of their indices. *)
Lemma step1Circle_order st k st' graph :
  step1Circle runAVSDF st k = Some st' ->
  circles (s1Manager st) !! k = Some graph ->
  (forall k', k' ≠ k ->
     circles (s1Manager st') !! k' = circles (s1Manager st) !! k') /\
  (forall n, n ∉ onCircleNodes graph ->
     extOf (heap (s1Manager st')) n = extOf (heap (s1Manager st)) n) /\
  exists c', circles (s1Manager st') !! k = Some c' /\
             indicesAscend (heap (s1Manager st')) (onCircleNodes c').
Proof.
  unfold step1Circle. intros H Hgraph. rewrite Hgraph in H. simpl in H.
  apply bind_Some in H as (avsdfNodes & _ & H).
  destruct (getAllEdges_frame (s1Manager st)) as (Hh0 & Hc0 & _).
  destruct (getAllEdges (s1Manager st)) as [allEdges_ gm0]. simpl in Hh0, Hc0.
  apply bind_Some in H as (avsdfEdges & _ & H).
  apply bind_Some in H as (gm1 & H1 & H).
  apply bind_Some in H as (keyed & Hkeyed & H).
  apply bind_Some in H as (gm2 & H2 & H). injection H as <-. simpl.
  assert (circles gm1 = circles gm0 /\
          forall n, n ∉ onCircleNodes graph -> heap gm1 !! n = heap gm0 !! n)
    as [Hc1 Hh1].
  { apply (forEachM_run_inv
             (fun g => circles g = circles gm0 /\
                       forall n, n ∉ onCircleNodes graph ->
                                 heap g !! n = heap gm0 !! n) _ _ _ _ H1);
      [done|].
    intros g n' g' Hn' [Hcg Hhg] Hstep. unfold reflectAVSDF in Hstep.
    apply bind_Some in Hstep as (v & _ & Hstep).
    apply bind_Some in Hstep as (r & _ & Hstep).
    apply bind_Some in Hstep as (nd & _ & Hstep).
    apply bind_Some in Hstep as (ext & _ & Hstep). injection Hstep as <-.
    split; [done|]. intros n Hn. simpl.
    rewrite list_lookup_alter_ne by (intros ->; done). by apply Hhg. }
  assert (Forall (fun p => orderIndex <$> extOf (heap gm1) p.1 = Some p.2)
                 (sortByIndex keyed)) as Hkeys.
  { rewrite sortByIndex_perm. apply mapM_Some_1 in Hkeyed.
    clear -Hkeyed. induction Hkeyed as [|n y l k Hy _ IH]; constructor; [|done].
    apply bind_Some in Hy as (nd & Hnd & Hy).
    apply bind_Some in Hy as (ext & Hext & Hy). injection Hy as <-. simpl.
    unfold extOf. rewrite Hnd. simpl. by rewrite Hext. }
  assert (exists h2 cs2,
            heap gm2 = h2 /\ circles gm2 = cs2 /\
            (forall n, extOf h2 n = extOf (heap gm1) n) /\
            (forall k', k' ≠ k -> cs2 !! k' = circles gm1 !! k') /\
            exists c', cs2 !! k = Some c' /\
                       onCircleNodes c' = (sortByIndex keyed).*1)
    as (h2 & cs2 & <- & <- & Hx2 & Hk2 & c' & Hc' & Hon').
  { destruct (0 <? length (onCircleNodes graph))%nat.
    - apply bind_Some in H2 as (p & _ & H2).
      unfold calculateParentNodeDimension in H2.
      apply bind_Some in H2 as (c & _ & H2).
      apply bind_Some in H2 as (mx & _ & H2).
      apply bind_Some in H2 as (p' & _ & H2). injection H2 as <-.
      eexists _, _. split; [reflexivity|]. split; [reflexivity|]. simpl.
      split; [|split].
      + intros n. by rewrite !extOf_alter.
      + intros k' Hk'. by rewrite !list_lookup_alter_ne.
      + rewrite !list_lookup_alter_eq, Hc1, Hc0, Hgraph. simpl.
        by eexists.
    - injection H2 as <-. eexists _, _. split; [reflexivity|].
      split; [reflexivity|]. simpl. split; [done|]. split.
      + intros k' Hk'. by rewrite list_lookup_alter_ne.
      + rewrite list_lookup_alter_eq, Hc1, Hc0, Hgraph. simpl. by eexists. }
  split; [|split].
  - intros k' Hk'. rewrite (Hk2 k' Hk'). by rewrite Hc1, Hc0.
  - intros n Hn. rewrite Hx2. unfold extOf. by rewrite (Hh1 n Hn), Hh0.
  - exists c'. split; [done|]. rewrite Hon'.
    exists (sortByIndex keyed).*2. split; [|apply sortByIndex_sorted].
    apply mapM_keyed. eapply Forall_impl; [exact Hkeys|].
    intros p Hp. simpl. by rewrite Hx2.
Qed.

(** After the circular layout step the on-circle nodes of every circle are
    in ascending order of their circular indices. *)
Lemma doStep1_order ly ly' :
  Steady (graphManager ly) ->
  doStep1 runAVSDF ly = Some ly' ->
  forall k c', circles (graphManager ly') !! k = Some c' ->
    indicesAscend (heap (graphManager ly')) (onCircleNodes c').
Proof.
  intros HS H. unfold doStep1 in H. apply bind_Some in H as (st & H & E).
  injection E as <-. simpl.
  assert (sameShape (graphManager ly) (s1Manager st) /\
          forall k, k ∈ seq 0 (length (circles (graphManager ly))) ->
            forall c, circles (s1Manager st) !! k = Some c ->
              indicesAscend (heap (s1Manager st)) (onCircleNodes c))
    as [Hshape Hall].
  { refine (forEachM_inv_prefix
              (fun pre s =>
                 sameShape (graphManager ly) (s1Manager s) /\
                 forall k, k ∈ pre ->
                   forall c, circles (s1Manager s) !! k = Some c ->
                     indicesAscend (heap (s1Manager s)) (onCircleNodes c))
              (step1Circle runAVSDF) _ _ _ _ _ H).
    - intros pre k suf s s' Hl [Hs Hpre] Hstep.
      pose proof (Steady_shape _ _ HS Hs) as HSs.
      assert (is_Some (circles (s1Manager s) !! k)) as [graph Hgraph].
      { unfold step1Circle in Hstep.
        apply bind_Some in Hstep as (g & ? & _). by exists g. }
      destruct (step1Circle_order _ _ _ _ Hstep Hgraph)
        as (Hother & Hext & c' & Hc' & Hasc).
      split; [eapply sameShape_trans; [exact Hs|]; by eapply step1Circle_shape|].
      intros k0 [Hk0| ->%list_elem_of_singleton]%elem_of_app c0 Hc0.
      + assert (k0 ≠ k) as Hne.
        { intros ->. pose proof (NoDup_seq 0 (length (circles (graphManager ly))))
            as Hnd. rewrite Hl in Hnd. apply NoDup_app in Hnd as (_ & Hnd & _).
          apply (Hnd k Hk0). by left. }
        rewrite (Hother k0 Hne) in Hc0.
        eapply indicesAscend_ext; [|by eapply Hpre].
        intros n Hn. apply Hext. intros Hin.
        destruct (st_circle_nodes _ HSs k0 c0 Hc0) as (_ & Hown0 & _).
        destruct (st_circle_nodes _ HSs k graph Hgraph) as (_ & Hown & _).
        destruct (Hown0 n Hn) as (nd0 & Hl0 & Ho0).
        destruct (Hown n Hin) as (nd1 & Hl1 & Ho1). congruence.
      + rewrite Hc' in Hc0. by injection Hc0 as <-.
    - split; [apply sameShape_refl|]. by intros k ?%elem_of_nil. }
  intros k c' Hk. apply (Hall k); [|done].
  apply elem_of_seq. apply lookup_lt_Some in Hk.
  destruct Hshape as (_ & _ & _ & _ & _ & _ & Hcs).
  apply Forall2_length in Hcs. lia.
Qed.

End StepOrder.

(** ** The steps on a constructed graph *)

(** X10: once [convertToClusteredGraph] has returned, [doStep1], [doStep2]
    and [prepareCirclesForReversal] return as well, in whatever order and
    however often they are called, and whatever the circular layout of the
    clusters and the spring embedder produce: none of them throws. *)
Theorem X10_steps_return_after_construction
  (runAVSDF : list DelegateNode -> list (nat * nat) -> AVSDFResult)
  (runCoSE : list DelegateNode -> list (nat * nat) -> nat -> PointD)
  (nodes_ : list CyNode) (edges_ : list CyEdge) (clusters : list (list string))
  (gm : CiSEGraphManager) (m : gmap string nat) (ops : list Op) :
  convertToClusteredGraph newGraphManager nodes_ edges_ clusters = Some (gm, m) ->
  Forall (fun op => isStep op = true) ops ->
  is_Some (runOps runAVSDF runCoSE
             (ConvertToClusteredGraph nodes_ edges_ clusters :: ops)
             (newCiSELayout newGraphManager)).
Proof.
  intros H Hops. unfold runOps. simpl. rewrite H. simpl.
  apply convertToClusteredGraph_Steady in H.
  destruct (steps_succeed runAVSDF runCoSE ops
              (withGraphManager (newCiSELayout newGraphManager) gm) Hops H)
    as (ly' & Hly' & _).
  by exists ly'.
Qed.

Lemma X10_steps_return_witness :
  is_Some (runOps Ex.avsdfInOrder Ex.coseOnARow
             (ConvertToClusteredGraph Ex.nodes1 Ex.edges1 Ex.clusters1
                :: [DoStep1; DoStep2; PrepareCirclesForReversal; DoStep1])
             (newCiSELayout newGraphManager)).
Proof.
  apply (X10_steps_return_after_construction Ex.avsdfInOrder Ex.coseOnARow
           Ex.nodes1 Ex.edges1 Ex.clusters1 Ex.state1.1 Ex.state1.2
           [DoStep1; DoStep2; PrepareCirclesForReversal; DoStep1]).
  - vm_compute. reflexivity.
  - repeat constructor.
Defined.

(** X11: [doStep1], [doStep2] and [prepareCirclesForReversal], in any
    sequence, leave of every node its id, cluster id, owner, child, incident
    edges and whether it is an on-circle node; they leave the root graph,
    the inter-graph edges, the two node lists of the graph manager and what
    [getAllEdges] returns; and they leave of every circle its graph (parent,
    nodes, edges, margin), its in-nodes and its out-nodes, while its on-circle
    nodes are at most reordered. *)
Theorem X11_steps_keep_the_graph
  (runAVSDF : list DelegateNode -> list (nat * nat) -> AVSDFResult)
  (runCoSE : list DelegateNode -> list (nat * nat) -> nat -> PointD)
  (ops : list Op) (ly ly' : CiSELayout) :
  Forall (fun op => isStep op = true) ops ->
  runOps runAVSDF runCoSE ops ly = Some ly' ->
  sameShape (graphManager ly) (graphManager ly').
Proof. apply steps_shape. Qed.

Lemma X11_steps_keep_the_graph_witness :
  sameShape (graphManager (Ex.lyOf Ex.built1)) (graphManager (Ex.lyOf Ex.placed1)).
Proof.
  apply (X11_steps_keep_the_graph Ex.avsdfInOrder Ex.coseOnARow
           [DoStep1; DoStep2] (Ex.lyOf Ex.built1) (Ex.lyOf Ex.placed1)).
  - repeat constructor.
  - vm_compute. reflexivity.
Defined.

(** X12: after [doStep1] on a constructed graph, the on-circle nodes of
    every circle are the ones it had, in ascending order of the circular
    indices the circular layout gave them. *)
Theorem X12_doStep1_orders_on_circle_nodes_by_index
  (runAVSDF : list DelegateNode -> list (nat * nat) -> AVSDFResult)
  (nodes_ : list CyNode) (edges_ : list CyEdge) (clusters : list (list string))
  (gm : CiSEGraphManager) (m : gmap string nat) (ly ly' : CiSELayout)
  (k : nat) (c c' : CiSECircle) :
  convertToClusteredGraph newGraphManager nodes_ edges_ clusters = Some (gm, m) ->
  graphManager ly = gm ->
  doStep1 runAVSDF ly = Some ly' ->
  circles gm !! k = Some c ->
  circles (graphManager ly') !! k = Some c' ->
  onCircleNodes c' ≡ₚ onCircleNodes c /\
  indicesAscend (heap (graphManager ly')) (onCircleNodes c').
Proof.
  intros H <- H1 Hc Hc'. split.
  - pose proof (doStep1_shape _ _ _ H1) as (_ & _ & _ & _ & _ & _ & Hcs).
    destruct (Forall2_lookup_l _ _ _ _ _ Hcs Hc) as (c2 & Hc2 & (_ & _ & _ & Hp)).
    rewrite Hc' in Hc2. by injection Hc2 as <-.
  - apply convertToClusteredGraph_Steady in H.
    by eapply doStep1_order.
Qed.

Lemma X12_doStep1_orders_witness :
  onCircleNodes (Ex.circleOf Ex.laidOut1 0) ≡ₚ onCircleNodes (Ex.circleOf Ex.built1 0) /\
  indicesAscend (heap (graphManager (Ex.lyOf Ex.laidOut1)))
                (onCircleNodes (Ex.circleOf Ex.laidOut1 0)).
Proof.
  apply (X12_doStep1_orders_on_circle_nodes_by_index Ex.avsdfInOrder
           Ex.nodes1 Ex.edges1 Ex.clusters1 Ex.state1.1 Ex.state1.2
           (Ex.lyOf Ex.built1) (Ex.lyOf Ex.laidOut1) 0).
  - vm_compute. reflexivity.
  - vm_compute. reflexivity.
  - vm_compute. reflexivity.
  - vm_compute. reflexivity.
  - vm_compute. reflexivity.
Defined.

(** ** The reduced graph of the placement step *)

Lemma indexOf_snoc x l a :
  indexOf x (l ++ [a]) =
  match indexOf x l with
  | Some i => Some i
  | None => if decide (a = x) then Some (length l) else None
  end.
Proof.
  unfold indexOf. induction l as [|y l IH]; simpl.
  - destruct (decide (a = x)); by simplify_option_eq.
  - destruct (decide (y = x)); [done|].
    destruct (list_find (fun y => y = x) (l ++ [a])) as [[i z]|] eqn:E1,
             (list_find (fun y => y = x) l) as [[i' z']|] eqn:E2;
      simpl in *; simplify_eq; try done.
    all: destruct (decide (a = x)); simplify_eq; done.
Qed.

(** The nodes of the reduced graph: one for each node outside the circles,
    in their order; a node is mapped to its first position among them. *)
Lemma addCoSENodes_tables h l tb :
  forEachM (addCoSENode h) l emptyStep2Tables = Some tb ->
  (forall n, ciseNodeToCoseNode tb !! n = indexOf n l) /\
  length (newCoSENodes tb) = length l /\
  newCoSEEdges tb = [] /\ nodePairs tb = ∅ /\ coseEdgeToCiseEdges tb = [].
Proof.
  intros Hrun.
  refine (forEachM_inv_prefix
            (fun pre tb =>
               (forall n, ciseNodeToCoseNode tb !! n = indexOf n pre) /\
               length (newCoSENodes tb) = length pre /\
               newCoSEEdges tb = [] /\ nodePairs tb = ∅ /\
               coseEdgeToCiseEdges tb = []) _ _ _ _ _ _ Hrun).
  - intros pre a suf s s' _ (Hm & Hlen & He & Hp & Hc) Hstep.
    unfold addCoSENode in Hstep.
    destruct (h !! a) as [nd|]; [simpl in Hstep|done].
    assert (ciseNodeToCoseNode s' = hashMapPut a (length pre) (ciseNodeToCoseNode s)
            /\ length (newCoSENodes s') = S (length pre)
            /\ newCoSEEdges s' = [] /\ nodePairs s' = ∅
            /\ coseEdgeToCiseEdges s' = []) as (Em & El & ? & ? & ?).
    { destruct (child nd); simplify_eq; simpl; rewrite length_app, Hlen; simpl;
        repeat split; try done; lia. }
    split; [|by rewrite length_app; simpl; repeat split; try done; lia].
    intros n. rewrite Em, indexOf_snoc, <- Hm. unfold hashMapPut.
    destruct (decide (a = n)) as [->|Hne].
    + destruct (ciseNodeToCoseNode s !! n) eqn:E; [done|].
      by rewrite lookup_insert_eq.
    + destruct (ciseNodeToCoseNode s !! a) eqn:E.
      * by destruct (ciseNodeToCoseNode s !! n).
      * rewrite lookup_insert_ne by done. by destruct (ciseNodeToCoseNode s !! n).
  - by repeat split.
Qed.

Lemma reducedEnd_getAllEdges gm n :
  reducedEnd (getAllEdges gm).2 n = reducedEnd gm n.
Proof. unfold getAllEdges. by destruct (allEdges gm). Qed.

Lemma joins_swap gm m si ti e : joins gm m si ti e <-> joins gm m ti si e.
Proof. unfold joins. tauto. Qed.

Lemma joins_same gm m si ti si' ti' e :
  joins gm m si ti e -> joins gm m si' ti' e ->
  (si' = si /\ ti' = ti) \/ (si' = ti /\ ti' = si).
Proof. unfold joins. intros [[? ?]|[? ?]] [[? ?]|[? ?]]; simplify_eq; auto. Qed.

Lemma joins_differ gm m si ti e :
  si ≠ ti -> joins gm m si ti e ->
  reducedIndex gm m (source e) ≠ reducedIndex gm m (target e).
Proof. unfold joins. intros ? [[? ?]|[? ?]]; congruence. Qed.

(** What one turn of the loop over the edges does. *)
Lemma addCoSEEdge_cases gm tb e tb' :
  addCoSEEdge gm tb e = Some tb' ->
  (reducedIndex gm (ciseNodeToCoseNode tb) (source e) =
     reducedIndex gm (ciseNodeToCoseNode tb) (target e) /\ tb' = tb) \/
  exists si ti,
    reducedIndex gm (ciseNodeToCoseNode tb) (source e) = Some si /\
    reducedIndex gm (ciseNodeToCoseNode tb) (target e) = Some ti /\ si ≠ ti /\
    ((nodePairs tb !! (si, ti) = None /\ nodePairs tb !! (ti, si) = None /\
      tb' = mkStep2Tables (newCoSENodes tb) (newCoSEEdges tb ++ [(si, ti)])
              (ciseNodeToCoseNode tb)
              (<[(ti, si) := length (newCoSEEdges tb)]>
                 (<[(si, ti) := length (newCoSEEdges tb)]> (nodePairs tb)))
              (coseEdgeToCiseEdges tb ++ [[e]])) \/
     (exists j, nodePairs tb !! (si, ti) = Some j /\
        is_Some (coseEdgeToCiseEdges tb !! j) /\
        tb' = mkStep2Tables (newCoSENodes tb) (newCoSEEdges tb)
                (ciseNodeToCoseNode tb) (nodePairs tb)
                (alter (fun l => l ++ [e]) j (coseEdgeToCiseEdges tb)))).
Proof.
  unfold addCoSEEdge, reducedIndex. intros H.
  destruct (reducedEnd gm (source e)) as [sc|]; [simpl in *|done].
  destruct (reducedEnd gm (target e)) as [tc|]; [simpl in *|done].
  case_decide as D; [left; by simplify_eq|]. right.
  destruct (sc ≫= _) as [si|]; [simpl in *|done].
  destruct (tc ≫= _) as [ti|]; [simpl in *|done].
  exists si, ti. split; [done|]. split; [done|]. split; [congruence|].
  destruct (nodePairs tb !! (si, ti)) as [j|] eqn:E1.
  - right. exists j. simpl in H.
    destruct (coseEdgeToCiseEdges tb !! j) eqn:E2; [simpl in H|done].
    by simplify_eq.
  - destruct (nodePairs tb !! (ti, si)) as [j|] eqn:E2; [done|].
    left. by simplify_eq.
Qed.

(** What holds of the tables after the edges [pre]. *)
Record edgesReduced (gm : CiSEGraphManager) (m : gmap nat nat)
  (pre : list CiSEEdge) (tb : Step2Tables) : Prop := mkEdgesReduced {
  er_map : ciseNodeToCoseNode tb = m;
  er_lengths : length (coseEdgeToCiseEdges tb) = length (newCoSEEdges tb);
  er_edge : forall j si ti, newCoSEEdges tb !! j = Some (si, ti) ->
    si ≠ ti /\ nodePairs tb !! (si, ti) = Some j /\
    nodePairs tb !! (ti, si) = Some j /\
    coseEdgeToCiseEdges tb !! j = Some (filter (joins gm m si ti) pre) /\
    filter (joins gm m si ti) pre ≠ [];
  er_pairs : forall a b j, nodePairs tb !! (a, b) = Some j ->
    newCoSEEdges tb !! j = Some (a, b) \/ newCoSEEdges tb !! j = Some (b, a);
  er_all : forall e, e ∈ pre ->
    reducedIndex gm m (source e) ≠ reducedIndex gm m (target e) ->
    exists j si ti, newCoSEEdges tb !! j = Some (si, ti) /\ joins gm m si ti e
}.

Lemma addCoSEEdge_reduced gm m pre tb e tb' :
  edgesReduced gm m pre tb -> addCoSEEdge gm tb e = Some tb' ->
  edgesReduced gm m (pre ++ [e]) tb'.
Proof.
  intros [Hm Hlen Hedge Hpairs Hall] Hstep.
  apply addCoSEEdge_cases in Hstep. rewrite Hm in Hstep.
  destruct Hstep as [[Heq ->]|(si0 & ti0 & Hs & Ht & Hne & Hcase)].
  - (* both ends on one reduced node: nothing is added *)
    split; try done.
    + intros j si ti Hj. destruct (Hedge j si ti Hj) as (? & ? & ? & Hl & Hnn).
      rewrite filter_snoc. rewrite decide_False.
      * by rewrite app_nil_r.
      * intros Hjn. by apply joins_differ in Hjn.
    + intros e' [He'| ->%list_elem_of_singleton]%elem_of_app Hd; [auto|done].
  - assert (joins gm m si0 ti0 e) as Hj0 by (by left).
    destruct Hcase as [(Hn1 & Hn2 & ->)|(j0 & Hp0 & Hl0 & ->)].
    + (* a new reduced edge *)
      assert (forall j si ti, newCoSEEdges tb !! j = Some (si, ti) ->
                ~ joins gm m si ti e) as Hold.
      { intros j si ti Hj Hjn.
        destruct (Hedge j si ti Hj) as (_ & Hp1 & Hp2 & _).
        destruct (joins_same _ _ _ _ _ _ _ Hj0 Hjn) as [[-> ->]|[-> ->]];
          congruence. }
      assert (filter (joins gm m si0 ti0) pre = []) as Hnone.
      { apply filter_none. intros e' He' Hj'.
        destruct (Hall e' He') as (j & si & ti & Hj & Hjn);
          [by eapply joins_differ|].
        destruct (Hedge j si ti Hj) as (_ & Hp1 & Hp2 & _).
        destruct (joins_same _ _ _ _ _ _ _ Hj' Hjn) as [[-> ->]|[-> ->]];
          congruence. }
      split; simpl.
      * done.
      * rewrite !length_app. simpl. lia.
      * intros j si ti Hj. apply lookup_app_Some in Hj as [Hj|[Hge Hj]].
        -- destruct (Hedge j si ti Hj) as (? & Hp1 & Hp2 & Hl & Hnn).
           split; [done|].
           assert ((si, ti) ≠ (si0, ti0)) by congruence.
           assert ((si, ti) ≠ (ti0, si0)) by congruence.
           assert ((ti, si) ≠ (si0, ti0)) by congruence.
           assert ((ti, si) ≠ (ti0, si0)) by congruence.
           rewrite !lookup_insert_ne by done.
           split; [done|]. split; [done|].
           rewrite filter_snoc, decide_False by eauto.
           rewrite app_nil_r. split; [|done].
           apply lookup_app_l_Some. done.
        -- destruct (j - length (newCoSEEdges tb)) as [|?] eqn:Ej; [|done].
           simpl in Hj. simplify_eq.
           assert (j = length (newCoSEEdges tb)) as -> by lia.
           split; [done|]. split.
           { destruct (decide ((si, ti) = (ti, si))) as [?|Hd];
               [congruence|].
             rewrite lookup_insert_ne by done. by rewrite lookup_insert_eq. }
           split; [by rewrite lookup_insert_eq|].
           rewrite filter_snoc, decide_True, Hnone by done. simpl.
           split; [|done].
           rewrite <- Hlen. by rewrite lookup_app_r, Nat.sub_diag.
      * intros a b j Hp.
        apply lookup_insert_Some in Hp as [[Ep <-]|[_ Hp]].
        { simplify_eq. right. by rewrite lookup_app_r, Nat.sub_diag. }
        apply lookup_insert_Some in Hp as [[Ep <-]|[_ Hp]].
        { simplify_eq. left. by rewrite lookup_app_r, Nat.sub_diag. }
        destruct (Hpairs a b j Hp) as [?|?]; [left|right];
          by apply lookup_app_l_Some.
      * intros e' [He'| ->%list_elem_of_singleton]%elem_of_app Hd.
        -- destruct (Hall e' He' Hd) as (j & si & ti & Hj & Hjn).
           exists j, si, ti. split; [by apply lookup_app_l_Some|done].
        -- exists (length (newCoSEEdges tb)), si0, ti0.
           split; [by rewrite lookup_app_r, Nat.sub_diag|done].
    + (* one more edge for the reduced edge at j0 *)
      assert (newCoSEEdges tb !! j0 = Some (si0, ti0) \/
              newCoSEEdges tb !! j0 = Some (ti0, si0)) as Hj0e by auto.
      assert (forall j si ti, newCoSEEdges tb !! j = Some (si, ti) ->
                joins gm m si ti e -> j = j0) as Honly.
      { intros j si ti Hj Hjn.
        destruct (Hedge j si ti Hj) as (_ & Hp1 & Hp2 & _).
        destruct (joins_same _ _ _ _ _ _ _ Hj0 Hjn) as [[-> ->]|[-> ->]];
          congruence. }
      split; simpl.
      * done.
      * by rewrite length_alter.
      * intros j si ti Hj.
        destruct (Hedge j si ti Hj) as (? & Hp1 & Hp2 & Hl & Hnn).
        split; [done|]. split; [done|]. split; [done|].
        rewrite filter_snoc. destruct (decide (j = j0)) as [->|Hjne].
        -- rewrite list_lookup_alter_eq, Hl. simpl.
           rewrite decide_True; [split; [done|]|].
           ++ intros [? _]%app_eq_nil. done.
           ++ destruct Hj0e as [?|?]; simplify_eq; [done|]. by apply joins_swap.
        -- rewrite list_lookup_alter_ne by done.
           rewrite decide_False by (intros ?; by apply Hjne, (Honly j si ti)).
           by rewrite app_nil_r.
      * done.
      * intros e' [He'| ->%list_elem_of_singleton]%elem_of_app Hd; [auto|].
        destruct Hj0e as [?|?]; [by exists j0, si0, ti0|].
        exists j0, ti0, si0. split; [done|]. by apply joins_swap.
Qed.

(** The reduced graph of [doStep2] as [buildReducedGraph] leaves it. *)
Lemma buildReducedGraph_reduced gm tb gm1 :
  buildReducedGraph gm = Some (tb, gm1) ->
  (forall n, ciseNodeToCoseNode tb !! n = indexOf n (nonOnCircleNodes gm)) /\
  length (newCoSENodes tb) = length (nonOnCircleNodes gm) /\
  ReducedGraph gm tb (getAllEdges gm).1.
Proof.
  unfold buildReducedGraph. intros H.
  destruct (forEachM (addCoSENode (heap gm)) (nonOnCircleNodes gm)
              emptyStep2Tables) as [tb0|] eqn:E0; [simpl in H|done].
  apply addCoSENodes_tables in E0 as (Hm0 & Hlen0 & He0 & Hp0 & Hc0).
  pose proof (reducedEnd_getAllEdges gm) as Hre.
  destruct (getAllEdges gm) as [es gm0]. simpl in *.
  destruct (forEachM (addCoSEEdge gm0) es tb0) as [tb1|] eqn:E1;
    [simpl in H|done].
  assert (tb1 = tb /\ gm1 = gm0) as [-> ->] by (by simplify_eq). clear H.
  assert (edgesReduced gm0 (ciseNodeToCoseNode tb0) es tb /\
          newCoSENodes tb = newCoSENodes tb0) as [[Hm Hlen Hedge Hpairs Hall] Hn].
  { refine (forEachM_inv_prefix
              (fun pre tb => edgesReduced gm0 (ciseNodeToCoseNode tb0) pre tb /\
                             newCoSENodes tb = newCoSENodes tb0)
              _ _ _ _ _ _ E1).
    - intros pre a suf s s' _ [HI Hns] Hstep. split.
      + by eapply addCoSEEdge_reduced.
      + rewrite <- Hns. clear -Hstep.
        apply addCoSEEdge_cases in Hstep
          as [[_ ->]|(? & ? & _ & _ & _ & [(_ & _ & ->)|(? & _ & _ & ->)])];
          done.
    - split; [|done]. split; try done.
      + by rewrite He0, Hc0.
      + intros j si ti. by rewrite He0.
      + intros a b j. by rewrite Hp0, lookup_empty.
      + by intros e ?%elem_of_nil. }
  assert (forall n, reducedIndex gm0 (ciseNodeToCoseNode tb0) n =
                    reducedIndex gm (ciseNodeToCoseNode tb) n) as Hri.
  { intros n. unfold reducedIndex. by rewrite Hre, Hm. }
  assert (forall si ti, filter (joins gm0 (ciseNodeToCoseNode tb0) si ti) es =
                        filter (joins gm (ciseNodeToCoseNode tb) si ti) es) as Hf.
  { intros si ti. apply list_filter_iff. intros e. unfold joins.
    by rewrite !Hri. }
  split; [by intros n; rewrite Hm|]. split; [congruence|].
  split.
  - done.
  - intros j si ti Hj. destruct (Hedge j si ti Hj) as (? & _ & _ & Hl & Hnn).
    rewrite <- Hf. done.
  - intros j j' si ti si' ti' Hj Hj' Hsame.
    destruct (Hedge j si ti Hj) as (_ & Hp1 & Hp2 & _).
    destruct (Hedge j' si' ti' Hj') as (_ & Hp1' & _).
    destruct Hsame as [[-> ->]|[-> ->]]; congruence.
  - intros e He Hd. rewrite <- !Hri in Hd.
    destruct (Hall e He Hd) as (j & si & ti & Hj & Hjn).
    exists j, si, ti. split; [done|]. unfold joins in *. by rewrite <- !Hri.
Qed.

Lemma convertToClusteredGraph_edgesNamed nodes_ edges_ clusters gm m :
  convertToClusteredGraph newGraphManager nodes_ edges_ clusters = Some (gm, m) ->
  edgesNamed gm.
Proof.
  intros H.
  pose proof (convertToClusteredGraph_Built _ _ _ _ _ H)
    as (HB & _ & _ & Hmemo & made & Hmade & Hperm & _).
  intros e. unfold getAllEdges. rewrite Hmemo. simpl.
  change (edges (rootGraph gm) ++ concat ((edges ∘ base) <$> circles gm)
            ++ gmEdges gm) with (allEdgesOf gm).
  rewrite Hperm. intros (o & Ho & Hoe)%list_elem_of_omap. simpl in Hoe.
  subst o. apply list_elem_of_lookup in Ho as [i Hi].
  destruct (Forall2_lookup_r _ _ _ _ _ Hmade Hi) as (ce & _ & Hce).
  unfold newCiseEdge in Hce. rewrite !entryOf_tableGet in Hce.
  apply bind_Some in Hce as (sn & Hsn & Hce).
  apply bind_Some in Hce as (tn & Htn & Hce).
  apply bind_Some in Hce as (s & Hs & Hce).
  apply bind_Some in Hce as (t & Ht & Hce).
  destruct (decide (sn = tn)); [done|]. injection Hce as <-. simpl.
  split; [done|]. exists s, t. split; [done|]. split; [done|].
  destruct (built_map _ _ HB _ _ Hsn) as (s' & Hs' & Hids).
  destruct (built_map _ _ HB _ _ Htn) as (t' & Ht' & Hidt).
  rewrite Hs in Hs'. rewrite Ht in Ht'. injection Hs' as <-. injection Ht' as <-.
  done.
Qed.

Lemma edgesNamed_shape gm gm' : sameShape gm gm' -> edgesNamed gm -> edgesNamed gm'.
Proof.
  intros (Hh & _ & _ & _ & _ & Ha & _) HN e He. rewrite Ha in He.
  destruct (HN e He) as (Hne & s & t & Hs & Ht & Hids & Hidt & Hintra).
  split; [done|].
  destruct (shape_lookup _ _ _ _ Hh Hs) as (s' & Hs' & Es).
  destruct (shape_lookup _ _ _ _ Hh Ht) as (t' & Ht' & Et).
  apply nodeShape_fields in Es as (Eid & Ecl & _).
  apply nodeShape_fields in Et as (Eid' & Ecl' & _).
  exists s', t'. rewrite Eid, Eid', Ecl, Ecl'. done.
Qed.

Lemma indexOf_elem x l : x ∈ l -> is_Some (indexOf x l).
Proof.
  intros Hx. unfold indexOf.
  destruct (list_find_elem_of (fun y => y = x) l x Hx eq_refl) as [[i y] ->].
  by eexists.
Qed.

(** The reduced node of a node that carries an id: the node itself when
    its owner is the root graph, the parent of its circle else. *)
Lemma reducedEnd_named gm n nd :
  Steady gm -> heap gm !! n = Some nd -> is_Some (ID nd) ->
  (owner nd = Some RootGraph /\ clusterID nd = Some (-1)%Z /\
   child nd = None /\ n ∈ nonOnCircleNodes gm /\
   reducedEnd gm n = Some (Some n)) \/
  (exists k c p pn, owner nd = Some (CircleGraph k) /\
     clusterID nd = Some (Z.of_nat k) /\
     circles gm !! k = Some c /\ parent (base c) = Some p /\
     heap gm !! p = Some pn /\ child pn = Some (CircleGraph k) /\
     p ∈ nonOnCircleNodes gm /\ reducedEnd gm n = Some (Some p)).
Proof.
  intros HS Hnd Hid. unfold reducedEnd. rewrite Hnd. simpl.
  pose proof (st_nodes _ HS n nd Hnd) as Hok. unfold nodeOk in Hok.
  destruct (owner nd) as [[|k]|] eqn:Hg.
  - left. destruct Hok as [-> Hch].
    destruct (child nd) as [[|k]|]; [done| |].
    + destruct Hch as [Hno _]. rewrite Hno in Hid. by destruct Hid.
    + destruct Hch as [? _]. repeat split; try done.
      apply (st_non _ HS). by exists nd.
  - right. destruct Hok as (_ & Hcl & [ext ->] & _). simpl.
    destruct (st_owner _ HS n nd k Hnd Hg) as (c & Hc & _).
    destruct (st_parent _ HS k c Hc) as (p & pn & Hp & Hpn & Hop & Hch).
    rewrite Hc. simpl. rewrite Hp. exists k, c, p, pn.
    repeat split; try done. apply (st_non _ HS). by exists pn.
  - destruct Hok as (_ & Hno & _). rewrite Hno in Hid. by destruct Hid.
Qed.

(** The ends of an edge fall on one reduced node exactly when the edge is
    marked intra-cluster. *)
Lemma reducedIndex_same_iff gm m e :
  Steady gm -> edgesNamed gm ->
  (forall n, m !! n = indexOf n (nonOnCircleNodes gm)) ->
  e ∈ (getAllEdges gm).1 ->
  reducedIndex gm m (source e) = reducedIndex gm m (target e)
  <-> isIntraCluster e = true.
Proof.
  intros HS HN Hm He.
  destruct (HN e He) as (Hne & s & t & Hs & Ht & Hids & Hidt & ->).
  rewrite sameCluster_true. unfold reducedIndex.
  destruct (reducedEnd_named gm _ _ HS Hs Hids)
    as [(Hos & Hcs & Hchs & Hins & ->)
       |(k & c & p & pn & Hos & Hcs & Hc & Hpc & Hp & Hchp & Hinp & ->)];
  destruct (reducedEnd_named gm _ _ HS Ht Hidt)
    as [(Hot & Hct & Hcht & Hint & ->)
       |(k' & c' & p' & pn' & Hot & Hct & Hc' & Hpc' & Hp' & Hchp' & Hinp'
         & ->)];
  simpl; rewrite !Hm, Hcs, Hct.
  - split; [|by intros [_ ?]]. intros Heq.
    destruct (indexOf_elem _ _ Hins) as [i Hi]. rewrite Hi in Heq.
    symmetry in Heq. apply indexOf_Some in Hi, Heq. congruence.
  - split.
    + intros Heq. destruct (indexOf_elem _ _ Hins) as [i Hi]. rewrite Hi in Heq.
      symmetry in Heq. apply indexOf_Some in Hi, Heq.
      assert (source e = p') by congruence. subst p'. congruence.
    + intros [Heq ?]. done.
  - split.
    + intros Heq. destruct (indexOf_elem _ _ Hint) as [i Hi]. rewrite Hi in Heq.
      apply indexOf_Some in Hi, Heq.
      assert (target e = p) by congruence. subst p. congruence.
    + intros [Heq ?]. injection Heq as Heq. lia.
  - split.
    + intros Heq. destruct (indexOf_elem _ _ Hinp) as [i Hi]. rewrite Hi in Heq.
      symmetry in Heq. apply indexOf_Some in Hi, Heq.
      assert (p = p') by congruence. subst p'.
      assert (k = k') by congruence. subst k'.
      split; [done|]. intros [= ?]. lia.
    + intros [Heq _]. injection Heq as Heq. apply Nat2Z.inj in Heq. subst k'.
      congruence.
Qed.

Section ReducedPipeline.

Variable runAVSDF : list DelegateNode -> list (nat * nat) -> AVSDFResult.
Variable runCoSE : list DelegateNode -> list (nat * nat) -> nat -> PointD.

(** After the construction and any steps the graph is as the construction
    left it. *)
Lemma pipeline_graph nodes_ edges_ clusters ops ly' :
  Forall (fun op => isStep op = true) ops ->
  runOps runAVSDF runCoSE (ConvertToClusteredGraph nodes_ edges_ clusters :: ops)
    (newCiSELayout newGraphManager) = Some ly' ->
  Steady (graphManager ly') /\ edgesNamed (graphManager ly').
Proof.
  intros Hops H. unfold runOps in H. simpl in H.
  destruct (convertToClusteredGraph newGraphManager nodes_ edges_ clusters)
    as [[gm m]|] eqn:E; [simpl in H|done].
  pose proof (convertToClusteredGraph_Steady _ _ _ _ _ E) as HS.
  pose proof (convertToClusteredGraph_edgesNamed _ _ _ _ _ E) as HN.
  pose proof (steps_shape runAVSDF runCoSE ops _ _ Hops H) as Hsh.
  simpl in Hsh.
  split; [by eapply Steady_shape|by eapply edgesNamed_shape].
Qed.

End ReducedPipeline.

Lemma reduced_edges_between_clusters gm tb gm1 e :
  Steady gm -> edgesNamed gm ->
  buildReducedGraph gm = Some (tb, gm1) ->
  e ∈ (getAllEdges gm).1 ->
  (isIntraCluster e = false <->
   exists l, l ∈ coseEdgeToCiseEdges tb /\ e ∈ l) /\
  (forall j j' l l',
     coseEdgeToCiseEdges tb !! j = Some l ->
     coseEdgeToCiseEdges tb !! j' = Some l' -> e ∈ l -> e ∈ l' -> j = j').
Proof.
  intros HS HN Hb He.
  destruct (buildReducedGraph_reduced _ _ _ Hb) as (Hm & _ & [Hlen Hedge Honce Hall]).
  pose proof (reducedIndex_same_iff gm _ e HS HN Hm He) as Hiff.
  assert (forall j l, coseEdgeToCiseEdges tb !! j = Some l -> e ∈ l ->
            exists si ti, newCoSEEdges tb !! j = Some (si, ti) /\ si ≠ ti /\
                          joins gm (ciseNodeToCoseNode tb) si ti e) as Hin.
  { intros j l Hj Hel.
    destruct (lookup_lt_is_Some_2 (newCoSEEdges tb) j) as [[si ti] Hst].
    { rewrite <- Hlen. by eapply lookup_lt_Some. }
    destruct (Hedge j si ti Hst) as (Hne & Hl & _).
    rewrite Hj in Hl. injection Hl as ->.
    apply list_elem_of_filter in Hel as [Hjn _]. by exists si, ti. }
  split; [split|].
  - intros Hf.
    destruct (Hall e He) as (j & si & ti & Hj & Hjn).
    { intros Heq. apply Hiff in Heq. congruence. }
    destruct (Hedge j si ti Hj) as (_ & Hl & _).
    eexists. split; [by eapply list_elem_of_lookup_2|].
    apply list_elem_of_filter. done.
  - intros (l & [j Hj]%list_elem_of_lookup & Hel).
    destruct (Hin j l Hj Hel) as (si & ti & _ & Hne & Hjn).
    apply not_true_is_false. intros Ht. apply Hiff in Ht.
    by apply (joins_differ _ _ _ _ _ Hne Hjn).
  - intros j j' l l' Hj Hj' Hel Hel'.
    destruct (Hin j l Hj Hel) as (si & ti & Hst & _ & Hjn).
    destruct (Hin j' l' Hj' Hel') as (si' & ti' & Hst' & _ & Hjn').
    symmetry. eapply Honce; [exact Hst|exact Hst'|].
    by eapply joins_same.
Qed.

(** X13: the reduced graph [doStep2] hands to the spring embedder has one
    node for each node outside the circles, found under the first position
    of that node; each of its edges joins two different reduced nodes and
    stands for the edges of the graph with their ends on these two nodes,
    in either direction and in the order of [getAllEdges()], of which
    there is at least one; no two reduced edges join the same two nodes,
    and every edge whose ends fall on different reduced nodes is among the
    edges of a reduced edge. *)
Theorem X13_doStep2_reduced_graph
  (gm gm1 : CiSEGraphManager) (tb : Step2Tables) :
  buildReducedGraph gm = Some (tb, gm1) ->
  (forall n, ciseNodeToCoseNode tb !! n = indexOf n (nonOnCircleNodes gm)) /\
  length (newCoSENodes tb) = length (nonOnCircleNodes gm) /\
  ReducedGraph gm tb (getAllEdges gm).1.
Proof. apply buildReducedGraph_reduced. Qed.

Lemma X13_doStep2_reduced_graph_witness :
  (forall n, ciseNodeToCoseNode (tablesOf (Ex.gmOf Ex.laidOut1)) !! n
             = indexOf n (nonOnCircleNodes (Ex.gmOf Ex.laidOut1))) /\
  length (newCoSENodes (tablesOf (Ex.gmOf Ex.laidOut1)))
    = length (nonOnCircleNodes (Ex.gmOf Ex.laidOut1)) /\
  ReducedGraph (Ex.gmOf Ex.laidOut1) (tablesOf (Ex.gmOf Ex.laidOut1))
    (getAllEdges (Ex.gmOf Ex.laidOut1)).1.
Proof.
  apply (X13_doStep2_reduced_graph (Ex.gmOf Ex.laidOut1)
           (getAllEdges (Ex.gmOf Ex.laidOut1)).2
           (tablesOf (Ex.gmOf Ex.laidOut1))).
  vm_compute. reflexivity.
Defined.

(** X14: when [doStep2] builds its reduced graph after the construction and
    any steps, an edge of the graph is among the edges of a reduced edge
    exactly when it is not marked intra-cluster, and then of one reduced
    edge only. *)
Theorem X14_reduced_edges_stand_for_edges_between_clusters
  (runAVSDF : list DelegateNode -> list (nat * nat) -> AVSDFResult)
  (runCoSE : list DelegateNode -> list (nat * nat) -> nat -> PointD)
  (nodes_ : list CyNode) (edges_ : list CyEdge) (clusters : list (list string))
  (ops : list Op) (ly' : CiSELayout) (tb : Step2Tables)
  (gm1 : CiSEGraphManager) (e : CiSEEdge) :
  Forall (fun op => isStep op = true) ops ->
  runOps runAVSDF runCoSE (ConvertToClusteredGraph nodes_ edges_ clusters :: ops)
    (newCiSELayout newGraphManager) = Some ly' ->
  buildReducedGraph (graphManager ly') = Some (tb, gm1) ->
  e ∈ (getAllEdges (graphManager ly')).1 ->
  (isIntraCluster e = false <->
   exists l, l ∈ coseEdgeToCiseEdges tb /\ e ∈ l) /\
  (forall j j' l l',
     coseEdgeToCiseEdges tb !! j = Some l ->
     coseEdgeToCiseEdges tb !! j' = Some l' -> e ∈ l -> e ∈ l' -> j = j').
Proof.
  intros Hops Hrun Hb He.
  destruct (pipeline_graph _ _ _ _ _ _ _ Hops Hrun) as [HS HN].
  by eapply reduced_edges_between_clusters.
Qed.

Lemma X14_reduced_edges_witness :
  (isIntraCluster (mkCiSEEdge 6 2 false) = false <->
   exists l, l ∈ coseEdgeToCiseEdges (tablesOf (Ex.gmOf Ex.laidOut1)) /\
             mkCiSEEdge 6 2 false ∈ l) /\
  (forall j j' l l',
     coseEdgeToCiseEdges (tablesOf (Ex.gmOf Ex.laidOut1)) !! j = Some l ->
     coseEdgeToCiseEdges (tablesOf (Ex.gmOf Ex.laidOut1)) !! j' = Some l' ->
     mkCiSEEdge 6 2 false ∈ l -> mkCiSEEdge 6 2 false ∈ l' -> j = j').
Proof.
  apply (X14_reduced_edges_stand_for_edges_between_clusters
           Ex.avsdfInOrder Ex.coseOnARow Ex.nodes1 Ex.edges1 Ex.clusters1
           [DoStep1] (Ex.lyOf Ex.laidOut1) (tablesOf (Ex.gmOf Ex.laidOut1))
           (getAllEdges (Ex.gmOf Ex.laidOut1)).2 (mkCiSEEdge 6 2 false)).
  - repeat constructor.
  - vm_compute. reflexivity.
  - vm_compute. reflexivity.
  - apply (list_elem_of_lookup_2 _ 4). vm_compute. reflexivity.
Defined.

(** ** The sort of the gathered indices (CiSELayout.js, line 604) *)

Lemma insertSorted_perm x l : JsSort.insertSorted x l ≡ₚ x :: l.
Proof.
  induction l as [|y l IH]; simpl; [done|].
  destruct (JsSort.strLt _ _); [|done].
  rewrite IH. apply Permutation_swap.
Qed.

Lemma JsSort_sort_perm l : JsSort.sort l ≡ₚ l.
Proof.
  unfold JsSort.sort. induction l as [|x l IH]; simpl; [done|].
  by rewrite insertSorted_perm, IH.
Qed.

(** On the indices from -1 to 9 the order of the strings is the order of
    the numbers. *)
Lemma strLt_small (a b : Z) :
  (-1 <= a <= 9)%Z -> (-1 <= b <= 9)%Z ->
  JsSort.strLt (JsSort.toString a) (JsSort.toString b) = (a <? b)%Z.
Proof.
  intros Ha Hb.
  assert (a = -1 \/ a = 0 \/ a = 1 \/ a = 2 \/ a = 3 \/ a = 4 \/ a = 5 \/
          a = 6 \/ a = 7 \/ a = 8 \/ a = 9)%Z as Ca by lia.
  assert (b = -1 \/ b = 0 \/ b = 1 \/ b = 2 \/ b = 3 \/ b = 4 \/ b = 5 \/
          b = 6 \/ b = 7 \/ b = 8 \/ b = 9)%Z as Cb by lia.
  clear Ha Hb.
  repeat (destruct Ca as [->|Ca]); try subst a;
    repeat (destruct Cb as [->|Cb]); try subst b; reflexivity.
Qed.

Lemma insertSorted_small x l :
  (-1 <= x <= 9)%Z -> Forall (fun z => -1 <= z <= 9)%Z l ->
  Sorted Z.le l -> Sorted Z.le (JsSort.insertSorted x l).
Proof.
  intros Hx Hl Hs. induction l as [|y l IH]; simpl.
  - by repeat constructor.
  - inversion_clear Hl as [|? ? Hy Hl']. inversion_clear Hs as [|? ? Hs' Hhd].
    rewrite strLt_small by done.
    destruct (Z.ltb_spec y x) as [Hlt|Hge].
    + constructor; [by apply IH|].
      destruct l as [|z l]; simpl.
      * constructor. lia.
      * inversion_clear Hl' as [|? ? Hz _]. inversion_clear Hhd as [|? ? Hyz].
        rewrite strLt_small by done.
        destruct (Z.ltb_spec z x); constructor; lia.
    + constructor; [by constructor|]. constructor. done.
Qed.

Lemma JsSort_sort_small l :
  Forall (fun z => -1 <= z <= 9)%Z l ->
  Sorted Z.le (JsSort.sort l) /\ JsSort.sort l ≡ₚ l.
Proof.
  intros Hl. split; [|apply JsSort_sort_perm].
  unfold JsSort.sort. induction Hl as [|x l Hx Hl IH]; simpl; [constructor|].
  apply insertSorted_small; [done| |done].
  change (foldr JsSort.insertSorted [] l) with (JsSort.sort l).
  by rewrite JsSort_sort_perm.
Qed.

(** X15: [edgeIndices.sort()] (line 604) keeps the gathered indices,
    whatever they are: its result is a permutation of them.  When all of
    them lie between -1 and 9 it puts them in ascending numeric order; from
    two-digit indices on it need not, as 10 sorts before 2. *)
Theorem X15_small_indices_are_sorted_numerically (edgeIndices : list Z) :
  CircularMean.sortedIndices edgeIndices ≡ₚ edgeIndices /\
  (Forall (fun z => -1 <= z <= 9)%Z edgeIndices ->
   Sorted Z.le (CircularMean.sortedIndices edgeIndices)) /\
  CircularMean.sortedIndices [2; 10]%Z = [10; 2]%Z.
Proof.
  split; [apply JsSort_sort_perm|]. split; [|reflexivity].
  intros Hl. by apply JsSort_sort_small.
Qed.

Lemma X15_small_indices_witness :
  CircularMean.sortedIndices [5; -1; 9; 0; 5; 12; 3]%Z
    ≡ₚ [5; -1; 9; 0; 5; 12; 3]%Z /\
  Sorted Z.le (CircularMean.sortedIndices [5; -1; 9; 0; 5]%Z).
Proof.
  split.
  - apply (X15_small_indices_are_sorted_numerically [5; -1; 9; 0; 5; 12; 3]%Z).
  - apply (X15_small_indices_are_sorted_numerically [5; -1; 9; 0; 5]%Z).
    repeat constructor; lia.
Defined.

(** ** The largest gap of the circular mean (CiSELayout.js, lines 616-669) *)

Section LargestGap.
Local Open Scope Z_scope.
Import CircularMean.

Lemma sorted_lookup (l : list Z) :
  Sorted Z.le l ->
  forall (i j : nat) a b, (i <= j)%nat -> l !! i = Some a -> l !! j = Some b ->
    a <= b.
Proof.
  intros Hs. apply Sorted_StronglySorted in Hs; [|intros x y z; lia].
  induction Hs as [|x l Hs IH Hall]; intros i j a b Hij Ha Hb; [done|].
  destruct i as [|i], j as [|j]; simpl in *; simplify_eq; try lia.
  - rewrite Forall_forall in Hall. apply Hall.
    by eapply list_elem_of_lookup_2.
  - apply (IH i j); [lia|done|done].
Qed.

Lemma gapsBetween_snoc p x z :
  last p = Some z -> gapsBetween (p ++ [x]) = gapsBetween p ++ [x - z].
Proof.
  induction p as [|a p IH]; [done|]. intros Hl.
  destruct p as [|b p]; simpl in *; [by simplify_eq|].
  f_equal. by apply IH.
Qed.

(** What the scan has found after the indices [p]. *)
Record scanned (p : list Z) (s : GapScan) : Prop := mkScanned {
  sc_last : edgeIndex s = last p;
  sc_first : p = [] \/ head p = Some (firstEdgeIndex s);
  sc_pos : edgeIndexPos s = Z.of_nat (length p) - 1;
  sc_gaps : Forall (fun g => g <= largestGap s) (gapsBetween p);
  sc_start :
    (gapsBetween p = [] /\ largestGap s = -1 /\ indexLargestGapStart s = -1) \/
    exists (i : nat) a b,
      indexLargestGapStart s = Z.of_nat i /\ p !! i = Some a /\
      p !! S i = Some b /\ largestGap s = b - a
}.

Lemma scanStep_scanned p s x :
  scanned p s -> (forall z, last p = Some z -> z <= x) ->
  scanned (p ++ [x]) (scanStep s x).
Proof.
  intros [Hlast Hfirst Hpos Hgaps Hstart] Hx. unfold scanStep.
  destruct (edgeIndex s) as [prev|] eqn:Eprev.
  - symmetry in Hlast. pose proof (Hx _ Hlast) as Hle.
    assert (p ≠ []) as Hne by (by intros ->).
    assert (head (p ++ [x]) = Some (firstEdgeIndex s)) as Hhd.
    { destruct Hfirst as [?|Hh]; [done|]. by destruct p. }
    assert (p !! (length p - 1)%nat = Some prev) as Hprev.
    { replace (length p - 1)%nat with (pred (length p)) by lia.
      by rewrite <- last_lookup. }
    assert (length p ≠ 0%nat) as Hlen by (by destruct p).
    destruct (Z.ltb_spec (largestGap s) (x - prev)) as [Hlt|Hge];
      split; simpl.
    + by rewrite last_snoc.
    + by right.
    + rewrite length_app. simpl. lia.
    + rewrite (gapsBetween_snoc _ _ _ Hlast). apply Forall_app. split.
      * eapply Forall_impl; [exact Hgaps|]. simpl. intros. lia.
      * by repeat constructor.
    + right. exists (length p - 1)%nat, prev, x. split; [lia|].
      split; [by apply lookup_app_l_Some|]. split; [|done].
      replace (S (length p - 1)) with (length p) by lia.
      by rewrite lookup_app_r, Nat.sub_diag.
    + by rewrite last_snoc.
    + by right.
    + rewrite length_app. simpl. lia.
    + rewrite (gapsBetween_snoc _ _ _ Hlast). apply Forall_app. split; [done|].
      by repeat constructor.
    + right. destruct Hstart as [(_ & Hm & _)|(i & a & b & Hi & Ha & Hb & Hg)];
        [lia|].
      exists i, a, b. split; [done|].
      split; [by apply lookup_app_l_Some|]. split; [|done].
      by apply lookup_app_l_Some.
  - assert (p = []) as -> by (destruct p using rev_ind; [done|];
                              by rewrite last_snoc in Hlast).
    split; simpl; try done.
    + by right.
    + simpl in Hpos. lia.
    + left. destruct Hstart as [(_ & ? & ?)|(i & a & b & _ & ? & _)]; done.
Qed.

Lemma foldl_scanned (l : list Z) :
  Sorted Z.le l -> scanned l (foldl scanStep scanInit l).
Proof.
  intros Hs. pose proof (sorted_lookup l Hs) as Hasc. clear Hs.
  induction l as [|x p IH] using rev_ind.
  - split; simpl; try done; by left.
  - rewrite foldl_app. simpl. apply scanStep_scanned.
    + apply IH. intros i j a b Hij Ha Hb.
      apply (Hasc i j); [done| |]; by apply lookup_app_l_Some.
    + intros z Hz. rewrite last_lookup in Hz.
      destruct p as [|y p]; [done|].
      apply (Hasc (pred (length (y :: p))) (length (y :: p))); [simpl; lia| |].
      * by apply lookup_app_l_Some.
      * by rewrite lookup_app_r, Nat.sub_diag.
Qed.

(** The indices as adjusted: the same as given, or lowered by [mod_]; and
    no two of them further apart than the circle less any of its gaps. *)
Lemma adjustIndices_window (mod_ : Z) (sorted : list Z) :
  Sorted Z.le sorted -> Forall (fun z => 0 <= z < mod_) sorted ->
  Forall2 (fun a b => a = b \/ a = b - mod_) (adjustIndices mod_ sorted) sorted /\
  forall g a b, g ∈ circularGaps mod_ sorted ->
    a ∈ adjustIndices mod_ sorted -> b ∈ adjustIndices mod_ sorted ->
    a - b <= mod_ - g.
Proof.
  intros Hs Hrange. split.
  - unfold adjustIndices. destruct (0 <? _); [|by apply Forall_Forall2_diag, Forall_true; left].
    apply Forall2_same_length_lookup_2; [by rewrite length_imap|].
    intros i x y Hx Hy. rewrite list_lookup_imap, Hy in Hx. simpl in Hx.
    injection Hx as <-. destruct (_ <=? _); auto.
  - pose proof (sorted_lookup _ Hs) as Hasc.
    pose proof (foldl_scanned _ Hs) as [Hlast Hfirst Hpos Hgaps Hstart].
    destruct sorted as [|x0 rest] eqn:El; [by intros g a b ?%elem_of_nil|].
    rewrite <- El in *.
    assert (exists zl, last sorted = Some zl) as [zl Hzl].
    { rewrite El. destruct (last (x0 :: rest)) eqn:E; [by eexists|].
      by apply last_None in E. }
    assert (head sorted = Some x0) as Hhd by (by rewrite El).
    assert (firstEdgeIndex (foldl scanStep scanInit sorted) = x0) as Hfst.
    { destruct Hfirst as [?|Hh]; [congruence|]. congruence. }
    assert (forall (k : nat) v, sorted !! k = Some v ->
              x0 <= v <= zl /\ 0 <= v < mod_) as Hbounds.
    { intros k v Hk. split; [split|].
      - apply (Hasc 0%nat k); [lia| |done]. by rewrite El.
      - apply (Hasc k (pred (length sorted))).
        + apply lookup_lt_Some in Hk. lia.
        + done.
        + by rewrite <- last_lookup.
      - rewrite Forall_forall in Hrange. apply Hrange.
        by eapply list_elem_of_lookup_2. }
    assert (circularGaps mod_ sorted
            = gapsBetween sorted ++ [x0 + mod_ - zl]) as Hcg.
    { unfold circularGaps. by rewrite Hhd, Hzl. }
    assert (0 <= x0 < mod_ /\ 0 <= zl < mod_) as [Hx0 Hzlr].
    { split.
      - apply (Hbounds 0%nat). by rewrite El.
      - apply (Hbounds (pred (length sorted))). by rewrite <- last_lookup. }
    unfold adjustIndices, largestGapScan, scanWrap.
    set (s := foldl scanStep scanInit sorted) in *.
    rewrite Hlast, Hzl, Hfst.
    assert ((x0 =? -1) = false) as -> by (apply Z.eqb_neq; lia). simpl.
    rewrite Hcg.
    destruct (Z.ltb_spec (largestGap s) (x0 + mod_ - zl)) as [Hwrap|Hin]; simpl.
    + (* the gap from the last index on to the first is the largest *)
      assert ((0 <? x0 + mod_ - zl) = true) as -> by (apply Z.ltb_lt; lia).
      intros g a b Hg Ha Hb.
      apply elem_of_lookup_imap in Ha as (i & u & -> & Hu).
      apply elem_of_lookup_imap in Hb as (j & v & -> & Hv).
      pose proof (lookup_lt_Some _ _ _ Hu). pose proof (lookup_lt_Some _ _ _ Hv).
      destruct (Z.leb_spec (edgeIndexPos s + 1) (Z.of_nat i)); [lia|].
      destruct (Z.leb_spec (edgeIndexPos s + 1) (Z.of_nat j)); [lia|].
      destruct (Hbounds _ _ Hu) as [? _]. destruct (Hbounds _ _ Hv) as [? _].
      assert (g <= x0 + mod_ - zl); [|lia].
      apply elem_of_app in Hg as [Hg| ->%list_elem_of_singleton]; [|lia].
      rewrite Forall_forall in Hgaps. apply Hgaps in Hg. lia.
    + (* a gap between two neighbours is the largest *)
      destruct Hstart as [(_ & Hm & _)|(i0 & a0 & b0 & Hi0 & Ha0 & Hb0 & HG)];
        [lia|].
      assert ((0 <? largestGap s) = true) as -> by (apply Z.ltb_lt; lia).
      intros g a b Hg Ha Hb.
      assert (g <= b0 - a0) as Hgle.
      { apply elem_of_app in Hg as [Hg| ->%list_elem_of_singleton]; [|lia].
        rewrite Forall_forall in Hgaps. apply Hgaps in Hg. lia. }
      apply elem_of_lookup_imap in Ha as (i & u & -> & Hu).
      apply elem_of_lookup_imap in Hb as (j & v & -> & Hv).
      destruct (Hbounds _ _ Hu) as [? ?]. destruct (Hbounds _ _ Hv) as [? ?].
      destruct (Hbounds _ _ Ha0) as [? ?]. destruct (Hbounds _ _ Hb0) as [? ?].
      rewrite Hi0.
      destruct (Z.leb_spec (Z.of_nat i0 + 1) (Z.of_nat i)) as [Hi|Hi];
      destruct (Z.leb_spec (Z.of_nat i0 + 1) (Z.of_nat j)) as [Hj|Hj].
      * assert (b0 <= v) by (apply (Hasc (S i0) j); [lia|done|done]). lia.
      * lia.
      * assert (u <= a0) by (apply (Hasc i i0); [lia|done|done]).
        assert (b0 <= v) by (apply (Hasc (S i0) j); [lia|done|done]).
        lia.
      * assert (u <= a0) by (apply (Hasc i i0); [lia|done|done]). lia.
Qed.

End LargestGap.

(** X16: for indices in ascending order on a circle of [mod_] positions,
    the adjustment before the averaging (lines 616-669) leaves every index
    as it is or lowers it by [mod_], and brings the indices together across
    the largest gap: no two adjusted indices are further apart than [mod_]
    less any gap of the circle, between neighbours or from the last index
    on to the first. *)
Theorem X16_adjusted_indices_close_the_largest_gap (mod_ : Z) (sorted : list Z) :
  Sorted Z.le sorted -> Forall (fun z => 0 <= z < mod_)%Z sorted ->
  Forall2 (fun a b => a = b \/ a = (b - mod_)%Z)
    (CircularMean.adjustIndices mod_ sorted) sorted /\
  forall g a b, g ∈ circularGaps mod_ sorted ->
    a ∈ CircularMean.adjustIndices mod_ sorted ->
    b ∈ CircularMean.adjustIndices mod_ sorted ->
    (a - b <= mod_ - g)%Z.
Proof. apply adjustIndices_window. Qed.

Lemma X16_adjusted_indices_witness :
  Forall2 (fun a b => a = b \/ a = (b - 6)%Z)
    (CircularMean.adjustIndices 6 [0; 1; 5]%Z) [0; 1; 5]%Z /\
  forall g a b, g ∈ circularGaps 6 [0; 1; 5]%Z ->
    a ∈ CircularMean.adjustIndices 6 [0; 1; 5]%Z ->
    b ∈ CircularMean.adjustIndices 6 [0; 1; 5]%Z ->
    (a - b <= 6 - g)%Z.
Proof.
  apply (X16_adjusted_indices_close_the_largest_gap 6 [0; 1; 5]%Z).
  - repeat constructor; lia.
  - repeat constructor; lia.
Defined.

(** ** The reordering of the incident edges (CiSELayout.js, lines 572-696) *)

Lemma insertByAverage_perm x l : insertByAverage x l ≡ₚ x :: l.
Proof.
  induction l as [|y l IH]; simpl; [done|].
  destruct (PrimFloat.ltb _ _); [|done].
  rewrite IH. apply Permutation_swap.
Qed.

Lemma sortByAverage_perm l : foldr insertByAverage [] l ≡ₚ l.
Proof.
  induction l as [|x l IH]; simpl; [done|].
  by rewrite insertByAverage_perm, IH.
Qed.

Lemma incidentCoseEdges_bound tb i j :
  j ∈ incidentCoseEdges tb i -> (j < length (newCoSEEdges tb))%nat.
Proof.
  unfold incidentCoseEdges. intros ([j' st] & Hj & Hin)%list_elem_of_bind.
  apply elem_of_lookup_imap in Hin as (a & b & [= -> ->] & Hl).
  simpl in Hj. case_bool_decide; [|by apply elem_of_nil in Hj].
  apply list_elem_of_singleton in Hj as ->. by eapply lookup_lt_Some.
Qed.

Lemma edgeIndexOf_succeeds gm k e :
  Steady gm -> e ∈ (getAllEdges gm).1 -> is_Some (edgeIndexOf gm k e).
Proof.
  intros HS He.
  destruct (st_edges _ HS e He) as (s & t & Hs & Ht & _).
  unfold edgeIndexOf. rewrite Hs, Ht. simpl.
  pose proof (st_nodes _ HS _ _ Hs) as Oks.
  pose proof (st_nodes _ HS _ _ Ht) as Okt. unfold nodeOk in Oks, Okt.
  case_decide as Ds.
  - rewrite Ds in Oks. destruct Oks as (_ & _ & [ext ->] & _). by eexists.
  - case_decide as Dt; [|by eexists].
    rewrite Dt in Okt. destruct Okt as (_ & _ & [ext ->] & _). by eexists.
Qed.

Lemma mapM_keys {A C : Type} (g : A -> option (A * C)) (l : list A)
  (k : list (A * C)) :
  (forall x y, g x = Some y -> y.1 = x) ->
  mapM g l = Some k -> fst <$> k = l.
Proof.
  intros Hg Hk. apply mapM_Some_1 in Hk.
  induction Hk as [|x y l k Hxy _ IH]; [done|].
  rewrite fmap_cons. f_equal; [by apply Hg|done].
Qed.

(** On the reduced graph of a graph left by the construction, the turn for
    a node outside the circles returns; for a node with a child it gives
    the incident reduced edges of a reduced node in a new order. *)
Lemma reorderIncidentOf_succeeds gm0 gm tb n :
  Steady gm -> ReducedGraph gm0 tb (getAllEdges gm).1 ->
  (forall x, x ∈ nonOnCircleNodes gm -> is_Some (ciseNodeToCoseNode tb !! x)) ->
  n ∈ nonOnCircleNodes gm ->
  exists o, reorderIncidentOf gm tb n = Some o /\
    forall i l, o = Some (i, l) -> l ≡ₚ incidentCoseEdges tb i.
Proof.
  intros HS [Hlen Hedge _ _] Hmap Hn.
  apply (st_non _ HS) in Hn as (nd & Hnd & Hown).
  unfold reorderIncidentOf. rewrite Hnd. simpl.
  pose proof (st_nodes _ HS _ _ Hnd) as Ok. unfold nodeOk in Ok.
  rewrite Hown in Ok. destruct Ok as [_ Ok].
  destruct (child nd) as [[|k]|] eqn:Hch; [done| |by eexists].
  destruct (st_child _ HS _ _ _ Hnd Hch) as [c Hc].
  destruct (st_parent _ HS k c Hc) as (p & pn & Hp & Hpn & Hop & Hchp).
  rewrite Hc. simpl. rewrite Hp. simpl.
  destruct (Hmap p) as [i Hi]; [apply (st_non _ HS); by exists pn|].
  rewrite Hi. simpl.
  destruct (mapM (fun coseEdge =>
                    ciseEdges ← coseEdgeToCiseEdges tb !! coseEdge;
                    averageIndex ← representativeIndex gm k ciseEdges;
                    Some (coseEdge, averageIndex))
                 (incidentCoseEdges tb i)) as [indexed|] eqn:Em.
  - simpl. eexists. split; [done|]. intros i' l [= <- <-].
    rewrite sortByAverage_perm.
    erewrite mapM_keys; [done| |exact Em].
    intros x y Hy. apply bind_Some in Hy as (? & _ & Hy).
    apply bind_Some in Hy as (? & _ & Hy). by simplify_eq.
  - exfalso. apply eq_None_not_Some in Em. apply Em. apply mapM_is_Some.
    apply Forall_forall. intros j Hj. unfold compose.
    pose proof (incidentCoseEdges_bound _ _ _ Hj) as Hb.
    destruct (lookup_lt_is_Some_2 _ _ Hb) as [[si ti] Hst].
    destruct (Hedge j si ti Hst) as (_ & Hl & _).
    rewrite Hl. simpl. unfold representativeIndex. rewrite Hc. simpl.
    assert (is_Some (gatherEdgeIndices gm k
              (filter (joins gm0 (ciseNodeToCoseNode tb) si ti)
                 (getAllEdges gm).1))) as [ix ->]; [|by eexists].
    apply mapM_is_Some, Forall_forall. intros e [_ He]%list_elem_of_filter.
    by apply edgeIndexOf_succeeds.
Qed.

(** After a construction, [reorderIncidentEdges] returns for the reduced
    graph, and only reorders: each list it gives holds the incident reduced
    edges of its reduced node. *)
Lemma reorderIncidentEdges_reorders gm tb gm1 :
  Steady gm -> buildReducedGraph gm = Some (tb, gm1) ->
  exists r, reorderIncidentEdges gm1 tb = Some r /\
    Forall (fun il => il.2 ≡ₚ incidentCoseEdges tb il.1) r.
Proof.
  intros HS Hb.
  destruct (buildReducedGraph_reduced _ _ _ Hb) as (Hm & _ & HR).
  assert (gm1 = (getAllEdges gm).2) as ->.
  { destruct (buildReducedGraph_succeeds gm HS) as (tb' & Hb' & _).
    congruence. }
  pose proof (sameShape_getAllEdges gm) as Hsh.
  pose proof (Steady_shape _ _ HS Hsh) as HS1.
  destruct Hsh as (_ & _ & _ & _ & Enon & Eall & _).
  rewrite <- Eall in HR.
  unfold reorderIncidentEdges.
  destruct (mapM (reorderIncidentOf (getAllEdges gm).2 tb)
              (nonOnCircleNodes (getAllEdges gm).2)) as [os|] eqn:Em.
  - simpl. eexists. split; [done|].
    apply Forall_forall. intros [i l] Hil.
    apply list_elem_of_omap in Hil as (o & Ho & Hoe). simpl in Hoe. subst o.
    apply mapM_Some_1 in Em.
    apply list_elem_of_lookup in Ho as [a Ha].
    destruct (Forall2_lookup_r _ _ _ _ _ Em Ha) as (n & Hn & Hrn).
    destruct (reorderIncidentOf_succeeds gm (getAllEdges gm).2 tb n HS1 HR)
      as (o & Ho & Hperm).
    + intros x Hx. rewrite Hm, <- Enon. by apply indexOf_elem.
    + by eapply list_elem_of_lookup_2.
    + simpl. apply Hperm. congruence.
  - exfalso. apply eq_None_not_Some in Em. apply Em. apply mapM_is_Some.
    apply Forall_forall. intros n Hn. unfold compose.
    destruct (reorderIncidentOf_succeeds gm (getAllEdges gm).2 tb n HS1 HR)
      as (o & -> & _); [|done|done].
    intros x Hx. rewrite Hm, <- Enon. by apply indexOf_elem.
Qed.

(** X17: on the reduced graph [doStep2] builds after the construction and
    any steps, [reorderIncidentEdges] returns, and each list it leaves for a
    reduced node holds the incident reduced edges of that node, each as
    often as before: edges are reordered, none is lost or added. *)
Theorem X17_reorderIncidentEdges_only_reorders
  (runAVSDF : list DelegateNode -> list (nat * nat) -> AVSDFResult)
  (runCoSE : list DelegateNode -> list (nat * nat) -> nat -> PointD)
  (nodes_ : list CyNode) (edges_ : list CyEdge) (clusters : list (list string))
  (ops : list Op) (ly' : CiSELayout) (tb : Step2Tables)
  (gm1 : CiSEGraphManager) :
  Forall (fun op => isStep op = true) ops ->
  runOps runAVSDF runCoSE (ConvertToClusteredGraph nodes_ edges_ clusters :: ops)
    (newCiSELayout newGraphManager) = Some ly' ->
  buildReducedGraph (graphManager ly') = Some (tb, gm1) ->
  exists r, reorderIncidentEdges gm1 tb = Some r /\
    Forall (fun il => il.2 ≡ₚ incidentCoseEdges tb il.1) r.
Proof.
  intros Hops Hrun Hb.
  destruct (pipeline_graph _ _ _ _ _ _ _ Hops Hrun) as [HS _].
  by eapply reorderIncidentEdges_reorders.
Qed.

Lemma X17_reorderIncidentEdges_witness :
  exists r,
    reorderIncidentEdges (getAllEdges (Ex.gmOf Ex.laidOut1)).2
      (tablesOf (Ex.gmOf Ex.laidOut1)) = Some r /\
    Forall (fun il =>
              il.2 ≡ₚ incidentCoseEdges (tablesOf (Ex.gmOf Ex.laidOut1)) il.1)
           r.
Proof.
  apply (X17_reorderIncidentEdges_only_reorders
           Ex.avsdfInOrder Ex.coseOnARow Ex.nodes1 Ex.edges1 Ex.clusters1
           [DoStep1] (Ex.lyOf Ex.laidOut1) (tablesOf (Ex.gmOf Ex.laidOut1))
           (getAllEdges (Ex.gmOf Ex.laidOut1)).2).
  - repeat constructor.
  - vm_compute. reflexivity.
  - vm_compute. reflexivity.
Defined.

(** ** The inter-cluster edges of a circle (CiSECircle.js, lines 153-169) *)

Lemma filter_disjoint_app {A : Type} (P Q : A -> Prop)
  `{forall x, Decision (P x)} `{forall x, Decision (Q x)} (l : list A) :
  (forall x, x ∈ l -> P x -> Q x -> False) ->
  filter P l ++ filter Q l ≡ₚ filter (fun x => P x \/ Q x) l.
Proof.
  induction l as [|x l IH]; intros Hd; [done|].
  assert (filter P l ++ filter Q l ≡ₚ filter (fun x => P x \/ Q x) l) as IH'.
  { apply IH. intros y Hy. apply Hd. by right. }
  destruct (decide (P x)) as [HP|HP], (decide (Q x)) as [HQ|HQ].
  - exfalso. apply (Hd x); [by left|done|done].
  - rewrite (filter_cons_True P) by done.
    rewrite (filter_cons_False Q) by done.
    rewrite (filter_cons_True (fun x => P x \/ Q x)) by auto.
    simpl. by rewrite IH'.
  - rewrite (filter_cons_False P) by done.
    rewrite (filter_cons_True Q) by done.
    rewrite (filter_cons_True (fun x => P x \/ Q x)) by auto.
    rewrite <- Permutation_middle. by rewrite IH'.
  - rewrite (filter_cons_False P) by done.
    rewrite (filter_cons_False Q) by done.
    rewrite (filter_cons_False (fun x => P x \/ Q x)) by tauto.
    done.
Qed.

Lemma concat_filters {A B : Type} (T : B -> A -> Prop)
  `{forall n x, Decision (T n x)} (ns : list B) (l : list A) :
  NoDup ns ->
  (forall x n n', x ∈ l -> n ∈ ns -> n' ∈ ns -> T n x -> T n' x -> n = n') ->
  concat ((fun n => filter (T n) l) <$> ns)
  ≡ₚ filter (fun x => Exists (fun n => T n x) ns) l.
Proof.
  induction ns as [|n ns IH]; intros Hnd Hone; simpl.
  - symmetry. rewrite filter_none; [done|]. intros x _ He. by inversion He.
  - apply NoDup_cons in Hnd as [Hn Hnd].
    rewrite IH; [|done|].
    + rewrite filter_disjoint_app.
      * erewrite (list_filter_iff _ _ l); [done|].
        intros x. by rewrite Exists_cons.
      * intros x Hx HT He. apply Exists_exists in He as (n' & Hn' & HT').
        assert (n = n') as <-; [|done].
        apply (Hone x); [done|by left|by right|done|done].
    + intros x a b Hx Ha Hb. apply Hone; [done|by right|by right].
Qed.

Lemma filter_ext_in {A : Type} (P Q : A -> Prop)
  `{forall x, Decision (P x)} `{forall x, Decision (Q x)} (l : list A) :
  (forall x, x ∈ l -> P x <-> Q x) -> filter P l = filter Q l.
Proof.
  induction l as [|x l IH]; intros Hpq; [done|].
  assert (filter P l = filter Q l) as IH'.
  { apply IH. intros y Hy. apply Hpq. by right. }
  destruct (decide (P x)) as [HP|HP].
  - rewrite (filter_cons_True P), (filter_cons_True Q), IH'; [done| |done].
    apply Hpq; [by left|done].
  - rewrite (filter_cons_False P), (filter_cons_False Q), IH'; [done| |done].
    intros HQ. apply HP, Hpq; [by left|done].
Qed.

(** The first call of [getInterClusterEdges] gathers the inter-cluster
    edges of the out-nodes, node after node. *)
Lemma collectInterClusterEdges_loop h es ns acc l :
  (forall n, n ∈ ns -> exists nd, h !! n = Some nd /\
     incidentEdges nd = filter (fun e => source e = n \/ target e = n) es) ->
  forEachM (collectInterClusterEdges h) ns acc = Some l ->
  l = acc ++ concat ((fun n =>
                        filter (fun e => isIntraCluster e = false /\
                                         (source e = n \/ target e = n)) es)
                     <$> ns).
Proof.
  revert acc. induction ns as [|n ns IH]; intros acc Hn Hrun; simpl in *.
  - rewrite app_nil_r. by simplify_eq.
  - apply bind_Some in Hrun as (acc' & Hstep & Hrun).
    apply IH in Hrun; [|intros x Hx; apply Hn; by right].
    destruct (Hn n) as (nd & Hnd & Hinc); [by left|].
    unfold collectInterClusterEdges in Hstep. rewrite Hnd in Hstep.
    simpl in Hstep. destruct (onCircleNodeExt nd); [|done].
    simpl in Hstep. injection Hstep as <-.
    rewrite Hrun, <- app_assoc. f_equal. f_equal.
    unfold extInterClusterEdges. rewrite Hinc.
    rewrite list_filter_filter. done.
Qed.

(** A new circle has gathered no inter-cluster edges and may be reversed,
    and the construction leaves it so. *)
Lemma convertToClusteredGraph_unprepared nodes_ edges_ clusters gm m k c :
  convertToClusteredGraph newGraphManager nodes_ edges_ clusters = Some (gm, m) ->
  circles gm !! k = Some c -> unprepared c.
Proof.
  intros H Hk.
  destruct (convertToClusteredGraph_stages _ _ _ _ _ H)
    as (gm1 & m1 & gm2 & gm3 & H1 & H2 & H3 & H4 & _).
  assert (forall g : CiSEGraphManager,
            Forall unprepared (circles g) ->
            forall k c, circles g !! k = Some c -> unprepared c)
    as Hlook.
  { intros g Hg k0 c0 Hc0. rewrite Forall_forall in Hg. apply Hg.
    by eapply list_elem_of_lookup_2. }
  assert (Forall unprepared (circles gm1)) as F1.
  { refine (forEachM_run_inv
              (fun st : BuildState =>
                 Forall unprepared (circles st.1))
              _ _ _ _ H1 _ _); [by constructor|].
    intros [g m0] [i ids] st1 _ Hg Hstep. simpl in Hg.
    rewrite addCluster_unfold in Hstep.
    refine (forEachM_run_inv
              (fun st : BuildState =>
                 Forall unprepared (circles st.1))
              _ _ _ _ Hstep _ _).
    - simpl. apply Forall_app. split; [done|]. by repeat constructor.
    - intros [g' m'] a st2 _ Hg' Hmem. simpl in Hg'.
      apply addClusterMember_Some in Hmem as (cy & _ & ->). simpl.
      apply Forall_alter; [done|]. by intros c0 _ Hc0. }
  assert (circles gm2 = circles gm1) as E2.
  { clear -H2. revert gm1 m1 H2.
    induction nodes_ as [|cy l IH]; intros g m0 H2; simpl in H2;
      [by simplify_eq|].
    rewrite addUnclustered_unfold in H2.
    destruct (existsb _ _); [by apply IH in H2|].
    by apply IH in H2. }
  apply addEdges_Some in H3 as (_ & E3 & _). simpl in E3.
  apply determineOutNodes_loop_erase in H4.
  destruct (eraseInOut_lookup _ _ _ _ H4 Hk) as (c3 & Hc3 & Ec).
  destruct (populateReferences_frame gm3) as (_ & Ecs & _).
  rewrite Ecs in Hc3.
  destruct (erase_circle_Some _ _ _ _ E3 Hc3) as (c2 & Hc2 & Ec2).
  rewrite E2 in Hc2.
  apply eraseCircleEdges_fields in Ec2 as (_ & _ & _ & _ & _ & Ef & _ & Ei).
  assert (interClusterEdges c3 = interClusterEdges c /\
          mayBeReversed c3 = mayBeReversed c) as [Em3 Ef3].
  { unfold eraseInOut, setOutNodes, setInNodes in Ec. by injection Ec. }
  destruct (Hlook gm1 F1 k c2 Hc2) as [Hm Hf].
  split; congruence.
Qed.

Lemma edgesMade_ends nodes_ edges_ clusters gm m e :
  convertToClusteredGraph newGraphManager nodes_ edges_ clusters = Some (gm, m) ->
  e ∈ edgesMade gm m edges_ ->
  exists s t, heap gm !! source e = Some s /\ heap gm !! target e = Some t /\
    ((owner s = Some RootGraph /\ clusterID s = Some (-1)%Z) \/
     exists i, owner s = Some (CircleGraph i) /\
               clusterID s = Some (Z.of_nat i)) /\
    ((owner t = Some RootGraph /\ clusterID t = Some (-1)%Z) \/
     exists i, owner t = Some (CircleGraph i) /\
               clusterID t = Some (Z.of_nat i)) /\
    isIntraCluster e = sameCluster (clusterID s) (clusterID t).
Proof.
  intros H.
  pose proof (convertToClusteredGraph_Populated _ _ _ _ _ H) as [HP _].
  intros (ce & sn & tn & s & t & _ & Hsn & Htn & Hs & Ht & _ & ->)%edgesMade_elem.
  exists s, t. simpl. split; [done|]. split; [done|].
  split; [|split; [|done]].
  - eapply resolves_owner; [by apply (pop_map _ _ _ _ HP _ _ Hsn)|done].
  - eapply resolves_owner; [by apply (pop_map _ _ _ _ HP _ _ Htn)|done].
Qed.

(** After the construction the first call of [getInterClusterEdges] on a
    circle gives the edges of the graph manager with an end on the
    circle. *)
Lemma getInterClusterEdges_constructed nodes_ edges_ clusters gm m k c :
  convertToClusteredGraph newGraphManager nodes_ edges_ clusters = Some (gm, m) ->
  circles gm !! k = Some c ->
  exists l,
    getInterClusterEdges (heap gm) c = Some (l, setInterClusterEdges l c) /\
    l ≡ₚ filter (reachesCircle gm k) (gmEdges gm).
Proof.
  intros H Hk.
  pose proof (convertToClusteredGraph_unprepared _ _ _ _ _ _ _ H Hk)
    as [Hmemo _].
  pose proof (convertToClusteredGraph_Steady _ _ _ _ _ H) as HS.
  pose proof (convertToClusteredGraph_placed _ _ _ _ _ H) as [_ _ Pm Pi].
  pose proof (convertToClusteredGraph_Built _ _ _ _ _ H)
    as (_ & _ & Hset & _).
  destruct (st_circle_nodes _ HS k c Hk) as (Hnd & Hown & Hperm).
  assert (forall n, n ∈ outNodes c -> n ∈ onCircleNodes c) as Hout.
  { intros n Hn. rewrite <- Hperm. apply elem_of_app. by right. }
  assert (NoDup (outNodes c)) as Hndo.
  { rewrite <- Hperm in Hnd. by apply NoDup_app in Hnd as (_ & _ & ?). }
  assert (forall n, n ∈ onCircleNodes c ->
            exists nd, heap gm !! n = Some nd /\
              owner nd = Some (CircleGraph k) /\
              clusterID nd = Some (Z.of_nat k) /\
              is_Some (onCircleNodeExt nd)) as Hon.
  { intros n Hn. destruct (Hown n Hn) as (nd & Hl & Ho).
    pose proof (st_nodes _ HS _ _ Hl) as Ok. unfold nodeOk in Ok.
    rewrite Ho in Ok. destruct Ok as (_ & ? & ? & _). by exists nd. }
  destruct (getInterClusterEdges_succeeds (heap gm) c) as (l & c' & Hget).
  { intros n Hn. destruct (Hon n (Hout n Hn)) as (nd & ? & _ & _ & ?).
    by exists nd. }
  destruct Hget as [Hget _]. unfold getInterClusterEdges in Hget |- *.
  rewrite Hmemo in Hget |- *.
  apply bind_Some in Hget as (l' & Hrun & Hget).
  assert (l' = l) as -> by (by simplify_eq). clear Hget.
  rewrite Hrun. simpl. exists l. split; [done|].
  apply (collectInterClusterEdges_loop _ (edgesMade gm m edges_)) in Hrun.
  2:{ intros n Hn. destruct (Hon n (Hout n Hn)) as (nd & Hl & _).
      exists nd. split; [done|]. by apply Pi. }
  simpl in Hrun. subst l.
  rewrite (concat_filters
             (fun n e => isIntraCluster e = false /\
                         (source e = n \/ target e = n))); [|done|].
  - rewrite Pm, list_filter_filter.
    erewrite filter_ext_in; [done|]. intros e He.
    destruct (edgesMade_ends _ _ _ _ _ _ H He)
      as (s & t & Hs & Ht & Hks & Hkt & Hintra).
    unfold reachesCircle, ownerOf. rewrite Hs, Ht. simpl.
    rewrite Exists_exists. split.
    + intros (n & Hn & Hni & Hends).
      destruct (Hon n (Hout n Hn)) as (nd & Hl & Ho & Hc & _).
      rewrite Hintra in Hni.
      assert (owner s ≠ owner t) as Hd.
      { intros Heq. destruct Hends as [<- | <-].
        - rewrite Hs in Hl. injection Hl as <-.
          destruct Hkt as [[? _]|(j & Hoj & Hcj)]; [congruence|].
          assert (j = k) as -> by congruence.
          assert (sameCluster (clusterID s) (clusterID t) = true); [|congruence].
          apply sameCluster_true. split; [congruence|].
          rewrite Hc. intros [= ?]. lia.
        - rewrite Ht in Hl. injection Hl as <-.
          destruct Hks as [[? _]|(j & Hoj & Hcj)]; [congruence|].
          assert (j = k) as -> by congruence.
          assert (sameCluster (clusterID s) (clusterID t) = true); [|congruence].
          apply sameCluster_true. split; [congruence|].
          rewrite Hcj. intros [= ?]. lia. }
      split; [|done].
      destruct Hends as [<- | <-]; [left|right]; congruence.
    + intros [Hreach Hd].
      assert (e ∈ gmEdges gm) as Hg.
      { rewrite Pm. apply list_elem_of_filter. split; [|done].
        unfold ownerOf. by rewrite Hs, Ht. }
      destruct (Hset e Hg) as [Hss Hst].
      assert (isIntraCluster e = false) as Hni.
      { rewrite Hintra. apply not_true_is_false.
        intros [Heq Hne]%sameCluster_true.
        destruct Hks as [[_ ?]|(i & Hoi & Hci)]; [done|].
        destruct Hkt as [[_ ?]|(j & Hoj & Hcj)]; [congruence|].
        apply Hd. rewrite Hoi, Hoj. rewrite Hci, Hcj in Heq.
        injection Heq as Heq. apply Nat2Z.inj in Heq. by subst. }
      assert (forall n nd, heap gm !! n = Some nd ->
                owner nd = Some (CircleGraph k) -> settled gm n ->
                n ∈ outNodes c) as Hmove.
      { intros n nd Hl Ho (nd' & Hl' & Hcase).
        rewrite Hl in Hl'. injection Hl' as <-.
        pose proof (st_nodes _ HS _ _ Hl) as Ok. unfold nodeOk in Ok.
        rewrite Ho in Ok. destruct Ok as (_ & Hcid & _).
        destruct Hcase as [Hm1|(k1 & c1 & Ho' & Hk' & Hnin)].
        { rewrite Hcid in Hm1. injection Hm1. lia. }
        assert (k1 = k) as -> by congruence.
        assert (c1 = c) as -> by congruence.
        destruct (st_owner _ HS _ _ _ Hl Ho) as (c0 & Hc0 & Hin).
        assert (c0 = c) as -> by congruence.
        rewrite <- Hperm in Hin. apply elem_of_app in Hin as [?|?]; done. }
      destruct Hreach as [Ho|Ho].
      * exists (source e). split; [by eapply Hmove|]. split; [done|by left].
      * exists (target e). split; [by eapply Hmove|]. split; [done|by right].
  - intros e n n' He Hn Hn' [Hni Hends] [_ Hends'].
    destruct (decide (n = n')) as [|Hne]; [done|]. exfalso.
    destruct (edgesMade_ends _ _ _ _ _ _ H He)
      as (s & t & Hs & Ht & _ & _ & Hintra).
    destruct (Hon n (Hout n Hn)) as (nd & Hl & _ & Hc & _).
    destruct (Hon n' (Hout n' Hn')) as (nd' & Hl' & _ & Hc' & _).
    assert (sameCluster (clusterID s) (clusterID t) = true); [|congruence].
    apply sameCluster_true.
    assert (clusterID s = Some (Z.of_nat k) /\
            clusterID t = Some (Z.of_nat k)) as [Hcs Hct].
    { destruct Hends as [E1|E1], Hends' as [E2|E2]; subst n n'; try done.
      - assert (nd = s) by congruence. assert (nd' = t) by congruence.
        by subst.
      - assert (nd = t) by congruence. assert (nd' = s) by congruence.
        by subst. }
    rewrite Hcs, Hct. split; [done|]. intros [= ?]. lia.
Qed.

(** X18: after the construction the first [getInterClusterEdges()] of a
    circle returns, and memoizes, the edges between graphs that have an end
    on the circle, each as often as the graph manager holds it. *)
Theorem X18_inter_cluster_edges_of_a_circle
  (nodes_ : list CyNode) (edges_ : list CyEdge) (clusters : list (list string))
  (gm : CiSEGraphManager) (m : gmap string nat) (k : nat) (c : CiSECircle) :
  convertToClusteredGraph newGraphManager nodes_ edges_ clusters = Some (gm, m) ->
  circles gm !! k = Some c ->
  exists l,
    getInterClusterEdges (heap gm) c = Some (l, setInterClusterEdges l c) /\
    l ≡ₚ filter (reachesCircle gm k) (gmEdges gm).
Proof. apply getInterClusterEdges_constructed. Qed.

Lemma X18_inter_cluster_edges_witness :
  exists l,
    getInterClusterEdges (heap Ex.state1.1) (Ex.circleOf Ex.built1 0)
      = Some (l, setInterClusterEdges l (Ex.circleOf Ex.built1 0)) /\
    l ≡ₚ filter (reachesCircle Ex.state1.1 0) (gmEdges Ex.state1.1).
Proof.
  apply (X18_inter_cluster_edges_of_a_circle Ex.nodes1 Ex.edges1 Ex.clusters1
           Ex.state1.1 Ex.state1.2 0 (Ex.circleOf Ex.built1 0)).
  - vm_compute. reflexivity.
  - vm_compute. reflexivity.
Defined.

(** ** What the circular layout step hands over and takes back
    (CiSELayout.js, lines 346-417) *)

Section Step1Effect.

Variable runAVSDF : list DelegateNode -> list (nat * nat) -> AVSDFResult.

(** The delegates of the nodes [l] of the circle at [k] are entered under
    their positions, when none of the nodes has a delegate yet. *)
Lemma delegates_put (k : nat) (l : list nat) (m0 : gmap nat (nat * nat)) :
  NoDup l -> (forall n, n ∈ l -> m0 !! n = None) ->
  forall i n, l !! i = Some n ->
    foldl (fun m ni => hashMapPut ni.2 (k, ni.1) m) m0
      (imap (fun i n => (i, n)) l) !! n = Some (k, i).
Proof.
  induction l as [|x l IH] using rev_ind; intros Hnd Hnone i n Hi; [done|].
  apply NoDup_app in Hnd as (Hnd & Hx & _).
  rewrite imap_app, foldl_app. simpl. rewrite Nat.add_0_r.
  apply lookup_app_Some in Hi as [Hi|[Hge Hi]].
  - apply hashMapPut_keeps. apply IH; [done| |done].
    intros y Hy. apply Hnone. apply elem_of_app. by left.
  - destruct (i - length l) as [|?] eqn:E; [|done]. simpl in Hi.
    injection Hi as <-. assert (i = length l) as -> by lia.
    unfold hashMapPut.
    destruct (foldl _ m0 (imap (fun i n => (i, n)) l) !! x) as [v|] eqn:Ev.
    + exfalso. apply delegates_from in Ev as [Ev|[_ Ev]].
      * rewrite Hnone in Ev; [done|]. apply elem_of_app. right. by left.
      * rewrite imap_pair_snd in Ev. apply (Hx x Ev). by left.
    + by rewrite lookup_insert_eq.
Qed.

(** The delegate edges are those of the edges with both ends among the
    nodes [l]. *)
Lemma avsdfEdges_loop (mp : gmap nat (nat * nat)) (k : nat) (l : list nat)
  (es : list CiSEEdge) (acc res : list (nat * nat)) :
  (forall i n, l !! i = Some n -> mp !! n = Some (k, i)) ->
  forEachM (avsdfEdgeFor mp k l) es acc = Some res ->
  res = acc ++ delegateEdges l es.
Proof.
  intros Hmp. revert acc. induction es as [|e es IH]; intros acc Hrun;
    simpl in Hrun.
  - rewrite app_nil_r. by simplify_eq.
  - apply bind_Some in Hrun as (acc' & Hstep & Hrun). apply IH in Hrun.
    subst res. unfold avsdfEdgeFor in Hstep. unfold delegateEdges. simpl.
    fold (delegateEdges l es). unfold delegateEdge at 1.
    case_bool_decide as Hin.
    + destruct Hin as [Hs Ht].
      destruct (indexOf_elem _ _ Hs) as [i Hi].
      destruct (indexOf_elem _ _ Ht) as [j Hj].
      rewrite Hi, Hj. simpl.
      rewrite (Hmp i _ (indexOf_Some _ _ _ Hi)) in Hstep.
      rewrite (Hmp j _ (indexOf_Some _ _ _ Hj)) in Hstep. simpl in Hstep.
      rewrite bool_decide_eq_true_2 in Hstep by done.
      injection Hstep as <-. by rewrite <- app_assoc.
    + injection Hstep as <-.
      destruct (indexOf (source e) l) as [i|] eqn:Hi;
        [|done].
      destruct (indexOf (target e) l) as [j|] eqn:Hj; [|done].
      exfalso. apply Hin. split.
      * eapply list_elem_of_lookup_2. by apply indexOf_Some in Hi.
      * eapply list_elem_of_lookup_2. by apply indexOf_Some in Hj.
Qed.

(** The results are taken back node after node: a node of [l] becomes
    [reflected], every other node stays. *)
Lemma reflectAVSDF_loop (mp : gmap nat (nat * nat))
  (runs : gmap nat AVSDFResult) (k : nat) (r : AVSDFResult) (l : list nat)
  (gm gm' : CiSEGraphManager) :
  NoDup l -> (forall i n, l !! i = Some n -> mp !! n = Some (k, i)) ->
  runs !! k = Some r ->
  forEachM (reflectAVSDF mp runs) l gm = Some gm' ->
  gm' = setHeap (heap gm') gm /\
  (forall i n nd, l !! i = Some n -> heap gm !! n = Some nd ->
     heap gm' !! n = Some (reflected r i nd)) /\
  (forall n, n ∉ l -> heap gm' !! n = heap gm !! n).
Proof.
  intros Hnd Hmp Hr Hrun.
  refine (forEachM_inv_prefix
            (fun pre g =>
               g = setHeap (heap g) gm /\
               (forall i n nd, pre !! i = Some n -> heap gm !! n = Some nd ->
                  heap g !! n = Some (reflected r i nd)) /\
               (forall n, n ∉ pre -> heap g !! n = heap gm !! n))
            _ _ _ _ _ _ Hrun).
  - intros pre a suf g g' Hl (Hg & Hpre & Hrest) Hstep.
    assert (a ∉ pre) as Ha.
    { rewrite Hl in Hnd. apply NoDup_app in Hnd as (_ & Hd & _).
      intros Hin. apply (Hd a Hin). by left. }
    assert (l !! length pre = Some a) as Hla.
    { rewrite Hl. by rewrite lookup_app_r, Nat.sub_diag. }
    unfold reflectAVSDF in Hstep. rewrite (Hmp _ _ Hla) in Hstep.
    simpl in Hstep. rewrite Hr in Hstep. simpl in Hstep.
    apply bind_Some in Hstep as (nd & Hnd' & Hstep).
    apply bind_Some in Hstep as (ext & _ & Hstep). injection Hstep as <-.
    simpl. split; [|split].
    + unfold updNode, setHeap in *. simpl. rewrite Hg. simpl. reflexivity.
    + intros i n nd0 Hi Hn0.
      apply lookup_app_Some in Hi as [Hi|[Hge Hi]].
      * assert (n ≠ a) as Hne.
        { intros ->. apply Ha. by eapply list_elem_of_lookup_2. }
        rewrite list_lookup_alter_ne by done. by eapply Hpre.
      * destruct (i - length pre) as [|?] eqn:E; [|done]. simpl in Hi.
        injection Hi as <-. assert (i = length pre) as -> by lia.
        rewrite list_lookup_alter_eq. rewrite (Hrest a Ha) in Hnd'.
        rewrite Hnd' in Hn0. injection Hn0 as <-. rewrite (Hrest a Ha).
        by rewrite Hnd'.
    + intros n Hn. apply not_elem_of_app in Hn as [Hn1 Hn2].
      rewrite list_lookup_alter_ne.
      * by apply Hrest.
      * intros ->. apply Hn2. by left.
  - split; [by destruct gm|]. split; [by intros i n nd ?|done].
Qed.

(** The circular layout step for one circle whose nodes have no delegates
    yet: what it reads, and what it leaves. *)
Lemma step1Circle_effect st k st' graph :
  Steady (s1Manager st) ->
  circles (s1Manager st) !! k = Some graph ->
  (forall n, n ∈ onCircleNodes graph -> ciseToAvsdf st !! n = None) ->
  step1Circle runAVSDF st k = Some st' ->
  exists r,
    circularLayoutOf runAVSDF (s1Manager st) graph = Some r /\
    (forall i n nd, onCircleNodes graph !! i = Some n ->
       heap (s1Manager st) !! n = Some nd ->
       heap (s1Manager st') !! n = Some (reflected r i nd)) /\
    (forall n, n ∉ onCircleNodes graph ->
       onCircleNodes graph = [] \/ parent (base graph) ≠ Some n ->
       heap (s1Manager st') !! n = heap (s1Manager st) !! n) /\
    (onCircleNodes graph ≠ [] ->
     forall p pn, parent (base graph) = Some p ->
       heap (s1Manager st) !! p = Some pn ->
       exists d, heap (s1Manager st') !! p
                 = Some (enclosing (avsdfParentLocation r) d pn)) /\
    (exists c', circles (s1Manager st') !! k = Some c' /\
       base c' = base graph /\
       (onCircleNodes graph ≠ [] -> radius c' = avsdfRadius r) /\
       (onCircleNodes graph = [] -> radius c' = radius graph)) /\
    (forall k', k' ≠ k ->
       circles (s1Manager st') !! k' = circles (s1Manager st) !! k') /\
    (forall n v, ciseToAvsdf st' !! n = Some v ->
       ciseToAvsdf st !! n = Some v \/ (v.1 = k /\ n ∈ onCircleNodes graph)).
Proof.
  intros HS Hgraph Hfresh H. unfold step1Circle in H.
  rewrite Hgraph in H. simpl in H.
  destruct (st_circle_nodes _ HS k graph Hgraph) as (Hnd & Hown & _).
  destruct (st_parent _ HS k graph Hgraph) as (p & pn & Hp & Hpn & Hop & _).
  assert (p ∉ onCircleNodes graph) as Hpl.
  { intros Hin. destruct (Hown p Hin) as (nd & Hl & Ho). congruence. }
  apply bind_Some in H as (avsdfNodes & Hnodes & H).
  destruct (getAllEdges_frame (s1Manager st)) as (Hh0 & Hc0 & _).
  destruct (getAllEdges (s1Manager st)) as [allEdges_ gm0] eqn:Eall.
  simpl in Hh0, Hc0.
  apply bind_Some in H as (avsdfEdges & Hedges & H).
  apply bind_Some in H as (gm1 & H1 & H).
  apply bind_Some in H as (keyed & Hkeyed & H).
  apply bind_Some in H as (gm2 & H2 & H). injection H as <-. simpl.
  pose proof (delegates_put k (onCircleNodes graph) (ciseToAvsdf st) Hnd Hfresh)
    as Hput.
  apply (avsdfEdges_loop _ _ _ _ _ _ Hput) in Hedges. simpl in Hedges.
  subst avsdfEdges.
  set (r := runAVSDF avsdfNodes (delegateEdges (onCircleNodes graph) allEdges_))
    in *.
  apply (reflectAVSDF_loop _ _ k r _ _ _ Hnd Hput) in H1
    as (Hg1 & Hin1 & Hout1); [|by rewrite lookup_insert_eq].
  rewrite Hh0 in Hin1, Hout1.
  assert (circles gm1 = circles (s1Manager st)) as Hc1.
  { rewrite Hg1. simpl. done. }
  exists r. split; [|split; [|split; [|split; [|split; [|split]]]]].
  - unfold circularLayoutOf. rewrite Eall. simpl.
    change (mapM (delegateOf (heap (s1Manager st))) (onCircleNodes graph))
      with (mapM (fun n => nd ← heap (s1Manager st) !! n;
                    Some (mkDelegateNode (getLocation nd) (getWidth nd)
                            (getHeight nd))) (onCircleNodes graph)).
    by rewrite Hnodes.
  - intros i n nd Hi Hn.
    assert (n ≠ p) as Hne.
    { intros ->. apply Hpl. by eapply list_elem_of_lookup_2. }
    assert (heap gm2 !! n = heap gm1 !! n) as ->; [|by eapply Hin1].
    destruct (0 <? length (onCircleNodes graph))%nat.
    + rewrite Hp in H2. simpl in H2.
      unfold calculateParentNodeDimension in H2.
      apply bind_Some in H2 as (c & Hc & H2).
      apply bind_Some in H2 as (mx & _ & H2).
      apply bind_Some in H2 as (p' & Hp' & H2). injection H2 as <-.
      simpl in Hc. rewrite !list_lookup_alter_eq, Hc1, Hgraph in Hc.
      simpl in Hc. injection Hc as <-. simpl in Hp'.
      assert (p' = p) as -> by congruence.
      simpl. by rewrite !list_lookup_alter_ne.
    + by injection H2 as <-.
  - intros n Hn Hcase.
    rewrite <- (Hout1 n Hn).
    destruct (0 <? length (onCircleNodes graph))%nat eqn:El.
    + destruct Hcase as [He|Hnp].
      { rewrite He in El. done. }
      rewrite Hp in H2. simpl in H2.
      unfold calculateParentNodeDimension in H2.
      apply bind_Some in H2 as (c & Hc & H2).
      apply bind_Some in H2 as (mx & _ & H2).
      apply bind_Some in H2 as (p' & Hp' & H2). injection H2 as <-.
      simpl in Hc. rewrite !list_lookup_alter_eq, Hc1, Hgraph in Hc.
      simpl in Hc. injection Hc as <-. simpl in Hp'.
      assert (p' = p) as -> by congruence.
      assert (n ≠ p) by congruence.
      simpl. by rewrite !list_lookup_alter_ne.
    + by injection H2 as <-.
  - intros Hne p0 pn0 Hp0 Hpn0.
    assert (p0 = p) as -> by congruence.
    assert (pn0 = pn) as -> by congruence.
    destruct (0 <? length (onCircleNodes graph))%nat eqn:El.
    + rewrite Hp in H2. simpl in H2.
      unfold calculateParentNodeDimension in H2.
      apply bind_Some in H2 as (c & Hc & H2).
      apply bind_Some in H2 as (mx & _ & H2).
      apply bind_Some in H2 as (p' & Hp' & H2). injection H2 as <-.
      simpl in Hc. rewrite !list_lookup_alter_eq, Hc1, Hgraph in Hc.
      simpl in Hc. injection Hc as <-. simpl in Hp'.
      assert (p' = p) as -> by congruence.
      simpl. rewrite !list_lookup_alter_eq, (Hout1 p Hpl), Hpn. simpl.
      by eexists.
    + exfalso. apply Hne. destruct (onCircleNodes graph); [done|].
      simpl in El. done.
  - destruct (0 <? length (onCircleNodes graph))%nat eqn:El.
    + rewrite Hp in H2. simpl in H2.
      unfold calculateParentNodeDimension in H2.
      apply bind_Some in H2 as (c & Hc & H2).
      apply bind_Some in H2 as (mx & _ & H2).
      apply bind_Some in H2 as (p' & Hp' & H2). injection H2 as <-.
      simpl. rewrite !list_lookup_alter_eq, Hc1, Hgraph. simpl.
      eexists. split; [done|]. simpl. split; [done|]. split; [done|].
      intros He. rewrite He in El. done.
    + injection H2 as <-. simpl.
      rewrite list_lookup_alter_eq, Hc1, Hgraph. simpl.
      eexists. split; [done|]. simpl. split; [done|]. split; [|done].
      intros Hne. exfalso. apply Hne. destruct (onCircleNodes graph); [done|].
      simpl in El. done.
  - intros k' Hk'.
    destruct (0 <? length (onCircleNodes graph))%nat eqn:El.
    + rewrite Hp in H2. simpl in H2.
      unfold calculateParentNodeDimension in H2.
      apply bind_Some in H2 as (c & Hc & H2).
      apply bind_Some in H2 as (mx & _ & H2).
      apply bind_Some in H2 as (p' & Hp' & H2). injection H2 as <-.
      simpl. by rewrite !list_lookup_alter_ne, Hc1.
    + injection H2 as <-. simpl. by rewrite list_lookup_alter_ne, Hc1.
  - intros n v Hv. apply delegates_from in Hv as [?|[? Hin]]; [by left|].
    right. split; [done|]. by rewrite imap_pair_snd in Hin.
Qed.

End Step1Effect.

Section Step1Whole.

Variable runAVSDF : list DelegateNode -> list (nat * nat) -> AVSDFResult.

Lemma circles_apart gm k k' c c' n :
  Steady gm -> circles gm !! k = Some c -> circles gm !! k' = Some c' ->
  n ∈ onCircleNodes c -> n ∈ onCircleNodes c' -> k = k'.
Proof.
  intros HS Hc Hc' Hn Hn'.
  destruct (st_circle_nodes _ HS k c Hc) as (_ & Ho & _).
  destruct (st_circle_nodes _ HS k' c' Hc') as (_ & Ho' & _).
  destruct (Ho n Hn) as (nd & ? & ?). destruct (Ho' n Hn') as (nd' & ? & ?).
  congruence.
Qed.

Lemma parent_beside gm k k' c c' p :
  Steady gm -> circles gm !! k = Some c -> circles gm !! k' = Some c' ->
  parent (base c) = Some p ->
  (p ∉ onCircleNodes c') /\ (parent (base c') = Some p -> k = k').
Proof.
  intros HS Hc Hc' Hp.
  destruct (st_parent _ HS k c Hc) as (q & qn & Hq & Hqn & Hoq & Hchq).
  assert (q = p) as -> by congruence. split.
  - intros Hin. destruct (st_circle_nodes _ HS k' c' Hc') as (_ & Ho' & _).
    destruct (Ho' p Hin) as (nd & ? & ?). congruence.
  - intros Hp'.
    destruct (st_parent _ HS k' c' Hc') as (q' & qn' & Hq' & Hqn' & _ & Hchq').
    assert (q' = p) as -> by congruence. congruence.
Qed.

Lemma delegates_ext h h' l :
  (forall n, n ∈ l -> h' !! n = h !! n) ->
  mapM (delegateOf h') l = mapM (delegateOf h) l.
Proof.
  intros Hh. induction l as [|n l IH]; [done|].
  simpl. rewrite IH by (intros x Hx; apply Hh; by right).
  unfold delegateOf. by rewrite Hh by (by left).
Qed.

(** The circles that had their turn are laid out, the others and the nodes
    beside the circles are as they were. *)
Lemma doStep1_effect ly ly' :
  Steady (graphManager ly) ->
  doStep1 runAVSDF ly = Some ly' ->
  (forall k c, circles (graphManager ly) !! k = Some c ->
     circleLaidOut runAVSDF (graphManager ly) (graphManager ly') k c) /\
  (forall n, besideCircles (graphManager ly) n ->
     heap (graphManager ly') !! n = heap (graphManager ly) !! n).
Proof.
  intros HS H. unfold doStep1 in H. apply bind_Some in H as (st & H & E).
  injection E as <-. simpl. set (gm0 := graphManager ly) in *.
  assert (sameShape gm0 (s1Manager st) /\
          (forall n v, ciseToAvsdf st !! n = Some v ->
             v.1 ∈ seq 0 (length (circles gm0)) /\
             exists c, circles gm0 !! v.1 = Some c /\ n ∈ onCircleNodes c) /\
          (forall k c, k ∈ seq 0 (length (circles gm0)) ->
             circles gm0 !! k = Some c ->
             circleLaidOut runAVSDF gm0 (s1Manager st) k c) /\
          (forall k c, k ∉ seq 0 (length (circles gm0)) ->
             circles gm0 !! k = Some c ->
             circles (s1Manager st) !! k = Some c /\
             (forall n, n ∈ onCircleNodes c ->
                heap (s1Manager st) !! n = heap gm0 !! n) /\
             (forall p, parent (base c) = Some p ->
                heap (s1Manager st) !! p = heap gm0 !! p)) /\
          (forall n, besideCircles gm0 n ->
             heap (s1Manager st) !! n = heap gm0 !! n))
    as (_ & _ & Hdone & _ & Hframe).
  { refine (forEachM_inv_prefix
              (fun pre s =>
                 sameShape gm0 (s1Manager s) /\
                 (forall n v, ciseToAvsdf s !! n = Some v ->
                    v.1 ∈ pre /\
                    exists c, circles gm0 !! v.1 = Some c /\
                              n ∈ onCircleNodes c) /\
                 (forall k c, k ∈ pre -> circles gm0 !! k = Some c ->
                    circleLaidOut runAVSDF gm0 (s1Manager s) k c) /\
                 (forall k c, k ∉ pre -> circles gm0 !! k = Some c ->
                    circles (s1Manager s) !! k = Some c /\
                    (forall n, n ∈ onCircleNodes c ->
                       heap (s1Manager s) !! n = heap gm0 !! n) /\
                    (forall p, parent (base c) = Some p ->
                       heap (s1Manager s) !! p = heap gm0 !! p)) /\
                 (forall n, besideCircles gm0 n ->
                    heap (s1Manager s) !! n = heap gm0 !! n))
              (step1Circle runAVSDF) _ _ _ _ _ H).
    - intros pre k suf s s' Hl (Hsh & Hmap & Hdone & Hnot & Hframe) Hstep.
      pose proof (Steady_shape _ _ HS Hsh) as HSs.
      assert (k ∉ pre) as Hk.
      { pose proof (NoDup_seq 0 (length (circles gm0))) as Hnd.
        rewrite Hl in Hnd. apply NoDup_app in Hnd as (_ & Hnd & _).
        intros Hin. apply (Hnd k Hin). by left. }
      assert (is_Some (circles gm0 !! k)) as [c Hc].
      { assert (k ∈ seq 0 (length (circles gm0))) as Hin.
        { rewrite Hl. apply elem_of_app. right. by left. }
        apply elem_of_seq in Hin. apply lookup_lt_is_Some. lia. }
      destruct (Hnot k c Hk Hc) as (Hcs & Hnodes & Hpar).
      destruct (step1Circle_effect runAVSDF s k s' c HSs Hcs) as
        (r & Hr & Hin & Hout & Hparent & Hcirc & Hother & Hmap'); [|done|].
      { intros n Hn. destruct (ciseToAvsdf s !! n) as [v|] eqn:Ev; [|done].
        exfalso. destruct (Hmap n v Ev) as (Hv & cv & Hcv & Hnv).
        assert (v.1 = k) as Heq by (by eapply (circles_apart gm0)).
        rewrite Heq in Hv. done. }
      assert (forall k' c' n, circles gm0 !! k' = Some c' -> k' ≠ k ->
                (n ∈ onCircleNodes c' \/ parent (base c') = Some n) ->
                heap (s1Manager s') !! n = heap (s1Manager s) !! n) as Hkeep.
      { intros k' c' n Hc' Hne [Hn|Hn]; apply Hout.
        - intros Hin'. apply Hne. by eapply (circles_apart gm0).
        - right. intros Hp'.
          destruct (parent_beside gm0 k k' c c' n HS Hc Hc' Hp') as [Hno _].
          done.
        - by destruct (parent_beside gm0 k' k c' c n HS Hc' Hc Hn) as [? _].
        - right. intros Hp'.
          destruct (parent_beside gm0 k' k c' c n HS Hc' Hc Hn) as [_ Heq].
          by apply Hne, Heq. }
      split; [|split; [|split; [|split]]].
      + eapply sameShape_trans; [exact Hsh|]. by eapply step1Circle_shape.
      + intros n v Hv. destruct (Hmap' n v Hv) as [Hold|[Hv1 Hn]].
        * destruct (Hmap n v Hold) as (? & ?). split; [|done].
          apply elem_of_app. by left.
        * split; [rewrite Hv1; apply elem_of_app; right; by left|].
          exists c. by rewrite Hv1.
      + intros k' c' [Hk'| ->%list_elem_of_singleton]%elem_of_app Hc'.
        * assert (k' ≠ k) as Hne by (by intros ->).
          destruct (Hdone k' c' Hk' Hc') as (r' & Hr' & Hin' & Hcirc' & Hpar').
          exists r'. split; [done|]. split; [|split].
          -- intros i n nd Hi Hn.
             rewrite (Hkeep k' c' n Hc' Hne);
               [by eapply Hin'|left; by eapply list_elem_of_lookup_2].
          -- by rewrite (Hother k' Hne).
          -- intros p pn Hp Hpn.
             rewrite (Hkeep k' c' p Hc' Hne) by (by right).
             by apply Hpar'.
        * assert (c' = c) as -> by congruence.
          exists r. split; [|split; [|split]].
          -- unfold circularLayoutOf in Hr |- *.
             rewrite <- (delegates_ext _ _ _ Hnodes).
             destruct Hsh as (_ & _ & _ & _ & _ & <- & _). done.
          -- intros i n nd Hi Hn. apply (Hin i); [done|].
             rewrite Hnodes; [done|by eapply list_elem_of_lookup_2].
          -- done.
          -- intros p pn Hp Hpn. split.
             ++ intros Hne. apply (Hparent Hne p pn); [done|].
                by rewrite (Hpar p Hp).
             ++ intros He. rewrite Hout; [by rewrite (Hpar p Hp)| |by left].
                rewrite He. by intros ?%elem_of_nil.
      + intros k' c' Hk' Hc'.
        apply not_elem_of_app in Hk' as [Hk' Hne].
        assert (k' ≠ k) as Hne' by (intros ->; apply Hne; by left).
        destruct (Hnot k' c' Hk' Hc') as (Hcs' & Hnodes' & Hpar').
        split; [by rewrite (Hother k' Hne')|]. split.
        * intros n Hn. rewrite (Hkeep k' c' n Hc' Hne') by (by left).
          by apply Hnodes'.
        * intros p Hp. rewrite (Hkeep k' c' p Hc' Hne') by (by right).
          by apply Hpar'.
      + intros n Hn. destruct (Hn k c Hc) as [Hn1 Hn2].
        rewrite Hout; [by apply Hframe|done|by right].
    - split; [apply sameShape_refl|]. split; [by intros n v ?|].
      split; [by intros k c ?%elem_of_nil|]. split; [|done].
      intros k c _ Hc. done. }
  split; [|done].
  intros k c Hc. apply Hdone; [|done].
  apply elem_of_seq. apply lookup_lt_Some in Hc. lia.
Qed.

End Step1Whole.

(** [setAngle] on angles beyond the turn from 0 to two pi, and what [doStep1]
    stores of them. *)
Lemma setAngle_examples (ext : CiSEOnCircleNodeExt) :
  angle (setAngle 7%float ext) = 0x1.6f0255dde974p-1%float /\
  angle (setAngle (-0.5)%float ext) = 0x1.721fb54442d18p+2%float /\
  angle (setAngle Num.TWO_PI ext) = 0%float /\
  angle (setAngle 1%float ext) = 1%float /\
  orderIndex (setAngle 7%float ext) = orderIndex ext.
Proof.
  do 4 (split; [vm_compute; reflexivity|]). reflexivity.
Qed.

Lemma doStep1_reduces_angles :
  Ex.anglesOf Ex.laidOutBeyondATurn 0 0 = 0x1.6f0255dde974p-1%float /\
  Ex.anglesOf Ex.laidOutBeyondATurn 0 1 = 0x1.721fb54442d18p+2%float /\
  Ex.anglesOf Ex.laidOutBeyondATurn 0 2 = 0%float.
Proof.
  do 2 (split; [vm_compute; reflexivity|]). vm_compute. reflexivity.
Qed.

(** X19: [doStep1] runs the circular layout of a circle on the delegates of
    its on-circle nodes (same location, width and height, in their order)
    and on the edges of the graph with both ends on the circle, and gives
    the node at position [i] the location and index of the delegate at
    position [i], and its angle less its whole turns (brought into the turn
    from 0 to two pi by [setAngle]); nothing else of the node changes. *)
Theorem X19_doStep1_takes_over_the_circular_layout
  (runAVSDF : list DelegateNode -> list (nat * nat) -> AVSDFResult)
  (runCoSE : list DelegateNode -> list (nat * nat) -> nat -> PointD)
  (nodes_ : list CyNode) (edges_ : list CyEdge) (clusters : list (list string))
  (ops : list Op) (ly ly' : CiSELayout) (k : nat) (c : CiSECircle)
  (i n : nat) (nd : CiSENode) :
  Forall (fun op => isStep op = true) ops ->
  runOps runAVSDF runCoSE (ConvertToClusteredGraph nodes_ edges_ clusters :: ops)
    (newCiSELayout newGraphManager) = Some ly ->
  doStep1 runAVSDF ly = Some ly' ->
  circles (graphManager ly) !! k = Some c ->
  onCircleNodes c !! i = Some n ->
  heap (graphManager ly) !! n = Some nd ->
  exists r, circularLayoutOf runAVSDF (graphManager ly) c = Some r /\
            heap (graphManager ly') !! n = Some (reflected r i nd).
Proof.
  intros Hops Hrun H1 Hc Hi Hn.
  destruct (pipeline_graph _ _ _ _ _ _ _ Hops Hrun) as [HS _].
  destruct (doStep1_effect runAVSDF ly ly' HS H1) as [Hdone _].
  destruct (Hdone k c Hc) as (r & Hr & Hin & _).
  exists r. split; [done|]. by eapply Hin.
Qed.

Lemma X19_doStep1_witness :
  exists r,
    circularLayoutOf Ex.avsdfBeyondATurn (graphManager (Ex.lyOf Ex.built1))
      (Ex.circleOf Ex.built1 0) = Some r /\
    heap (graphManager (Ex.lyOf Ex.laidOutBeyondATurn)) !! 3%nat
      = Some (reflected r 1 (Ex.nodeOf Ex.built1 3)).
Proof.
  apply (X19_doStep1_takes_over_the_circular_layout
           Ex.avsdfBeyondATurn Ex.coseOnARow Ex.nodes1 Ex.edges1 Ex.clusters1 []
           (Ex.lyOf Ex.built1) (Ex.lyOf Ex.laidOutBeyondATurn) 0
           (Ex.circleOf Ex.built1 0) 1 3 (Ex.nodeOf Ex.built1 3)).
  - constructor.
  - vm_compute. reflexivity.
  - vm_compute. reflexivity.
  - vm_compute. reflexivity.
  - vm_compute. reflexivity.
  - vm_compute. reflexivity.
Defined.

(** X20: for a circle with nodes, [doStep1] gives the circle the radius of
    its circular layout and makes its parent node a square at the location
    the layout gives for the parent; nothing else of the parent changes. *)
Theorem X20_doStep1_sizes_circle_and_parent
  (runAVSDF : list DelegateNode -> list (nat * nat) -> AVSDFResult)
  (runCoSE : list DelegateNode -> list (nat * nat) -> nat -> PointD)
  (nodes_ : list CyNode) (edges_ : list CyEdge) (clusters : list (list string))
  (ops : list Op) (ly ly' : CiSELayout) (k : nat) (c : CiSECircle)
  (p : nat) (pn : CiSENode) :
  Forall (fun op => isStep op = true) ops ->
  runOps runAVSDF runCoSE (ConvertToClusteredGraph nodes_ edges_ clusters :: ops)
    (newCiSELayout newGraphManager) = Some ly ->
  doStep1 runAVSDF ly = Some ly' ->
  circles (graphManager ly) !! k = Some c ->
  onCircleNodes c ≠ [] ->
  parent (base c) = Some p ->
  heap (graphManager ly) !! p = Some pn ->
  exists r c' d,
    circularLayoutOf runAVSDF (graphManager ly) c = Some r /\
    circles (graphManager ly') !! k = Some c' /\
    radius c' = avsdfRadius r /\
    heap (graphManager ly') !! p
      = Some (enclosing (avsdfParentLocation r) d pn).
Proof.
  intros Hops Hrun H1 Hc Hne Hp Hpn.
  destruct (pipeline_graph _ _ _ _ _ _ _ Hops Hrun) as [HS _].
  destruct (doStep1_effect runAVSDF ly ly' HS H1) as [Hdone _].
  destruct (Hdone k c Hc) as (r & Hr & _ & (c' & Hc' & _ & Hrad & _) & Hpar).
  destruct (Hpar p pn Hp Hpn) as [Hen _]. destruct (Hen Hne) as [d Hd].
  exists r, c', d. auto.
Qed.

Lemma X20_doStep1_witness :
  exists r c' d,
    circularLayoutOf Ex.avsdfInOrder (graphManager (Ex.lyOf Ex.built1))
      (Ex.circleOf Ex.built1 0) = Some r /\
    circles (graphManager (Ex.lyOf Ex.laidOut1)) !! 0%nat = Some c' /\
    radius c' = avsdfRadius r /\
    heap (graphManager (Ex.lyOf Ex.laidOut1)) !! 1%nat
      = Some (enclosing (avsdfParentLocation r) d (Ex.nodeOf Ex.built1 1)).
Proof.
  apply (X20_doStep1_sizes_circle_and_parent
           Ex.avsdfInOrder Ex.coseOnARow Ex.nodes1 Ex.edges1 Ex.clusters1 []
           (Ex.lyOf Ex.built1) (Ex.lyOf Ex.laidOut1) 0 (Ex.circleOf Ex.built1 0)
           1 (Ex.nodeOf Ex.built1 1)).
  - constructor.
  - vm_compute. reflexivity.
  - vm_compute. reflexivity.
  - vm_compute. reflexivity.
  - vm_compute. discriminate.
  - vm_compute. reflexivity.
  - vm_compute. reflexivity.
Defined.

(** X21: [doStep1] leaves every node as it is that is neither on a circle
    nor the parent of a circle. *)
Theorem X21_doStep1_leaves_the_nodes_beside_the_circles
  (runAVSDF : list DelegateNode -> list (nat * nat) -> AVSDFResult)
  (runCoSE : list DelegateNode -> list (nat * nat) -> nat -> PointD)
  (nodes_ : list CyNode) (edges_ : list CyEdge) (clusters : list (list string))
  (ops : list Op) (ly ly' : CiSELayout) (n : nat) :
  Forall (fun op => isStep op = true) ops ->
  runOps runAVSDF runCoSE (ConvertToClusteredGraph nodes_ edges_ clusters :: ops)
    (newCiSELayout newGraphManager) = Some ly ->
  doStep1 runAVSDF ly = Some ly' ->
  besideCircles (graphManager ly) n ->
  heap (graphManager ly') !! n = heap (graphManager ly) !! n.
Proof.
  intros Hops Hrun H1 Hn.
  destruct (pipeline_graph _ _ _ _ _ _ _ Hops Hrun) as [HS _].
  destruct (doStep1_effect runAVSDF ly ly' HS H1) as [_ Hframe].
  by apply Hframe.
Qed.

Lemma X21_doStep1_witness :
  heap (graphManager (Ex.lyOf Ex.laidOut1)) !! 8%nat
  = heap (graphManager (Ex.lyOf Ex.built1)) !! 8%nat.
Proof.
  apply (X21_doStep1_leaves_the_nodes_beside_the_circles
           Ex.avsdfInOrder Ex.coseOnARow Ex.nodes1 Ex.edges1 Ex.clusters1 []
           (Ex.lyOf Ex.built1) (Ex.lyOf Ex.laidOut1) 8).
  - constructor.
  - vm_compute. reflexivity.
  - vm_compute. reflexivity.
  - intros k c Hc. destruct k as [|[|k]]; vm_compute in Hc;
      [injection Hc as <-|injection Hc as <-|discriminate];
      (split; [|discriminate]); simpl;
      rewrite !not_elem_of_cons; repeat split; try done; apply not_elem_of_nil.
Defined.

(** ** Which circles may be reversed (CiSELayout.js, lines 704-718) *)

Lemma collect_shape h h' ns acc :
  nodeShape <$> h' = nodeShape <$> h ->
  forEachM (collectInterClusterEdges h') ns acc
  = forEachM (collectInterClusterEdges h) ns acc.
Proof.
  intros Hh. revert acc. induction ns as [|n ns IH]; intros acc; [done|].
  simpl.
  assert (collectInterClusterEdges h' acc n = collectInterClusterEdges h acc n)
    as ->; [|destruct (collectInterClusterEdges h acc n); simpl; auto].
  unfold collectInterClusterEdges.
  pose proof (f_equal (fun l => l !! n) Hh) as E. simpl in E.
  rewrite !list_lookup_fmap in E.
  destruct (h' !! n) as [nd'|], (h !! n) as [nd|]; simpl in *; try done.
  assert (nodeShape nd' = nodeShape nd) as E' by congruence. clear E.
  apply nodeShape_fields in E' as (_ & _ & _ & _ & Hx & _ & Hi).
  unfold extInterClusterEdges. rewrite Hi.
  destruct (onCircleNodeExt nd') as [x'|] eqn:E1,
           (onCircleNodeExt nd) as [x|] eqn:E2; simpl; try done.
  - destruct Hx as [Hx _]. destruct Hx; by eauto.
  - destruct Hx as [_ Hx]. destruct Hx; by eauto.
Qed.

Lemma gatheredEdges_shape gm gm' k c c' :
  sameShape gm gm' -> circles gm !! k = Some c -> circles gm' !! k = Some c' ->
  gatheredEdges (heap gm') c' = gatheredEdges (heap gm) c.
Proof.
  intros (Hh & _ & _ & _ & _ & _ & Hcs) Hc Hc'.
  destruct (Forall2_lookup_l _ _ _ _ _ Hcs Hc) as (c2 & Hc2 & (_ & _ & Ho & _)).
  assert (c2 = c') as -> by congruence.
  unfold gatheredEdges. by rewrite Ho, (collect_shape _ _ _ _ Hh).
Qed.

Lemma prepKept_refl cs : prepKept cs cs.
Proof. by apply Forall2_refl_on. Qed.

Lemma prepKept_trans cs1 cs2 cs3 :
  prepKept cs1 cs2 -> prepKept cs2 cs3 -> prepKept cs1 cs3.
Proof.
  apply Forall2_trans_on. intros x y z [? ?] [? ?]. split; congruence.
Qed.

Lemma prepKept_alter (f : CiSECircle -> CiSECircle) k cs :
  (forall c, interClusterEdges (f c) = interClusterEdges c /\
             mayBeReversed (f c) = mayBeReversed c) ->
  prepKept cs (alter f k cs).
Proof. intros Hf. apply Forall2_alter_diag; [done|]. intros c _. apply Hf. Qed.

(** A step that keeps the shape, the memoized edges and the flags keeps
    the preparation sound. *)
Lemma preparationSound_kept gm gm' :
  sameShape gm gm' -> prepKept (circles gm) (circles gm') ->
  preparationSound gm -> preparationSound gm'.
Proof.
  intros Hsh Hk HP k c' Hc'.
  destruct (Forall2_lookup_r _ _ _ _ _ Hk Hc') as (c & Hc & Em & Ef).
  rewrite (gatheredEdges_shape _ _ _ _ _ Hsh Hc Hc').
  destruct (HP k c Hc) as [[H1 H2]|[H1 H2]]; [left|right]; split; congruence.
Qed.

Section Reversible.

Variable runAVSDF : list DelegateNode -> list (nat * nat) -> AVSDFResult.
Variable runCoSE : list DelegateNode -> list (nat * nat) -> nat -> PointD.

Lemma step1Circle_prepKept st k st' :
  step1Circle runAVSDF st k = Some st' ->
  prepKept (circles (s1Manager st)) (circles (s1Manager st')).
Proof.
  unfold step1Circle. intros H.
  apply bind_Some in H as (graph & _ & H).
  apply bind_Some in H as (avsdfNodes & _ & H).
  destruct (getAllEdges_frame (s1Manager st)) as (_ & Hc & _).
  destruct (getAllEdges (s1Manager st)) as [allEdges_ gm0]. simpl in Hc.
  apply bind_Some in H as (avsdfEdges & _ & H).
  apply bind_Some in H as (gm1 & H1 & H).
  apply bind_Some in H as (keyed & _ & H).
  apply bind_Some in H as (gm2 & H2 & H). injection H as <-. simpl.
  assert (circles gm1 = circles gm0) as Hc1.
  { apply (forEachM_run_inv (fun g => circles g = circles gm0) _ _ _ _ H1);
      [done|].
    intros g n g' _ Hg Hstep. apply reflectAVSDF_circles in Hstep. congruence. }
  rewrite <- Hc, <- Hc1.
  destruct (0 <? length (onCircleNodes graph))%nat.
  - apply bind_Some in H2 as (p & _ & H2).
    apply calculateParentNodeDimension_circles in H2. rewrite H2.
    unfold updCircle, updNode; simpl.
    eapply prepKept_trans; by apply prepKept_alter.
  - injection H2 as <-. unfold updCircle; simpl. by apply prepKept_alter.
Qed.

Lemma doStep1_prepKept ly ly' :
  doStep1 runAVSDF ly = Some ly' ->
  prepKept (circles (graphManager ly)) (circles (graphManager ly')).
Proof.
  unfold doStep1. intros H. apply bind_Some in H as (st & H & E).
  injection E as <-. simpl.
  apply (forEachM_run_inv
           (fun s => prepKept (circles (graphManager ly)) (circles (s1Manager s)))
           _ _ _ _ H); [apply prepKept_refl|].
  intros s k s' _ Hs Hstep. apply step1Circle_prepKept in Hstep.
  by eapply prepKept_trans.
Qed.

(** One turn of the preparation: the circle of a node with a child is
    prepared, every other circle stays. *)
Lemma prepareCircle_sound gm n gm' :
  preparationSound gm -> prepareCircle gm n = Some gm' ->
  preparationSound gm' /\
  exists nd, heap gm !! n = Some nd /\
    forall k c', circles gm' !! k = Some c' ->
      (child nd = Some (CircleGraph k) /\
       preparedFor (gatheredEdges (heap gm') c') c') \/
      (child nd ≠ Some (CircleGraph k) /\ circles gm !! k = Some c').
Proof.
  intros HP H.
  pose proof (prepareCircle_shape _ _ _ H) as Hsh.
  unfold prepareCircle in H.
  apply bind_Some in H as (nd & Hnd & H).
  assert (forall k c', circles gm' !! k = Some c' ->
            (child nd = Some (CircleGraph k) /\
             preparedFor (gatheredEdges (heap gm') c') c') \/
            (child nd ≠ Some (CircleGraph k) /\ circles gm !! k = Some c'))
    as Hturn.
  { destruct (child nd) as [[|k0]|] eqn:Hch; [done| |].
    - apply bind_Some in H as (c & Hc & H).
      apply bind_Some in H as ([l c1] & Hget & H).
      apply bind_Some in H as (c2 & Hcom & H). injection H as <-.
      apply computeOrderMatrix_Some in Hcom as [m ->].
      intros k c' Hc'. simpl in Hc'.
      destruct (decide (k = k0)) as [->|Hne].
      + left. split; [done|].
        rewrite list_lookup_insert_eq in Hc' by (by eapply lookup_lt_Some).
        injection Hc' as <-. cbn [heap setCircles].
        assert (gatheredEdges (heap gm)
                  (setOrderMatrix m
                     (if (length l <? 2)%nat then setMayNotBeReversed c1
                      else c1)) = gatheredEdges (heap gm) c) as ->.
        { unfold gatheredEdges.
          apply getInterClusterEdges_Some in Hget as (_ & _ & [->| ->]);
            by destruct (length l <? 2)%nat. }
        unfold getInterClusterEdges in Hget.
        destruct (HP k0 c Hc) as [[Hm Hf]|[Hm Hf]]; rewrite Hm in Hget.
        * apply bind_Some in Hget as (l' & Hrun & Hget).
          injection Hget as -> <-.
          assert (gatheredEdges (heap gm) c = l) as ->
            by (unfold gatheredEdges; by rewrite Hrun).
          split; [by destruct (length l <? 2)%nat|].
          destruct (length l <? 2)%nat; simpl; [done|]. exact Hf.
        * injection Hget as <- <-.
          split; [by destruct (length _ <? 2)%nat|].
          destruct (length _ <? 2)%nat eqn:El; simpl; [done|].
          rewrite Hf. done.
      + right. split; [congruence|].
        by rewrite list_lookup_insert_ne in Hc'.
    - injection H as <-. intros k c' Hc'. right. done. }
  split; [|by exists nd].
  intros k c' Hc'. destruct (Hturn k c' Hc') as [[_ ?]|[_ Hc]]; [by right|].
  rewrite (gatheredEdges_shape _ _ _ _ _ Hsh Hc Hc'). by apply (HP k).
Qed.

End Reversible.

Section ReversibleWhole.

Variable runAVSDF : list DelegateNode -> list (nat * nat) -> AVSDFResult.
Variable runCoSE : list DelegateNode -> list (nat * nat) -> nat -> PointD.

(** The preparation prepares every circle. *)
Lemma prepareCirclesForReversal_sound gm gm' :
  Steady gm -> preparationSound gm ->
  prepareCirclesForReversal gm = Some gm' ->
  preparationSound gm' /\
  forall k c', circles gm' !! k = Some c' ->
    preparedFor (gatheredEdges (heap gm') c') c'.
Proof.
  intros HS HP H. unfold prepareCirclesForReversal in H.
  assert (sameShape gm gm' /\ preparationSound gm' /\
          forall k c p, circles gm' !! k = Some c ->
            parent (base c) = Some p -> p ∈ nodes (rootGraph gm) ->
            preparedFor (gatheredEdges (heap gm') c) c) as (Hsh & HP' & Hall).
  { refine (forEachM_inv_prefix
              (fun pre g =>
                 sameShape gm g /\ preparationSound g /\
                 forall k c p, circles g !! k = Some c ->
                   parent (base c) = Some p -> p ∈ pre ->
                   preparedFor (gatheredEdges (heap g) c) c)
              prepareCircle _ _ _ _ _ H).
    - intros pre a suf g g' _ (Hsh & HPg & Hpre) Hstep.
      pose proof (prepareCircle_shape _ _ _ Hstep) as Hsh'.
      pose proof (Steady_shape _ _ HS Hsh) as HSg.
      destruct (prepareCircle_sound _ _ _ HPg Hstep) as (HPg' & nd & Hnd & Hturn).
      split; [by eapply sameShape_trans|]. split; [done|].
      intros k c p Hc Hp Hin.
      destruct (Hturn k c Hc) as [[_ ?]|[Hch Hcg]]; [done|].
      apply elem_of_app in Hin as [Hin| ->%list_elem_of_singleton].
      + rewrite (gatheredEdges_shape _ _ _ _ _ Hsh' Hcg Hc). by eapply Hpre.
      + exfalso. apply Hch.
        destruct (st_parent _ HSg k c Hcg) as (q & qn & Hq & Hqn & _ & Hchq).
        congruence.
    - split; [apply sameShape_refl|]. split; [done|].
      by intros k c p _ _ ?%elem_of_nil. }
  split; [done|]. intros k c' Hc'.
  pose proof (Steady_shape _ _ HS Hsh) as HS'.
  destruct (st_parent _ HS' k c' Hc') as (p & pn & Hp & Hpn & Hop & _).
  apply (Hall k c' p); [done|done|].
  rewrite (st_root _ HS).
  destruct Hsh as (_ & _ & _ & _ & <- & _).
  apply (st_non _ HS'). by exists pn.
Qed.

(** The steps keep the preparation sound. *)
Lemma step_sound ly op ly' :
  isStep op = true -> Steady (graphManager ly) ->
  preparationSound (graphManager ly) ->
  runOp runAVSDF runCoSE ly op = Some ly' ->
  preparationSound (graphManager ly').
Proof.
  destruct op; try done; intros _ HS HP H; simpl in H.
  - eapply preparationSound_kept; [by eapply doStep1_shape| |done].
    by eapply doStep1_prepKept.
  - eapply preparationSound_kept; [by eapply doStep2_shape| |done].
    rewrite (doStep2_circles _ _ _ H). apply prepKept_refl.
  - apply fmap_Some in H as (gm' & Hp & ->). simpl.
    by destruct (prepareCirclesForReversal_sound _ _ HS HP Hp).
Qed.

Lemma pipeline_sound nodes_ edges_ clusters ops ly :
  Forall (fun op => isStep op = true) ops ->
  runOps runAVSDF runCoSE (ConvertToClusteredGraph nodes_ edges_ clusters :: ops)
    (newCiSELayout newGraphManager) = Some ly ->
  exists gm0 m,
    convertToClusteredGraph newGraphManager nodes_ edges_ clusters
      = Some (gm0, m) /\
    sameShape gm0 (graphManager ly) /\ Steady (graphManager ly) /\
    preparationSound (graphManager ly).
Proof.
  intros Hops H. unfold runOps in H. simpl in H.
  destruct (convertToClusteredGraph newGraphManager nodes_ edges_ clusters)
    as [[gm0 m]|] eqn:E; [simpl in H|done].
  exists gm0, m. split; [done|].
  pose proof (convertToClusteredGraph_Steady _ _ _ _ _ E) as HS0.
  assert (preparationSound gm0) as HP0.
  { intros k c Hc. left. by eapply convertToClusteredGraph_unprepared. }
  change (runOps runAVSDF runCoSE ops
            (withGraphManager (newCiSELayout newGraphManager) gm0) = Some ly)
    in H.
  assert (graphManager (withGraphManager (newCiSELayout newGraphManager) gm0)
          = gm0) as Eg by done.
  revert H Eg. generalize (withGraphManager (newCiSELayout newGraphManager) gm0).
  intros ly0 H Eg.
  assert (sameShape gm0 (graphManager ly0) /\ Steady (graphManager ly0) /\
          preparationSound (graphManager ly0)) as Hstart.
  { rewrite Eg. split; [apply sameShape_refl|done]. }
  clear Eg. revert ly0 H Hstart.
  induction Hops as [|op ops Hop _ IH]; intros ly0 H (Hsh & HS & HP).
  - unfold runOps in H. simpl in H. by injection H as <-.
  - unfold runOps in H. simpl in H.
    apply bind_Some in H as (ly1 & H1 & H).
    pose proof (step_shape runAVSDF runCoSE _ _ _ Hop H1) as Hsh1.
    apply (IH ly1 H). split; [by eapply sameShape_trans|].
    split; [by eapply Steady_shape|]. by eapply step_sound.
Qed.

(** After the construction, any steps and the reversal preparation, a
    circle holds the inter-graph edges that reach it, and may be reversed
    exactly when they are at least two. *)
Lemma reversible_iff nodes_ edges_ clusters ops ly gm' k c' :
  Forall (fun op => isStep op = true) ops ->
  runOps runAVSDF runCoSE (ConvertToClusteredGraph nodes_ edges_ clusters :: ops)
    (newCiSELayout newGraphManager) = Some ly ->
  prepareCirclesForReversal (graphManager ly) = Some gm' ->
  circles gm' !! k = Some c' ->
  exists l, interClusterEdges c' = Some l /\
    l ≡ₚ filter (reachesCircle gm' k) (gmEdges gm') /\
    (mayBeReversed c' = true <-> (2 <= length l)%nat).
Proof.
  intros Hops Hrun Hprep Hc'.
  destruct (pipeline_sound _ _ _ _ _ Hops Hrun)
    as (gm0 & m & Hconv & Hsh & HS & HP).
  destruct (prepareCirclesForReversal_sound _ _ HS HP Hprep) as [_ Hall].
  pose proof (prepareCirclesForReversal_shape _ _ Hprep) as Hsh'.
  pose proof (sameShape_trans _ _ _ Hsh Hsh') as Hsh0.
  destruct (Hall k c' Hc') as [Hm Hf].
  exists (gatheredEdges (heap gm') c'). split; [done|]. split.
  - assert (is_Some (circles gm0 !! k)) as [c0 Hc0].
    { apply lookup_lt_is_Some. apply lookup_lt_Some in Hc'.
      destruct Hsh0 as (_ & _ & _ & _ & _ & _ & Hcs).
      apply Forall2_length in Hcs. lia. }
    rewrite (gatheredEdges_shape _ _ _ _ _ Hsh0 Hc0 Hc').
    destruct (getInterClusterEdges_constructed _ _ _ _ _ _ _ Hconv Hc0)
      as (l & Hget & Hperm).
    assert (gatheredEdges (heap gm0) c0 = l) as ->.
    { destruct (convertToClusteredGraph_unprepared _ _ _ _ _ _ _ Hconv Hc0)
        as [Hnone _].
      unfold getInterClusterEdges in Hget. rewrite Hnone in Hget.
      apply bind_Some in Hget as (l' & Hrun' & Hget).
      unfold gatheredEdges. rewrite Hrun'. simpl. by simplify_eq. }
    rewrite Hperm.
    destruct Hsh0 as (Hh & _ & -> & _).
    erewrite (list_filter_iff _ _ (gmEdges gm0)); [done|].
    intros e. unfold reachesCircle, ownerOf.
    assert (forall n, heap gm' !! n ≫= owner = heap gm0 !! n ≫= owner) as Ho.
    { intros n. pose proof (f_equal (fun l => l !! n) Hh) as E. simpl in E.
      rewrite !list_lookup_fmap in E.
      destruct (heap gm' !! n) as [a|], (heap gm0 !! n) as [b|];
        simpl in *; try done.
      assert (nodeShape a = nodeShape b) as E' by congruence.
      by apply nodeShape_fields in E' as (_ & _ & -> & _). }
    by rewrite !Ho.
  - rewrite Hf. destruct (Nat.ltb_spec (length (gatheredEdges (heap gm') c')) 2);
      simpl; split; try done; lia.
Qed.

End ReversibleWhole.

(** X22: once [prepareCirclesForReversal] has run on a graph made by
    [convertToClusteredGraph] (after any steps, earlier preparations
    among them), every circle holds as its inter-cluster edges the
    inter-graph edges with an end on the circle, each as often as the graph
    manager holds it, and may be reversed exactly when these are at least
    two. *)
Theorem X22_reversible_iff_two_inter_cluster_edges
  (runAVSDF : list DelegateNode -> list (nat * nat) -> AVSDFResult)
  (runCoSE : list DelegateNode -> list (nat * nat) -> nat -> PointD)
  (nodes_ : list CyNode) (edges_ : list CyEdge) (clusters : list (list string))
  (ops : list Op) (ly : CiSELayout) (gm' : CiSEGraphManager)
  (k : nat) (c' : CiSECircle) :
  Forall (fun op => isStep op = true) ops ->
  runOps runAVSDF runCoSE (ConvertToClusteredGraph nodes_ edges_ clusters :: ops)
    (newCiSELayout newGraphManager) = Some ly ->
  prepareCirclesForReversal (graphManager ly) = Some gm' ->
  circles gm' !! k = Some c' ->
  exists l, interClusterEdges c' = Some l /\
    l ≡ₚ filter (reachesCircle gm' k) (gmEdges gm') /\
    (mayBeReversed c' = true <-> (2 <= length l)%nat).
Proof. apply reversible_iff. Qed.

Lemma X22_reversible_witness :
  exists l,
    interClusterEdges (Ex.circleOf Ex.prepared2 1) = Some l /\
    l ≡ₚ filter (reachesCircle (Ex.gmOf Ex.prepared2) 1)
           (gmEdges (Ex.gmOf Ex.prepared2)) /\
    (mayBeReversed (Ex.circleOf Ex.prepared2 1) = true <-> (2 <= length l)%nat).
Proof.
  apply (X22_reversible_iff_two_inter_cluster_edges
           Ex.avsdfInOrder Ex.coseOnARow Ex.nodes1 Ex.edges2 Ex.clusters1
           [DoStep1; DoStep2] (Ex.lyOf Ex.laidOut2) (Ex.gmOf Ex.prepared2)
           1 (Ex.circleOf Ex.prepared2 1)).
  - repeat constructor.
  - vm_compute. reflexivity.
  - vm_compute. reflexivity.
  - vm_compute. reflexivity.
Defined.

(** ** [idToLNode] and the ids of the nodes (CiSELayout.js, lines 185-250) *)

Lemma ownsIds_mono seen seen' gm m :
  (forall id, id ∈ seen -> id ∈ seen') -> ownsIds seen gm m ->
  ownsIds seen' gm m.
Proof.
  intros Hs H n nd id Hn Hid. destruct (H n nd id Hn Hid). auto.
Qed.

(** A node with a new id may be added, and entered under its id. *)
Lemma ownsIds_named seen gm m nd id g' :
  ownsIds seen gm m -> ID nd = Some id -> id ∉ seen ->
  heap g' = heap gm ++ [nd] ->
  ownsIds (seen ++ [id]) g' (<[id := length (heap gm)]> m).
Proof.
  intros H Hnd Hnew Hh n nd0 id0 Hn Hid. rewrite Hh in Hn.
  apply lookup_snoc_Some in Hn as [[_ Hn]|[-> <-]].
  - destruct (H n nd0 id0 Hn Hid) as [Hs Hm].
    split; [apply elem_of_app; by left|].
    rewrite lookup_insert_ne; [done|]. by intros ->.
  - assert (id0 = id) as -> by congruence.
    split; [apply elem_of_app; right; by left|]. by rewrite lookup_insert_eq.
Qed.

Lemma clusters_ownsIds tbl clusters st' :
  NoDup (concat clusters) ->
  forEachM (addCluster tbl) (imap (fun i c => (i, c)) clusters)
           (newGraphManager, ∅) = Some st' ->
  ownsIds (concat clusters) st'.1 st'.2.
Proof.
  intros Hnd Hrun.
  apply (forEachM_inv_prefix
           (fun pre st =>
              ownsIds (concat (take (length pre) clusters)) st.1 st.2)
           _ _ _ _) in Hrun.
  - rewrite length_imap, firstn_all in Hrun. done.
  - intros pre [i ids] suf [gm m] st1 Hl HI Hstep. simpl in *.
    assert (clusters !! length pre = Some ids) as Hi.
    { assert (imap (fun i c => (i, c)) clusters !! length pre = Some (i, ids))
        as Hlook by (rewrite Hl; by apply list_lookup_middle).
      rewrite list_lookup_imap in Hlook.
      destruct (clusters !! length pre); simplify_eq/=. done. }
    rewrite length_app. simpl.
    replace (length pre + 1)%nat with (S (length pre)) by lia.
    rewrite (take_S_r _ _ _ Hi), concat_app. simpl. rewrite app_nil_r.
    rewrite addCluster_unfold in Hstep.
    pose proof (take_drop_middle _ _ _ Hi) as Hsplit.
    rewrite <- Hsplit, concat_app in Hnd. simpl in Hnd.
    refine (forEachM_inv_prefix
              (fun preIds (st : BuildState) =>
                 ownsIds (concat (take (length pre) clusters) ++ preIds)
                   st.1 st.2)
              _ _ _ _ _ _ Hstep).
    + intros preIds a sufIds [g m0] st2 Hids HI2 Hmem. simpl in HI2.
      apply addClusterMember_Some in Hmem as (cy & _ & ->). simpl.
      rewrite app_assoc.
      apply (ownsIds_named _ g m0 (memberNode i (length (circles gm)) a cy) a);
        [exact HI2|done| |done].
      assert (NoDup ((concat (take (length pre) clusters) ++ preIds)
                     ++ a :: (sufIds
                              ++ concat (drop (S (length pre)) clusters))))
        as Hnd'.
      { rewrite Hids in Hnd. rewrite <- !app_assoc in Hnd |- *.
        simpl in Hnd |- *. exact Hnd. }
      apply NoDup_app in Hnd' as (_ & Hd & _).
      intros Hin. apply (Hd a Hin). by left.
    + simpl. rewrite app_nil_r.
      intros n nd id Hn Hid.
      apply lookup_snoc_Some in Hn as [[_ Hn]|[_ <-]]; [by eapply HI|done].
  - simpl. intros [|n] nd id; simpl; [|done]. by intros [= <-].
Qed.

Lemma unclustered_ownsIds clusters l pre gm m :
  NoDup (cyId <$> (pre ++ l)) ->
  ownsIds (concat clusters ++ (cyId <$> pre)) gm m ->
  ownsIds (concat clusters ++ (cyId <$> (pre ++ l)))
    (foldl (addUnclustered clusters) (gm, m) l).1
    (foldl (addUnclustered clusters) (gm, m) l).2.
Proof.
  revert pre gm m. induction l as [|cy l IH]; intros pre gm m Hnd HI.
  - by rewrite app_nil_r.
  - simpl. replace (pre ++ cy :: l) with ((pre ++ [cy]) ++ l) in *
      by (by rewrite <- app_assoc).
    rewrite addUnclustered_unfold.
    destruct (existsb _ _) eqn:Ex.
    + apply IH; [done|]. eapply ownsIds_mono; [|exact HI].
      intros id. rewrite !elem_of_app, fmap_app, elem_of_app. tauto.
    + apply IH; [done|]. rewrite fmap_app, app_assoc. simpl.
      apply (ownsIds_named _ gm m (unclusteredNode cy) (cyId cy));
        [exact HI|done| |done].
      intros [Hin|Hin]%elem_of_app.
      * apply elem_of_concat in Hin as (cluster & Hid & Hc).
        assert (existsb (fun cluster => bool_decide (cyId cy ∈ cluster))
                  clusters = true) as Ht; [|congruence].
        apply existsb_exists. exists cluster. split.
        -- by apply list_elem_of_In.
        -- by apply bool_decide_eq_true_2.
      * rewrite !fmap_app in Hnd. simpl in Hnd.
        rewrite <- app_assoc in Hnd.
        apply NoDup_app in Hnd as (_ & Hd & _).
        apply (Hd _ Hin). by left.
Qed.

(** With every id listed once, a node carries an id exactly when it is the
    node [idToLNode] gives for the id. *)
Lemma idToLNode_inverse nodes_ edges_ clusters gm m n id :
  NoDup (concat clusters) -> NoDup (cyId <$> nodes_) ->
  convertToClusteredGraph newGraphManager nodes_ edges_ clusters = Some (gm, m) ->
  carriesId (heap gm) n id <-> m !! id = Some n.
Proof.
  intros Hc Hn H. split.
  - intros (nd & Hnd & Hid).
    destruct (convertToClusteredGraph_stages _ _ _ _ _ H)
      as (gm1 & m1 & gm2 & gm3 & H1 & H2 & _ & _ & Hview).
    pose proof (clusters_ownsIds _ _ _ Hc H1) as HI1. simpl in HI1.
    pose proof (unclustered_ownsIds clusters nodes_ [] gm1 m1) as HI2.
    rewrite H2 in HI2. simpl in HI2.
    assert (eraseEdges <$> heap gm2 = eraseEdges <$> heap gm) as Eh.
    { unfold nodeView in Hview. by injection Hview. }
    destruct (erased_lookup _ _ _ _ Eh Hnd) as (nd2 & Hnd2 & E2).
    apply eraseEdges_fields in E2 as (Eid & _).
    apply (HI2 Hn) with nd2; [|done|congruence].
    by rewrite app_nil_r.
  - intros Hm.
    pose proof (convertToClusteredGraph_Populated _ _ _ _ _ H) as [HP _].
    destruct (pop_map _ _ _ _ HP _ _ Hm) as (nd & cy & Hnd & Hid & _).
    by exists nd.
Qed.

(** X23: when no id is listed twice (in the clusters, and among the nodes),
    [convertToClusteredGraph] makes [idToLNode] and the ids of the nodes
    inverse to each other: the node returned for an id carries the id, and a
    node that carries an id is the one returned for it. *)
Theorem X23_idToLNode_is_inverse_to_the_ids
  (nodes_ : list CyNode) (edges_ : list CyEdge) (clusters : list (list string))
  (gm : CiSEGraphManager) (m : gmap string nat) (n : nat) (id : string) :
  NoDup (concat clusters) -> NoDup (cyId <$> nodes_) ->
  convertToClusteredGraph newGraphManager nodes_ edges_ clusters = Some (gm, m) ->
  carriesId (heap gm) n id <-> m !! id = Some n.
Proof. apply idToLNode_inverse. Qed.

Lemma X23_idToLNode_witness :
  carriesId (heap Ex.state1.1) 3 "b" <-> Ex.state1.2 !! "b" = Some 3%nat.
Proof.
  apply (X23_idToLNode_is_inverse_to_the_ids Ex.nodes1 Ex.edges1 Ex.clusters1
           Ex.state1.1 Ex.state1.2 3 "b").
  - apply (bool_decide_eq_true_1 _). vm_compute. reflexivity.
  - apply (bool_decide_eq_true_1 _). vm_compute. reflexivity.
  - vm_compute. reflexivity.
Defined.

(** ** The order matrices after the reversal preparation
    (CiSELayout.js, lines 704-718) *)

Lemma angles_readable gm k c i :
  Steady gm -> circles gm !! k = Some c ->
  (i < length (onCircleNodes c))%nat ->
  getAngleAt (heap gm) c i = Some (circleAngles (heap gm) c i).
Proof.
  intros HS Hc Hi. unfold circleAngles.
  destruct (getAngleAt (heap gm) c i) as [a|] eqn:E; [done|]. exfalso.
  unfold getAngleAt in E.
  destruct (lookup_lt_is_Some_2 _ _ Hi) as [n Hn]. rewrite Hn in E.
  simpl in E.
  destruct (st_circle_nodes _ HS k c Hc) as (_ & Hown & _).
  destruct (Hown n) as (nd & Hnd & Ho); [by eapply list_elem_of_lookup_2|].
  rewrite Hnd in E. simpl in E.
  pose proof (st_nodes _ HS _ _ Hnd) as Ok. unfold nodeOk in Ok.
  rewrite Ho in Ok. destruct Ok as (_ & _ & [ext Hext] & _).
  by rewrite Hext in E.
Qed.

(** One turn of the preparation computes the order matrix of the circle of
    a node with a child, and leaves every other circle. *)
Lemma prepareCircle_matrix gm n gm' :
  Steady gm -> prepareCircle gm n = Some gm' ->
  heap gm' = heap gm /\
  exists nd, heap gm !! n = Some nd /\
    forall k c', circles gm' !! k = Some c' ->
      (child nd = Some (CircleGraph k) /\ hasTestedMatrix (heap gm') c') \/
      (child nd ≠ Some (CircleGraph k) /\ circles gm !! k = Some c').
Proof.
  intros HS H.
  pose proof (prepareCircle_shape _ _ _ H) as Hsh.
  pose proof (Steady_shape _ _ HS Hsh) as HS'.
  destruct (prepareCircle_circles _ _ _ H) as (Hh & _).
  split; [done|].
  assert (forall k c' i, circles gm' !! k = Some c' ->
            (i < length (onCircleNodes c'))%nat ->
            getAngleAt (heap gm) c' i = Some (circleAngles (heap gm) c' i))
    as Hread.
  { intros k c' i Hc' Hi. rewrite <- Hh. by eapply angles_readable. }
  rewrite Hh. clear Hsh HS' Hh.
  unfold prepareCircle in H.
  apply bind_Some in H as (nd & Hnd & H). exists nd. split; [done|].
  destruct (child nd) as [[|k0]|] eqn:Hch; [done| |].
  - apply bind_Some in H as (c & Hc & H).
    apply bind_Some in H as ([l c1] & Hget & H).
    apply bind_Some in H as (c2 & Hcom & H). injection H as <-.
    intros k c' Hc'.
    destruct (decide (k = k0)) as [->|Hne].
    + left. split; [done|].
      pose proof Hc' as Hc2. simpl in Hc2.
      rewrite list_lookup_insert_eq in Hc2 by (by eapply lookup_lt_Some).
      injection Hc2 as ->.
      split; [intros i Hi; by eapply Hread|].
      destruct (computeOrderMatrix_Some _ _ _ Hcom) as [m Em].
      exists m. split; [by rewrite Em|].
      destruct (computeOrderMatrix_test (heap gm)
                  (if (length l <? 2)%nat then setMayNotBeReversed c1 else c1)
                  (circleAngles (heap gm) c')) as (m0 & Hm0 & HM).
      { intros i Hi.
        assert (onCircleNodes c'
                = onCircleNodes (if (length l <? 2)%nat
                                 then setMayNotBeReversed c1 else c1)) as Eo
          by (by rewrite Em).
        unfold getAngleAt. rewrite <- Eo.
        apply (Hread k0 c' i Hc'). by rewrite Eo. }
      rewrite Hm0 in Hcom. injection Hcom as Hcom.
      assert (m0 = m) as ->.
      { rewrite Em in Hcom. apply (f_equal orderMatrix) in Hcom.
        simpl in Hcom. by simplify_eq. }
      assert (length (onCircleNodes c')
              = length (onCircleNodes (if (length l <? 2)%nat
                                       then setMayNotBeReversed c1 else c1)))
        as -> by (by rewrite Em).
      exact HM.
    + right. split; [congruence|]. simpl in Hc'.
      by rewrite list_lookup_insert_ne in Hc'.
  - injection H as <-. intros k c' Hc'. right. done.
Qed.

Lemma prepareCirclesForReversal_matrices gm gm' :
  Steady gm -> prepareCirclesForReversal gm = Some gm' ->
  forall k c', circles gm' !! k = Some c' -> hasTestedMatrix (heap gm') c'.
Proof.
  intros HS H. unfold prepareCirclesForReversal in H.
  assert (sameShape gm gm' /\ heap gm' = heap gm /\
          forall k c p, circles gm' !! k = Some c ->
            parent (base c) = Some p -> p ∈ nodes (rootGraph gm) ->
            hasTestedMatrix (heap gm') c) as (Hsh & _ & Hall).
  { refine (forEachM_inv_prefix
              (fun pre g =>
                 sameShape gm g /\ heap g = heap gm /\
                 forall k c p, circles g !! k = Some c ->
                   parent (base c) = Some p -> p ∈ pre ->
                   hasTestedMatrix (heap g) c)
              prepareCircle _ _ _ _ _ H).
    - intros pre a suf g g' _ (Hsh & Hh & Hpre) Hstep.
      pose proof (prepareCircle_shape _ _ _ Hstep) as Hsh'.
      pose proof (Steady_shape _ _ HS Hsh) as HSg.
      destruct (prepareCircle_matrix _ _ _ HSg Hstep) as (Hh' & nd & Hnd & Hturn).
      split; [by eapply sameShape_trans|]. split; [congruence|].
      intros k c p Hc Hp Hin.
      destruct (Hturn k c Hc) as [[_ ?]|[Hch Hcg]]; [done|].
      apply elem_of_app in Hin as [Hin| ->%list_elem_of_singleton].
      + rewrite Hh'. by eapply Hpre.
      + exfalso. apply Hch.
        destruct (st_parent _ HSg k c Hcg) as (q & qn & Hq & Hqn & _ & Hchq).
        congruence.
    - split; [apply sameShape_refl|]. split; [done|].
      by intros k c p _ _ ?%elem_of_nil. }
  intros k c' Hc'.
  pose proof (Steady_shape _ _ HS Hsh) as HS'.
  destruct (st_parent _ HS' k c' Hc') as (p & pn & Hp & Hpn & Hop & _).
  apply (Hall k c' p); [done|done|].
  rewrite (st_root _ HS).
  destruct Hsh as (_ & _ & _ & _ & <- & _).
  apply (st_non _ HS'). by exists pn.
Qed.

(** X24: once [prepareCirclesForReversal] has run on a graph made by
    [convertToClusteredGraph] (after any steps), every circle holds the
    order matrix of the angles its on-circle nodes then have: all of them
    can be read, the cells [(i, j)] and [(j, i)] of two positions are set
    and each other's negation, the diagonal is not set, and for positions
    [i < j] with angles less than a full turn apart the cell [(i, j)] tells
    whether the clockwise angle difference from [i] to [j], normalized into
    the turn from 0 to two pi, is at most pi. *)
Theorem X24_every_circle_has_its_order_matrix
  (runAVSDF : list DelegateNode -> list (nat * nat) -> AVSDFResult)
  (runCoSE : list DelegateNode -> list (nat * nat) -> nat -> PointD)
  (nodes_ : list CyNode) (edges_ : list CyEdge) (clusters : list (list string))
  (ops : list Op) (ly : CiSELayout) (gm' : CiSEGraphManager)
  (k : nat) (c' : CiSECircle) :
  Forall (fun op => isStep op = true) ops ->
  runOps runAVSDF runCoSE (ConvertToClusteredGraph nodes_ edges_ clusters :: ops)
    (newCiSELayout newGraphManager) = Some ly ->
  prepareCirclesForReversal (graphManager ly) = Some gm' ->
  circles gm' !! k = Some c' ->
  hasOrderMatrix (heap gm') c'.
Proof.
  intros Hops Hrun Hprep Hc'.
  destruct (pipeline_graph _ _ _ _ _ _ _ Hops Hrun) as [HS _].
  destruct (prepareCirclesForReversal_matrices _ _ HS Hprep k c' Hc')
    as (Hread & m & Hm & HM).
  split; [done|]. exists m. split; [done|]. by apply isMatrixOf_isOrderMatrix.
Qed.

(** On the second worked input the three angles of the first circle lie
    less than a full turn apart. *)
Lemma X24_order_matrix_witness :
  hasOrderMatrix (heap (Ex.gmOf Ex.prepared2)) (Ex.circleOf Ex.prepared2 0) /\
  forall i j, (i < j)%nat -> (j < 3)%nat ->
    withinOneTurn (circleAngles (heap (Ex.gmOf Ex.prepared2))
                     (Ex.circleOf Ex.prepared2 0) i)
                  (circleAngles (heap (Ex.gmOf Ex.prepared2))
                     (Ex.circleOf Ex.prepared2 0) j).
Proof.
  split.
  - apply (X24_every_circle_has_its_order_matrix
             Ex.avsdfInOrder Ex.coseOnARow Ex.nodes1 Ex.edges2 Ex.clusters1
             [DoStep1; DoStep2] (Ex.lyOf Ex.laidOut2) (Ex.gmOf Ex.prepared2)
             0 (Ex.circleOf Ex.prepared2 0)).
    + repeat constructor.
    + vm_compute. reflexivity.
    + vm_compute. reflexivity.
    + vm_compute. reflexivity.
  - intros i j Hij Hj.
    destruct j as [|[|[|j]]]; [lia| | |lia].
    + destruct i as [|i]; [vm_compute; reflexivity|lia].
    + destruct i as [|[|i]]; [vm_compute; reflexivity ..|lia].
Defined.
